(** * Update selection during page reconciliation (rec_visibility.c)

    A shallow embedding of [src/third_party/wiredtiger/src/reconcile/rec_visibility.c]:
    [__rec_update_stable], [__rec_update_save], [__rec_append_orig_value],
    [__rec_need_save_upd] and [__wt_rec_upd_select], followed by the
    properties of the update-selection step.

    Conventions of the embedding.
    - A key's update chain (a [WT_UPDATE] list linked through [next],
      newest first) is a [list WT_UPDATE]; a [WT_UPDATE *] into the chain is
      an index ([option nat], [None] for [NULL]); [upd->next] of the entry at
      index [i] is index [S i], [NULL] past the end.  Appending at the tail
      ([WT_PUBLISH(upd->next, append)]) is [chain ++ ...].
    - Unsigned fields are [Z]; the only arithmetic on them is the counters'
      increment and the byte accounting, written with their wrap-around.
      The two counters [updates_seen] and [updates_unstable] are declared
      outside the sources: the widths of their C types are parameters
      ([updates_seen_bits], [updates_unstable_bits]), and every theorem holds
      whatever the widths are.
    - [WT_ASSERT] is modelled as in a diagnostic build: a violated assertion
      ends the call with [Faulted AssertFail].  A dereference of [NULL] that
      no assertion guards ends it with [Faulted NullDeref].
    - The callees of the appender can fail: the scratch buffer
      ([__wt_scr_alloc], line 119), the read of the cell's value
      ([__wt_page_cell_data_ref], line 120) and the two allocations
      ([__wt_upd_alloc], line 121, [__wt_upd_alloc_tombstone], line 136).
      Their answers are parameters; a failure is passed on by [WT_ERR]
      through the [err:] labels and ends the call with [Failed e st], where
      [e] is the callee's error code and [st] what the call has written by
      then.
    - The growth of the saved-update array never fails ([__wt_realloc_def],
      line 40, returns 0). *)

From stdpp Require Import base list.
From Stdlib Require Import ZArith Lia Bool.
Local Open Scope Z_scope.

(** ** Data model *)

(** Modelled from the spec: the update types are declared in a header that
    is not among the sources; the kinds are the four the spec lists. *)
Inductive update_type :=
| WT_UPDATE_MODIFY
| WT_UPDATE_RESERVE
| WT_UPDATE_STANDARD
| WT_UPDATE_TOMBSTONE.

(** Modelled from the spec: the prepare states are declared in a header that
    is not among the sources; the source names LOCKED and INPROGRESS, the
    spec lists the four ([INIT] is its NONE). *)
Inductive prepare_state_t :=
| WT_PREPARE_INIT
| WT_PREPARE_INPROGRESS
| WT_PREPARE_LOCKED
| WT_PREPARE_RESOLVED.

(** One [WT_UPDATE].  [upd_memsize] is the value of [WT_UPDATE_MEMSIZE(upd)],
    [restored_for_rollback] the flag [WT_UPDATE_RESTORED_FOR_ROLLBACK]. *)
Record WT_UPDATE := mk_upd {
  txnid : Z;
  durable_ts : Z;
  start_ts : Z;
  type : update_type;
  prepare_state : prepare_state_t;
  restored_for_rollback : bool;
  upd_memsize : Z
}.

(** [WT_TIME_WINDOW]; the fields carry the prefix [tw_]. *)
Record WT_TIME_WINDOW := mk_tw {
  tw_durable_start_ts : Z;
  tw_start_ts : Z;
  tw_start_txn : Z;
  tw_durable_stop_ts : Z;
  tw_stop_ts : Z;
  tw_stop_txn : Z;
  tw_prepare : bool
}.

(** Modelled from the spec: the cell types are declared in a header that is
    not among the sources; the source names [WT_CELL_DEL], and the spec has
    the two kinds "value or deleted". *)
Inductive cell_type := WT_CELL_DEL | WT_CELL_VALUE.

(** [WT_CELL_UNPACK]: the unpacked on-disk cell.  [unpack_prepare] and
    [unpack_overflow] are the flags [WT_CELL_UNPACK_PREPARE] and
    [WT_CELL_UNPACK_OVERFLOW]; [cell_data_size] is the size of the value
    [__wt_page_cell_data_ref] hands back. *)
Record WT_CELL_UNPACK := mk_cell {
  cell_kind : cell_type;
  cell_tw : WT_TIME_WINDOW;
  unpack_prepare : bool;
  unpack_overflow : bool;
  cell_data_size : Z
}.

(** The page types: the source only tells [WT_PAGE_COL_FIX] (fixed-length
    column store) from the rest. *)
Inductive page_type := WT_PAGE_COL_FIX | WT_PAGE_COL_VAR | WT_PAGE_ROW_LEAF.

Inductive rec_flag :=
| WT_REC_VISIBLE_ALL
| WT_REC_EVICT
| WT_REC_CHECKPOINT
| WT_REC_HS
| WT_REC_IN_MEMORY
| WT_REC_CLEAN_AFTER_REC
| WT_REC_VISIBILITY_ERR.

Definition rec_flag_eqb (a b : rec_flag) : bool :=
  match a, b with
  | WT_REC_VISIBLE_ALL, WT_REC_VISIBLE_ALL
  | WT_REC_EVICT, WT_REC_EVICT
  | WT_REC_CHECKPOINT, WT_REC_CHECKPOINT
  | WT_REC_HS, WT_REC_HS
  | WT_REC_IN_MEMORY, WT_REC_IN_MEMORY
  | WT_REC_CLEAN_AFTER_REC, WT_REC_CLEAN_AFTER_REC
  | WT_REC_VISIBILITY_ERR, WT_REC_VISIBILITY_ERR => true
  | _, _ => false
  end.

(** A reference to the [WT_INSERT] item or to the row slot ([ripcip]) the
    chain hangs off; only its identity is used. *)
Definition ref := nat.

(** [WT_SAVE_UPD]. *)
Record WT_SAVE_UPD := mk_supd {
  supd_ins : option ref;
  supd_ripcip : option ref;
  onpage_upd : option nat;
  restore : bool
}.

(** [WT_RECONCILE], the fields this file reads or writes.  [flags] is the set
    of flag bits that are on; [page] is [r->page->type]; [supd] is the
    saved-update array, and [supd_next] is its length. *)
Record WT_RECONCILE := mk_rec {
  flags : list rec_flag;
  page : page_type;
  last_running : Z;
  updates_seen : Z;
  updates_unstable : Z;
  max_txn : Z;
  max_ts : Z;
  max_ondisk_ts : Z;
  min_skipped_ts : Z;
  supd : list WT_SAVE_UPD;
  supd_memsize : Z;
  leave_dirty : bool;
  cache_write_restore : bool
}.

Definition F_ISSET (r : WT_RECONCILE) (f : rec_flag) : bool :=
  existsb (rec_flag_eqb f) (flags r).

(** [WT_UPDATE_SELECT]. *)
Record WT_UPDATE_SELECT := mk_sel {
  upd : option nat;
  tw : WT_TIME_WINDOW
}.

(** The answers of [__wt_txn_upd_visible_type]; the source only tells
    [WT_VISIBLE_TRUE] from the rest. *)
Inductive wt_visible_type := WT_VISIBLE_FALSE | WT_VISIBLE_PREPARE | WT_VISIBLE_TRUE.

(** What the file consumes from the session: the transaction manager's
    visibility answers ([__wt_txn_visible_all], [__wt_txn_upd_visible_all],
    [__wt_txn_upd_visible_type], [__wt_txn_visible], [__txn_visible_id]), the
    flags it reads through the session ([WT_BTREE_HS] of the tree,
    [WT_CONN_IN_MEMORY] of the connection), what the metadata assertion
    looks at, two macros and the allocator's size report, the answers of
    the appender's callees ([__wt_scr_alloc], [__wt_page_cell_data_ref],
    [__wt_upd_alloc], [__wt_upd_alloc_tombstone]: [None] when the callee
    returns 0, [Some e] when it fails with the error code [e]), and the
    widths in bits of the C types of the counters [updates_seen] and
    [updates_unstable].  None of them is defined in this file's sources, so
    they are parameters: every theorem holds whatever they answer.  A call of
    [__wt_rec_upd_select] gets to each of the four callees at most once (a
    second call of the appender finds the value the first has appended and
    returns before line 119), so one answer for each covers a call. *)
Record WT_SESSION_IMPL := mk_session {
  txn_visible_all : Z -> Z -> bool;
  txn_upd_visible_all : WT_UPDATE -> bool;
  txn_upd_visible_type : WT_UPDATE -> wt_visible_type;
  txn_visible : Z -> Z -> bool;
  txn_visible_id : Z -> bool;
  btree_hs : bool;
  conn_in_memory : bool;
  is_metadata : bool;
  checkpoint_txn_id : Z;
  session_is_checkpoint : bool;
  WT_UPDATE_DATA_VALUE : WT_UPDATE -> bool;
  upd_alloc_size : Z -> Z;
  scr_alloc : option Z;
  page_cell_data_ref : WT_CELL_UNPACK -> option Z;
  upd_alloc : option Z;
  upd_alloc_tombstone : option Z;
  updates_seen_bits : Z;
  updates_unstable_bits : Z
}.

(** ** Reserved values *)

Definition UINT64_MAX : Z := 2 ^ 64 - 1.

(** Modelled from the spec: the reserved transaction ids are declared in a
    header that is not among the sources.  The spec names them ([NONE],
    [MAX] = unbounded, [ABORTED] reserved, all 64-bit): [NONE] is the least
    value, [ABORTED] the greatest 64-bit value and [MAX] lies a little below
    it, so that the two differ. *)
Definition WT_TXN_NONE : Z := 0.
Definition WT_TXN_MAX : Z := UINT64_MAX - 10.
Definition WT_TXN_ABORTED : Z := UINT64_MAX.

(** Modelled from the spec: the reserved timestamps are declared in a header
    that is not among the sources; "NONE = unset, MAX = unbounded": the
    least and the greatest 64-bit value. *)
Definition WT_TS_NONE : Z := 0.
Definition WT_TS_MAX : Z := UINT64_MAX.

(** Modelled from the spec: the two comparison macros are defined outside
    the sources; the spec reads them as [<=] and [<] on transaction ids
    ("txn_id >= last_running" is uncommitted). *)
Definition WT_TXNID_LE (t1 t2 : Z) : bool := t1 <=? t2.
Definition WT_TXNID_LT (t1 t2 : Z) : bool := t1 <? t2.

(** Unsigned wrap-around of the byte accounting ([size_t], taken to be 64
    bits wide). *)
Definition wrap64 (x : Z) : Z := x mod 2 ^ 64.

(** Unsigned wrap-around of a counter whose C type is [bits] bits wide. *)
Definition wrap_bits (bits x : Z) : Z := x mod 2 ^ bits.

(** ** Time-window helpers *)

(** Modelled from the spec: [__wt_time_window_init] is defined outside the
    sources.  "Defaults: start = (NONE, NONE), stop = (MAX, MAX)"; the
    durable timestamps are unset and [prepare] is off. *)
Definition time_window_init : WT_TIME_WINDOW :=
  {| tw_durable_start_ts := WT_TS_NONE;
     tw_start_ts := WT_TS_NONE;
     tw_start_txn := WT_TXN_NONE;
     tw_durable_stop_ts := WT_TS_NONE;
     tw_stop_ts := WT_TS_MAX;
     tw_stop_txn := WT_TXN_MAX;
     tw_prepare := false |}.

(** Modelled from the spec: [__wt_time_window_set_start] is defined outside
    the sources; the start triple is taken from the update. *)
Definition time_window_set_start (w : WT_TIME_WINDOW) (u : WT_UPDATE) : WT_TIME_WINDOW :=
  {| tw_durable_start_ts := durable_ts u;
     tw_start_ts := start_ts u;
     tw_start_txn := txnid u;
     tw_durable_stop_ts := tw_durable_stop_ts w;
     tw_stop_ts := tw_stop_ts w;
     tw_stop_txn := tw_stop_txn w;
     tw_prepare := tw_prepare w |}.

(** Modelled from the spec: [__wt_time_window_set_stop] is defined outside
    the sources; the stop triple is taken from the tombstone. *)
Definition time_window_set_stop (w : WT_TIME_WINDOW) (u : WT_UPDATE) : WT_TIME_WINDOW :=
  {| tw_durable_start_ts := tw_durable_start_ts w;
     tw_start_ts := tw_start_ts w;
     tw_start_txn := tw_start_txn w;
     tw_durable_stop_ts := durable_ts u;
     tw_stop_ts := start_ts u;
     tw_stop_txn := txnid u;
     tw_prepare := tw_prepare w |}.

Definition tw_set_prepare (w : WT_TIME_WINDOW) : WT_TIME_WINDOW :=
  {| tw_durable_start_ts := tw_durable_start_ts w;
     tw_start_ts := tw_start_ts w;
     tw_start_txn := tw_start_txn w;
     tw_durable_stop_ts := tw_durable_stop_ts w;
     tw_stop_ts := tw_stop_ts w;
     tw_stop_txn := tw_stop_txn w;
     tw_prepare := true |}.

(** ** Small predicates on updates *)

Definition is_tombstone (u : WT_UPDATE) : bool :=
  match type u with WT_UPDATE_TOMBSTONE => true | _ => false end.

Definition is_reserve (u : WT_UPDATE) : bool :=
  match type u with WT_UPDATE_RESERVE => true | _ => false end.

Definition is_standard (u : WT_UPDATE) : bool :=
  match type u with WT_UPDATE_STANDARD => true | _ => false end.

Definition is_modify (u : WT_UPDATE) : bool :=
  match type u with WT_UPDATE_MODIFY => true | _ => false end.

Definition is_aborted (u : WT_UPDATE) : bool := txnid u =? WT_TXN_ABORTED.

(** [prepare_state == WT_PREPARE_LOCKED || prepare_state == WT_PREPARE_INPROGRESS] *)
Definition is_prepared (u : WT_UPDATE) : bool :=
  match prepare_state u with
  | WT_PREPARE_LOCKED | WT_PREPARE_INPROGRESS => true
  | _ => false
  end.

Definition is_inprogress (u : WT_UPDATE) : bool :=
  match prepare_state u with WT_PREPARE_INPROGRESS => true | _ => false end.

(** Dereference of a chain pointer. *)
Definition deref (chain : list WT_UPDATE) (p : option nat) : option WT_UPDATE :=
  match p with
  | Some i => chain !! i
  | None => None
  end.

(** ** [__rec_update_stable] *)
Definition rec_update_stable (s : WT_SESSION_IMPL) (r : WT_RECONCILE) (u : WT_UPDATE) : bool :=
  if F_ISSET r WT_REC_VISIBLE_ALL then txn_upd_visible_all s u
  else match txn_upd_visible_type s u with
       | WT_VISIBLE_TRUE => txn_visible s (txnid u) (start_ts u)
       | _ => false
       end.

(** ** Outcomes of a call *)

Inductive wt_ret := RET_OK | RET_EBUSY | RET_PANIC.

Inductive fault := AssertFail | NullDeref.

(** ** [__rec_update_save] *)

Definition r_push_supd (r : WT_RECONCILE) (e : WT_SAVE_UPD) (memsize : Z) : WT_RECONCILE :=
  {| flags := flags r; page := page r; last_running := last_running r;
     updates_seen := updates_seen r; updates_unstable := updates_unstable r;
     max_txn := max_txn r; max_ts := max_ts r; max_ondisk_ts := max_ondisk_ts r;
     min_skipped_ts := min_skipped_ts r;
     supd := supd r ++ [e];
     supd_memsize := wrap64 (supd_memsize r + memsize);
     leave_dirty := leave_dirty r; cache_write_restore := cache_write_restore r |}.

(** The two assertions, then the entry is stored at [r->supd[r->supd_next]]
    and [supd_next], [supd_memsize] advance.  [None] is a failed assertion. *)
Definition rec_update_save (chain : list WT_UPDATE) (r : WT_RECONCILE)
    (ins ripcip : option ref) (onpage : option nat) (supd_restore : bool)
    (memsize : Z) : option WT_RECONCILE :=
  if negb (match onpage with Some _ => true | None => supd_restore end) then None
  else if negb (match onpage with
                | None => true
                | Some _ =>
                    match deref chain onpage with
                    | Some u => is_standard u || is_modify u
                    | None => false
                    end
                end) then None
  else Some (r_push_supd r (mk_supd ins ripcip onpage supd_restore) memsize).

(** ** [__rec_append_orig_value] *)

Inductive review_result :=
| ReviewReturn                        (* a [return (0)] inside the loop *)
| ReviewEnd (oldest_upd : option nat) (* the loop was left at the last entry *).

(** The [for (;; upd = upd->next)] loop over the entries from [upd] to the
    end of the chain; [rest] is the chain from the entry at [idx] on. *)
Fixpoint append_review (s : WT_SESSION_IMPL) (unpack : WT_CELL_UNPACK)
    (rest : list WT_UPDATE) (idx : nat) (oldest_upd : option nat) : review_result :=
  match rest with
  | [] => ReviewEnd oldest_upd
  | u :: rest' =>
      if restored_for_rollback u then ReviewReturn
      else if unpack_prepare unpack && negb (is_tombstone u) then ReviewReturn
      else if (tw_start_ts (cell_tw unpack) =? start_ts u)
              && (tw_start_txn (cell_tw unpack) =? txnid u)
              && negb (is_tombstone u) then ReviewReturn
      else if WT_UPDATE_DATA_VALUE s u && txn_upd_visible_all s u then ReviewReturn
      else append_review s unpack rest' (S idx)
             (if negb (is_aborted u) then Some idx else oldest_upd)
  end.

(** [unpack->tw.stop_ts != WT_TS_MAX || unpack->tw.stop_txn != WT_TXN_MAX] *)
Definition cell_has_stop (unpack : WT_CELL_UNPACK) : bool :=
  negb (tw_stop_ts (cell_tw unpack) =? WT_TS_MAX)
  || negb (tw_stop_txn (cell_tw unpack) =? WT_TXN_MAX).

(** The update [__wt_upd_alloc] returns for the cell's value, with the three
    fields the function then sets. *)
Definition orig_value_upd (s : WT_SESSION_IMPL) (unpack : WT_CELL_UNPACK) : WT_UPDATE :=
  {| txnid := tw_start_txn (cell_tw unpack);
     durable_ts := tw_durable_start_ts (cell_tw unpack);
     start_ts := tw_start_ts (cell_tw unpack);
     type := WT_UPDATE_STANDARD;
     prepare_state := WT_PREPARE_INIT;
     restored_for_rollback := false;
     upd_memsize := upd_alloc_size s (cell_data_size unpack) |}.

(** The update [__wt_upd_alloc_tombstone] returns, with the three fields set
    from the cell's stop. *)
Definition orig_tombstone_upd (s : WT_SESSION_IMPL) (unpack : WT_CELL_UNPACK) : WT_UPDATE :=
  {| txnid := tw_stop_txn (cell_tw unpack);
     durable_ts := tw_durable_stop_ts (cell_tw unpack);
     start_ts := tw_stop_ts (cell_tw unpack);
     type := WT_UPDATE_TOMBSTONE;
     prepare_state := WT_PREPARE_INIT;
     restored_for_rollback := false;
     upd_memsize := upd_alloc_size s 0 |}.

(** Lines 119-121: the scratch buffer, the read of the cell's value into it
    and the allocation of the update that carries the value.  The first of
    the three callees that fails gives the error ([WT_ERR]); [None] when all
    return 0. *)
Definition append_value_copy (s : WT_SESSION_IMPL) (unpack : WT_CELL_UNPACK) : option Z :=
  match scr_alloc s with
  | Some e => Some e
  | None =>
      match page_cell_data_ref s unpack with
      | Some e => Some e
      | None => upd_alloc s
      end
  end.

(** Result of the appender: the chain after the call and the bytes it
    charged to the page ([__wt_cache_page_inmem_incr]); a skipped append
    leaves the chain as it was and charges nothing.  [AppendErr e] is the
    return through [err:] when a callee fails with [e]: nothing has been
    linked or charged by then. *)
Inductive append_result :=
| AppendOk (chain' : list WT_UPDATE) (total_size : Z)
| AppendErr (e : Z)
| AppendFault (f : fault).

Definition rec_append_orig_value (s : WT_SESSION_IMPL) (chain : list WT_UPDATE)
    (p : option nat) (vpack : option WT_CELL_UNPACK) : append_result :=
  match deref chain p, p, vpack with
  | Some _, Some i, Some unpack =>
      match cell_kind unpack with
      | WT_CELL_DEL => AppendFault AssertFail
      | WT_CELL_VALUE =>
          match append_review s unpack (drop i chain) i None with
          | ReviewReturn => AppendOk chain 0
          | ReviewEnd oldest_upd =>
              if cell_has_stop unpack
                 && txn_visible_all s (tw_stop_txn (cell_tw unpack)) (tw_stop_ts (cell_tw unpack))
              then AppendOk chain 0
              else
                match append_value_copy s unpack with
                | Some e => AppendErr e
                | None =>
                    let append := orig_value_upd s unpack in
                    if cell_has_stop unpack then
                      match deref chain oldest_upd with
                      | None => AppendFault NullDeref
                      | Some o =>
                          if negb (is_tombstone o) then
                            match upd_alloc_tombstone s with
                            | Some e => AppendErr e
                            | None =>
                                AppendOk (chain ++ [orig_tombstone_upd s unpack; append])
                                  (wrap64 (upd_memsize append
                                           + upd_memsize (orig_tombstone_upd s unpack)))
                            end
                          else if unpack_prepare unpack
                                  || ((tw_stop_ts (cell_tw unpack) =? start_ts o)
                                      && (tw_stop_txn (cell_tw unpack) =? txnid o))
                          then AppendOk (chain ++ [append]) (upd_memsize append)
                          else AppendFault AssertFail
                      end
                    else AppendOk (chain ++ [append]) (upd_memsize append)
                end
          end
      end
  | _, _, _ => AppendFault AssertFail
  end.

(** ** [__rec_need_save_upd] *)

Definition rec_need_save_upd (s : WT_SESSION_IMPL) (r : WT_RECONCILE)
    (upd_select : WT_UPDATE_SELECT) (has_newer_updates : bool) : bool :=
  if tw_prepare (tw upd_select) then true
  else if F_ISSET r WT_REC_EVICT && has_newer_updates then true
  else if negb (F_ISSET r WT_REC_HS) && negb (F_ISSET r WT_REC_IN_MEMORY)
          && negb (match page r with WT_PAGE_COL_FIX => true | _ => false end)
  then false
  else if F_ISSET r WT_REC_CHECKPOINT
          && (match upd upd_select with None => true | Some _ => false end)
  then false
  else negb (txn_visible_all s (tw_stop_txn (tw upd_select)) (tw_stop_ts (tw upd_select)))
       && negb (txn_visible_all s (tw_start_txn (tw upd_select)) (tw_start_ts (tw upd_select))).

(** ** Field updates of [WT_RECONCILE] *)

Definition r_with_updates_seen (r : WT_RECONCILE) (v : Z) : WT_RECONCILE :=
  {| flags := flags r; page := page r; last_running := last_running r;
     updates_seen := v; updates_unstable := updates_unstable r;
     max_txn := max_txn r; max_ts := max_ts r; max_ondisk_ts := max_ondisk_ts r;
     min_skipped_ts := min_skipped_ts r; supd := supd r;
     supd_memsize := supd_memsize r;
     leave_dirty := leave_dirty r; cache_write_restore := cache_write_restore r |}.

Definition r_with_updates_unstable (r : WT_RECONCILE) (v : Z) : WT_RECONCILE :=
  {| flags := flags r; page := page r; last_running := last_running r;
     updates_seen := updates_seen r; updates_unstable := v;
     max_txn := max_txn r; max_ts := max_ts r; max_ondisk_ts := max_ondisk_ts r;
     min_skipped_ts := min_skipped_ts r; supd := supd r;
     supd_memsize := supd_memsize r;
     leave_dirty := leave_dirty r; cache_write_restore := cache_write_restore r |}.

Definition r_with_min_skipped_ts (r : WT_RECONCILE) (v : Z) : WT_RECONCILE :=
  {| flags := flags r; page := page r; last_running := last_running r;
     updates_seen := updates_seen r; updates_unstable := updates_unstable r;
     max_txn := max_txn r; max_ts := max_ts r; max_ondisk_ts := max_ondisk_ts r;
     min_skipped_ts := v; supd := supd r;
     supd_memsize := supd_memsize r;
     leave_dirty := leave_dirty r; cache_write_restore := cache_write_restore r |}.

Definition r_with_max_ondisk_ts (r : WT_RECONCILE) (v : Z) : WT_RECONCILE :=
  {| flags := flags r; page := page r; last_running := last_running r;
     updates_seen := updates_seen r; updates_unstable := updates_unstable r;
     max_txn := max_txn r; max_ts := max_ts r; max_ondisk_ts := v;
     min_skipped_ts := min_skipped_ts r; supd := supd r;
     supd_memsize := supd_memsize r;
     leave_dirty := leave_dirty r; cache_write_restore := cache_write_restore r |}.

Definition r_with_max_txn (r : WT_RECONCILE) (v : Z) : WT_RECONCILE :=
  {| flags := flags r; page := page r; last_running := last_running r;
     updates_seen := updates_seen r; updates_unstable := updates_unstable r;
     max_txn := v; max_ts := max_ts r; max_ondisk_ts := max_ondisk_ts r;
     min_skipped_ts := min_skipped_ts r; supd := supd r;
     supd_memsize := supd_memsize r;
     leave_dirty := leave_dirty r; cache_write_restore := cache_write_restore r |}.

Definition r_with_max_ts (r : WT_RECONCILE) (v : Z) : WT_RECONCILE :=
  {| flags := flags r; page := page r; last_running := last_running r;
     updates_seen := updates_seen r; updates_unstable := updates_unstable r;
     max_txn := max_txn r; max_ts := v; max_ondisk_ts := max_ondisk_ts r;
     min_skipped_ts := min_skipped_ts r; supd := supd r;
     supd_memsize := supd_memsize r;
     leave_dirty := leave_dirty r; cache_write_restore := cache_write_restore r |}.

Definition r_with_leave_dirty (r : WT_RECONCILE) (v : bool) : WT_RECONCILE :=
  {| flags := flags r; page := page r; last_running := last_running r;
     updates_seen := updates_seen r; updates_unstable := updates_unstable r;
     max_txn := max_txn r; max_ts := max_ts r; max_ondisk_ts := max_ondisk_ts r;
     min_skipped_ts := min_skipped_ts r; supd := supd r;
     supd_memsize := supd_memsize r;
     leave_dirty := v; cache_write_restore := cache_write_restore r |}.

Definition r_with_cache_write_restore (r : WT_RECONCILE) (v : bool) : WT_RECONCILE :=
  {| flags := flags r; page := page r; last_running := last_running r;
     updates_seen := updates_seen r; updates_unstable := updates_unstable r;
     max_txn := max_txn r; max_ts := max_ts r; max_ondisk_ts := max_ondisk_ts r;
     min_skipped_ts := min_skipped_ts r; supd := supd r;
     supd_memsize := supd_memsize r;
     leave_dirty := leave_dirty r; cache_write_restore := v |}.

(** ** The chain walk of [__wt_rec_upd_select] (the [for] loop) *)

(** The locals the loop reads and writes, with the reconcile context and the
    selection pointer [upd_select->upd]. *)
Record walk_state := mk_walk {
  w_r : WT_RECONCILE;
  w_upd_memsize : Z;
  w_first_txn_upd : option nat;
  w_max_txn : Z;
  w_max_ts : Z;
  w_has_newer_updates : bool;
  w_sel : option nat
}.

Definition walk_init (r : WT_RECONCILE) : walk_state :=
  {| w_r := r; w_upd_memsize := 0; w_first_txn_upd := None;
     w_max_txn := WT_TXN_NONE; w_max_ts := WT_TS_NONE;
     w_has_newer_updates := false; w_sel := None |}.

(** How one pass through the loop body ends. *)
Inductive loop_ctl :=
| LoopNext                 (* [continue], or the end of the body *)
| LoopBreak                (* [break] *)
| LoopReturn (rc : wt_ret) (* [return] *)
| LoopFault (f : fault).

(** The test of line 266: the update was not committed before reconciliation
    started.  History-store pages are exempt. *)
Definition rec_uncommitted (s : WT_SESSION_IMPL) (r : WT_RECONCILE) (txn : Z) : bool :=
  negb (btree_hs s)
  && (if F_ISSET r WT_REC_VISIBLE_ALL then WT_TXNID_LE (last_running r) txn
      else negb (txn_visible_id s txn)).

(** The tail of the loop body, from "Track the first update with non-zero
    timestamp" on: the entry is selectable. *)
Definition walk_select (s : WT_SESSION_IMPL) (idx : nat) (u : WT_UPDATE)
    (w : walk_state) : loop_ctl * walk_state :=
  let w3 :=
    {| w_r := w_r w; w_upd_memsize := w_upd_memsize w;
       w_first_txn_upd := w_first_txn_upd w; w_max_txn := w_max_txn w;
       w_max_ts := if w_max_ts w <? start_ts u then start_ts u else w_max_ts w;
       w_has_newer_updates := w_has_newer_updates w;
       w_sel := match w_sel w with None => Some idx | Some i => Some i end |} in
  if F_ISSET (w_r w3) WT_REC_EVICT && negb (rec_update_stable s (w_r w3) u) then
    (LoopNext,
     {| w_r := r_with_updates_unstable (w_r w3)
                 (wrap_bits (updates_unstable_bits s) (updates_unstable (w_r w3) + 1));
        w_upd_memsize := w_upd_memsize w3;
        w_first_txn_upd := w_first_txn_upd w3; w_max_txn := w_max_txn w3;
        w_max_ts := w_max_ts w3;
        w_has_newer_updates := w_has_newer_updates w3;
        w_sel := w_sel w3 |})
  else if negb (F_ISSET (w_r w3) WT_REC_EVICT) then (LoopBreak, w3)
  else (LoopNext, w3).

(** The first statements of the loop body for a live entry: count it, add
    its size, track [first_txn_upd] and [max_txn]. *)
Definition walk_account (s : WT_SESSION_IMPL) (idx : nat) (u : WT_UPDATE)
    (w : walk_state) : walk_state :=
  {| w_r := r_with_updates_seen (w_r w)
              (wrap_bits (updates_seen_bits s) (updates_seen (w_r w) + 1));
     w_upd_memsize := wrap64 (w_upd_memsize w + upd_memsize u);
     w_first_txn_upd :=
       match w_first_txn_upd w with None => Some idx | Some f => Some f end;
     w_max_txn := if WT_TXNID_LT (w_max_txn w) (txnid u) then txnid u else w_max_txn w;
     w_max_ts := w_max_ts w;
     w_has_newer_updates := w_has_newer_updates w;
     w_sel := w_sel w |}.

(** A prepared update skipped outside eviction. *)
Definition walk_skip_prepared (u : WT_UPDATE) (w : walk_state) : walk_state :=
  {| w_r := if start_ts u <? min_skipped_ts (w_r w)
            then r_with_min_skipped_ts (w_r w) (start_ts u) else w_r w;
     w_upd_memsize := w_upd_memsize w;
     w_first_txn_upd := w_first_txn_upd w; w_max_txn := w_max_txn w;
     w_max_ts := if w_max_ts w <? start_ts u then start_ts u else w_max_ts w;
     w_has_newer_updates := true;
     w_sel := w_sel w |}.

Definition walk_set_newer (w : walk_state) : walk_state :=
  {| w_r := w_r w; w_upd_memsize := w_upd_memsize w;
     w_first_txn_upd := w_first_txn_upd w; w_max_txn := w_max_txn w;
     w_max_ts := w_max_ts w; w_has_newer_updates := true;
     w_sel := w_sel w |}.

(** The assertion of line 283:
    [upd_select->upd == NULL || upd_select->upd->txnid == upd->txnid]. *)
Definition prepared_assert (chain : list WT_UPDATE) (w : walk_state) (u : WT_UPDATE) : bool :=
  match w_sel w with
  | None => true
  | Some i =>
      match chain !! i with
      | Some su => txnid su =? txnid u
      | None => false
      end
  end.

(** The loop body for the entry [u] at index [idx]. *)
Definition walk_step (s : WT_SESSION_IMPL) (chain : list WT_UPDATE)
    (idx : nat) (u : WT_UPDATE) (w : walk_state) : loop_ctl * walk_state :=
  if txnid u =? WT_TXN_ABORTED then (LoopNext, w)
  else
    let w1 := walk_account s idx u w in
    if rec_uncommitted s (w_r w1) (txnid u) then
      match w_sel w1 with
      | Some _ => (LoopReturn RET_EBUSY, w1)
      | None => (LoopNext, walk_set_newer w1)
      end
    else if is_prepared u then
      if negb (prepared_assert chain w1 u) then (LoopFault AssertFail, w1)
      else if negb (F_ISSET (w_r w1) WT_REC_EVICT) then (LoopNext, walk_skip_prepared u w1)
      else if negb (is_inprogress u) then (LoopFault AssertFail, w1)
      else walk_select s idx u w1
    else walk_select s idx u w1.

(** The loop: [rest] is the chain from index [idx] on.  [LoopNext] as the
    result means the loop ran off the end of the chain. *)
Fixpoint walk_loop (s : WT_SESSION_IMPL) (chain rest : list WT_UPDATE) (idx : nat)
    (w : walk_state) : loop_ctl * walk_state :=
  match rest with
  | [] => (LoopNext, w)
  | u :: rest' =>
      match walk_step s chain idx u w with
      | (LoopNext, w') => walk_loop s chain rest' (S idx) w'
      | other => other
      end
  end.

Definition rec_upd_walk (s : WT_SESSION_IMPL) (r : WT_RECONCILE)
    (chain : list WT_UPDATE) : loop_ctl * walk_state :=
  walk_loop s chain chain 0%nat (walk_init r).

(** ** [__wt_rec_upd_select] *)

(** The two places [__rec_append_orig_value] is called from. *)
Inductive call_site :=
| AtTombstoneOnly (* line 406: only a tombstone is left in the chain *)
| AtReturn        (* line 497: before returning *).

(** What a call leaves behind when it returns: the reconcile context, the
    chain, the bytes charged to the page, the output record [upd_select], and
    the calls of [__rec_append_orig_value] it made, oldest first, each with
    the update it was given (a record of the calls, not a C variable). *)
Record select_state := mk_state {
  st_r : WT_RECONCILE;
  st_chain : list WT_UPDATE;
  st_page_mem : Z;
  st_sel : WT_UPDATE_SELECT;
  st_append_calls : list (call_site * option nat)
}.

(** How a call ends.  [Returned rc st]: one of the function's own returns
    (0, EBUSY, panic).  [Failed e st]: the return through the [err:] label
    with the error code [e] of a callee that failed.  [Faulted f]: a failed
    assertion or a dereference of [NULL]. *)
Inductive outcome :=
| Returned (rc : wt_ret) (st : select_state)
| Failed (e : Z) (st : select_state)
| Faulted (f : fault).

(** [while (upd->next != NULL && upd->next->txnid == WT_TXN_ABORTED) upd = upd->next;]
    [rest] is the chain after the entry at [idx]; the result is the index
    [upd] ends at. *)
Fixpoint skip_aborted (rest : list WT_UPDATE) (idx : nat) : nat :=
  match rest with
  | u :: rest' => if txnid u =? WT_TXN_ABORTED then skip_aborted rest' (S idx) else idx
  | [] => idx
  end.

(** The assertion of lines 407-410 on [last_upd->next]. *)
Definition appended_assert (chain : list WT_UPDATE) (last_upd : nat)
    (unpack : WT_CELL_UNPACK) : bool :=
  match chain !! S last_upd with
  | Some a =>
      (txnid a =? tw_start_txn (cell_tw unpack))
      && (start_ts a =? tw_start_ts (cell_tw unpack))
      && is_standard a
      && (match chain !! S (S last_upd) with None => true | Some _ => false end)
  | None => false
  end.

(** The out-of-order repair of lines 427-436. *)
Definition tw_out_of_order (w : WT_TIME_WINDOW) : bool :=
  (tw_stop_ts w <? tw_start_ts w)
  || ((tw_stop_ts w =? tw_start_ts w) && (tw_stop_txn w <? tw_start_txn w)).

Definition tw_repair (w : WT_TIME_WINDOW) : WT_TIME_WINDOW :=
  if tw_out_of_order w then
    {| tw_durable_start_ts := tw_durable_stop_ts w;
       tw_start_ts := tw_stop_ts w;
       tw_start_txn := tw_stop_txn w;
       tw_durable_stop_ts := tw_durable_stop_ts w;
       tw_stop_ts := tw_stop_ts w;
       tw_stop_txn := tw_stop_txn w;
       tw_prepare := tw_prepare w |}
  else w.

(** The assertions of lines 318-328 on the walk's selection. *)
Definition selection_assert (s : WT_SESSION_IMPL) (chain : list WT_UPDATE)
    (p : option nat) : bool :=
  match p with
  | None => true
  | Some i =>
      match chain !! i with
      | Some u =>
          (negb (is_aborted u) && negb (is_reserve u))
          && (negb (is_metadata s) || (txnid u =? WT_TXN_NONE)
              || negb (txnid u =? checkpoint_txn_id s) || session_is_checkpoint s)
      | None => false
      end
  end.

(** Lines 359-414: the tombstone step and the composition of the time
    window.  The result is the chain (extended when the appender ran), the
    bytes charged, the selection and the calls made. *)
Inductive compose_result :=
| Composed (chain' : list WT_UPDATE) (mem : Z) (sel : WT_UPDATE_SELECT)
           (calls : list (call_site * option nat))
| ComposeErr (e : Z) (sel : WT_UPDATE_SELECT)
             (calls : list (call_site * option nat))
| ComposeFault (f : fault).

Definition rec_compose_window (s : WT_SESSION_IMPL) (chain : list WT_UPDATE)
    (vpack : option WT_CELL_UNPACK) (p : option nat) : compose_result :=
  match p with
  | None => Composed chain 0 (mk_sel None time_window_init) []
  | Some i =>
      match chain !! i with
      | None => ComposeFault NullDeref
      | Some u =>
          let tw0 := if is_inprogress u then tw_set_prepare time_window_init
                     else time_window_init in
          if is_tombstone u then
            let tw1 := time_window_set_stop tw0 u in
            if negb (txn_visible_all s (txnid u) (start_ts u)) then
              let j := skip_aborted (drop (S i) chain) i in
              match chain !! S j with
              | Some nu =>
                  (* upd->next != NULL: it becomes the selection *)
                  if is_aborted nu then ComposeFault AssertFail
                  else Composed chain 0
                         (mk_sel (Some (S j)) (time_window_set_start tw1 nu)) []
              | None =>
                  (* upd->next == NULL: last_upd = upd, the selection is empty *)
                  if negb (tw_stop_ts tw1 =? WT_TS_NONE) || negb (tw_stop_txn tw1 =? WT_TXN_NONE)
                  then
                    match vpack with
                    | None => ComposeFault AssertFail
                    | Some unpack =>
                        match rec_append_orig_value s chain (Some i) vpack with
                        | AppendFault f => ComposeFault f
                        | AppendErr e =>
                            (* [WT_ERR]: [upd_select->upd] is [NULL] (line 387)
                               and the window has its stop only *)
                            ComposeErr e (mk_sel None tw1) [(AtTombstoneOnly, Some i)]
                        | AppendOk chain' mem =>
                            if appended_assert chain' j unpack then
                              match chain' !! S j with
                              | Some a =>
                                  Composed chain' mem
                                    (mk_sel (Some (S j)) (time_window_set_start tw1 a))
                                    [(AtTombstoneOnly, Some i)]
                              | None => ComposeFault NullDeref
                              end
                            else ComposeFault AssertFail
                        end
                    end
                  else Composed chain 0 (mk_sel None tw1) []
              end
            else Composed chain 0 (mk_sel (Some i) (time_window_set_start tw1 u)) []
          else Composed chain 0 (mk_sel (Some i) (time_window_set_start tw0 u)) []
      end
  end.

(** Lines 438-452: the page's watermarks and the dirty mark. *)
Definition rec_track (r : WT_RECONCILE) (w : walk_state) : WT_RECONCILE :=
  let r1 := if WT_TXNID_LT (max_txn r) (w_max_txn w)
            then r_with_max_txn r (w_max_txn w) else r in
  let r2 := if max_ts r1 <? w_max_ts w then r_with_max_ts r1 (w_max_ts w) else r1 in
  if w_has_newer_updates w then r_with_leave_dirty r2 true else r2.

(** [supd_restore] of lines 467-469. *)
Definition rec_supd_restore (s : WT_SESSION_IMPL) (r : WT_RECONCILE)
    (has_newer_updates : bool) : bool :=
  F_ISSET r WT_REC_EVICT
  && (has_newer_updates || conn_in_memory s
      || match page r with WT_PAGE_COL_FIX => true | _ => false end).

(** The [onpage_upd] argument of the save: [NULL] for a selected tombstone. *)
Definition save_onpage_upd (chain : list WT_UPDATE) (p : option nat) : option nat :=
  match deref chain p with
  | Some u => if is_tombstone u then None else p
  | None => p
  end.

(** Lines 461-477: the save decision and the save.  The result is the
    reconcile context and [upd_saved]; [None] is a failed assertion of
    [__rec_update_save]. *)
Definition rec_save_step (s : WT_SESSION_IMPL) (r : WT_RECONCILE)
    (chain : list WT_UPDATE) (ins ripcip : option ref) (upd_select : WT_UPDATE_SELECT)
    (has_newer_updates : bool) (memsize : Z) : option (WT_RECONCILE * bool) :=
  if rec_need_save_upd s r upd_select has_newer_updates then
    let supd_restore := rec_supd_restore s r has_newer_updates in
    let r1 := if supd_restore then r_with_cache_write_restore r true else r in
    match rec_update_save chain r1 ins ripcip
            (save_onpage_upd chain (upd upd_select)) supd_restore memsize with
    | Some r2 => Some (r2, true)
    | None => None
    end
  else Some (r, false).

(** The test of lines 495-496. *)
Definition final_append_cond (upd_select : WT_UPDATE_SELECT)
    (vpack : option WT_CELL_UNPACK) (upd_saved : bool) : bool :=
  match upd upd_select, vpack with
  | Some _, Some unpack =>
      match cell_kind unpack with
      | WT_CELL_DEL => false
      | WT_CELL_VALUE => upd_saved || unpack_overflow unpack
      end
  | _, _ => false
  end.

(** The assertion of line 482. *)
Definition not_aborted_assert (chain : list WT_UPDATE) (p : option nat) : bool :=
  match p with
  | None => true
  | Some i =>
      match chain !! i with
      | Some u => negb (is_aborted u)
      | None => false
      end
  end.

(** Lines 346-347: [max_ondisk_ts] is raised to the start timestamp of the
    walk's selection. *)
Definition rec_track_ondisk (chain : list WT_UPDATE) (w : walk_state) : WT_RECONCILE :=
  match deref chain (w_sel w) with
  | Some u => if max_ondisk_ts (w_r w) <? start_ts u
              then r_with_max_ondisk_ts (w_r w) (start_ts u) else w_r w
  | None => w_r w
  end.

(** Lines 346-501, entered once the walk is over and the early returns are
    behind. *)
Definition rec_upd_finish (s : WT_SESSION_IMPL) (ins ripcip : option ref)
    (chain : list WT_UPDATE) (vpack : option WT_CELL_UNPACK) (w : walk_state) : outcome :=
  let r1 := rec_track_ondisk chain w in
  match rec_compose_window s chain vpack (w_sel w) with
  | ComposeFault f => Faulted f
  | ComposeErr e sel1 calls1 => Failed e (mk_state r1 chain 0 sel1 calls1)
  | Composed chain1 mem1 sel1 calls1 =>
      let sel2 := mk_sel (upd sel1) (tw_repair (tw sel1)) in
      let r2 := rec_track r1 w in
      match rec_save_step s r2 chain1 ins ripcip sel2
              (w_has_newer_updates w) (w_upd_memsize w) with
      | None => Faulted AssertFail
      | Some (r3, upd_saved) =>
          if negb (not_aborted_assert chain1 (upd sel2)) then Faulted AssertFail
          else if final_append_cond sel2 vpack upd_saved then
            match rec_append_orig_value s chain1 (upd sel2) vpack with
            | AppendFault f => Faulted f
            | AppendErr e =>
                Failed e
                  (mk_state r3 chain1 mem1 sel2 (calls1 ++ [(AtReturn, upd sel2)]))
            | AppendOk chain2 mem2 =>
                Returned RET_OK
                  (mk_state r3 chain2 (wrap64 (mem1 + mem2)) sel2
                     (calls1 ++ [(AtReturn, upd sel2)]))
            end
          else Returned RET_OK (mk_state r3 chain1 mem1 sel2 calls1)
      end
  end.

(** Lines 314-344 and on: the assertions on the walk's selection, the early
    returns, and the rest of the function. *)
Definition rec_upd_after_walk (s : WT_SESSION_IMPL) (ins ripcip : option ref)
    (chain : list WT_UPDATE) (vpack : option WT_CELL_UNPACK) (w : walk_state) : outcome :=
  let st1 := mk_state (w_r w) chain 0 (mk_sel (w_sel w) time_window_init) [] in
  if negb (selection_assert s chain (w_sel w)) then Faulted AssertFail
  else
    match w_first_txn_upd w with
    | None =>
        match w_sel w with
        | Some _ => Faulted AssertFail
        | None => Returned RET_OK st1
        end
    | Some _ =>
        if w_has_newer_updates w
           && (F_ISSET (w_r w) WT_REC_CLEAN_AFTER_REC
               || F_ISSET (w_r w) WT_REC_VISIBILITY_ERR)
        then
          if F_ISSET (w_r w) WT_REC_VISIBILITY_ERR
          then Returned RET_PANIC st1
          else Returned RET_EBUSY st1
        else rec_upd_finish s ins ripcip chain vpack w
    end.

(** Lines 244-312 and on: the walk, which may return BUSY, then the rest,
    for a key whose update list was found. *)
Definition rec_upd_select_chain (s : WT_SESSION_IMPL) (r : WT_RECONCILE)
    (ins ripcip : option ref) (chain : list WT_UPDATE)
    (vpack : option WT_CELL_UNPACK) : outcome :=
  match rec_upd_walk s r chain with
  | (LoopFault f, _) => Faulted f
  | (LoopReturn rc, w) =>
      Returned rc (mk_state (w_r w) chain 0 (mk_sel (w_sel w) time_window_init) [])
  | (_, w) => rec_upd_after_walk s ins ripcip chain vpack w
  end.

(** [__wt_rec_upd_select].  [chain] is the update list of the key, reached
    through [ins->upd] when [ins] is given and through
    [WT_ROW_UPDATE(page, ripcip)] otherwise; the empty list is [NULL]. *)
Definition rec_upd_select (s : WT_SESSION_IMPL) (r : WT_RECONCILE)
    (ins ripcip : option ref) (chain : list WT_UPDATE)
    (vpack : option WT_CELL_UNPACK) : outcome :=
  match ins, chain with
  | None, [] =>
      Returned RET_OK (mk_state r chain 0 (mk_sel None time_window_init) [])
  | _, _ => rec_upd_select_chain s r ins ripcip chain vpack
  end.

(** ** The save decision as the specification words it

    An ordered list of rules; each rule applies only when no earlier one
    does.  [save_decision s r sel newer b]: the rules decide [b] (save or do
    not save) for the selection [sel]. *)
Inductive save_decision (s : WT_SESSION_IMPL) (r : WT_RECONCILE)
    (sel : WT_UPDATE_SELECT) (newer : bool) : bool -> Prop :=
| SavePrepared :
    tw_prepare (tw sel) = true ->
    save_decision s r sel newer true
| SaveEvictNewer :
    tw_prepare (tw sel) = false ->
    F_ISSET r WT_REC_EVICT = true -> newer = true ->
    save_decision s r sel newer true
| NoSaveWithoutHistoryStore :
    tw_prepare (tw sel) = false ->
    ~ (F_ISSET r WT_REC_EVICT = true /\ newer = true) ->
    F_ISSET r WT_REC_HS = false -> F_ISSET r WT_REC_IN_MEMORY = false ->
    page r <> WT_PAGE_COL_FIX ->
    save_decision s r sel newer false
| NoSaveCheckpointEmpty :
    tw_prepare (tw sel) = false ->
    ~ (F_ISSET r WT_REC_EVICT = true /\ newer = true) ->
    ~ (F_ISSET r WT_REC_HS = false /\ F_ISSET r WT_REC_IN_MEMORY = false
       /\ page r <> WT_PAGE_COL_FIX) ->
    F_ISSET r WT_REC_CHECKPOINT = true -> upd sel = None ->
    save_decision s r sel newer false
| SaveByWindow :
    tw_prepare (tw sel) = false ->
    ~ (F_ISSET r WT_REC_EVICT = true /\ newer = true) ->
    ~ (F_ISSET r WT_REC_HS = false /\ F_ISSET r WT_REC_IN_MEMORY = false
       /\ page r <> WT_PAGE_COL_FIX) ->
    ~ (F_ISSET r WT_REC_CHECKPOINT = true /\ upd sel = None) ->
    save_decision s r sel newer
      (negb (txn_visible_all s (tw_start_txn (tw sel)) (tw_start_ts (tw sel)))
       && negb (txn_visible_all s (tw_stop_txn (tw sel)) (tw_stop_ts (tw sel)))).

(** ** The selection rule as the specification words it *)

(** Committed under the reconciliation's visibility rule: on a
    history-store page every entry is (implicitly) committed; elsewhere the
    transaction id lies below the cached [last_running] under VISIBLE_ALL,
    and is visible to the reconciliation's snapshot otherwise. *)
Definition committed_by_rule (s : WT_SESSION_IMPL) (r : WT_RECONCILE) (txn : Z) : Prop :=
  btree_hs s = true
  \/ (if F_ISSET r WT_REC_VISIBLE_ALL then txn < last_running r
      else txn_visible_id s txn = true).

(** Not prepared, except under eviction where an update whose prepare is in
    progress may be selected. *)
Definition prepare_allows (r : WT_RECONCILE) (u : WT_UPDATE) : Prop :=
  (prepare_state u <> WT_PREPARE_LOCKED /\ prepare_state u <> WT_PREPARE_INPROGRESS)
  \/ (F_ISSET r WT_REC_EVICT = true /\ prepare_state u = WT_PREPARE_INPROGRESS).

(** An entry the walk may select. *)
Definition selectable (s : WT_SESSION_IMPL) (r : WT_RECONCILE) (u : WT_UPDATE) : Prop :=
  txnid u <> WT_TXN_ABORTED /\ committed_by_rule s r (txnid u) /\ prepare_allows r u.

(** ** Invariants of the chain walk *)

(** Why the walk passes over a live entry without selecting it. *)
Definition skip_reason (s : WT_SESSION_IMPL) (r : WT_RECONCILE) (v : WT_UPDATE) : Prop :=
  rec_uncommitted s r (txnid v) = true
  \/ (is_prepared v = true /\ F_ISSET r WT_REC_EVICT = false).

(** What the walk leaves alone in the reconcile context: everything but
    [updates_seen], [updates_unstable] and [min_skipped_ts]. *)
Definition same_mode (r r' : WT_RECONCILE) : Prop :=
  flags r' = flags r /\ page r' = page r /\ last_running r' = last_running r
  /\ max_txn r' = max_txn r /\ max_ts r' = max_ts r
  /\ max_ondisk_ts r' = max_ondisk_ts r
  /\ supd r' = supd r /\ supd_memsize r' = supd_memsize r
  /\ leave_dirty r' = leave_dirty r
  /\ cache_write_restore r' = cache_write_restore r.

(** A live entry the walk passes over: there are newer updates. *)
Definition newer_updates (s : WT_SESSION_IMPL) (r : WT_RECONCILE)
    (chain : list WT_UPDATE) : Prop :=
  exists j v, chain !! j = Some v /\ txnid v <> WT_TXN_ABORTED /\ skip_reason s r v.

Definition all_newer_skipped (s : WT_SESSION_IMPL) (r : WT_RECONCILE)
    (chain : list WT_UPDATE) (i : nat) : Prop :=
  forall j v, (j < i)%nat -> chain !! j = Some v ->
              txnid v <> WT_TXN_ABORTED -> skip_reason s r v.

Definition good_sel (s : WT_SESSION_IMPL) (r : WT_RECONCILE)
    (chain : list WT_UPDATE) (i : nat) : Prop :=
  exists u, chain !! i = Some u /\ selectable s r u /\ all_newer_skipped s r chain i.

Definition sel_ok (s : WT_SESSION_IMPL) (r : WT_RECONCILE)
    (chain : list WT_UPDATE) (w : walk_state) : Prop :=
  match w_sel w with Some i => good_sel s r chain i | None => True end.

Definition walk_inv (s : WT_SESSION_IMPL) (r : WT_RECONCILE)
    (chain : list WT_UPDATE) (idx : nat) (w : walk_state) : Prop :=
  same_mode r (w_r w)
  /\ match w_sel w with
     | Some i => good_sel s r chain i
     | None => all_newer_skipped s r chain idx
     end.

(** ** The composed window

    [window_composed s r chain vpack c]: [c] is the time window of the call
    as composed before the out-of-order repair: the defaults when the call
    returns before composing one, the window [rec_compose_window] builds
    from the walk's selection otherwise. *)
Definition window_composed (s : WT_SESSION_IMPL) (r : WT_RECONCILE)
    (chain : list WT_UPDATE) (vpack : option WT_CELL_UNPACK)
    (c : WT_TIME_WINDOW) : Prop :=
  c = time_window_init
  \/ exists ctl w chain' mem sel calls,
       rec_upd_walk s r chain = (ctl, w)
       /\ rec_compose_window s chain vpack (w_sel w) = Composed chain' mem sel calls
       /\ c = tw sel.

(** The order on time pairs [(ts, txn)]: start <= stop. *)
Definition tw_start_le_stop (w : WT_TIME_WINDOW) : Prop :=
  tw_start_ts w < tw_stop_ts w
  \/ (tw_start_ts w = tw_stop_ts w /\ tw_start_txn w <= tw_stop_txn w).

(** stop < start: strictly by timestamp, or equal timestamps and
    [stop_txn < start_txn]. *)
Definition tw_stop_lt_start (w : WT_TIME_WINDOW) : Prop :=
  tw_stop_ts w < tw_start_ts w
  \/ (tw_stop_ts w = tw_start_ts w /\ tw_stop_txn w < tw_start_txn w).

(** [has_newer_updates] means what it says, for the part of the chain the
    walk has examined (the entries before [idx]). *)
Definition newer_inv (s : WT_SESSION_IMPL) (r : WT_RECONCILE)
    (chain : list WT_UPDATE) (idx : nat) (w : walk_state) : Prop :=
  same_mode r (w_r w)
  /\ (w_has_newer_updates w = true <->
      exists j v, (j < idx)%nat /\ chain !! j = Some v
                  /\ txnid v <> WT_TXN_ABORTED /\ skip_reason s r v).

(** ** The appender's reasons to skip

    [review_skips s unpack u]: one of the four tests in the loop of
    [__rec_append_orig_value] holds at the entry [u]. *)
Definition review_skips (s : WT_SESSION_IMPL) (unpack : WT_CELL_UNPACK)
    (u : WT_UPDATE) : Prop :=
  restored_for_rollback u = true
  \/ (unpack_prepare unpack = true /\ type u <> WT_UPDATE_TOMBSTONE)
  \/ (tw_start_ts (cell_tw unpack) = start_ts u
      /\ tw_start_txn (cell_tw unpack) = txnid u
      /\ type u <> WT_UPDATE_TOMBSTONE)
  \/ (WT_UPDATE_DATA_VALUE s u = true /\ txn_upd_visible_all s u = true).

(** The cell's stop pair is set and globally visible. *)
Definition cell_stop_visible (s : WT_SESSION_IMPL) (unpack : WT_CELL_UNPACK) : Prop :=
  cell_has_stop unpack = true
  /\ txn_visible_all s (tw_stop_txn (cell_tw unpack)) (tw_stop_ts (cell_tw unpack)) = true.

(** With a prepared cell, what makes the appender skip at an entry. *)
Definition prepared_cell_skips (s : WT_SESSION_IMPL) (u : WT_UPDATE) : Prop :=
  type u <> WT_UPDATE_TOMBSTONE
  \/ restored_for_rollback u = true
  \/ (WT_UPDATE_DATA_VALUE s u = true /\ txn_upd_visible_all s u = true).

(** The ways [rec_compose_window] composes a result. *)
Inductive composed_how (s : WT_SESSION_IMPL) (chain : list WT_UPDATE)
    (vpack : option WT_CELL_UNPACK) (p : option nat)
    (chain1 : list WT_UPDATE) (sel : WT_UPDATE_SELECT)
    (calls : list (call_site * option nat)) : Prop :=
| HowNothing :
    p = None -> chain1 = chain -> sel = mk_sel None time_window_init -> calls = [] ->
    composed_how s chain vpack p chain1 sel calls
| HowValue i u :
    p = Some i -> chain !! i = Some u -> type u <> WT_UPDATE_TOMBSTONE ->
    chain1 = chain -> upd sel = Some i -> calls = [] ->
    composed_how s chain vpack p chain1 sel calls
| HowVisibleTombstone i u :
    p = Some i -> chain !! i = Some u -> type u = WT_UPDATE_TOMBSTONE ->
    txn_visible_all s (txnid u) (start_ts u) = true ->
    chain1 = chain -> upd sel = Some i -> calls = [] ->
    composed_how s chain vpack p chain1 sel calls
| HowBelowTombstone i u k nu :
    p = Some i -> chain !! i = Some u -> type u = WT_UPDATE_TOMBSTONE ->
    txn_visible_all s (txnid u) (start_ts u) = false ->
    (i < k)%nat -> chain !! k = Some nu -> txnid nu <> WT_TXN_ABORTED ->
    (forall j v, (i < j < k)%nat -> chain !! j = Some v -> txnid v = WT_TXN_ABORTED) ->
    chain1 = chain -> upd sel = Some k -> calls = [] ->
    composed_how s chain vpack p chain1 sel calls
| HowUnsetTombstone i u :
    p = Some i -> chain !! i = Some u -> type u = WT_UPDATE_TOMBSTONE ->
    txn_visible_all s (txnid u) (start_ts u) = false ->
    start_ts u = WT_TS_NONE -> txnid u = WT_TXN_NONE ->
    chain1 = chain -> upd sel = None ->
    (tw_stop_ts (tw sel), tw_stop_txn (tw sel)) = (WT_TS_NONE, WT_TXN_NONE) ->
    calls = [] ->
    composed_how s chain vpack p chain1 sel calls
| HowAppended i u unpack :
    p = Some i -> chain !! i = Some u -> type u = WT_UPDATE_TOMBSTONE ->
    txn_visible_all s (txnid u) (start_ts u) = false ->
    vpack = Some unpack ->
    chain1 = chain ++ [orig_value_upd s unpack] ->
    upd sel = Some (length chain) ->
    calls = [(AtTombstoneOnly, Some i)] ->
    composed_how s chain vpack p chain1 sel calls.

(** ** The two ways to BUSY *)

(** On a page that is not a history-store page, the walk reaches a live,
    uncommitted entry (at index [j]) after it has chosen an update to write:
    the walk over the entries before [j] runs through and leaves a
    selection. *)
Definition uncommitted_after_selection (s : WT_SESSION_IMPL) (r : WT_RECONCILE)
    (chain : list WT_UPDATE) : Prop :=
  btree_hs s = false
  /\ exists j v w,
       chain !! j = Some v
       /\ txnid v <> WT_TXN_ABORTED
       /\ rec_uncommitted s r (txnid v) = true
       /\ walk_loop s chain (take j chain) 0%nat (walk_init r) = (LoopNext, w)
       /\ w_sel w <> None.

(** The walk ends without returning, having passed over a live entry
    ([has_newer_updates]); the assertions on its selection hold; the clean
    page is demanded (CLEAN_AFTER_REC) and VISIBILITY_ERR is off. *)
Definition newer_updates_on_clean_rec (s : WT_SESSION_IMPL) (r : WT_RECONCILE)
    (chain : list WT_UPDATE) : Prop :=
  exists ctl w,
    rec_upd_walk s r chain = (ctl, w)
    /\ (ctl = LoopNext \/ ctl = LoopBreak)
    /\ selection_assert s chain (w_sel w) = true
    /\ w_has_newer_updates w = true
    /\ F_ISSET r WT_REC_CLEAN_AFTER_REC = true
    /\ F_ISSET r WT_REC_VISIBILITY_ERR = false.

(** ** A chain whose last live entry is a selected tombstone

    [tombstone_last s r pre t post unpack]: in the chain [pre ++ t :: post]
    every entry but [t] is aborted; [t] is a tombstone the walk selects
    (committed, and not skipped as prepared) that passes the assertion on
    metadata updates of lines 325-328 (the tree is not the metadata, or the
    tombstone's transaction id is NONE, or is not the checkpoint's, or the
    session is the checkpoint's), that is not globally visible and whose
    time pair is not (NONE, NONE); the on-disk cell [unpack] is a value cell
    whose start transaction is not ABORTED, and nothing makes the appender
    skip or fail: no reason to skip at [t] or below, the cell's stop pair
    not globally visible and, when set, equal to the tombstone's pair unless
    the cell is prepared, and the read of the cell's value succeeds. *)
Record tombstone_last (s : WT_SESSION_IMPL) (r : WT_RECONCILE)
    (pre : list WT_UPDATE) (t : WT_UPDATE) (post : list WT_UPDATE)
    (unpack : WT_CELL_UNPACK) : Prop := {
  tl_pre_aborted : Forall (fun u => txnid u = WT_TXN_ABORTED) pre;
  tl_post_aborted : Forall (fun u => txnid u = WT_TXN_ABORTED) post;
  tl_tombstone : type t = WT_UPDATE_TOMBSTONE;
  tl_live : txnid t <> WT_TXN_ABORTED;
  tl_committed : committed_by_rule s r (txnid t);
  tl_prepare : prepare_allows r t;
  tl_metadata : is_metadata s = false \/ txnid t = WT_TXN_NONE
                \/ txnid t <> checkpoint_txn_id s \/ session_is_checkpoint s = true;
  tl_not_visible : txn_visible_all s (txnid t) (start_ts t) = false;
  tl_pair_set : start_ts t <> WT_TS_NONE \/ txnid t <> WT_TXN_NONE;
  tl_value_cell : cell_kind unpack = WT_CELL_VALUE;
  tl_cell_live : tw_start_txn (cell_tw unpack) <> WT_TXN_ABORTED;
  tl_no_skip : ~ Exists (review_skips s unpack) (t :: post);
  tl_stop_not_visible : ~ cell_stop_visible s unpack;
  tl_stop_matches :
    cell_has_stop unpack = true ->
    unpack_prepare unpack = true
    \/ (tw_stop_ts (cell_tw unpack) = start_ts t
        /\ tw_stop_txn (cell_tw unpack) = txnid t);
  tl_copy_ok : append_value_copy s unpack = None
}.

(** The window composed from the cell's start and the tombstone's stop. *)
Definition tombstone_cell_window (t : WT_UPDATE) (unpack : WT_CELL_UNPACK) : WT_TIME_WINDOW :=
  {| tw_durable_start_ts := tw_durable_start_ts (cell_tw unpack);
     tw_start_ts := tw_start_ts (cell_tw unpack);
     tw_start_txn := tw_start_txn (cell_tw unpack);
     tw_durable_stop_ts := durable_ts t;
     tw_stop_ts := start_ts t;
     tw_stop_txn := txnid t;
     tw_prepare := is_inprogress t |}.

(** ** Concrete inputs

    A session whose transaction manager answers from two thresholds: a
    transaction id below [oldest] (with any timestamp) is globally visible,
    and a transaction id below [snap_max] is visible to the reconciliation's
    snapshot.  Prepared updates are not globally visible.  The read of a
    cell's value succeeds, and the two counters are 32 bits wide. *)
Definition ex_session (oldest snap_max : Z) (hs : bool) : WT_SESSION_IMPL :=
  {| txn_visible_all := fun txn _ => txn <? oldest;
     txn_upd_visible_all := fun u => negb (is_prepared u) && (txnid u <? oldest);
     txn_upd_visible_type := fun u =>
       if is_prepared u then WT_VISIBLE_PREPARE else WT_VISIBLE_TRUE;
     txn_visible := fun txn _ => txn <? snap_max;
     txn_visible_id := fun txn => txn <? snap_max;
     btree_hs := hs;
     conn_in_memory := false;
     is_metadata := false;
     checkpoint_txn_id := 0;
     session_is_checkpoint := false;
     WT_UPDATE_DATA_VALUE := fun u => is_standard u || is_tombstone u;
     upd_alloc_size := fun n => n + 40;
     scr_alloc := None;
     page_cell_data_ref := fun _ => None;
     upd_alloc := None;
     upd_alloc_tombstone := None;
     updates_seen_bits := 32;
     updates_unstable_bits := 32 |}.

(** A fresh reconcile context with the given flags and cached [last_running]. *)
Definition ex_rec (fl : list rec_flag) (pg : page_type) (running : Z) : WT_RECONCILE :=
  {| flags := fl; page := pg; last_running := running;
     updates_seen := 0; updates_unstable := 0;
     max_txn := WT_TXN_NONE; max_ts := WT_TS_NONE; max_ondisk_ts := WT_TS_NONE;
     min_skipped_ts := WT_TS_MAX;
     supd := []; supd_memsize := 0;
     leave_dirty := false; cache_write_restore := false |}.

Definition STD (txn ts : Z) : WT_UPDATE :=
  mk_upd txn ts ts WT_UPDATE_STANDARD WT_PREPARE_INIT false 48.

Definition TOMB (txn ts : Z) : WT_UPDATE :=
  mk_upd txn ts ts WT_UPDATE_TOMBSTONE WT_PREPARE_INIT false 40.

Definition ABORTED_STD (ts : Z) : WT_UPDATE := STD WT_TXN_ABORTED ts.

(** An on-disk value cell with start [(ts, txn)] and stop [(MAX, MAX)]. *)
Definition ex_cell (ts txn : Z) (kind : cell_type) (prep ovfl : bool) : WT_CELL_UNPACK :=
  {| cell_kind := kind;
     cell_tw := mk_tw ts ts txn WT_TS_NONE WT_TS_MAX WT_TXN_MAX false;
     unpack_prepare := prep;
     unpack_overflow := ovfl;
     cell_data_size := 10 |}.

(** The state a call returns with ([d] when the call faults). *)
Definition state_of (o : outcome) (d : select_state) : select_state :=
  match o with
  | Returned _ st => st
  | Failed _ st => st
  | Faulted _ => d
  end.

Definition ex_state0 : select_state :=
  mk_state (ex_rec [] WT_PAGE_ROW_LEAF 0) [] 0 (mk_sel None time_window_init) [].

(** Scenario 4 of the specification: an uncommitted update above a committed
    one, under eviction.  Transactions below 8 are visible to the snapshot.
    The call returns OK, selects the older update and records a save with
    the restore flag on. *)
Definition ex_evict_newer_state : select_state :=
  Eval vm_compute in
    state_of (rec_upd_select (ex_session 0 8 false)
                (ex_rec [WT_REC_EVICT] WT_PAGE_ROW_LEAF 100)
                (Some 1%nat) None [STD 8 0; STD 4 25] None) ex_state0.

(** A checkpoint of a fixed-length column-store page: one committed update
    that is not globally visible.  The call returns OK and records a save
    with the restore flag off. *)
Definition ex_colfix_checkpoint_state : select_state :=
  Eval vm_compute in
    state_of (rec_upd_select (ex_session 0 100 false)
                (ex_rec [WT_REC_CHECKPOINT] WT_PAGE_COL_FIX 100)
                (Some 1%nat) None [STD 5 30] None) ex_state0.

(** Scenario 6 of the specification: one committed update over an overflow
    cell, in a reconciliation with no history store.  The call returns OK,
    records no save and calls the appender before returning. *)
Definition ex_overflow_state : select_state :=
  Eval vm_compute in
    state_of (rec_upd_select (ex_session 0 100 false)
                (ex_rec [WT_REC_VISIBLE_ALL] WT_PAGE_ROW_LEAF 100)
                (Some 1%nat) None [STD 12 60]
                (Some (ex_cell 20 3 WT_CELL_VALUE false true))) ex_state0.

(** One committed update over a deleted cell, with a history store.  The
    call returns OK and records a save; the appender is not called. *)
Definition ex_deleted_cell_state : select_state :=
  Eval vm_compute in
    state_of (rec_upd_select (ex_session 0 100 false)
                (ex_rec [WT_REC_VISIBLE_ALL; WT_REC_HS] WT_PAGE_COL_VAR 100)
                (Some 1%nat) None [STD 12 60]
                (Some (ex_cell 20 3 WT_CELL_DEL false false))) ex_state0.

(** Scenario 3 of the specification: a lone tombstone over a value cell
    with start (20, 3) and no stop.  The call returns OK with the cell's
    value appended and selected. *)
Definition ex_lone_tombstone_state : select_state :=
  Eval vm_compute in
    state_of (rec_upd_select (ex_session 0 100 false)
                (ex_rec [WT_REC_VISIBLE_ALL] WT_PAGE_ROW_LEAF 100)
                (Some 1%nat) None [TOMB 9 50]
                (Some (ex_cell 20 3 WT_CELL_VALUE false false))) ex_state0.

(** A lone tombstone whose transaction is still running (9 is not below the
    cached [last_running] 5).  The call returns OK with an empty selection
    and the chain as it was. *)
Definition ex_uncommitted_tombstone_state : select_state :=
  Eval vm_compute in
    state_of (rec_upd_select (ex_session 0 100 false)
                (ex_rec [WT_REC_VISIBLE_ALL] WT_PAGE_ROW_LEAF 5)
                (Some 1%nat) None [TOMB 9 50]
                (Some (ex_cell 20 3 WT_CELL_VALUE false false))) ex_state0.

(** Scenario 2 of the specification: a tombstone over a value, both
    committed and neither globally visible.  The call returns OK and
    selects the value. *)
Definition ex_tombstone_over_value_state : select_state :=
  Eval vm_compute in
    state_of (rec_upd_select (ex_session 0 100 false)
                (ex_rec [WT_REC_VISIBLE_ALL] WT_PAGE_ROW_LEAF 100)
                (Some 1%nat) None [TOMB 7 40; STD 5 30] None) ex_state0.

(** A lone tombstone that is globally visible (transactions below 10 are).
    The call returns OK with the tombstone selected. *)
Definition ex_visible_tombstone_state : select_state :=
  Eval vm_compute in
    state_of (rec_upd_select (ex_session 10 100 false)
                (ex_rec [WT_REC_VISIBLE_ALL] WT_PAGE_ROW_LEAF 100)
                (Some 1%nat) None [TOMB 7 40] None) ex_state0.

(** An uncommitted update alone in the chain, with a clean page demanded.
    The call returns BUSY. *)
Definition ex_clean_after_rec_state : select_state :=
  Eval vm_compute in
    state_of (rec_upd_select (ex_session 0 8 false)
                (ex_rec [WT_REC_CLEAN_AFTER_REC] WT_PAGE_ROW_LEAF 100)
                (Some 1%nat) None [STD 8 0] None) ex_state0.

(** A committed update above an uncommitted one, under eviction.  The walk
    returns BUSY at the second entry. *)
Definition ex_busy_walk_state : select_state :=
  Eval vm_compute in
    state_of (rec_upd_select (ex_session 0 8 false)
                (ex_rec [WT_REC_EVICT] WT_PAGE_ROW_LEAF 100)
                (Some 1%nat) None [STD 4 25; STD 8 0] None) ex_state0.

(** Whether a call returned OK. *)
Definition returns_ok (o : outcome) : bool :=
  match o with
  | Returned RET_OK _ => true
  | _ => false
  end.

(** Scenario 1 of the specification: two committed updates, both globally
    visible (transactions below 100 are), with a history store. *)
Definition ex_scenario1 : outcome :=
  rec_upd_select (ex_session 100 100 false)
    (ex_rec [WT_REC_VISIBLE_ALL; WT_REC_HS] WT_PAGE_ROW_LEAF 100)
    (Some 1%nat) None [STD 5 30; STD 3 20] None.

(** Scenario 5 of the specification: commit timestamps out of order, and a
    cached [last_running] of 9 under VISIBLE_ALL. *)
Definition ex_scenario5 : outcome :=
  rec_upd_select (ex_session 0 100 false)
    (ex_rec [WT_REC_VISIBLE_ALL] WT_PAGE_ROW_LEAF 9)
    (Some 1%nat) None [STD 10 5; STD 6 40] None.

(** ** Notions for the further properties *)

(** The watermarks only move outwards, and the mode is kept: flags, page
    and [last_running] as they were, [max_txn], [max_ts], [max_ondisk_ts]
    not lowered, [min_skipped_ts] not raised. *)
Definition watermarks_le (r r' : WT_RECONCILE) : Prop :=
  flags r' = flags r /\ page r' = page r /\ last_running r' = last_running r
  /\ max_txn r <= max_txn r' /\ max_ts r <= max_ts r'
  /\ max_ondisk_ts r <= max_ondisk_ts r'
  /\ min_skipped_ts r' <= min_skipped_ts r.

(** The number of live (non-aborted) entries of a chain. *)
Fixpoint count_live (l : list WT_UPDATE) : Z :=
  match l with
  | [] => 0
  | u :: l' => (if is_aborted u then 0 else 1) + count_live l'
  end.

(** The bytes [WT_UPDATE_MEMSIZE] reports for the live entries of a chain. *)
Fixpoint live_memsize (l : list WT_UPDATE) : Z :=
  match l with
  | [] => 0
  | u :: l' => (if is_aborted u then 0 else upd_memsize u) + live_memsize l'
  end.

(** [oldest_live chain i j o]: [o], at index [j], is the oldest live entry
    of the chain from index [i] on: it is not aborted and every entry after
    it is. *)
Definition oldest_live (chain : list WT_UPDATE) (i j : nat) (o : WT_UPDATE) : Prop :=
  (i <= j)%nat /\ chain !! j = Some o /\ txnid o <> WT_TXN_ABORTED
  /\ forall k v, (j < k)%nat -> chain !! k = Some v -> txnid v = WT_TXN_ABORTED.

(** The walk ends without returning, having passed over a live entry
    ([has_newer_updates]); the assertions on its selection hold and
    VISIBILITY_ERR is set. *)
Definition newer_updates_on_visibility_err (s : WT_SESSION_IMPL) (r : WT_RECONCILE)
    (chain : list WT_UPDATE) : Prop :=
  exists ctl w,
    rec_upd_walk s r chain = (ctl, w)
    /\ (ctl = LoopNext \/ ctl = LoopBreak)
    /\ selection_assert s chain (w_sel w) = true
    /\ w_has_newer_updates w = true
    /\ F_ISSET r WT_REC_VISIBILITY_ERR = true.

(** A call with a live, uncommitted update alone in the chain, with both
    VISIBILITY_ERR and CLEAN_AFTER_REC set.  The call returns PANIC. *)
Definition ex_panic_state : select_state :=
  Eval vm_compute in
    state_of (rec_upd_select (ex_session 0 8 false)
                (ex_rec [WT_REC_CLEAN_AFTER_REC; WT_REC_VISIBILITY_ERR] WT_PAGE_ROW_LEAF 100)
                (Some 1%nat) None [STD 8 0] None) ex_state0.

(** An eviction that demands a clean page, over one committed update.  The
    call returns OK. *)
Definition ex_clean_evict_state : select_state :=
  Eval vm_compute in
    state_of (rec_upd_select (ex_session 0 8 false)
                (ex_rec [WT_REC_EVICT; WT_REC_CLEAN_AFTER_REC] WT_PAGE_ROW_LEAF 100)
                (Some 1%nat) None [ABORTED_STD 30; STD 4 25] None) ex_state0.

(** A committed update whose prepare is in progress. *)
Definition PREPARED_STD (txn ts : Z) : WT_UPDATE :=
  mk_upd txn ts ts WT_UPDATE_STANDARD WT_PREPARE_INPROGRESS false 48.

(** An eviction over one update whose prepare is in progress.  The call
    returns OK, selects the update with the window's prepare flag on and
    records a save. *)
Definition ex_prepared_evict_state : select_state :=
  Eval vm_compute in
    state_of (rec_upd_select (ex_session 0 8 false)
                (ex_rec [WT_REC_EVICT] WT_PAGE_ROW_LEAF 100)
                (Some 1%nat) None [PREPARED_STD 4 25] None) ex_state0.

(** [first_selectable s r chain i u]: [u], at index [i], is the newest entry
    of the chain that the walk may select. *)
Definition first_selectable (s : WT_SESSION_IMPL) (r : WT_RECONCILE)
    (chain : list WT_UPDATE) (i : nat) (u : WT_UPDATE) : Prop :=
  chain !! i = Some u /\ selectable s r u
  /\ forall j v, (j < i)%nat -> chain !! j = Some v -> ~ selectable s r v.

(** The walk has selected the entry [u] at index [i] and its running maxima
    cover it. *)
Definition found_tracked (i : nat) (u : WT_UPDATE) (w : walk_state) : Prop :=
  w_sel w = Some i /\ txnid u <= w_max_txn w /\ start_ts u <= w_max_ts w.

(** The walk has skipped the prepared entry [v] and tracked it. *)
Definition skipped_tracked (v : WT_UPDATE) (w : walk_state) : Prop :=
  min_skipped_ts (w_r w) <= start_ts v /\ start_ts v <= w_max_ts w
  /\ w_has_newer_updates w = true.

(** A checkpoint-like reconciliation (no eviction) over a prepared update
    above a committed one.  The call returns OK, skips the prepared update
    and selects the one below. *)
Definition ex_skipped_prepared_state : select_state :=
  Eval vm_compute in
    state_of (rec_upd_select (ex_session 0 8 false)
                (ex_rec [] WT_PAGE_ROW_LEAF 100)
                (Some 1%nat) None [PREPARED_STD 4 25; STD 3 20] None) ex_state0.

(** The window of a value [u] that is still current: start from the
    update, no stop. *)
Definition value_window (u : WT_UPDATE) : WT_TIME_WINDOW :=
  {| tw_durable_start_ts := durable_ts u;
     tw_start_ts := start_ts u;
     tw_start_txn := txnid u;
     tw_durable_stop_ts := WT_TS_NONE;
     tw_stop_ts := WT_TS_MAX;
     tw_stop_txn := WT_TXN_MAX;
     tw_prepare := is_inprogress u |}.

(** The window of a value [nu] removed by the tombstone [t]: start from the
    value, stop from the tombstone. *)
Definition removed_value_window (t nu : WT_UPDATE) : WT_TIME_WINDOW :=
  {| tw_durable_start_ts := durable_ts nu;
     tw_start_ts := start_ts nu;
     tw_start_txn := txnid nu;
     tw_durable_stop_ts := durable_ts t;
     tw_stop_ts := start_ts t;
     tw_stop_txn := txnid t;
     tw_prepare := is_inprogress t |}.

(** The window a tombstone [t] leaves when it is earlier than the value it
    removes: start and stop are both the tombstone's. *)
Definition tombstone_only_window (t : WT_UPDATE) : WT_TIME_WINDOW :=
  {| tw_durable_start_ts := durable_ts t;
     tw_start_ts := start_ts t;
     tw_start_txn := txnid t;
     tw_durable_stop_ts := durable_ts t;
     tw_stop_ts := start_ts t;
     tw_stop_txn := txnid t;
     tw_prepare := is_inprogress t |}.

(** A tombstone committed with an earlier timestamp than the value below
    it (out of order), neither globally visible.  The call returns OK and
    selects the value. *)
Definition ex_out_of_order_state : select_state :=
  Eval vm_compute in
    state_of (rec_upd_select (ex_session 0 100 false)
                (ex_rec [WT_REC_VISIBLE_ALL] WT_PAGE_ROW_LEAF 100)
                (Some 1%nat) None [TOMB 7 20; ABORTED_STD 25; STD 5 30] None) ex_state0.

(** The number of live, committed entries of a chain that
    [__rec_update_stable] does not find stable. *)
Fixpoint count_unstable (s : WT_SESSION_IMPL) (r : WT_RECONCILE)
    (l : list WT_UPDATE) : Z :=
  match l with
  | [] => 0
  | u :: l' =>
      (if negb (is_aborted u) && negb (rec_uncommitted s r (txnid u))
          && negb (rec_update_stable s r u)
       then 1 else 0) + count_unstable s r l'
  end.

(** A plain update: when it is live, it is a STANDARD or MODIFY update that
    is not prepared. *)
Definition plain_update (u : WT_UPDATE) : Prop :=
  txnid u <> WT_TXN_ABORTED ->
  (type u = WT_UPDATE_STANDARD \/ type u = WT_UPDATE_MODIFY) /\ is_prepared u = false.

(** The bytes [WT_UPDATE_MEMSIZE] reports for the entries of a list. *)
Fixpoint chain_memsize (l : list WT_UPDATE) : Z :=
  match l with
  | [] => 0
  | u :: l' => upd_memsize u + chain_memsize l'
  end.

(** A reconcile context under eviction whose counters stand at the given
    values. *)
Definition ex_rec_counters (seen unstable : Z) : WT_RECONCILE :=
  {| flags := [WT_REC_EVICT]; page := WT_PAGE_ROW_LEAF; last_running := 100;
     updates_seen := seen; updates_unstable := unstable;
     max_txn := WT_TXN_NONE; max_ts := WT_TS_NONE; max_ondisk_ts := WT_TS_NONE;
     min_skipped_ts := WT_TS_MAX;
     supd := []; supd_memsize := 0;
     leave_dirty := false; cache_write_restore := false |}.

(** An eviction over an uncommitted update above one whose prepare is in
    progress, entered with both counters at the greatest value of their 32
    bits.  The call returns OK and the counters wrap around: [updates_seen]
    ends at 1 and [updates_unstable] at 0. *)
Definition ex_counter_wrap_state : select_state :=
  Eval vm_compute in
    state_of (rec_upd_select (ex_session 0 8 false)
                (ex_rec_counters 4294967295 4294967295)
                (Some 1%nat) None [STD 8 0; PREPARED_STD 4 25] None) ex_state0.

(** [ends_with o st]: the call ends with a return, one of its own or the
    error of a callee, and leaves [st] behind. *)
Definition ends_with (o : outcome) (st : select_state) : Prop :=
  match o with
  | Returned _ st' => st' = st
  | Failed _ st' => st' = st
  | Faulted _ => False
  end.

(** The session [ex_session oldest snap_max false], except that the read of
    a cell's value fails with the error code [e]. *)
Definition ex_session_read_fails (oldest snap_max e : Z) : WT_SESSION_IMPL :=
  {| txn_visible_all := txn_visible_all (ex_session oldest snap_max false);
     txn_upd_visible_all := txn_upd_visible_all (ex_session oldest snap_max false);
     txn_upd_visible_type := txn_upd_visible_type (ex_session oldest snap_max false);
     txn_visible := txn_visible (ex_session oldest snap_max false);
     txn_visible_id := txn_visible_id (ex_session oldest snap_max false);
     btree_hs := false;
     conn_in_memory := false;
     is_metadata := false;
     checkpoint_txn_id := 0;
     session_is_checkpoint := false;
     WT_UPDATE_DATA_VALUE := WT_UPDATE_DATA_VALUE (ex_session oldest snap_max false);
     upd_alloc_size := upd_alloc_size (ex_session oldest snap_max false);
     scr_alloc := None;
     page_cell_data_ref := fun _ => Some e;
     upd_alloc := None;
     upd_alloc_tombstone := None;
     updates_seen_bits := 32;
     updates_unstable_bits := 32 |}.

(** An eviction over an uncommitted update above a committed one, with a
    value cell whose read fails with the error code 5.  The save is recorded
    (line 472), then the call of the appender before returning (line 497)
    fails: the call ends with that error code, the save and the dirty mark
    in place and the chain as it was. *)
Definition ex_failed_after_save : outcome :=
  rec_upd_select (ex_session_read_fails 0 8 5)
    (ex_rec [WT_REC_EVICT] WT_PAGE_ROW_LEAF 100)
    (Some 1%nat) None [STD 8 0; STD 4 25]
    (Some (ex_cell 20 3 WT_CELL_VALUE false false)).

Definition ex_failed_after_save_state : select_state :=
  Eval vm_compute in state_of ex_failed_after_save ex_state0.

(** A lone tombstone over a value cell whose read fails with the error code
    5.  The call of the appender for the lone tombstone (line 406) fails:
    the call ends with that error code, the selection empty, the window with
    the tombstone's stop only, no save and the chain as it was. *)
Definition ex_failed_lone_tombstone : outcome :=
  rec_upd_select (ex_session_read_fails 0 100 5)
    (ex_rec [WT_REC_VISIBLE_ALL] WT_PAGE_ROW_LEAF 100)
    (Some 1%nat) None [TOMB 9 50]
    (Some (ex_cell 20 3 WT_CELL_VALUE false false)).

Definition ex_failed_lone_tombstone_state : select_state :=
  Eval vm_compute in state_of ex_failed_lone_tombstone ex_state0.

(** [composes o st]: the call went on to compose the window (line 359) and
    leaves [st] behind: it returns OK, or fails in a call of the appender. *)
Definition composes (o : outcome) (st : select_state) : Prop :=
  o = Returned RET_OK st \/ exists e, o = Failed e st.

(** [append_callee_fails s unpack e]: a callee of the appender fails with the
    error code [e]: one of the three of lines 119-121, or the allocation of
    the tombstone (line 136). *)
Definition append_callee_fails (s : WT_SESSION_IMPL) (unpack : WT_CELL_UNPACK)
    (e : Z) : Prop :=
  append_value_copy s unpack = Some e \/ upd_alloc_tombstone s = Some e.

(** ** Tactics *)

(** Case analysis on every [match] of a hypothesis. *)
Ltac destruct_matches H :=
  repeat match type of H with
         | context [match ?x with _ => _ end] => destruct x eqn:?; try discriminate H
         end.

(** ** Properties *)

(** *** The scenarios of the specification, run through the embedding *)

Example scenario1_selects_head :
  returns_ok ex_scenario1 = true
  /\ upd (st_sel (state_of ex_scenario1 ex_state0)) = Some 0%nat
  /\ tw (st_sel (state_of ex_scenario1 ex_state0))
     = mk_tw 30 30 5 WT_TS_NONE WT_TS_MAX WT_TXN_MAX false
  /\ supd (st_r (state_of ex_scenario1 ex_state0)) = [].
Proof. vm_compute. repeat split. Qed.

Example scenario2_selects_value_below_tombstone :
  upd (st_sel ex_tombstone_over_value_state) = Some 1%nat
  /\ tw (st_sel ex_tombstone_over_value_state) = mk_tw 30 30 5 40 40 7 false.
Proof. vm_compute. repeat split. Qed.

Example scenario4_saves_with_restore :
  upd (st_sel ex_evict_newer_state) = Some 1%nat
  /\ leave_dirty (st_r ex_evict_newer_state) = true
  /\ supd (st_r ex_evict_newer_state) = [mk_supd (Some 1%nat) None (Some 1%nat) true]
  /\ cache_write_restore (st_r ex_evict_newer_state) = true.
Proof. vm_compute. repeat split. Qed.

Example scenario5_uses_cached_last_running :
  returns_ok ex_scenario5 = true
  /\ upd (st_sel (state_of ex_scenario5 ex_state0)) = Some 1%nat
  /\ leave_dirty (st_r (state_of ex_scenario5 ex_state0)) = true
  /\ max_txn (st_r (state_of ex_scenario5 ex_state0)) = 10.
Proof. vm_compute. repeat split. Qed.

Section SaveDecision.

Variable s : WT_SESSION_IMPL.
Variable r : WT_RECONCILE.

(** C6.  [__rec_need_save_upd] follows exactly the ordered rule set: a
    prepared selection is saved; under EVICT with newer updates it is saved;
    otherwise without HS, IN_MEMORY or a fixed-length column-store page it is
    not saved; under CHECKPOINT with an empty selection it is not saved; in
    all remaining cases it is saved iff neither the start pair nor the stop
    pair of the window is globally visible.  The rules decide [b] exactly
    when the function returns [b]. *)
Theorem need_save_upd_follows_rules (sel : WT_UPDATE_SELECT) (newer b : bool) :
  save_decision s r sel newer b <-> rec_need_save_upd s r sel newer = b.
Proof.
  unfold rec_need_save_upd. split.
  - intros H. destruct H as [Hp | Hp He Hn | Hp Hen Hhs Him Hpg
                             | Hp Hen Hhs Hck Hsel | Hp Hen Hhs Hck].
    + now rewrite Hp.
    + now rewrite Hp, He, Hn.
    + rewrite Hp, Hhs, Him.
      destruct (F_ISSET r WT_REC_EVICT), newer; simpl;
        try (exfalso; apply Hen; now split);
        destruct (page r); simpl; congruence.
    + rewrite Hp, Hck, Hsel.
      destruct (F_ISSET r WT_REC_EVICT), newer; simpl;
        try (exfalso; apply Hen; now split);
        destruct (F_ISSET r WT_REC_HS), (F_ISSET r WT_REC_IN_MEMORY), (page r);
        simpl; try reflexivity; exfalso; apply Hhs; repeat split; congruence.
    + rewrite Hp.
      assert (He : F_ISSET r WT_REC_EVICT && newer = false).
      { destruct (F_ISSET r WT_REC_EVICT), newer; simpl; try reflexivity.
        exfalso; apply Hen; now split. }
      rewrite He.
      assert (Hh : negb (F_ISSET r WT_REC_HS) && negb (F_ISSET r WT_REC_IN_MEMORY)
                   && negb (match page r with WT_PAGE_COL_FIX => true | _ => false end)
                   = false).
      { destruct (F_ISSET r WT_REC_HS), (F_ISSET r WT_REC_IN_MEMORY), (page r);
          simpl; try reflexivity; exfalso; apply Hhs; repeat split; congruence. }
      rewrite Hh.
      assert (Hc : F_ISSET r WT_REC_CHECKPOINT
                   && (match upd sel with None => true | Some _ => false end) = false).
      { destruct (F_ISSET r WT_REC_CHECKPOINT), (upd sel) eqn:E; simpl; try reflexivity.
        exfalso; apply Hck; now split. }
      rewrite Hc. apply andb_comm.
  - intros <-.
    destruct (tw_prepare (tw sel)) eqn:Hp; [now apply SavePrepared|].
    destruct (F_ISSET r WT_REC_EVICT && newer) eqn:He.
    { apply andb_true_iff in He as [He Hn]. now apply SaveEvictNewer. }
    assert (Hen : ~ (F_ISSET r WT_REC_EVICT = true /\ newer = true)).
    { intros [E N]. rewrite E, N in He. discriminate. }
    destruct (negb (F_ISSET r WT_REC_HS) && negb (F_ISSET r WT_REC_IN_MEMORY)
              && negb (match page r with WT_PAGE_COL_FIX => true | _ => false end)) eqn:Hh.
    { apply andb_true_iff in Hh as [Hh Hpg]. apply andb_true_iff in Hh as [Hhs Him].
      apply negb_true_iff in Hhs, Him.
      apply NoSaveWithoutHistoryStore; auto.
      intros E. rewrite E in Hpg. discriminate. }
    assert (Hhs : ~ (F_ISSET r WT_REC_HS = false /\ F_ISSET r WT_REC_IN_MEMORY = false
                     /\ page r <> WT_PAGE_COL_FIX)).
    { intros (A & B & C). rewrite A, B in Hh. simpl in Hh.
      destruct (page r); simpl in Hh; congruence. }
    destruct (F_ISSET r WT_REC_CHECKPOINT
              && (match upd sel with None => true | Some _ => false end)) eqn:Hc.
    { apply andb_true_iff in Hc as [Hck Hsel].
      apply NoSaveCheckpointEmpty; auto.
      destruct (upd sel); [discriminate | reflexivity]. }
    rewrite andb_comm. apply SaveByWindow; auto.
    intros [A B]. rewrite A, B in Hc. discriminate.
Qed.

End SaveDecision.

(** *** The walk over aborted entries *)

Lemma walk_step_aborted s chain idx u w :
  txnid u = WT_TXN_ABORTED -> walk_step s chain idx u w = (LoopNext, w).
Proof. intros H. unfold walk_step. rewrite H, Z.eqb_refl. reflexivity. Qed.

Lemma walk_loop_all_aborted s chain rest :
  Forall (fun u => txnid u = WT_TXN_ABORTED) rest ->
  forall idx w, walk_loop s chain rest idx w = (LoopNext, w).
Proof.
  induction 1 as [|u rest Hu _ IH]; intros idx w; simpl.
  - reflexivity.
  - rewrite walk_step_aborted by assumption. apply IH.
Qed.

(** C10.  With no update chain, or a chain in which every entry is aborted,
    the call returns OK with an empty selection, the time window at its
    defaults (start = (NONE, NONE), stop = (MAX, MAX)), no saved-update entry
    recorded and the reconcile context unchanged in every field; the chain
    is left as it was and the appender is not called. *)
Theorem upd_select_all_aborted_frame (s : WT_SESSION_IMPL) (r : WT_RECONCILE)
    (ins ripcip : option ref) (chain : list WT_UPDATE) (vpack : option WT_CELL_UNPACK) :
  Forall (fun u => txnid u = WT_TXN_ABORTED) chain ->
  exists st,
    rec_upd_select s r ins ripcip chain vpack = Returned RET_OK st
    /\ upd (st_sel st) = None
    /\ tw (st_sel st) = time_window_init
    /\ (tw_start_ts (tw (st_sel st)), tw_start_txn (tw (st_sel st)))
       = (WT_TS_NONE, WT_TXN_NONE)
    /\ (tw_stop_ts (tw (st_sel st)), tw_stop_txn (tw (st_sel st)))
       = (WT_TS_MAX, WT_TXN_MAX)
    /\ supd (st_r st) = supd r
    /\ st_r st = r
    /\ st_chain st = chain
    /\ st_append_calls st = [].
Proof.
  intros Hab.
  exists (mk_state r chain 0 (mk_sel None time_window_init) []).
  split; [|repeat split].
  unfold rec_upd_select, rec_upd_select_chain, rec_upd_walk.
  rewrite (walk_loop_all_aborted s chain chain Hab).
  destruct ins, chain; reflexivity.
Qed.

Lemma upd_select_all_aborted_frame_witness :
  exists st,
    rec_upd_select (ex_session 10 100 false)
      (ex_rec [WT_REC_EVICT; WT_REC_HS] WT_PAGE_ROW_LEAF 100)
      (Some 1%nat) None [ABORTED_STD 30; ABORTED_STD 20] None = Returned RET_OK st
    /\ upd (st_sel st) = None
    /\ tw (st_sel st) = time_window_init
    /\ (tw_start_ts (tw (st_sel st)), tw_start_txn (tw (st_sel st)))
       = (WT_TS_NONE, WT_TXN_NONE)
    /\ (tw_stop_ts (tw (st_sel st)), tw_stop_txn (tw (st_sel st)))
       = (WT_TS_MAX, WT_TXN_MAX)
    /\ supd (st_r st) = supd (ex_rec [WT_REC_EVICT; WT_REC_HS] WT_PAGE_ROW_LEAF 100)
    /\ st_r st = ex_rec [WT_REC_EVICT; WT_REC_HS] WT_PAGE_ROW_LEAF 100
    /\ st_chain st = [ABORTED_STD 30; ABORTED_STD 20]
    /\ st_append_calls st = [].
Proof.
  apply upd_select_all_aborted_frame.
  repeat constructor.
Defined.

(** *** The walk selects the newest committed update *)

Lemma rec_uncommitted_false_iff s r txn :
  rec_uncommitted s r txn = false <-> committed_by_rule s r txn.
Proof.
  unfold rec_uncommitted, committed_by_rule, WT_TXNID_LE.
  destruct (btree_hs s); simpl.
  - split; auto.
  - destruct (F_ISSET r WT_REC_VISIBLE_ALL).
    + rewrite Z.leb_gt. split; [auto | intros [H|H]; [discriminate | exact H]].
    + rewrite negb_false_iff. split; [auto | intros [H|H]; [discriminate | exact H]].
Qed.

Lemma is_prepared_false_iff u :
  is_prepared u = false <->
  prepare_state u <> WT_PREPARE_LOCKED /\ prepare_state u <> WT_PREPARE_INPROGRESS.
Proof.
  unfold is_prepared. destruct (prepare_state u); split; try congruence;
    try (intros [A B]; congruence); intros _; split; congruence.
Qed.

Lemma is_prepared_true_iff u :
  is_prepared u = true <->
  prepare_state u = WT_PREPARE_LOCKED \/ prepare_state u = WT_PREPARE_INPROGRESS.
Proof.
  unfold is_prepared. destruct (prepare_state u); split; try congruence; auto;
    intros [A|A]; congruence.
Qed.

Lemma is_inprogress_true_iff u :
  is_inprogress u = true <-> prepare_state u = WT_PREPARE_INPROGRESS.
Proof. unfold is_inprogress. destruct (prepare_state u); split; congruence. Qed.

Lemma same_mode_F_ISSET r r' f : same_mode r r' -> F_ISSET r' f = F_ISSET r f.
Proof. intros (H & _). unfold F_ISSET. now rewrite H. Qed.

Lemma same_mode_uncommitted s r r' txn :
  same_mode r r' -> rec_uncommitted s r' txn = rec_uncommitted s r txn.
Proof.
  intros H. unfold rec_uncommitted.
  rewrite (same_mode_F_ISSET _ _ _ H). destruct H as (_ & _ & -> & _). reflexivity.
Qed.

Lemma walk_step_same_mode s chain idx u w ctl w' r :
  walk_step s chain idx u w = (ctl, w') -> same_mode r (w_r w) -> same_mode r (w_r w').
Proof.
  unfold walk_step, walk_select, walk_account, walk_skip_prepared, walk_set_newer.
  intros H Hm.
  repeat match type of H with
         | context [if ?b then _ else _] => destruct b
         | context [match w_sel ?x with _ => _ end] => destruct (w_sel x)
         end; inversion H; subst; simpl; exact Hm.
Qed.

Lemma walk_loop_same_mode s chain r rest :
  forall idx w ctl w',
    walk_loop s chain rest idx w = (ctl, w') ->
    same_mode r (w_r w) -> same_mode r (w_r w').
Proof.
  induction rest as [|u rest IH]; intros idx w ctl w' H Hm; simpl in H.
  - inversion H; subst; exact Hm.
  - destruct (walk_step s chain idx u w) as [c w1] eqn:E.
    pose proof (walk_step_same_mode _ _ _ _ _ _ _ r E Hm) as Hm1.
    destruct c; try (inversion H; subst; exact Hm1).
    eapply IH; eauto.
Qed.

Lemma same_mode_refl r : same_mode r r.
Proof. repeat split. Qed.

Lemma drop_cons_inv {A} (l : list A) (n : nat) (x : A) (rest : list A) :
  drop n l = x :: rest -> l !! n = Some x /\ drop (S n) l = rest.
Proof.
  intros H.
  assert (Hx : l !! n = Some x).
  { rewrite <- (Nat.add_0_r n), <- lookup_drop, H. reflexivity. }
  split; [exact Hx|].
  rewrite (drop_S _ _ _ Hx) in H. now inversion H.
Qed.

Section WalkSelection.

Variable s : WT_SESSION_IMPL.
Variable r : WT_RECONCILE.
Variable chain : list WT_UPDATE.

Lemma walk_inv_sel_ok idx w : walk_inv s r chain idx w -> sel_ok s r chain w.
Proof. intros [_ H]. unfold sel_ok. destruct (w_sel w); auto. Qed.

Lemma all_newer_skipped_S idx u :
  chain !! idx = Some u ->
  all_newer_skipped s r chain idx ->
  (txnid u <> WT_TXN_ABORTED -> skip_reason s r u) ->
  all_newer_skipped s r chain (S idx).
Proof.
  intros Hu Hall Hskip j v Hj Hv Hlive.
  destruct (Nat.eq_dec j idx) as [->|Hne].
  - rewrite Hu in Hv. inversion Hv; subst. auto.
  - apply (Hall j v); auto. lia.
Qed.

Lemma walk_select_inv idx u w ctl w' :
  chain !! idx = Some u ->
  walk_inv s r chain idx w ->
  selectable s r u ->
  walk_select s idx u w = (ctl, w') ->
  sel_ok s r chain w' /\ (ctl = LoopNext -> walk_inv s r chain (S idx) w').
Proof.
  intros Hu [Hm Hsel] Hgood H.
  assert (Hnew : match (match w_sel w with None => Some idx | Some i => Some i end) with
                 | Some i => good_sel s r chain i
                 | None => True
                 end).
  { destruct (w_sel w); [exact Hsel|]. exists u. auto. }
  unfold walk_select in H.
  repeat match type of H with
         | context [if ?b then _ else _] => destruct b
         end; inversion H; subst; unfold sel_ok, walk_inv; simpl;
    (split; [exact Hnew | intros _; split; [exact Hm|]]);
    destruct (w_sel w); auto; exists u; auto.
Qed.

Lemma walk_step_inv idx u w ctl w' :
  chain !! idx = Some u ->
  walk_inv s r chain idx w ->
  walk_step s chain idx u w = (ctl, w') ->
  sel_ok s r chain w' /\ (ctl = LoopNext -> walk_inv s r chain (S idx) w').
Proof.
  intros Hu Hinv H.
  pose proof Hinv as [Hm Hsel].
  unfold walk_step in H.
  destruct (txnid u =? WT_TXN_ABORTED) eqn:Hab.
  { inversion H; subst. split; [eapply walk_inv_sel_ok; eauto|].
    intros _. split; [exact Hm|].
    destruct (w_sel w'); [exact Hsel|].
    apply (all_newer_skipped_S idx u); auto.
    intros Hlive. apply Z.eqb_eq in Hab. contradiction. }
  apply Z.eqb_neq in Hab.
  assert (Hm1 : same_mode r (w_r (walk_account s idx u w))) by exact Hm.
  assert (Hinv1 : walk_inv s r chain idx (walk_account s idx u w)) by (split; [exact Hm1 | exact Hsel]).
  rewrite (same_mode_uncommitted s r _ _ Hm1) in H.
  rewrite (same_mode_F_ISSET r _ _ Hm1) in H.
  destruct (rec_uncommitted s r (txnid u)) eqn:Hun.
  { simpl in H. destruct (w_sel w) eqn:Hw; inversion H; subst; unfold sel_ok, walk_inv; simpl;
      rewrite Hw.
    - split; [exact Hsel | intros; discriminate].
    - split; [exact I | intros _; split; [exact Hm|]].
      apply (all_newer_skipped_S idx u); auto. intros _. now left. }
  apply rec_uncommitted_false_iff in Hun.
  destruct (is_prepared u) eqn:Hprep.
  - destruct (prepared_assert chain (walk_account s idx u w) u).
    2:{ simpl in H. inversion H; subst. split; [|intros; discriminate].
        unfold sel_ok; simpl. destruct (w_sel w); auto. }
    simpl in H.
    destruct (F_ISSET r WT_REC_EVICT) eqn:Hev; simpl in H.
    + destruct (is_inprogress u) eqn:Hip; simpl in H.
      * apply (walk_select_inv idx u _ ctl w' Hu Hinv1); auto.
        repeat split; auto. right. split; auto. now apply is_inprogress_true_iff.
      * inversion H; subst. split; [|intros; discriminate].
        unfold sel_ok; simpl. destruct (w_sel w); auto.
    + inversion H; subst. unfold sel_ok, walk_inv; simpl.
      split; [destruct (w_sel w); auto|]. intros _.
      split.
      { destruct (start_ts u <? min_skipped_ts _); exact Hm. }
      destruct (w_sel w); auto.
      apply (all_newer_skipped_S idx u); auto. intros _. right. auto.
  - apply (walk_select_inv idx u _ ctl w' Hu Hinv1); auto.
    repeat split; auto. left. now apply is_prepared_false_iff.
Qed.

Lemma walk_loop_sel_ok rest :
  forall idx w ctl w',
    drop idx chain = rest ->
    walk_inv s r chain idx w ->
    walk_loop s chain rest idx w = (ctl, w') ->
    sel_ok s r chain w'.
Proof.
  induction rest as [|u rest IH]; intros idx w ctl w' Hd Hinv H; simpl in H.
  - inversion H; subst. eapply walk_inv_sel_ok; eauto.
  - apply drop_cons_inv in Hd as [Hu Hd].
    destruct (walk_step s chain idx u w) as [c w1] eqn:E.
    destruct (walk_step_inv idx u w c w1 Hu Hinv E) as [Hok Hnext].
    destruct c; try (inversion H; subst; exact Hok).
    eapply IH; eauto.
Qed.

End WalkSelection.

(** The chain walk alone.  Whatever way the chain walk of
    [__wt_rec_upd_select] ends, the update it leaves in [upd_select->upd]
    (when non-null) is the first entry,
    newest first, that is non-aborted, committed under the reconciliation's
    visibility rule and not prepared (LOCKED or IN_PROGRESS), except under
    eviction where an update whose prepare is in progress may be selected:
    no strictly newer entry is selectable, and every strictly newer
    non-aborted entry is uncommitted or prepared. *)
Theorem walk_selects_newest_committed (s : WT_SESSION_IMPL) (r : WT_RECONCILE)
    (chain : list WT_UPDATE) (ctl : loop_ctl) (w : walk_state) (i : nat) :
  rec_upd_walk s r chain = (ctl, w) ->
  w_sel w = Some i ->
  exists u,
    chain !! i = Some u
    /\ txnid u <> WT_TXN_ABORTED
    /\ committed_by_rule s r (txnid u)
    /\ prepare_allows r u
    /\ forall j v, (j < i)%nat -> chain !! j = Some v ->
         ~ selectable s r v
         /\ (txnid v <> WT_TXN_ABORTED ->
             ~ committed_by_rule s r (txnid v)
             \/ prepare_state v = WT_PREPARE_LOCKED
             \/ prepare_state v = WT_PREPARE_INPROGRESS).
Proof.
  intros Hwalk Hsel.
  assert (Hok : sel_ok s r chain w).
  { eapply (walk_loop_sel_ok s r chain chain 0%nat); [reflexivity | | exact Hwalk].
    split; [apply same_mode_refl|]. simpl. intros j v Hj. lia. }
  unfold sel_ok in Hok. rewrite Hsel in Hok.
  destruct Hok as (u & Hu & (Hlive & Hcom & Hprep) & Hnewer).
  exists u. repeat split; auto.
  - intros (Hlv & Hcv & Hpv).
    destruct (Hnewer j v H H0 Hlv) as [Hun | [Hp Hev]].
    + apply rec_uncommitted_false_iff in Hcv. congruence.
    + destruct Hpv as [Hnp | [He _]]; [|congruence].
      apply is_prepared_false_iff in Hnp. congruence.
  - intros Hlv.
    destruct (Hnewer j v H H0 Hlv) as [Hun | [Hp Hev]].
    + left. intros Hc. apply rec_uncommitted_false_iff in Hc. congruence.
    + right. now apply is_prepared_true_iff.
Qed.

Lemma walk_selects_newest_committed_witness :
  exists u,
    [STD 10 5; STD 6 40] !! 1%nat = Some u
    /\ txnid u <> WT_TXN_ABORTED
    /\ committed_by_rule (ex_session 5 100 false)
         (ex_rec [WT_REC_VISIBLE_ALL] WT_PAGE_ROW_LEAF 9) (txnid u)
    /\ prepare_allows (ex_rec [WT_REC_VISIBLE_ALL] WT_PAGE_ROW_LEAF 9) u
    /\ forall j v, (j < 1)%nat -> [STD 10 5; STD 6 40] !! j = Some v ->
         ~ selectable (ex_session 5 100 false)
             (ex_rec [WT_REC_VISIBLE_ALL] WT_PAGE_ROW_LEAF 9) v
         /\ (txnid v <> WT_TXN_ABORTED ->
             ~ committed_by_rule (ex_session 5 100 false)
                 (ex_rec [WT_REC_VISIBLE_ALL] WT_PAGE_ROW_LEAF 9) (txnid v)
             \/ prepare_state v = WT_PREPARE_LOCKED
             \/ prepare_state v = WT_PREPARE_INPROGRESS).
Proof.
  eapply (walk_selects_newest_committed (ex_session 5 100 false)
            (ex_rec [WT_REC_VISIBLE_ALL] WT_PAGE_ROW_LEAF 9)
            [STD 10 5; STD 6 40] LoopBreak).
  - vm_compute. reflexivity.
  - reflexivity.
Defined.

(** *** Taking a return of [__wt_rec_upd_select] apart *)

Lemma rec_upd_select_eq_chain s r ins ripcip chain vpack :
  rec_upd_select s r ins ripcip chain vpack
  = rec_upd_select_chain s r ins ripcip chain vpack.
Proof. destruct ins, chain; reflexivity. Qed.

Lemma walk_step_return s chain idx u w rc w' :
  walk_step s chain idx u w = (LoopReturn rc, w') ->
  rc = RET_EBUSY /\ w_sel w' <> None /\ w_sel w' = w_sel w.
Proof.
  unfold walk_step, walk_select. intros H.
  change (w_sel (walk_account s idx u w)) with (w_sel w) in H.
  destruct (w_sel w) eqn:Hs;
    repeat match type of H with
           | context [if ?b then _ else _] => destruct b
           end; inversion H; subst; simpl; rewrite Hs; repeat split; congruence.
Qed.

Lemma walk_loop_return s chain rest :
  forall idx w rc w',
    walk_loop s chain rest idx w = (LoopReturn rc, w') ->
    rc = RET_EBUSY /\ w_sel w' <> None.
Proof.
  induction rest as [|u rest IH]; intros idx w rc w' H; simpl in H.
  - discriminate.
  - destruct (walk_step s chain idx u w) as [c w1] eqn:E.
    destruct c; try discriminate.
    + eapply IH; eauto.
    + inversion H; subst. apply walk_step_return in E. tauto.
Qed.

Lemma rec_upd_finish_inv s ins ripcip chain vpack w rc st :
  rec_upd_finish s ins ripcip chain vpack w = Returned rc st ->
  rc = RET_OK
  /\ exists chain1 mem1 sel1 calls1 r3 upd_saved,
       rec_compose_window s chain vpack (w_sel w) = Composed chain1 mem1 sel1 calls1
       /\ rec_save_step s (rec_track (rec_track_ondisk chain w) w) chain1 ins ripcip
            (mk_sel (upd sel1) (tw_repair (tw sel1)))
            (w_has_newer_updates w) (w_upd_memsize w) = Some (r3, upd_saved)
       /\ not_aborted_assert chain1 (upd sel1) = true
       /\ st_sel st = mk_sel (upd sel1) (tw_repair (tw sel1))
       /\ st_r st = r3
       /\ (if final_append_cond (mk_sel (upd sel1) (tw_repair (tw sel1))) vpack upd_saved
           then exists chain2 mem2,
                  rec_append_orig_value s chain1 (upd sel1) vpack = AppendOk chain2 mem2
                  /\ st_chain st = chain2
                  /\ st_page_mem st = wrap64 (mem1 + mem2)
                  /\ st_append_calls st = calls1 ++ [(AtReturn, upd sel1)]
           else st_chain st = chain1 /\ st_page_mem st = mem1
                /\ st_append_calls st = calls1).
Proof.
  unfold rec_upd_finish. intros H.
  destruct (rec_compose_window s chain vpack (w_sel w))
    as [chain1 mem1 sel1 calls1|e sel1 calls1|f] eqn:Hc; [|discriminate..].
  destruct (rec_save_step _ _ _ _ _ _ _ _) as [[r3 saved]|] eqn:Hs; [|discriminate].
  simpl in H.
  destruct (not_aborted_assert chain1 (upd sel1)) eqn:Hna; simpl in H; [|discriminate].
  destruct (final_append_cond _ vpack saved) eqn:Hf.
  - destruct (rec_append_orig_value s chain1 (upd sel1) vpack) as [chain2 mem2|e|f] eqn:Ha;
      [|discriminate..].
    inversion H; subst. split; [reflexivity|].
    exists chain1, mem1, sel1, calls1, r3, saved. rewrite Hf.
    repeat split; auto. exists chain2, mem2. repeat split; auto.
  - inversion H; subst. split; [reflexivity|].
    exists chain1, mem1, sel1, calls1, r3, saved. rewrite Hf.
    repeat split; auto.
Qed.

(** A return with OK either comes before any live entry was seen, with the
    output at its initial values, or goes through [rec_upd_finish]. *)
Lemma rec_upd_select_chain_after s r ins ripcip chain vpack ctl w :
  rec_upd_walk s r chain = (ctl, w) ->
  ctl = LoopNext \/ ctl = LoopBreak ->
  rec_upd_select_chain s r ins ripcip chain vpack
  = rec_upd_after_walk s ins ripcip chain vpack w.
Proof.
  intros Hw Hctl. unfold rec_upd_select_chain. rewrite Hw.
  destruct Hctl as [-> | ->]; reflexivity.
Qed.

Lemma rec_upd_select_ok_inv s r ins ripcip chain vpack st :
  rec_upd_select s r ins ripcip chain vpack = Returned RET_OK st ->
  exists ctl w,
    rec_upd_walk s r chain = (ctl, w)
    /\ (ctl = LoopNext \/ ctl = LoopBreak)
    /\ selection_assert s chain (w_sel w) = true
    /\ ((w_first_txn_upd w = None /\ w_sel w = None
         /\ st = mk_state (w_r w) chain 0 (mk_sel None time_window_init) [])
        \/ (w_first_txn_upd w <> None
            /\ w_has_newer_updates w
               && (F_ISSET (w_r w) WT_REC_CLEAN_AFTER_REC
                   || F_ISSET (w_r w) WT_REC_VISIBILITY_ERR) = false
            /\ rec_upd_finish s ins ripcip chain vpack w = Returned RET_OK st)).
Proof.
  rewrite rec_upd_select_eq_chain.
  destruct (rec_upd_walk s r chain) as [ctl w] eqn:Hw. intros H.
  exists ctl, w. split; [reflexivity|].
  assert (Hctl : ctl = LoopNext \/ ctl = LoopBreak).
  { unfold rec_upd_select_chain in H. rewrite Hw in H.
    destruct ctl as [| |rc0|f]; auto; [|discriminate].
    destruct (walk_loop_return _ _ _ _ _ _ _ Hw) as [-> _]. discriminate. }
  split; [exact Hctl|].
  rewrite (rec_upd_select_chain_after _ _ _ _ _ _ _ _ Hw Hctl) in H.
  unfold rec_upd_after_walk in H.
  destruct (selection_assert s chain (w_sel w)); simpl in H; [|discriminate].
  split; [reflexivity|].
  destruct (w_first_txn_upd w) eqn:Hf.
  - right. split; [congruence|].
    destruct (w_has_newer_updates w && _) eqn:Hn.
    + destruct (F_ISSET (w_r w) WT_REC_VISIBILITY_ERR); discriminate.
    + split; [reflexivity | exact H].
  - left. destruct (w_sel w) eqn:Hs; [discriminate|].
    inversion H; subst. repeat split.
Qed.

(** *** The out-of-order repair *)

Lemma tw_out_of_order_iff w : tw_out_of_order w = true <-> tw_stop_lt_start w.
Proof.
  unfold tw_out_of_order, tw_stop_lt_start.
  rewrite orb_true_iff, andb_true_iff, Z.ltb_lt, Z.eqb_eq, Z.ltb_lt. reflexivity.
Qed.

Lemma tw_repair_start_le_stop w : tw_start_le_stop (tw_repair w).
Proof.
  unfold tw_repair. destruct (tw_out_of_order w) eqn:E.
  - unfold tw_start_le_stop; simpl. right. split; [reflexivity | lia].
  - assert (H : ~ tw_stop_lt_start w).
    { intros H. apply tw_out_of_order_iff in H. congruence. }
    unfold tw_stop_lt_start in H. unfold tw_start_le_stop. lia.
Qed.

Lemma tw_repair_id w : ~ tw_stop_lt_start w -> tw_repair w = w.
Proof.
  intros H. unfold tw_repair. destruct (tw_out_of_order w) eqn:E; [|reflexivity].
  apply tw_out_of_order_iff in E. contradiction.
Qed.

Lemma rec_upd_after_walk_window s r ins ripcip chain vpack ctl w rc st :
  rec_upd_walk s r chain = (ctl, w) ->
  rec_upd_after_walk s ins ripcip chain vpack w = Returned rc st ->
  exists c, window_composed s r chain vpack c /\ tw (st_sel st) = tw_repair c.
Proof.
  intros Hw H. unfold rec_upd_after_walk in H.
  destruct (selection_assert s chain (w_sel w)); simpl in H; [|discriminate].
  destruct (w_first_txn_upd w).
  2:{ destruct (w_sel w) eqn:Hs; [discriminate|]. inversion H; subst.
      exists time_window_init. split; [now left | reflexivity]. }
  destruct (w_has_newer_updates w && _).
  { destruct (F_ISSET (w_r w) WT_REC_VISIBILITY_ERR); inversion H; subst;
      (exists time_window_init; split; [now left | reflexivity]). }
  apply rec_upd_finish_inv in H
    as (_ & chain1 & mem1 & sel1 & calls1 & r3 & saved & Hcw & _ & _ & Hsel & _).
  exists (tw sel1). split.
  - right. exists ctl, w, chain1, mem1, sel1, calls1. auto.
  - rewrite Hsel. reflexivity.
Qed.

(** C3.  For every time window [__wt_rec_upd_select] returns: the window is
    the composed window after the out-of-order repair; if in the composed
    window stop < start (strictly by timestamp, or with equal timestamps and
    stop_txn < start_txn) the start is rewritten to the stop (start_ts :=
    stop_ts, start_txn := stop_txn, durable_start_ts := durable_stop_ts) and
    the stop is kept; when the start and stop pairs are equal, and whenever
    stop < start does not hold, the window is returned as composed; hence
    start <= stop holds on the returned window. *)
Theorem upd_select_window_start_le_stop (s : WT_SESSION_IMPL) (r : WT_RECONCILE)
    (ins ripcip : option ref) (chain : list WT_UPDATE)
    (vpack : option WT_CELL_UNPACK) (rc : wt_ret) (st : select_state) :
  rec_upd_select s r ins ripcip chain vpack = Returned rc st ->
  exists c,
    window_composed s r chain vpack c
    /\ tw (st_sel st) = tw_repair c
    /\ (tw_stop_lt_start c ->
        tw_start_ts (tw (st_sel st)) = tw_stop_ts c
        /\ tw_start_txn (tw (st_sel st)) = tw_stop_txn c
        /\ tw_durable_start_ts (tw (st_sel st)) = tw_durable_stop_ts c
        /\ tw_stop_ts (tw (st_sel st)) = tw_stop_ts c
        /\ tw_stop_txn (tw (st_sel st)) = tw_stop_txn c
        /\ tw_durable_stop_ts (tw (st_sel st)) = tw_durable_stop_ts c
        /\ tw_start_ts (tw (st_sel st)) = tw_stop_ts (tw (st_sel st))
        /\ tw_start_txn (tw (st_sel st)) = tw_stop_txn (tw (st_sel st)))
    /\ (tw_start_ts c = tw_stop_ts c /\ tw_start_txn c = tw_stop_txn c ->
        tw (st_sel st) = c)
    /\ (~ tw_stop_lt_start c -> tw (st_sel st) = c)
    /\ tw_start_le_stop (tw (st_sel st)).
Proof.
  intros H.
  assert (Hc : exists c, window_composed s r chain vpack c
                         /\ tw (st_sel st) = tw_repair c).
  { rewrite rec_upd_select_eq_chain in H. unfold rec_upd_select_chain in H.
    destruct (rec_upd_walk s r chain) as [ctl w] eqn:Hw.
    destruct ctl as [| |rc0|f].
    - eapply rec_upd_after_walk_window; eauto.
    - eapply rec_upd_after_walk_window; eauto.
    - inversion H; subst. exists time_window_init. split; [now left | reflexivity].
    - discriminate. }
  destruct Hc as (c & Hwc & Heq). exists c.
  split; [exact Hwc|]. split; [exact Heq|]. rewrite Heq.
  split; [|split; [|split]].
  - intros Hlt. apply tw_out_of_order_iff in Hlt.
    unfold tw_repair. rewrite Hlt. simpl. repeat split.
  - intros [Ets Etxn]. apply tw_repair_id. unfold tw_stop_lt_start. lia.
  - apply tw_repair_id.
  - apply tw_repair_start_le_stop.
Qed.

Lemma upd_select_window_start_le_stop_witness :
  exists c,
    window_composed (ex_session 0 100 false)
      (ex_rec [WT_REC_VISIBLE_ALL] WT_PAGE_ROW_LEAF 100)
      [TOMB 7 20; STD 5 30] None c
    /\ mk_tw 20 20 7 20 20 7 false = tw_repair c
    /\ (tw_stop_lt_start c ->
        20 = tw_stop_ts c /\ 7 = tw_stop_txn c /\ 20 = tw_durable_stop_ts c
        /\ 20 = tw_stop_ts c /\ 7 = tw_stop_txn c /\ 20 = tw_durable_stop_ts c
        /\ 20 = 20 /\ 7 = 7)
    /\ (tw_start_ts c = tw_stop_ts c /\ tw_start_txn c = tw_stop_txn c ->
        mk_tw 20 20 7 20 20 7 false = c)
    /\ (~ tw_stop_lt_start c -> mk_tw 20 20 7 20 20 7 false = c)
    /\ tw_start_le_stop (mk_tw 20 20 7 20 20 7 false).
Proof.
  apply (upd_select_window_start_le_stop (ex_session 0 100 false)
           (ex_rec [WT_REC_VISIBLE_ALL] WT_PAGE_ROW_LEAF 100)
           (Some 1%nat) None [TOMB 7 20; STD 5 30] None RET_OK
           (mk_state
              {| flags := [WT_REC_VISIBLE_ALL]; page := WT_PAGE_ROW_LEAF;
                 last_running := 100; updates_seen := 1; updates_unstable := 0;
                 max_txn := 7; max_ts := 20; max_ondisk_ts := 20;
                 min_skipped_ts := WT_TS_MAX; supd := []; supd_memsize := 0;
                 leave_dirty := false; cache_write_restore := false |}
              [TOMB 7 20; STD 5 30] 0
              (mk_sel (Some 1%nat) (mk_tw 20 20 7 20 20 7 false)) [])).
  vm_compute. reflexivity.
Defined.

(** *** What [has_newer_updates] records *)

Section WalkNewer.

Variable s : WT_SESSION_IMPL.
Variable r : WT_RECONCILE.
Variable chain : list WT_UPDATE.

Lemma newer_inv_S_skip idx u w w' :
  chain !! idx = Some u ->
  newer_inv s r chain idx w ->
  same_mode r (w_r w') ->
  w_has_newer_updates w' = true ->
  txnid u <> WT_TXN_ABORTED -> skip_reason s r u ->
  newer_inv s r chain (S idx) w'.
Proof.
  intros Hu [_ Hn] Hm Hnew Hlive Hskip. split; [exact Hm|].
  split; [|auto]. intros _. exists idx, u. repeat split; auto.
Qed.

Lemma newer_inv_S_keep idx u w w' :
  chain !! idx = Some u ->
  newer_inv s r chain idx w ->
  same_mode r (w_r w') ->
  w_has_newer_updates w' = w_has_newer_updates w ->
  (txnid u <> WT_TXN_ABORTED -> ~ skip_reason s r u) ->
  newer_inv s r chain (S idx) w'.
Proof.
  intros Hu [_ Hn] Hm Hsame Hno. split; [exact Hm|].
  rewrite Hsame, Hn. split.
  - intros (j & v & Hj & Hv & Hlive & Hskip). exists j, v. repeat split; auto.
  - intros (j & v & Hj & Hv & Hlive & Hskip).
    destruct (Nat.eq_dec j idx) as [->|Hne].
    + rewrite Hu in Hv. inversion Hv; subst. exfalso. now apply Hno.
    + exists j, v. repeat split; auto. lia.
Qed.

Lemma walk_select_newer idx u w ctl w' :
  walk_select s idx u w = (ctl, w') ->
  w_has_newer_updates w' = w_has_newer_updates w
  /\ (ctl = LoopNext \/ (ctl = LoopBreak /\ F_ISSET (w_r w) WT_REC_EVICT = false))
  /\ w_sel w' <> None.
Proof.
  unfold walk_select. simpl. intros H.
  destruct (F_ISSET (w_r w) WT_REC_EVICT) eqn:Hev; simpl in H.
  - destruct (rec_update_stable s (w_r w) u); simpl in H; inversion H; subst; simpl;
      (split; [reflexivity|]); (split; [now left|]); destruct (w_sel w); congruence.
  - inversion H; subst; simpl.
    split; [reflexivity|]. split; [right; now split|]. destruct (w_sel w); congruence.
Qed.

Lemma walk_step_newer idx u w ctl w' :
  chain !! idx = Some u ->
  newer_inv s r chain idx w ->
  walk_step s chain idx u w = (ctl, w') ->
  (w_has_newer_updates w' = true -> newer_updates s r chain)
  /\ (ctl = LoopNext -> newer_inv s r chain (S idx) w')
  /\ (ctl = LoopBreak -> F_ISSET r WT_REC_EVICT = false).
Proof.
  intros Hu Hinv H.
  pose proof Hinv as [Hm Hn].
  pose proof (walk_step_same_mode _ _ _ _ _ _ _ r H Hm) as Hm'.
  assert (Hold : w_has_newer_updates w = true -> newer_updates s r chain).
  { intros E. apply Hn in E as (j & v & _ & Hv & Hl & Hs). exists j, v. auto. }
  unfold walk_step in H.
  destruct (txnid u =? WT_TXN_ABORTED) eqn:Hab.
  { inversion H; subst. split; [exact Hold|]. split; [|discriminate].
    intros _. apply (newer_inv_S_keep idx u w'); auto.
    intros Hlive. apply Z.eqb_eq in Hab. contradiction. }
  apply Z.eqb_neq in Hab.
  assert (Hm1 : same_mode r (w_r (walk_account s idx u w))) by exact Hm.
  rewrite (same_mode_uncommitted s r _ _ Hm1) in H.
  rewrite (same_mode_F_ISSET r _ _ Hm1) in H.
  change (w_sel (walk_account s idx u w)) with (w_sel w) in H.
  destruct (rec_uncommitted s r (txnid u)) eqn:Hun.
  { assert (Hsk : skip_reason s r u) by now left.
    destruct (w_sel w) eqn:Hw; inversion H; subst; simpl.
    - split; [exact Hold|]. split; discriminate.
    - split; [intros _; exists idx, u; auto|]. split; [|discriminate].
      intros _. apply (newer_inv_S_skip idx u w); auto. }
  destruct (is_prepared u) eqn:Hprep.
  - destruct (prepared_assert chain (walk_account s idx u w) u); simpl in H.
    2:{ inversion H; subst. split; [exact Hold|]. split; discriminate. }
    destruct (F_ISSET r WT_REC_EVICT) eqn:Hev; simpl in H.
    + destruct (is_inprogress u); simpl in H.
      * apply walk_select_newer in H as (Hsame & Hctl & _).
        change (w_has_newer_updates (walk_account s idx u w))
          with (w_has_newer_updates w) in Hsame.
        split; [rewrite Hsame; exact Hold|]. split.
        -- intros _. apply (newer_inv_S_keep idx u w); auto.
           intros _ [Hs | [_ Hs]]; congruence.
        -- intros ->. destruct Hctl as [?|[_ Hf]]; [discriminate|].
           rewrite (same_mode_F_ISSET r _ _ Hm1) in Hf. congruence.
      * inversion H; subst. split; [exact Hold|]. split; discriminate.
    + assert (Hsk : skip_reason s r u) by (right; auto).
      inversion H; subst; simpl.
      split; [intros _; exists idx, u; auto|]. split; [|discriminate].
      intros _. apply (newer_inv_S_skip idx u w); auto.
  - apply walk_select_newer in H as (Hsame & Hctl & _).
    change (w_has_newer_updates (walk_account s idx u w))
      with (w_has_newer_updates w) in Hsame.
    split; [rewrite Hsame; exact Hold|]. split.
    + intros _. apply (newer_inv_S_keep idx u w); auto.
      intros _ [Hs | [Hs _]]; congruence.
    + intros ->. destruct Hctl as [?|[_ Hf]]; [discriminate|].
      rewrite (same_mode_F_ISSET r _ _ Hm1) in Hf. exact Hf.
Qed.

Lemma walk_loop_newer rest :
  forall idx w ctl w',
    drop idx chain = rest ->
    newer_inv s r chain idx w ->
    walk_loop s chain rest idx w = (ctl, w') ->
    (w_has_newer_updates w' = true -> newer_updates s r chain)
    /\ (ctl = LoopNext -> newer_updates s r chain -> w_has_newer_updates w' = true)
    /\ (ctl = LoopBreak -> F_ISSET r WT_REC_EVICT = false).
Proof.
  induction rest as [|u rest IH]; intros idx w ctl w' Hd Hinv H; simpl in H.
  - inversion H; subst. destruct Hinv as [_ Hn]. split; [|split].
    + intros E. apply Hn in E as (j & v & _ & Hv & Hl & Hs). exists j, v. auto.
    + intros _ (j & v & Hv & Hl & Hs). apply Hn. exists j, v. repeat split; auto.
      apply lookup_lt_Some in Hv.
      assert (length chain <= idx)%nat; [|lia].
      rewrite <- (Nat.sub_0_le (length chain) idx), <- length_drop, Hd. reflexivity.
    + discriminate.
  - apply drop_cons_inv in Hd as [Hu Hd].
    destruct (walk_step s chain idx u w) as [c w1] eqn:E.
    destruct (walk_step_newer idx u w c w1 Hu Hinv E) as (Hold & Hnext & Hbrk).
    destruct c; try (inversion H; subst; split; [exact Hold|]; split;
                     [discriminate | exact Hbrk]).
    eapply IH; eauto.
Qed.

(** The walk's [has_newer_updates]: set only if the chain holds a live entry
    the walk passes over, and set whenever it holds one and the walk ran to
    the end of the chain; the walk is left by [break] only outside eviction. *)
Lemma rec_upd_walk_newer ctl w :
  rec_upd_walk s r chain = (ctl, w) ->
  (w_has_newer_updates w = true -> newer_updates s r chain)
  /\ (ctl = LoopNext -> newer_updates s r chain -> w_has_newer_updates w = true)
  /\ (ctl = LoopBreak -> F_ISSET r WT_REC_EVICT = false).
Proof.
  intros H. eapply (walk_loop_newer chain 0%nat); [reflexivity | | exact H].
  split; [apply same_mode_refl|]. simpl. split; [discriminate|].
  intros (j & _ & Hj & _). lia.
Qed.

End WalkNewer.

(** *** The save and its restore flag *)

Lemma rec_track_frame r w :
  flags (rec_track r w) = flags r /\ page (rec_track r w) = page r
  /\ supd (rec_track r w) = supd r
  /\ cache_write_restore (rec_track r w) = cache_write_restore r.
Proof.
  unfold rec_track.
  destruct (WT_TXNID_LT _ _), (w_has_newer_updates w); simpl;
    match goal with
    | |- context [if ?b then _ else _] => destruct b
    end; simpl; repeat split.
Qed.

Lemma rec_track_ondisk_frame chain w :
  flags (rec_track_ondisk chain w) = flags (w_r w)
  /\ page (rec_track_ondisk chain w) = page (w_r w)
  /\ supd (rec_track_ondisk chain w) = supd (w_r w)
  /\ cache_write_restore (rec_track_ondisk chain w) = cache_write_restore (w_r w).
Proof.
  unfold rec_track_ondisk. destruct (deref chain (w_sel w)); [|repeat split].
  destruct (_ <? _); repeat split.
Qed.

Lemma rec_upd_walk_same_mode s r chain ctl w :
  rec_upd_walk s r chain = (ctl, w) -> same_mode r (w_r w).
Proof.
  intros H. eapply walk_loop_same_mode; [exact H|]. apply same_mode_refl.
Qed.

(** The reconcile context the save decision is taken in has the flags, the
    page and the saved updates the call started with. *)
Lemma tracked_frame s r chain ctl w :
  rec_upd_walk s r chain = (ctl, w) ->
  flags (rec_track (rec_track_ondisk chain w) w) = flags r
  /\ page (rec_track (rec_track_ondisk chain w) w) = page r
  /\ supd (rec_track (rec_track_ondisk chain w) w) = supd r.
Proof.
  intros H. apply rec_upd_walk_same_mode in H.
  destruct H as (Hf & Hp & _ & _ & _ & _ & Hs & _).
  destruct (rec_track_frame (rec_track_ondisk chain w) w) as (-> & -> & -> & _).
  destruct (rec_track_ondisk_frame chain w) as (-> & -> & -> & _).
  auto.
Qed.

Lemma rec_save_step_inv s r chain ins ripcip sel newer memsize r' saved :
  rec_save_step s r chain ins ripcip sel newer memsize = Some (r', saved) ->
  (saved = false /\ r' = r /\ rec_need_save_upd s r sel newer = false)
  \/ (saved = true /\ rec_need_save_upd s r sel newer = true
      /\ supd r' = supd r ++ [mk_supd ins ripcip (save_onpage_upd chain (upd sel))
                                (rec_supd_restore s r newer)]
      /\ (rec_supd_restore s r newer = true -> cache_write_restore r' = true)
      /\ flags r' = flags r /\ page r' = page r).
Proof.
  unfold rec_save_step. destruct (rec_need_save_upd s r sel newer) eqn:Hn.
  - destruct (rec_update_save _ _ _ _ _ _ _) as [r2|] eqn:Hs; [|discriminate].
    intros H; inversion H; subst. right.
    unfold rec_update_save in Hs.
    repeat match type of Hs with
           | context [if negb ?b then _ else _] => destruct b; simpl in Hs
           end; try discriminate.
    inversion Hs; subst; simpl.
    destruct (rec_supd_restore s r newer); repeat split; auto; discriminate.
  - intros H; inversion H; subst. left. auto.
Qed.

Lemma rec_supd_restore_true_iff s r newer :
  rec_supd_restore s r newer = true <->
  F_ISSET r WT_REC_EVICT = true
  /\ (newer = true \/ conn_in_memory s = true \/ page r = WT_PAGE_COL_FIX).
Proof.
  unfold rec_supd_restore.
  rewrite andb_true_iff, !orb_true_iff.
  assert (Hpg : (match page r with WT_PAGE_COL_FIX => true | _ => false end) = true
                <-> page r = WT_PAGE_COL_FIX)
    by (destruct (page r); split; congruence).
  rewrite Hpg. tauto.
Qed.

(** C7, as the code has it.  Whenever a call that returns OK records a save,
    the entry's restore flag is set exactly when the reconciliation is an
    eviction and there are newer updates, or the connection is in-memory, or
    the page is a fixed-length column-store page; and whenever the restore
    flag is set, the reconcile context's [cache_write_restore] is set. *)
Theorem save_restore_flag_under_eviction (s : WT_SESSION_IMPL) (r : WT_RECONCILE)
    (ins ripcip : option ref) (chain : list WT_UPDATE)
    (vpack : option WT_CELL_UNPACK) (st : select_state) (e : WT_SAVE_UPD) :
  rec_upd_select s r ins ripcip chain vpack = Returned RET_OK st ->
  supd (st_r st) = supd r ++ [e] ->
  (restore e = true <->
   F_ISSET r WT_REC_EVICT = true
   /\ (newer_updates s r chain \/ conn_in_memory s = true \/ page r = WT_PAGE_COL_FIX))
  /\ (restore e = true -> cache_write_restore (st_r st) = true).
Proof.
  intros H Hsupd.
  apply rec_upd_select_ok_inv in H
    as (ctl & w & Hw & Hctl & _ & [(_ & _ & ->) | (_ & _ & Hf)]).
  { exfalso. simpl in Hsupd.
    apply rec_upd_walk_same_mode in Hw.
    destruct Hw as (_ & _ & _ & _ & _ & _ & Hs & _). rewrite Hs in Hsupd.
    apply (f_equal length) in Hsupd. rewrite length_app in Hsupd. simpl in Hsupd. lia. }
  apply rec_upd_finish_inv in Hf
    as (_ & chain1 & mem1 & sel1 & calls1 & r3 & saved & _ & Hsave & _ & _ & Hr & _).
  destruct (tracked_frame s r chain ctl w Hw) as (Hfl & Hpg & Hsp).
  destruct (rec_upd_walk_newer s r chain ctl w Hw) as (Hn1 & Hn2 & Hbrk).
  rewrite Hr in *. clear Hr.
  apply rec_save_step_inv in Hsave
    as [(_ & -> & _) | (_ & _ & Hs3 & Hcwr & _)].
  { exfalso. rewrite Hsp in Hsupd.
    apply (f_equal length) in Hsupd. rewrite length_app in Hsupd. simpl in Hsupd. lia. }
  rewrite Hsp, Hsupd in Hs3. apply app_inj_tail in Hs3 as [_ ->]. simpl.
  split; [|exact Hcwr].
  rewrite rec_supd_restore_true_iff.
  unfold F_ISSET at 1. rewrite Hfl, Hpg. fold (F_ISSET r WT_REC_EVICT).
  split.
  - intros [Hev [Hn | Hrest]]; (split; [exact Hev|]); [left; auto | right; exact Hrest].
  - intros [Hev [Hn | Hrest]]; (split; [exact Hev|]); [left | right; exact Hrest].
    apply Hn2; [|exact Hn].
    destruct Hctl as [->| ->]; [reflexivity|].
    specialize (Hbrk eq_refl). congruence.
Qed.

Lemma save_restore_flag_under_eviction_witness :
  (restore (mk_supd (Some 1%nat) None (Some 1%nat) true) = true <->
   F_ISSET (ex_rec [WT_REC_EVICT] WT_PAGE_ROW_LEAF 100) WT_REC_EVICT = true
   /\ (newer_updates (ex_session 0 8 false)
         (ex_rec [WT_REC_EVICT] WT_PAGE_ROW_LEAF 100) [STD 8 0; STD 4 25]
       \/ conn_in_memory (ex_session 0 8 false) = true
       \/ page (ex_rec [WT_REC_EVICT] WT_PAGE_ROW_LEAF 100) = WT_PAGE_COL_FIX))
  /\ (restore (mk_supd (Some 1%nat) None (Some 1%nat) true) = true ->
      cache_write_restore (st_r ex_evict_newer_state) = true).
Proof.
  apply (save_restore_flag_under_eviction (ex_session 0 8 false)
           (ex_rec [WT_REC_EVICT] WT_PAGE_ROW_LEAF 100)
           (Some 1%nat) None [STD 8 0; STD 4 25] None ex_evict_newer_state).
  - vm_compute. reflexivity.
  - reflexivity.
Defined.

(** C7 as it is worded fails: under a checkpoint of a fixed-length
    column-store page a save is recorded whose restore flag is off, although
    the page has no history store to spill to. *)
Lemma restore_flag_off_outside_eviction :
  ~ (forall (s : WT_SESSION_IMPL) (r : WT_RECONCILE) (ins ripcip : option ref)
            (chain : list WT_UPDATE) (vpack : option WT_CELL_UNPACK)
            (st : select_state) (e : WT_SAVE_UPD),
        rec_upd_select s r ins ripcip chain vpack = Returned RET_OK st ->
        supd (st_r st) = supd r ++ [e] ->
        (restore e = true <->
         (F_ISSET r WT_REC_EVICT = true /\ newer_updates s r chain)
         \/ conn_in_memory s = true \/ page r = WT_PAGE_COL_FIX)).
Proof.
  intros H.
  specialize (H (ex_session 0 100 false)
                (ex_rec [WT_REC_CHECKPOINT] WT_PAGE_COL_FIX 100)
                (Some 1%nat) None [STD 5 30] None ex_colfix_checkpoint_state
                (mk_supd (Some 1%nat) None (Some 0%nat) false)).
  assert (H1 : rec_upd_select (ex_session 0 100 false)
                 (ex_rec [WT_REC_CHECKPOINT] WT_PAGE_COL_FIX 100)
                 (Some 1%nat) None [STD 5 30] None
               = Returned RET_OK ex_colfix_checkpoint_state)
    by (vm_compute; reflexivity).
  destruct (H H1 eq_refl) as [_ Hset].
  assert (Hr : restore (mk_supd (Some 1%nat) None (Some 0%nat) false) = true).
  { apply Hset. right. right. reflexivity. }
  discriminate Hr.
Qed.

(** *** The call of the appender before returning *)

Lemma rec_compose_window_calls s chain vpack p chain1 mem sel calls :
  rec_compose_window s chain vpack p = Composed chain1 mem sel calls ->
  forall q, ~ In (AtReturn, q) calls.
Proof.
  unfold rec_compose_window. intros H q Hin.
  destruct_matches H; inversion H; subst; simpl in Hin;
    try contradiction; destruct Hin as [E|[]]; discriminate E.
Qed.

Lemma saved_iff_supd_grows s r chain ins ripcip sel newer memsize r' saved :
  rec_save_step s r chain ins ripcip sel newer memsize = Some (r', saved) ->
  (saved = true <-> supd r' <> supd r).
Proof.
  intros H. apply rec_save_step_inv in H as [(-> & -> & _) | (-> & _ & Hs & _)].
  - split; [discriminate | congruence].
  - split; [|reflexivity]. intros _ E. rewrite E in Hs.
    apply (f_equal length) in Hs. rewrite length_app in Hs. simpl in Hs. lia.
Qed.

(** C9, as the code has it.  Upon returning OK, the appender is called
    before returning (with the selection as its argument) exactly when the
    selection is non-empty, an on-disk cell exists and is not a deleted cell,
    and either a save was recorded for this key or the cell's payload is in
    overflow blocks; for the chain [STD(txn=12,ts=60)] over an overflow cell
    it is called although no save is recorded. *)
Theorem final_append_call_condition :
  (forall (s : WT_SESSION_IMPL) (r : WT_RECONCILE) (ins ripcip : option ref)
          (chain : list WT_UPDATE) (vpack : option WT_CELL_UNPACK) (st : select_state),
      rec_upd_select s r ins ripcip chain vpack = Returned RET_OK st ->
      (In (AtReturn, upd (st_sel st)) (st_append_calls st) <->
       upd (st_sel st) <> None
       /\ exists unpack, vpack = Some unpack
                         /\ cell_kind unpack <> WT_CELL_DEL
                         /\ (supd (st_r st) <> supd r \/ unpack_overflow unpack = true))
      /\ (forall q, In (AtReturn, q) (st_append_calls st) -> q = upd (st_sel st)))
  /\ (rec_upd_select (ex_session 0 100 false)
        (ex_rec [WT_REC_VISIBLE_ALL] WT_PAGE_ROW_LEAF 100)
        (Some 1%nat) None [STD 12 60]
        (Some (ex_cell 20 3 WT_CELL_VALUE false true))
      = Returned RET_OK ex_overflow_state
      /\ upd (st_sel ex_overflow_state) = Some 0%nat
      /\ st_append_calls ex_overflow_state = [(AtReturn, Some 0%nat)]
      /\ supd (st_r ex_overflow_state) = []).
Proof.
  split; [|vm_compute; repeat split].
  intros s r ins ripcip chain vpack st H.
  apply rec_upd_select_ok_inv in H
    as (ctl & w & Hw & _ & _ & [(_ & _ & ->) | (_ & _ & Hf)]).
  { simpl. split; [|intros q []].
    split; [intros [] | intros [Hne _]; congruence]. }
  apply rec_upd_finish_inv in Hf
    as (_ & chain1 & mem1 & sel1 & calls1 & r3 & saved & Hcw & Hsave & _ & Hsel & Hr & Hfin).
  destruct (tracked_frame s r chain ctl w Hw) as (_ & _ & Hsp).
  pose proof (saved_iff_supd_grows _ _ _ _ _ _ _ _ _ _ Hsave) as Hsaved.
  rewrite Hsp in Hsaved. rewrite Hr, Hsel. simpl. clear Hsave.
  pose proof (rec_compose_window_calls _ _ _ _ _ _ _ _ Hcw) as Hnoret.
  unfold final_append_cond in Hfin. simpl in Hfin.
  destruct (upd sel1) as [i|] eqn:Hu.
  2:{ destruct Hfin as (_ & _ & ->). split.
      - split; [intros Hin; exfalso; eapply Hnoret; eauto | intros [Hne _]; congruence].
      - intros q Hin. exfalso; eapply Hnoret; eauto. }
  destruct vpack as [unpack|].
  2:{ destruct Hfin as (_ & _ & ->). split.
      - split; [intros Hin; exfalso; eapply Hnoret; eauto|].
        intros (_ & unpack & E & _). discriminate.
      - intros q Hin. exfalso; eapply Hnoret; eauto. }
  destruct (cell_kind unpack) eqn:Hk.
  { destruct Hfin as (_ & _ & ->). split.
    - split; [intros Hin; exfalso; eapply Hnoret; eauto|].
      intros (_ & u' & E & Hnd & _). inversion E; subst. congruence.
    - intros q Hin. exfalso; eapply Hnoret; eauto. }
  destruct (saved || unpack_overflow unpack) eqn:Hso.
  - destruct Hfin as (chain2 & mem2 & _ & _ & _ & ->). split.
    + split.
      * intros _. split; [discriminate|]. exists unpack.
        split; [reflexivity|]. split; [congruence|].
        apply orb_true_iff in Hso as [Hs|Ho]; [left; now apply Hsaved | right; exact Ho].
      * intros _. apply in_or_app. right. left. reflexivity.
    + intros q Hin. apply in_app_or in Hin as [Hin|[E|[]]].
      * exfalso; eapply Hnoret; eauto.
      * now inversion E.
  - destruct Hfin as (_ & _ & ->). split.
    + split; [intros Hin; exfalso; eapply Hnoret; eauto|].
      intros (_ & u' & E & _ & Hor). inversion E; subst.
      apply orb_false_iff in Hso as [Hs Ho].
      destruct Hor as [Hg|Ho']; [|congruence].
      apply Hsaved in Hg. congruence.
    + intros q Hin. exfalso; eapply Hnoret; eauto.
Qed.

Lemma final_append_call_condition_witness :
  (In (AtReturn, upd (st_sel ex_overflow_state)) (st_append_calls ex_overflow_state) <->
   upd (st_sel ex_overflow_state) <> None
   /\ exists unpack, Some (ex_cell 20 3 WT_CELL_VALUE false true) = Some unpack
                     /\ cell_kind unpack <> WT_CELL_DEL
                     /\ (supd (st_r ex_overflow_state)
                         <> supd (ex_rec [WT_REC_VISIBLE_ALL] WT_PAGE_ROW_LEAF 100)
                         \/ unpack_overflow unpack = true))
  /\ (forall q, In (AtReturn, q) (st_append_calls ex_overflow_state) ->
                q = upd (st_sel ex_overflow_state)).
Proof.
  apply (proj1 final_append_call_condition (ex_session 0 100 false)
           (ex_rec [WT_REC_VISIBLE_ALL] WT_PAGE_ROW_LEAF 100)
           (Some 1%nat) None [STD 12 60]
           (Some (ex_cell 20 3 WT_CELL_VALUE false true)) ex_overflow_state).
  vm_compute. reflexivity.
Defined.

(** C9 as it is worded fails on a deleted cell: the selection is non-empty,
    the cell exists and a save was recorded, yet the appender is not called. *)
Lemma final_append_skips_deleted_cell :
  ~ (forall (s : WT_SESSION_IMPL) (r : WT_RECONCILE) (ins ripcip : option ref)
            (chain : list WT_UPDATE) (vpack : option WT_CELL_UNPACK) (st : select_state),
        rec_upd_select s r ins ripcip chain vpack = Returned RET_OK st ->
        (st_append_calls st <> [] <->
         upd (st_sel st) <> None
         /\ exists unpack, vpack = Some unpack
                           /\ (supd (st_r st) <> supd r \/ unpack_overflow unpack = true))).
Proof.
  intros H.
  specialize (H (ex_session 0 100 false)
                (ex_rec [WT_REC_VISIBLE_ALL; WT_REC_HS] WT_PAGE_COL_VAR 100)
                (Some 1%nat) None [STD 12 60]
                (Some (ex_cell 20 3 WT_CELL_DEL false false)) ex_deleted_cell_state).
  assert (H1 : rec_upd_select (ex_session 0 100 false)
                 (ex_rec [WT_REC_VISIBLE_ALL; WT_REC_HS] WT_PAGE_COL_VAR 100)
                 (Some 1%nat) None [STD 12 60]
                 (Some (ex_cell 20 3 WT_CELL_DEL false false))
               = Returned RET_OK ex_deleted_cell_state)
    by (vm_compute; reflexivity).
  destruct (H H1) as [_ Hcall].
  apply Hcall; [|reflexivity].
  split; [discriminate|].
  exists (ex_cell 20 3 WT_CELL_DEL false false).
  split; [reflexivity|]. left. discriminate.
Qed.

(** *** The appender's review of the chain *)

Lemma is_tombstone_true_iff u : is_tombstone u = true <-> type u = WT_UPDATE_TOMBSTONE.
Proof. unfold is_tombstone. destruct (type u); split; congruence. Qed.

Lemma is_tombstone_false_iff u : is_tombstone u = false <-> type u <> WT_UPDATE_TOMBSTONE.
Proof. unfold is_tombstone. destruct (type u); split; congruence. Qed.

Lemma is_standard_true_iff u : is_standard u = true <-> type u = WT_UPDATE_STANDARD.
Proof. unfold is_standard. destruct (type u); split; congruence. Qed.

Lemma review_skips_test s unpack u :
  review_skips s unpack u <->
  restored_for_rollback u = true
  \/ unpack_prepare unpack && negb (is_tombstone u) = true
  \/ (tw_start_ts (cell_tw unpack) =? start_ts u)
     && (tw_start_txn (cell_tw unpack) =? txnid u) && negb (is_tombstone u) = true
  \/ WT_UPDATE_DATA_VALUE s u && txn_upd_visible_all s u = true.
Proof.
  unfold review_skips.
  rewrite !andb_true_iff, !negb_true_iff, !Z.eqb_eq, is_tombstone_false_iff. tauto.
Qed.

Lemma append_review_return_iff s unpack rest :
  forall idx oldest,
    append_review s unpack rest idx oldest = ReviewReturn
    <-> Exists (review_skips s unpack) rest.
Proof.
  induction rest as [|u rest IH]; intros idx oldest; simpl.
  - split; [discriminate | intros H; inversion H].
  - rewrite Exists_cons, review_skips_test.
    destruct (restored_for_rollback u); [tauto|].
    destruct (unpack_prepare unpack && negb (is_tombstone u)); [tauto|].
    destruct ((tw_start_ts (cell_tw unpack) =? start_ts u)
              && (tw_start_txn (cell_tw unpack) =? txnid u)
              && negb (is_tombstone u)); [tauto|].
    destruct (WT_UPDATE_DATA_VALUE s u && txn_upd_visible_all s u); [tauto|].
    rewrite IH. split; [tauto|].
    intros [[H|[H|[H|H]]]|H]; try discriminate. exact H.
Qed.

Lemma app_nonempty_ne {A} (l l' : list A) : l' <> [] -> l ++ l' <> l.
Proof.
  intros Hne E. apply (f_equal length) in E. rewrite length_app in E.
  destruct l'; [congruence|]. simpl in E. lia.
Qed.

(** What the appender can return: the chain as it was, or the chain with the
    original value (and possibly a tombstone before it) at its tail. *)
Lemma rec_append_orig_value_shape s chain p vpack chain' m :
  rec_append_orig_value s chain p vpack = AppendOk chain' m ->
  (chain' = chain /\ m = 0)
  \/ exists unpack, vpack = Some unpack
       /\ (chain' = chain ++ [orig_value_upd s unpack]
           \/ chain' = chain ++ [orig_tombstone_upd s unpack; orig_value_upd s unpack]).
Proof.
  unfold rec_append_orig_value. intros H.
  destruct (deref chain p); [|discriminate].
  destruct p; [|discriminate]. destruct vpack as [unpack|]; [|discriminate].
  destruct (cell_kind unpack); [discriminate|].
  destruct (append_review _ _ _ _ _); [inversion H; auto|].
  destruct (cell_has_stop unpack && _); [inversion H; auto|].
  destruct (append_value_copy s unpack); [discriminate H|].
  right. exists unpack. split; [reflexivity|].
  destruct (cell_has_stop unpack).
  - destruct (deref chain oldest_upd) as [o|]; [|discriminate H].
    destruct (negb (is_tombstone o)).
    { destruct (upd_alloc_tombstone s); [discriminate H|]. inversion H; auto. }
    match type of H with
    | (if ?b then _ else _) = _ => destruct b; [inversion H; auto | discriminate H]
    end.
  - inversion H; auto.
Qed.

(** C8, as the code has it.  With a prepared on-disk cell, the appender
    skips the append (returns with the chain as it was) exactly when, among
    the entries from the one it is given to the end of the chain, one is not
    a tombstone, is flagged restored-for-rollback or is a globally visible
    self-contained update, or when the cell's stop pair is set and globally
    visible.  So it skips whenever the entry it is given is not a tombstone;
    a tombstone there is needed for the append, and is not enough. *)
Theorem prepared_cell_append_skipped (s : WT_SESSION_IMPL) (chain : list WT_UPDATE)
    (i : nat) (u0 : WT_UPDATE) (unpack : WT_CELL_UNPACK) :
  unpack_prepare unpack = true ->
  cell_kind unpack = WT_CELL_VALUE ->
  chain !! i = Some u0 ->
  (rec_append_orig_value s chain (Some i) (Some unpack) = AppendOk chain 0
   <-> Exists (prepared_cell_skips s) (drop i chain) \/ cell_stop_visible s unpack)
  /\ (type u0 <> WT_UPDATE_TOMBSTONE ->
      rec_append_orig_value s chain (Some i) (Some unpack) = AppendOk chain 0)
  /\ (forall chain' m,
        rec_append_orig_value s chain (Some i) (Some unpack) = AppendOk chain' m ->
        chain' <> chain ->
        type u0 = WT_UPDATE_TOMBSTONE
        /\ Forall (fun u => type u = WT_UPDATE_TOMBSTONE) (drop i chain)).
Proof.
  intros Hprep Hkind Hu0.
  assert (Hskip : forall u, prepared_cell_skips s u <-> review_skips s unpack u).
  { intros u. unfold prepared_cell_skips, review_skips. rewrite Hprep. tauto. }
  assert (Hex : Exists (prepared_cell_skips s) (drop i chain)
                <-> Exists (review_skips s unpack) (drop i chain)).
  { rewrite !Exists_exists. split; intros (u & Hin & Hu); exists u; split; auto;
      now apply Hskip. }
  assert (Hiff : rec_append_orig_value s chain (Some i) (Some unpack) = AppendOk chain 0
                 <-> Exists (prepared_cell_skips s) (drop i chain)
                     \/ cell_stop_visible s unpack).
  { rewrite Hex, <- (append_review_return_iff s unpack (drop i chain) i None).
    unfold rec_append_orig_value, cell_stop_visible. simpl. rewrite Hu0, Hkind.
    destruct (append_review s unpack (drop i chain) i None) as [|oldest].
    { split; auto. }
    rewrite <- andb_true_iff.
    destruct (cell_has_stop unpack
              && txn_visible_all s (tw_stop_txn (cell_tw unpack))
                   (tw_stop_ts (cell_tw unpack))) eqn:Hstop.
    { split; auto. }
    split; [|intros [H|H]; discriminate].
    intros H. exfalso.
    assert (Hk : forall l m, l <> [] -> AppendOk (chain ++ l) m = AppendOk chain 0 -> False).
    { intros l m Hl E. injection E as E _. revert E. now apply app_nonempty_ne. }
    destruct (append_value_copy s unpack); [discriminate H|].
    destruct (cell_has_stop unpack).
    - destruct (deref chain oldest) as [o|]; [|discriminate].
      rewrite Hprep in H. simpl in H.
      destruct (negb (is_tombstone o));
        [destruct (upd_alloc_tombstone s); [discriminate H|]|];
        apply Hk in H; auto; discriminate.
    - apply Hk in H; auto; discriminate. }
  split; [exact Hiff|]. split.
  - intros Hnt. apply Hiff. left.
    rewrite (drop_S _ _ _ Hu0). apply Exists_cons_hd. now left.
  - intros chain' m Hret Hne.
    assert (Hno : ~ Exists (prepared_cell_skips s) (drop i chain)).
    { intros Hx.
      assert (E : rec_append_orig_value s chain (Some i) (Some unpack) = AppendOk chain 0)
        by (apply Hiff; now left).
      rewrite E in Hret. inversion Hret. congruence. }
    assert (Hall : Forall (fun u => type u = WT_UPDATE_TOMBSTONE) (drop i chain)).
    { apply Forall_forall. intros u Hin.
      destruct (type u) eqn:Ht; try reflexivity; exfalso; apply Hno;
        apply Exists_exists; exists u; (split; [exact Hin|]); left; congruence. }
    split; [|exact Hall].
    rewrite (drop_S _ _ _ Hu0) in Hall. now inversion Hall.
Qed.

Lemma prepared_cell_append_skipped_witness :
  (rec_append_orig_value (ex_session 0 100 false) [STD 5 30] (Some 0%nat)
     (Some (ex_cell 20 3 WT_CELL_VALUE true false)) = AppendOk [STD 5 30] 0
   <-> Exists (prepared_cell_skips (ex_session 0 100 false)) (drop 0 [STD 5 30])
       \/ cell_stop_visible (ex_session 0 100 false) (ex_cell 20 3 WT_CELL_VALUE true false))
  /\ (type (STD 5 30) <> WT_UPDATE_TOMBSTONE ->
      rec_append_orig_value (ex_session 0 100 false) [STD 5 30] (Some 0%nat)
        (Some (ex_cell 20 3 WT_CELL_VALUE true false)) = AppendOk [STD 5 30] 0)
  /\ (forall chain' m,
        rec_append_orig_value (ex_session 0 100 false) [STD 5 30] (Some 0%nat)
          (Some (ex_cell 20 3 WT_CELL_VALUE true false)) = AppendOk chain' m ->
        chain' <> [STD 5 30] ->
        type (STD 5 30) = WT_UPDATE_TOMBSTONE
        /\ Forall (fun u => type u = WT_UPDATE_TOMBSTONE) (drop 0 [STD 5 30])).
Proof.
  apply (prepared_cell_append_skipped (ex_session 0 100 false) [STD 5 30] 0%nat
           (STD 5 30) (ex_cell 20 3 WT_CELL_VALUE true false)); reflexivity.
Defined.

(** C8 as it is worded fails: with a prepared cell and a tombstone at the
    head of the chain, the append is still skipped when an older entry is not
    a tombstone. *)
Lemma prepared_cell_skip_despite_tombstone_head :
  ~ (forall (s : WT_SESSION_IMPL) (chain : list WT_UPDATE) (u0 : WT_UPDATE)
            (unpack : WT_CELL_UNPACK),
        unpack_prepare unpack = true ->
        cell_kind unpack = WT_CELL_VALUE ->
        chain !! 0%nat = Some u0 ->
        (rec_append_orig_value s chain (Some 0%nat) (Some unpack) = AppendOk chain 0
         <-> type u0 <> WT_UPDATE_TOMBSTONE)).
Proof.
  intros H.
  destruct (H (ex_session 0 100 false) [TOMB 9 50; STD 5 30] (TOMB 9 50)
              (ex_cell 20 3 WT_CELL_VALUE true false) eq_refl eq_refl eq_refl)
    as [Hskip _].
  apply Hskip; reflexivity.
Qed.

(** *** A tombstone as the last live entry *)

Lemma walk_loop_aborted_prefix s chain pre :
  Forall (fun u => txnid u = WT_TXN_ABORTED) pre ->
  forall rest idx w,
    walk_loop s chain (pre ++ rest) idx w
    = walk_loop s chain rest (idx + length pre)%nat w.
Proof.
  induction 1 as [|u pre Hu _ IH]; intros rest idx w; simpl.
  - now rewrite Nat.add_0_r.
  - rewrite walk_step_aborted by assumption. rewrite IH. f_equal. lia.
Qed.

(** The walk's step at a selectable entry when nothing is selected yet. *)
Lemma walk_step_selects s r chain idx u w :
  same_mode r (w_r w) ->
  w_sel w = None ->
  selectable s r u ->
  exists ctl w',
    walk_step s chain idx u w = (ctl, w')
    /\ (ctl = LoopNext \/ ctl = LoopBreak)
    /\ w_sel w' = Some idx
    /\ w_first_txn_upd w'
       = match w_first_txn_upd w with None => Some idx | Some f => Some f end
    /\ w_has_newer_updates w' = w_has_newer_updates w
    /\ same_mode r (w_r w').
Proof.
  intros Hm Hsel (Hlive & Hcom & Hprep).
  assert (Hm1 : same_mode r (w_r (walk_account s idx u w))) by exact Hm.
  assert (Hselect : exists ctl w',
             walk_select s idx u (walk_account s idx u w) = (ctl, w')
             /\ (ctl = LoopNext \/ ctl = LoopBreak)
             /\ w_sel w' = Some idx
             /\ w_first_txn_upd w'
                = match w_first_txn_upd w with None => Some idx | Some f => Some f end
             /\ w_has_newer_updates w' = w_has_newer_updates w
             /\ same_mode r (w_r w')).
  { unfold walk_select. simpl. rewrite Hsel.
    destruct (F_ISSET _ WT_REC_EVICT); simpl.
    - destruct (rec_update_stable _ _ _); simpl; eexists _, _;
        (split; [reflexivity|]); simpl; repeat split; auto; try apply Hm.
    - eexists _, _; (split; [reflexivity|]); simpl; repeat split; auto; try apply Hm. }
  unfold walk_step.
  apply Z.eqb_neq in Hlive. rewrite Hlive.
  rewrite (same_mode_uncommitted s r _ _ Hm1).
  apply rec_uncommitted_false_iff in Hcom. rewrite Hcom.
  destruct Hprep as [Hnp | [Hev Hip]].
  - apply is_prepared_false_iff in Hnp. rewrite Hnp. exact Hselect.
  - assert (Hp : is_prepared u = true) by (apply is_prepared_true_iff; auto).
    rewrite Hp. unfold prepared_assert.
    change (w_sel (walk_account s idx u w)) with (w_sel w). rewrite Hsel. simpl.
    rewrite (same_mode_F_ISSET r _ _ Hm1), Hev. simpl.
    apply is_inprogress_true_iff in Hip. rewrite Hip. simpl. exact Hselect.
Qed.

(** The walk over a chain whose only live entry [t] is selectable. *)
Lemma rec_upd_walk_single_live s r pre t post :
  Forall (fun u => txnid u = WT_TXN_ABORTED) pre ->
  Forall (fun u => txnid u = WT_TXN_ABORTED) post ->
  selectable s r t ->
  exists ctl w,
    rec_upd_walk s r (pre ++ t :: post) = (ctl, w)
    /\ (ctl = LoopNext \/ ctl = LoopBreak)
    /\ w_sel w = Some (length pre)
    /\ w_first_txn_upd w = Some (length pre)
    /\ w_has_newer_updates w = false
    /\ same_mode r (w_r w).
Proof.
  intros Hpre Hpost Hsel.
  unfold rec_upd_walk. rewrite (walk_loop_aborted_prefix _ _ _ Hpre). simpl.
  destruct (walk_step_selects s r (pre ++ t :: post) (length pre) t (walk_init r)
              (same_mode_refl r) eq_refl Hsel)
    as (ctl & w' & Hstep & Hctl & Hs & Hf & Hn & Hm).
  rewrite Hstep.
  destruct Hctl as [-> | ->].
  - rewrite (walk_loop_all_aborted _ _ _ Hpost).
    exists LoopNext, w'. tauto.
  - exists LoopBreak, w'. tauto.
Qed.

Lemma skip_aborted_all post :
  Forall (fun u => txnid u = WT_TXN_ABORTED) post ->
  forall idx, skip_aborted post idx = (idx + length post)%nat.
Proof.
  induction 1 as [|u post Hu _ IH]; intros idx; simpl.
  - lia.
  - rewrite Hu, Z.eqb_refl, IH. lia.
Qed.

Lemma append_review_aborted s unpack post :
  Forall (fun u => txnid u = WT_TXN_ABORTED) post ->
  ~ Exists (review_skips s unpack) post ->
  forall idx oldest, append_review s unpack post idx oldest = ReviewEnd oldest.
Proof.
  induction 1 as [|u post Hu _ IH]; intros Hno idx oldest; simpl.
  - reflexivity.
  - assert (Hu' : ~ review_skips s unpack u)
      by (intros X; apply Hno; now apply Exists_cons_hd).
    rewrite review_skips_test in Hu'.
    destruct (restored_for_rollback u); [tauto|].
    destruct (unpack_prepare unpack && negb (is_tombstone u)); [tauto|].
    destruct ((tw_start_ts (cell_tw unpack) =? start_ts u)
              && (tw_start_txn (cell_tw unpack) =? txnid u)
              && negb (is_tombstone u)); [tauto|].
    destruct (WT_UPDATE_DATA_VALUE s u && txn_upd_visible_all s u); [tauto|].
    unfold is_aborted. rewrite Hu, Z.eqb_refl. simpl.
    apply IH. intros X. apply Hno. now apply Exists_cons_tl.
Qed.

Lemma append_review_live_head s unpack t post idx :
  txnid t <> WT_TXN_ABORTED ->
  Forall (fun u => txnid u = WT_TXN_ABORTED) post ->
  ~ Exists (review_skips s unpack) (t :: post) ->
  append_review s unpack (t :: post) idx None = ReviewEnd (Some idx).
Proof.
  intros Hlive Hpost Hno. simpl.
  assert (Hu' : ~ review_skips s unpack t)
    by (intros X; apply Hno; now apply Exists_cons_hd).
  rewrite review_skips_test in Hu'.
  destruct (restored_for_rollback t); [tauto|].
  destruct (unpack_prepare unpack && negb (is_tombstone t)); [tauto|].
  destruct ((tw_start_ts (cell_tw unpack) =? start_ts t)
            && (tw_start_txn (cell_tw unpack) =? txnid t)
            && negb (is_tombstone t)); [tauto|].
  destruct (WT_UPDATE_DATA_VALUE s t && txn_upd_visible_all s t); [tauto|].
  unfold is_aborted. apply Z.eqb_neq in Hlive. rewrite Hlive. simpl.
  apply append_review_aborted; [exact Hpost|].
  intros X. apply Hno. now apply Exists_cons_tl.
Qed.

(** The call before returning finds the value it would append at the place
    it starts from, and leaves the chain alone. *)
Lemma append_finds_orig_value s chain unpack :
  cell_kind unpack = WT_CELL_VALUE ->
  rec_append_orig_value s (chain ++ [orig_value_upd s unpack])
    (Some (length chain)) (Some unpack)
  = AppendOk (chain ++ [orig_value_upd s unpack]) 0.
Proof.
  intros Hk. unfold rec_append_orig_value. simpl.
  rewrite (list_lookup_middle chain [] (orig_value_upd s unpack) (length chain) eq_refl).
  rewrite Hk.
  rewrite (drop_app_length' chain [orig_value_upd s unpack]) by reflexivity.
  simpl. rewrite !Z.eqb_refl. simpl.
  destruct (unpack_prepare unpack); reflexivity.
Qed.

Lemma drop_after_middle {A} (pre : list A) (x : A) (post : list A) :
  drop (S (length pre)) (pre ++ x :: post) = post.
Proof. induction pre as [|y pre IH]; simpl; auto. Qed.

Section TombstoneLast.

Variable s : WT_SESSION_IMPL.
Variable r : WT_RECONCILE.
Variables pre post : list WT_UPDATE.
Variable t : WT_UPDATE.
Variable unpack : WT_CELL_UNPACK.
Hypothesis TL : tombstone_last s r pre t post unpack.

Lemma tl_lookup : (pre ++ t :: post) !! length pre = Some t.
Proof. apply list_lookup_middle. reflexivity. Qed.

Lemma tl_length : length (pre ++ t :: post) = S (length pre + length post).
Proof. rewrite length_app. simpl. lia. Qed.

Lemma tl_selectable : selectable s r t.
Proof. destruct TL. repeat split; auto. Qed.

Lemma tl_append :
  rec_append_orig_value s (pre ++ t :: post) (Some (length pre)) (Some unpack)
  = AppendOk ((pre ++ t :: post) ++ [orig_value_upd s unpack]) (upd_memsize (orig_value_upd s unpack)).
Proof.
  destruct TL.
  unfold rec_append_orig_value. simpl. rewrite tl_lookup, tl_value_cell0.
  rewrite (drop_S _ _ _ tl_lookup).
  assert (Hd : drop (S (length pre)) (pre ++ t :: post) = post).
  { apply drop_after_middle. }
  rewrite Hd.
  rewrite (append_review_live_head s unpack t post (length pre)) by assumption.
  destruct (cell_has_stop unpack) eqn:Hstop; simpl.
  - destruct (txn_visible_all s (tw_stop_txn (cell_tw unpack))
                (tw_stop_ts (cell_tw unpack))) eqn:Hv.
    { exfalso. apply tl_stop_not_visible0. split; [exact Hstop | exact Hv]. }
    rewrite tl_copy_ok0, tl_lookup.
    apply is_tombstone_true_iff in tl_tombstone0. rewrite tl_tombstone0. simpl.
    destruct (tl_stop_matches0 eq_refl) as [-> | [-> ->]]; [reflexivity|].
    rewrite !Z.eqb_refl, orb_true_r. reflexivity.
  - rewrite tl_copy_ok0. reflexivity.
Qed.

Lemma tl_compose :
  rec_compose_window s (pre ++ t :: post) (Some unpack) (Some (length pre))
  = Composed ((pre ++ t :: post) ++ [orig_value_upd s unpack])
      (upd_memsize (orig_value_upd s unpack))
      (mk_sel (Some (length (pre ++ t :: post))) (tombstone_cell_window t unpack))
      [(AtTombstoneOnly, Some (length pre))].
Proof.
  pose proof TL as [].
  unfold rec_compose_window. rewrite tl_lookup.
  assert (Htomb : is_tombstone t = true) by now apply is_tombstone_true_iff.
  rewrite Htomb, tl_not_visible0. simpl.
  assert (Hd : drop (S (length pre)) (pre ++ t :: post) = post).
  { apply drop_after_middle. }
  rewrite Hd, (skip_aborted_all post tl_post_aborted0).
  assert (Hlast : S (length pre + length post) = length (pre ++ t :: post)) by (now rewrite tl_length).
  rewrite Hlast.
  rewrite (lookup_ge_None_2 (pre ++ t :: post) (length (pre ++ t :: post))) by lia.
  assert (Hset : negb (start_ts t =? WT_TS_NONE) || negb (txnid t =? WT_TXN_NONE) = true).
  { apply orb_true_iff. rewrite !negb_true_iff, !Z.eqb_neq. exact tl_pair_set0. }
  rewrite Hset, tl_append.
  unfold appended_assert. rewrite Hlast.
  rewrite (list_lookup_middle (pre ++ t :: post) [] (orig_value_upd s unpack) (length (pre ++ t :: post)) eq_refl).
  rewrite (lookup_ge_None_2 ((pre ++ t :: post) ++ [orig_value_upd s unpack]) (S (length (pre ++ t :: post))))
    by (rewrite length_app; simpl; lia).
  simpl. rewrite !Z.eqb_refl. simpl.
  unfold tombstone_cell_window, time_window_set_start, time_window_set_stop.
  destruct (is_inprogress t); reflexivity.
Qed.

End TombstoneLast.

Lemma rec_save_step_standard s r chain ins ripcip sel newer memsize a :
  deref chain (upd sel) = Some a ->
  is_standard a = true ->
  exists r' saved,
    rec_save_step s r chain ins ripcip sel newer memsize = Some (r', saved).
Proof.
  intros Hd Hstd.
  unfold rec_save_step, rec_update_save, save_onpage_upd.
  destruct (rec_need_save_upd s r sel newer); [|eauto].
  rewrite Hd.
  assert (Ht : is_tombstone a = false).
  { apply is_standard_true_iff in Hstd. unfold is_tombstone. now rewrite Hstd. }
  rewrite Ht.
  destruct (upd sel) as [k|] eqn:Hk; [|discriminate].
  rewrite Hd, Hstd. simpl. eauto.
Qed.


Lemma ex_lone_tombstone_last :
  tombstone_last (ex_session 0 100 false)
    (ex_rec [WT_REC_VISIBLE_ALL] WT_PAGE_ROW_LEAF 100)
    [] (TOMB 9 50) [] (ex_cell 20 3 WT_CELL_VALUE false false).
Proof.
  constructor.
  - constructor.
  - constructor.
  - reflexivity.
  - discriminate.
  - right. reflexivity.
  - left. split; discriminate.
  - left. reflexivity.
  - reflexivity.
  - left. discriminate.
  - reflexivity.
  - discriminate.
  - intros H. apply Exists_cons in H as [H|H]; [|inversion H].
    destruct H as [H|[[H _]|[(H & _)|[_ H]]]]; vm_compute in H; discriminate H.
  - intros [H _]. discriminate H.
  - intros H. discriminate H.
  - reflexivity.
Defined.



(** *** What the final selection can be *)

Lemma skip_aborted_bounds rest :
  forall idx, (idx <= skip_aborted rest idx <= idx + length rest)%nat.
Proof.
  induction rest as [|u rest IH]; intros idx; simpl; [lia|].
  destruct (txnid u =? WT_TXN_ABORTED); [|lia].
  specialize (IH (S idx)). lia.
Qed.

(** The index the tombstone step ends at is the last of the chain when it
    has no successor. *)
Lemma skip_aborted_last chain i t :
  chain !! i = Some t ->
  chain !! S (skip_aborted (drop (S i) chain) i) = None ->
  S (skip_aborted (drop (S i) chain) i) = length chain.
Proof.
  intros Ht Hnone.
  apply lookup_lt_Some in Ht. apply lookup_ge_None in Hnone.
  pose proof (skip_aborted_bounds (drop (S i) chain) i) as Hb.
  rewrite length_drop in Hb. lia.
Qed.

Lemma skip_aborted_between rest :
  forall idx j v,
    (idx < j <= skip_aborted rest idx)%nat ->
    rest !! (j - S idx)%nat = Some v ->
    txnid v = WT_TXN_ABORTED.
Proof.
  induction rest as [|u rest IH]; intros idx j v Hj Hv; simpl in *; [lia|].
  destruct (txnid u =? WT_TXN_ABORTED) eqn:Hu; [|lia].
  destruct (Nat.eq_dec j (S idx)) as [->|Hne].
  - rewrite Nat.sub_diag in Hv. simpl in Hv. inversion Hv; subst.
    now apply Z.eqb_eq.
  - apply (IH (S idx) j v); [lia|].
    replace (j - S idx)%nat with (S (j - S (S idx))) in Hv by lia. exact Hv.
Qed.

Lemma rec_compose_window_how s chain vpack p chain1 mem sel calls :
  rec_compose_window s chain vpack p = Composed chain1 mem sel calls ->
  composed_how s chain vpack p chain1 sel calls.
Proof.
  unfold rec_compose_window. intros H.
  destruct p as [i|]; [|inversion H; subst; now apply HowNothing].
  destruct (chain !! i) as [u|] eqn:Hu; [|discriminate H].
  destruct (is_tombstone u) eqn:Ht.
  2:{ inversion H; subst. apply is_tombstone_false_iff in Ht.
      eapply HowValue; eauto. }
  apply is_tombstone_true_iff in Ht.
  destruct (txn_visible_all s (txnid u) (start_ts u)) eqn:Hv; simpl in H.
  { inversion H; subst. eapply HowVisibleTombstone; eauto. }
  remember (skip_aborted (drop (S i) chain) i) as j eqn:Hj.
  pose proof (skip_aborted_bounds (drop (S i) chain) i) as Hb. rewrite <- Hj in Hb.
  destruct (chain !! S j) as [nu|] eqn:Hnu.
  { destruct (is_aborted nu) eqn:Hab; [discriminate H|].
    inversion H; subst chain1 mem sel calls.
    eapply (HowBelowTombstone s chain vpack _ _ _ _ i u (S j) nu); eauto.
    - lia.
    - unfold is_aborted in Hab. now apply Z.eqb_neq.
    - intros k v Hk Hkv.
      apply (skip_aborted_between (drop (S i) chain) i k v); [lia|].
      rewrite lookup_drop. replace (S i + (k - S i))%nat with k by lia. exact Hkv. }
  assert (Hlast : S j = length chain).
  { rewrite Hj. eapply skip_aborted_last; eauto. now rewrite <- Hj. }
  destruct (negb (start_ts u =? WT_TS_NONE) || negb (txnid u =? WT_TXN_NONE)) eqn:Hset.
  2:{ inversion H; subst chain1 mem sel calls.
      apply orb_false_iff in Hset as [H1 H2].
      apply negb_false_iff, Z.eqb_eq in H1, H2.
      eapply HowUnsetTombstone; eauto. simpl. now rewrite H1, H2. }
  destruct vpack as [unpack|]; [|discriminate H].
  destruct (rec_append_orig_value s chain (Some i) (Some unpack))
    as [chain' mem'|e|f] eqn:Ha; [|discriminate H..].
  destruct (appended_assert chain' j unpack) eqn:Hasrt; [|discriminate H].
  destruct (chain' !! S j) as [a|] eqn:Happ; [|discriminate H].
  inversion H; subst chain1 mem sel calls. clear H.
  apply rec_append_orig_value_shape in Ha
    as [[-> _] | (unpack' & E & [-> | ->])].
  - rewrite Hnu in Happ. discriminate.
  - inversion E; subst unpack'.
    eapply HowAppended; eauto. simpl. now rewrite Hlast.
  - exfalso. unfold appended_assert in Hasrt. rewrite Happ in Hasrt.
    assert (Hsome : (chain ++ [orig_tombstone_upd s unpack'; orig_value_upd s unpack'])
                      !! S (S j) = Some (orig_value_upd s unpack')).
    { rewrite Hlast. rewrite lookup_app_r by lia.
      replace (S (length chain) - length chain)%nat with 1%nat by lia. reflexivity. }
    rewrite Hsome in Hasrt. rewrite andb_false_r in Hasrt. discriminate.
Qed.

Lemma tw_repair_stop c :
  tw_stop_ts (tw_repair c) = tw_stop_ts c /\ tw_stop_txn (tw_repair c) = tw_stop_txn c.
Proof. unfold tw_repair. destruct (tw_out_of_order c); split; reflexivity. Qed.

Lemma tw_repair_init : tw_repair time_window_init = time_window_init.
Proof. reflexivity. Qed.

(** C5, as the code has it.  On a return with OK the final selection, when
    there is one, is a chain entry with txn_id != ABORTED.  If it is the
    walk's candidate, its kind is STANDARD or MODIFY, or it is a TOMBSTONE
    that is globally visible (which stays selected; never a RESERVE).
    Otherwise the candidate is a tombstone that is not globally visible and
    the selection is the next non-aborted entry below it or, when there is
    none, the synthetic STANDARD entry made from the cell and appended at the
    tail of the chain.  The final selection is none only when the walk
    selected nothing (the window is at its defaults) or for a lone tombstone
    whose pair is (NONE, NONE); nothing is appended then. *)
Theorem final_selection_kind (s : WT_SESSION_IMPL) (r : WT_RECONCILE)
    (ins ripcip : option ref) (chain : list WT_UPDATE)
    (vpack : option WT_CELL_UNPACK) (st : select_state) :
  rec_upd_select s r ins ripcip chain vpack = Returned RET_OK st ->
  exists ctl w,
    rec_upd_walk s r chain = (ctl, w)
    /\ match upd (st_sel st) with
       | Some k =>
           exists u,
             st_chain st !! k = Some u
             /\ txnid u <> WT_TXN_ABORTED
             /\ ((w_sel w = Some k /\ chain !! k = Some u
                  /\ (type u = WT_UPDATE_STANDARD \/ type u = WT_UPDATE_MODIFY
                      \/ (type u = WT_UPDATE_TOMBSTONE
                          /\ txn_visible_all s (txnid u) (start_ts u) = true)))
                 \/ exists i t,
                      w_sel w = Some i /\ chain !! i = Some t
                      /\ type t = WT_UPDATE_TOMBSTONE
                      /\ txn_visible_all s (txnid t) (start_ts t) = false
                      /\ (i < k)%nat
                      /\ ((chain !! k = Some u
                           /\ forall j v, (i < j < k)%nat -> chain !! j = Some v ->
                                          txnid v = WT_TXN_ABORTED)
                          \/ (k = length chain
                              /\ type u = WT_UPDATE_STANDARD
                              /\ st_chain st = chain ++ [u]
                              /\ exists unpack, vpack = Some unpack
                                                /\ u = orig_value_upd s unpack)))
       | None =>
           st_chain st = chain /\ st_append_calls st = []
           /\ ((w_sel w = None /\ tw (st_sel st) = time_window_init)
               \/ exists i t,
                    w_sel w = Some i /\ chain !! i = Some t
                    /\ type t = WT_UPDATE_TOMBSTONE
                    /\ (tw_stop_ts (tw (st_sel st)), tw_stop_txn (tw (st_sel st)))
                       = (WT_TS_NONE, WT_TXN_NONE))
       end.
Proof.
  intros H.
  apply rec_upd_select_ok_inv in H
    as (ctl & w & Hw & _ & Hasrt & [(_ & Hnone & ->) | (_ & _ & Hf)]);
    exists ctl, w; (split; [exact Hw|]).
  { simpl. auto. }
  apply rec_upd_finish_inv in Hf
    as (_ & chain1 & mem1 & sel1 & calls1 & r3 & saved & Hcw & _ & Hlive & Hsel & _ & Hfin).
  apply rec_compose_window_how in Hcw.
  rewrite Hsel. simpl.
  assert (Hfinal : forall k u, upd sel1 = Some k -> chain1 !! k = Some u ->
                     st_chain st !! k = Some u /\ txnid u <> WT_TXN_ABORTED).
  { intros k u Hk Hu. split.
    - destruct (final_append_cond _ vpack saved).
      + destruct Hfin as (chain2 & mem2 & Ha & -> & _).
        apply rec_append_orig_value_shape in Ha
          as [[-> _] | (unpack & _ & [-> | ->])]; auto;
          now apply lookup_app_l_Some.
      + destruct Hfin as (-> & _). exact Hu.
    - unfold not_aborted_assert in Hlive. rewrite Hk, Hu in Hlive.
      unfold is_aborted in Hlive. apply negb_true_iff, Z.eqb_neq in Hlive. exact Hlive. }
  destruct Hcw as [Hp -> -> -> | i u Hp Hu Ht -> Hk -> | i u Hp Hu Ht Hv -> Hk ->
                   | i u k nu Hp Hu Ht Hv Hik Hnu Hnl Hbet -> Hk ->
                   | i u Hp Hu Ht Hv Hts Htxn -> Hk Hstop ->
                   | i u unpack Hp Hu Ht Hv Hvp -> Hk ->].
  - (* the walk selected nothing *)
    simpl in *. destruct Hfin as (-> & _ & ->). auto.
  - (* a value: the candidate stays *)
    rewrite Hk. destruct (Hfinal i u Hk Hu) as [Hst Hl].
    exists u. split; [exact Hst|]. split; [exact Hl|]. left.
    split; [exact Hp|]. split; [exact Hu|].
    unfold selection_assert in Hasrt. rewrite Hp, Hu in Hasrt.
    unfold is_reserve in Hasrt.
    destruct (type u); auto; try congruence.
    rewrite andb_false_r in Hasrt. discriminate.
  - (* a globally visible tombstone: the candidate stays *)
    rewrite Hk. destruct (Hfinal i u Hk Hu) as [Hst Hl].
    exists u. split; [exact Hst|]. split; [exact Hl|]. left.
    split; [exact Hp|]. split; [exact Hu|]. right. right. split; assumption.
  - (* the next live entry below the tombstone *)
    rewrite Hk. destruct (Hfinal k nu Hk Hnu) as [Hst Hl].
    exists nu. split; [exact Hst|]. split; [exact Hl|]. right.
    exists i, u. repeat split; auto.
  - (* a lone tombstone with pair (NONE, NONE) *)
    rewrite Hk in *. simpl in Hfin. destruct Hfin as (-> & _ & ->).
    split; [reflexivity|]. split; [reflexivity|]. right.
    exists i, u. repeat split; auto.
    destruct (tw_repair_stop (tw sel1)) as [-> ->]. exact Hstop.
  - (* the appended entry *)
    rewrite Hk.
    assert (Ha : (chain ++ [orig_value_upd s unpack]) !! length chain
                 = Some (orig_value_upd s unpack))
      by (now apply list_lookup_middle).
    destruct (Hfinal (length chain) _ Hk Ha) as [Hst Hl].
    exists (orig_value_upd s unpack).
    split; [exact Hst|]. split; [exact Hl|]. right.
    exists i, u. repeat split; auto.
    { apply lookup_lt_Some in Hu. exact Hu. }
    right. split; [reflexivity|]. split; [reflexivity|]. split; [|eauto].
    unfold final_append_cond in Hfin. rewrite Hk, Hvp in Hfin. simpl in Hfin.
    destruct (cell_kind unpack) eqn:Hkind.
    + destruct Hfin as (-> & _). reflexivity.
    + destruct (saved || unpack_overflow unpack).
      * destruct Hfin as (chain2 & mem2 & Happ & -> & _).
        rewrite (append_finds_orig_value s chain unpack Hkind) in Happ.
        now inversion Happ.
      * destruct Hfin as (-> & _). reflexivity.
Qed.

Lemma final_selection_kind_witness :
  exists ctl w,
    rec_upd_walk (ex_session 0 100 false)
      (ex_rec [WT_REC_VISIBLE_ALL] WT_PAGE_ROW_LEAF 100) [TOMB 7 40; STD 5 30] = (ctl, w)
    /\ exists u,
         st_chain ex_tombstone_over_value_state !! 1%nat = Some u
         /\ txnid u <> WT_TXN_ABORTED
         /\ ((w_sel w = Some 1%nat /\ [TOMB 7 40; STD 5 30] !! 1%nat = Some u
              /\ (type u = WT_UPDATE_STANDARD \/ type u = WT_UPDATE_MODIFY
                  \/ (type u = WT_UPDATE_TOMBSTONE
                      /\ txn_visible_all (ex_session 0 100 false) (txnid u) (start_ts u)
                         = true)))
             \/ exists i t,
                  w_sel w = Some i /\ [TOMB 7 40; STD 5 30] !! i = Some t
                  /\ type t = WT_UPDATE_TOMBSTONE
                  /\ txn_visible_all (ex_session 0 100 false) (txnid t) (start_ts t) = false
                  /\ (i < 1)%nat
                  /\ (([TOMB 7 40; STD 5 30] !! 1%nat = Some u
                       /\ forall j v, (i < j < 1)%nat ->
                                      [TOMB 7 40; STD 5 30] !! j = Some v ->
                                      txnid v = WT_TXN_ABORTED)
                      \/ (1%nat = length [TOMB 7 40; STD 5 30]
                          /\ type u = WT_UPDATE_STANDARD
                          /\ st_chain ex_tombstone_over_value_state
                             = [TOMB 7 40; STD 5 30] ++ [u]
                          /\ exists unpack,
                               None = Some unpack
                               /\ u = orig_value_upd (ex_session 0 100 false) unpack))).
Proof.
  apply (final_selection_kind (ex_session 0 100 false)
           (ex_rec [WT_REC_VISIBLE_ALL] WT_PAGE_ROW_LEAF 100)
           (Some 1%nat) None [TOMB 7 40; STD 5 30] None
           ex_tombstone_over_value_state).
  vm_compute. reflexivity.
Defined.

(** C5 as it is worded fails: a committed tombstone that is globally visible
    stays the final selection of a call that returns OK. *)
Lemma visible_tombstone_stays_selected :
  ~ (forall (s : WT_SESSION_IMPL) (r : WT_RECONCILE) (ins ripcip : option ref)
            (chain : list WT_UPDATE) (vpack : option WT_CELL_UNPACK)
            (st : select_state) (k : nat) (u : WT_UPDATE),
        rec_upd_select s r ins ripcip chain vpack = Returned RET_OK st ->
        upd (st_sel st) = Some k ->
        st_chain st !! k = Some u ->
        (type u = WT_UPDATE_STANDARD \/ type u = WT_UPDATE_MODIFY)
        /\ txnid u <> WT_TXN_ABORTED).
Proof.
  intros H.
  assert (E : rec_upd_select (ex_session 10 100 false)
                (ex_rec [WT_REC_VISIBLE_ALL] WT_PAGE_ROW_LEAF 100)
                (Some 1%nat) None [TOMB 7 40] None
              = Returned RET_OK ex_visible_tombstone_state)
    by (vm_compute; reflexivity).
  destruct (H _ _ _ _ _ _ _ 0%nat (TOMB 7 40) E eq_refl eq_refl) as [[Ht|Ht] _];
    discriminate Ht.
Qed.

(** *** Returning BUSY *)

Lemma walk_loop_app s chain l1 :
  forall l2 idx w,
    walk_loop s chain (l1 ++ l2) idx w
    = match walk_loop s chain l1 idx w with
      | (LoopNext, w1) => walk_loop s chain l2 (idx + length l1)%nat w1
      | other => other
      end.
Proof.
  induction l1 as [|u l1 IH]; intros l2 idx w; simpl.
  - now rewrite Nat.add_0_r.
  - destruct (walk_step s chain idx u w) as [c w1]. destruct c; try reflexivity.
    rewrite IH. replace (S idx + length l1)%nat with (idx + S (length l1))%nat by lia.
    reflexivity.
Qed.

Lemma walk_step_busy_iff s chain idx u w :
  (exists rc w', walk_step s chain idx u w = (LoopReturn rc, w'))
  <-> txnid u <> WT_TXN_ABORTED
      /\ rec_uncommitted s (w_r w) (txnid u) = true
      /\ w_sel w <> None.
Proof.
  unfold walk_step.
  change (rec_uncommitted s (w_r (walk_account s idx u w)) (txnid u))
    with (rec_uncommitted s (w_r w) (txnid u)).
  change (w_sel (walk_account s idx u w)) with (w_sel w).
  destruct (txnid u =? WT_TXN_ABORTED) eqn:Hab.
  { apply Z.eqb_eq in Hab. split; [intros (rc & w' & H); discriminate | tauto]. }
  apply Z.eqb_neq in Hab.
  destruct (rec_uncommitted s (w_r w) (txnid u)).
  - destruct (w_sel w) eqn:Hs.
    + split; [intros _; repeat split; auto; discriminate | eauto].
    + split; [intros (rc & w' & H); discriminate | intros (_ & _ & H); congruence].
  - split; [|intros (_ & H & _); discriminate].
    intros (rc & w' & H). exfalso.
    unfold walk_select in H.
    repeat match type of H with
           | context [if ?b then _ else _] => destruct b
           end; discriminate H.
Qed.

Lemma walk_step_busy_ret s chain idx u w rc w' :
  walk_step s chain idx u w = (LoopReturn rc, w') ->
  rc = RET_EBUSY /\ w' = walk_account s idx u w.
Proof.
  intros H.
  assert (Hex : exists rc w', walk_step s chain idx u w = (LoopReturn rc, w')) by eauto.
  apply walk_step_busy_iff in Hex as (Hab & Hun & Hs).
  unfold walk_step in H.
  apply Z.eqb_neq in Hab. rewrite Hab in H.
  change (rec_uncommitted s (w_r (walk_account s idx u w)) (txnid u))
    with (rec_uncommitted s (w_r w) (txnid u)) in H.
  change (w_sel (walk_account s idx u w)) with (w_sel w) in H.
  rewrite Hun in H. destruct (w_sel w); [|congruence].
  inversion H; auto.
Qed.

(** The walk returns (with BUSY) exactly when it reaches a live uncommitted
    entry after its selection is set. *)
Lemma rec_upd_walk_return_iff s r chain :
  (exists rc w, rec_upd_walk s r chain = (LoopReturn rc, w))
  <-> uncommitted_after_selection s r chain.
Proof.
  split.
  - intros (rc & w' & H).
    assert (Hgen : forall rest pre w,
               chain = pre ++ rest ->
               walk_loop s chain pre 0%nat (walk_init r) = (LoopNext, w) ->
               walk_loop s chain rest (length pre) w = (LoopReturn rc, w') ->
               uncommitted_after_selection s r chain).
    { induction rest as [|u rest IH]; intros pre w Hch Hpre Hrest; simpl in Hrest.
      - discriminate.
      - destruct (walk_step s chain (length pre) u w) as [c w1] eqn:E.
        pose proof (walk_loop_same_mode s chain r pre 0%nat (walk_init r) LoopNext w
                      Hpre (same_mode_refl r)) as Hm.
        destruct c; try discriminate.
        + apply (IH (pre ++ [u]) w1).
          * rewrite <- app_assoc. exact Hch.
          * rewrite walk_loop_app, Hpre. simpl. rewrite E. reflexivity.
          * rewrite length_app. simpl.
            replace (length pre + 1)%nat with (S (length pre)) by lia. exact Hrest.
        + assert (Hex : exists rc w', walk_step s chain (length pre) u w
                                      = (LoopReturn rc, w')) by eauto.
          apply walk_step_busy_iff in Hex as (Hab & Hun & Hs).
          rewrite (same_mode_uncommitted s r _ _ Hm) in Hun.
          split.
          { unfold rec_uncommitted in Hun. destruct (btree_hs s); [discriminate|reflexivity]. }
          exists (length pre), u, w. repeat split; auto.
          * rewrite Hch. now apply list_lookup_middle.
          * assert (Ht : take (length pre) chain = pre)
              by (rewrite Hch; apply take_app_length).
            rewrite Ht. exact Hpre. }
    apply (Hgen chain [] (walk_init r)); auto.
  - intros (_ & j & v & w & Hv & Hlive & Hun & Hpre & Hs).
    pose proof (walk_loop_same_mode s chain r (take j chain) 0%nat (walk_init r) LoopNext w
                  Hpre (same_mode_refl r)) as Hm.
    unfold rec_upd_walk.
    assert (E0 : walk_loop s chain chain 0%nat (walk_init r)
                 = walk_loop s chain (take j chain ++ v :: drop (S j) chain) 0%nat
                     (walk_init r))
      by (now rewrite take_drop_middle).
    rewrite E0, walk_loop_app, Hpre. simpl.
    assert (Hex : exists rc w', walk_step s chain (length (take j chain)) v w
                                = (LoopReturn rc, w')).
    { apply walk_step_busy_iff. rewrite (same_mode_uncommitted s r _ _ Hm). auto. }
    destruct Hex as (rc & w' & E). rewrite E. eauto.
Qed.

Lemma walk_step_first s chain idx u w ctl w' :
  walk_step s chain idx u w = (ctl, w') ->
  (w_has_newer_updates w = true \/ w_sel w <> None -> w_first_txn_upd w <> None) ->
  (w_has_newer_updates w' = true \/ w_sel w' <> None -> w_first_txn_upd w' <> None).
Proof.
  unfold walk_step, walk_select. intros H Hinv.
  destruct (txnid u =? WT_TXN_ABORTED); [inversion H; subst; exact Hinv|].
  intros _.
  assert (Hf : forall w1, w_first_txn_upd w1 = w_first_txn_upd (walk_account s idx u w) ->
                          w_first_txn_upd w1 <> None).
  { intros w1 ->. simpl. destruct (w_first_txn_upd w); discriminate. }
  repeat match type of H with
         | context [if ?b then _ else _] => destruct b
         | context [match w_sel ?x with _ => _ end] => destruct (w_sel x)
         end; inversion H; subst; apply Hf; reflexivity.
Qed.

Lemma walk_loop_first s chain rest :
  forall idx w ctl w',
    walk_loop s chain rest idx w = (ctl, w') ->
    (w_has_newer_updates w = true \/ w_sel w <> None -> w_first_txn_upd w <> None) ->
    (w_has_newer_updates w' = true \/ w_sel w' <> None -> w_first_txn_upd w' <> None).
Proof.
  induction rest as [|u rest IH]; intros idx w ctl w' H Hinv; simpl in H.
  - inversion H; subst. exact Hinv.
  - destruct (walk_step s chain idx u w) as [c w1] eqn:E.
    pose proof (walk_step_first _ _ _ _ _ _ _ E Hinv) as Hinv1.
    destruct c; try (inversion H; subst; exact Hinv1).
    eapply IH; eauto.
Qed.

Lemma rec_upd_finish_not_busy s ins ripcip chain vpack w st :
  rec_upd_finish s ins ripcip chain vpack w <> Returned RET_EBUSY st.
Proof.
  intros H. apply rec_upd_finish_inv in H as [H _]. discriminate.
Qed.

(** C2, as the code has it.  [__wt_rec_upd_select] returns BUSY exactly
    when either, on a page that is not a history-store page, the chain walk
    reaches a live uncommitted entry after an update to write has been
    chosen, or the walk ends having passed over a live entry
    ([has_newer_updates]) while CLEAN_AFTER_REC is set and VISIBILITY_ERR is
    not.  Either way the chain holds a live entry that is uncommitted or was
    skipped as prepared, and nothing is produced: no save is recorded, the
    chain is as it was, the window is at its defaults and the appender was
    not called. *)
Theorem busy_return_characterised (s : WT_SESSION_IMPL) (r : WT_RECONCILE)
    (ins ripcip : option ref) (chain : list WT_UPDATE) (vpack : option WT_CELL_UNPACK) :
  ((exists st, rec_upd_select s r ins ripcip chain vpack = Returned RET_EBUSY st)
   <-> uncommitted_after_selection s r chain \/ newer_updates_on_clean_rec s r chain)
  /\ (forall st,
        rec_upd_select s r ins ripcip chain vpack = Returned RET_EBUSY st ->
        newer_updates s r chain
        /\ supd (st_r st) = supd r
        /\ st_chain st = chain
        /\ tw (st_sel st) = time_window_init
        /\ st_append_calls st = []).
Proof.
  rewrite rec_upd_select_eq_chain.
  destruct (rec_upd_walk s r chain) as [ctl w] eqn:Hw.
  pose proof (rec_upd_walk_same_mode s r chain ctl w Hw) as Hm.
  pose proof (rec_upd_walk_newer s r chain ctl w Hw) as (Hnew & _ & _).
  assert (Hret : forall rc, ctl = LoopReturn rc ->
                   rc = RET_EBUSY /\ uncommitted_after_selection s r chain).
  { intros rc ->. split.
    - now destruct (walk_loop_return _ _ _ _ _ _ _ Hw).
    - apply rec_upd_walk_return_iff. eauto. }
  assert (Hnoret : (ctl = LoopNext \/ ctl = LoopBreak) ->
                   ~ uncommitted_after_selection s r chain).
  { intros Hctl Hu. apply rec_upd_walk_return_iff in Hu as (rc & w' & Hu).
    rewrite Hw in Hu. destruct Hctl; congruence. }
  assert (Hafter : forall st,
             rec_upd_after_walk s ins ripcip chain vpack w = Returned RET_EBUSY st ->
             selection_assert s chain (w_sel w) = true
             /\ w_has_newer_updates w = true
             /\ F_ISSET r WT_REC_CLEAN_AFTER_REC = true
             /\ F_ISSET r WT_REC_VISIBILITY_ERR = false
             /\ st = mk_state (w_r w) chain 0 (mk_sel (w_sel w) time_window_init) []).
  { intros st H. unfold rec_upd_after_walk in H.
    destruct (selection_assert s chain (w_sel w)); simpl in H; [|discriminate].
    destruct (w_first_txn_upd w).
    2:{ destruct (w_sel w); discriminate. }
    rewrite !(same_mode_F_ISSET r _ _ Hm) in H.
    destruct (w_has_newer_updates w); simpl in H.
    2:{ exfalso. eapply rec_upd_finish_not_busy; eauto. }
    destruct (F_ISSET r WT_REC_VISIBILITY_ERR).
    { rewrite orb_true_r in H. discriminate. }
    rewrite orb_false_r in H.
    destruct (F_ISSET r WT_REC_CLEAN_AFTER_REC).
    - inversion H; subst. repeat split.
    - exfalso. eapply rec_upd_finish_not_busy; eauto. }
  split.
  - split.
    + intros (st & H). unfold rec_upd_select_chain in H. rewrite Hw in H.
      destruct ctl as [| |rc|f].
      * right. apply Hafter in H as (Ha & Hn & Hc & Hv & _).
        exists LoopNext, w. repeat split; auto.
      * right. apply Hafter in H as (Ha & Hn & Hc & Hv & _).
        exists LoopBreak, w. repeat split; auto.
      * left. now apply (Hret rc).
      * discriminate.
    + intros [Hu | (ctl' & w' & Hw' & Hctl & Ha & Hn & Hc & Hv)].
      * apply rec_upd_walk_return_iff in Hu as (rc & w' & Hu).
        rewrite Hw in Hu. inversion Hu; subst.
        destruct (Hret rc eq_refl) as [-> _].
        unfold rec_upd_select_chain. rewrite Hw. eauto.
      * rewrite Hw in Hw'. inversion Hw'; subst ctl' w'.
        rewrite (rec_upd_select_chain_after _ _ _ _ _ _ _ _ Hw Hctl).
        unfold rec_upd_after_walk. rewrite Ha. simpl.
        assert (Hfirst : w_first_txn_upd w <> None).
        { eapply (walk_loop_first s chain chain 0%nat (walk_init r)); eauto.
          simpl. intros [X|X]; congruence. }
        destruct (w_first_txn_upd w); [|congruence].
        rewrite !(same_mode_F_ISSET r _ _ Hm), Hn, Hc, Hv. simpl. eauto.
  - intros st H. unfold rec_upd_select_chain in H. rewrite Hw in H.
    assert (Hst : newer_updates s r chain
                  /\ st = mk_state (w_r w) chain 0 (mk_sel (w_sel w) time_window_init) []).
    { destruct ctl as [| |rc|f].
      - apply Hafter in H as (_ & Hn & _ & _ & ->). auto.
      - apply Hafter in H as (_ & Hn & _ & _ & ->). auto.
      - destruct (Hret rc eq_refl) as [-> (_ & j & v & wj & Hv & Hl & Hun & _)].
        inversion H; subst. split; [|reflexivity].
        exists j, v. repeat split; auto. now left.
      - discriminate. }
    destruct Hst as [Hn ->]. simpl.
    repeat split; auto. apply Hm.
Qed.

Lemma busy_return_characterised_witness :
  newer_updates (ex_session 0 8 false)
    (ex_rec [WT_REC_EVICT] WT_PAGE_ROW_LEAF 100) [STD 4 25; STD 8 0]
  /\ supd (st_r ex_busy_walk_state)
     = supd (ex_rec [WT_REC_EVICT] WT_PAGE_ROW_LEAF 100)
  /\ st_chain ex_busy_walk_state = [STD 4 25; STD 8 0]
  /\ tw (st_sel ex_busy_walk_state) = time_window_init
  /\ st_append_calls ex_busy_walk_state = [].
Proof.
  apply (proj2 (busy_return_characterised (ex_session 0 8 false)
                  (ex_rec [WT_REC_EVICT] WT_PAGE_ROW_LEAF 100) (Some 1%nat) None
                  [STD 4 25; STD 8 0] None) ex_busy_walk_state).
  vm_compute. reflexivity.
Defined.

(** C2 as it is worded fails: with CLEAN_AFTER_REC set, a chain holding
    one uncommitted update returns BUSY although no update to write was ever
    chosen. *)
Lemma busy_without_chosen_update :
  ~ (forall (s : WT_SESSION_IMPL) (r : WT_RECONCILE) (ins ripcip : option ref)
            (chain : list WT_UPDATE) (vpack : option WT_CELL_UNPACK),
        (exists st, rec_upd_select s r ins ripcip chain vpack = Returned RET_EBUSY st)
        <-> uncommitted_after_selection s r chain).
Proof.
  intros H.
  destruct (H (ex_session 0 8 false)
              (ex_rec [WT_REC_CLEAN_AFTER_REC] WT_PAGE_ROW_LEAF 100)
              (Some 1%nat) None [STD 8 0] None) as [Hbusy _].
  destruct Hbusy as (_ & j & v & w & Hv & _ & _ & Hpre & Hs).
  - exists ex_clean_after_rec_state. vm_compute. reflexivity.
  - destruct j as [|j]; [|destruct j; discriminate Hv].
    simpl in Hpre. inversion Hpre; subst. apply Hs. reflexivity.
Qed.

(** ** Further properties of the code *)

(** *** Taking any return apart *)

(** A call that returns either returns early, with the output as the walk
    left it and nothing composed, or returns OK through [rec_upd_finish]. *)
Lemma rec_upd_select_return_inv s r ins ripcip chain vpack rc st :
  rec_upd_select s r ins ripcip chain vpack = Returned rc st ->
  exists ctl w,
    rec_upd_walk s r chain = (ctl, w)
    /\ (st = mk_state (w_r w) chain 0 (mk_sel (w_sel w) time_window_init) []
        \/ ((ctl = LoopNext \/ ctl = LoopBreak)
            /\ rc = RET_OK
            /\ selection_assert s chain (w_sel w) = true
            /\ w_first_txn_upd w <> None
            /\ w_has_newer_updates w
               && (F_ISSET (w_r w) WT_REC_CLEAN_AFTER_REC
                   || F_ISSET (w_r w) WT_REC_VISIBILITY_ERR) = false
            /\ rec_upd_finish s ins ripcip chain vpack w = Returned RET_OK st)).
Proof.
  rewrite rec_upd_select_eq_chain.
  destruct (rec_upd_walk s r chain) as [ctl w] eqn:Hw. intros H.
  exists ctl, w. split; [reflexivity|].
  unfold rec_upd_select_chain in H. rewrite Hw in H.
  assert (Hafter : rec_upd_after_walk s ins ripcip chain vpack w = Returned rc st ->
                   ctl = LoopNext \/ ctl = LoopBreak ->
                   st = mk_state (w_r w) chain 0 (mk_sel (w_sel w) time_window_init) []
                   \/ ((ctl = LoopNext \/ ctl = LoopBreak)
                       /\ rc = RET_OK
                       /\ selection_assert s chain (w_sel w) = true
                       /\ w_first_txn_upd w <> None
                       /\ w_has_newer_updates w
                          && (F_ISSET (w_r w) WT_REC_CLEAN_AFTER_REC
                              || F_ISSET (w_r w) WT_REC_VISIBILITY_ERR) = false
                       /\ rec_upd_finish s ins ripcip chain vpack w = Returned RET_OK st)).
  { intros Ha Hctl. unfold rec_upd_after_walk in Ha.
    destruct (selection_assert s chain (w_sel w)); simpl in Ha; [|discriminate].
    destruct (w_first_txn_upd w) eqn:Hf.
    2:{ destruct (w_sel w); [discriminate|]. inversion Ha; subst. now left. }
    destruct (w_has_newer_updates w && _) eqn:Hn.
    { destruct (F_ISSET (w_r w) WT_REC_VISIBILITY_ERR); inversion Ha; subst; now left. }
    right. pose proof (rec_upd_finish_inv _ _ _ _ _ _ _ _ Ha) as [-> _].
    repeat split; auto. }
  destruct ctl as [| |rc0|f].
  - apply Hafter; auto.
  - apply Hafter; auto.
  - inversion H; subst. now left.
  - discriminate.
Qed.

(** A call of the appender that fails has failed in one of its callees. *)
Lemma rec_append_orig_value_err s chain p vpack e :
  rec_append_orig_value s chain p vpack = AppendErr e ->
  exists i u unpack,
    p = Some i /\ chain !! i = Some u /\ vpack = Some unpack
    /\ cell_kind unpack = WT_CELL_VALUE
    /\ append_callee_fails s unpack e.
Proof.
  unfold rec_append_orig_value, append_callee_fails. intros H.
  destruct p as [i|]; simpl in H; [|discriminate].
  destruct (chain !! i) as [u|] eqn:Hu; [|discriminate].
  destruct vpack as [unpack|]; [|discriminate].
  destruct (cell_kind unpack) eqn:Hk; [discriminate|].
  destruct (append_review _ _ _ _ _); [discriminate|].
  destruct (cell_has_stop unpack && _); [discriminate|].
  destruct (append_value_copy s unpack) as [e'|] eqn:Hcopy.
  - inversion H; subst. exists i, u, unpack. auto 10.
  - destruct (upd_alloc_tombstone s) as [e'|] eqn:Htomb.
    + destruct_matches H; inversion H; subst. exists i, u, unpack. auto 10.
    + destruct_matches H; discriminate H.
Qed.

Lemma rec_compose_window_err s chain vpack p e sel calls :
  rec_compose_window s chain vpack p = ComposeErr e sel calls ->
  exists i u,
    p = Some i /\ chain !! i = Some u
    /\ rec_append_orig_value s chain (Some i) vpack = AppendErr e
    /\ upd sel = None
    /\ tw_prepare (tw sel) = is_inprogress u
    /\ calls = [(AtTombstoneOnly, Some i)].
Proof.
  unfold rec_compose_window. intros H.
  destruct p as [i|]; [|discriminate H].
  destruct (chain !! i) as [u|] eqn:Hu; [|discriminate H].
  exists i, u. split; [reflexivity|]. split; [exact Hu|].
  destruct (rec_append_orig_value s chain (Some i) vpack) as [chain' m|e'|f] eqn:Ha.
  - destruct_matches H; discriminate H.
  - destruct (is_inprogress u); destruct_matches H; inversion H; subst; auto.
  - destruct_matches H; discriminate H.
Qed.

Lemma rec_upd_finish_failed_inv s ins ripcip chain vpack w e st :
  rec_upd_finish s ins ripcip chain vpack w = Failed e st ->
  (exists sel1 calls1,
     rec_compose_window s chain vpack (w_sel w) = ComposeErr e sel1 calls1
     /\ st = mk_state (rec_track_ondisk chain w) chain 0 sel1 calls1)
  \/ (exists chain1 mem1 sel1 calls1 saved,
        rec_compose_window s chain vpack (w_sel w) = Composed chain1 mem1 sel1 calls1
        /\ rec_save_step s (rec_track (rec_track_ondisk chain w) w) chain1 ins ripcip
             (mk_sel (upd sel1) (tw_repair (tw sel1)))
             (w_has_newer_updates w) (w_upd_memsize w) = Some (st_r st, saved)
        /\ not_aborted_assert chain1 (upd sel1) = true
        /\ final_append_cond (mk_sel (upd sel1) (tw_repair (tw sel1))) vpack saved = true
        /\ rec_append_orig_value s chain1 (upd sel1) vpack = AppendErr e
        /\ st_sel st = mk_sel (upd sel1) (tw_repair (tw sel1))
        /\ st_chain st = chain1
        /\ st_page_mem st = mem1
        /\ st_append_calls st = calls1 ++ [(AtReturn, upd sel1)]).
Proof.
  unfold rec_upd_finish. intros H.
  destruct (rec_compose_window s chain vpack (w_sel w))
    as [chain1 mem1 sel1 calls1|e' sel1 calls1|f] eqn:Hc; [| |discriminate].
  2:{ inversion H; subst. left. eauto. }
  destruct (rec_save_step _ _ _ _ _ _ _ _) as [[r3 saved]|] eqn:Hs; [|discriminate].
  simpl in H.
  destruct (not_aborted_assert chain1 (upd sel1)) eqn:Hna; simpl in H; [|discriminate].
  destruct (final_append_cond _ vpack saved) eqn:Hf; [|discriminate].
  destruct (rec_append_orig_value s chain1 (upd sel1) vpack) as [chain2 mem2|e'|f] eqn:Ha;
    [discriminate| |discriminate].
  inversion H; subst. right.
  exists chain1, mem1, sel1, calls1, saved. simpl. repeat split; auto.
Qed.

Lemma rec_upd_select_failed_inv s r ins ripcip chain vpack e st :
  rec_upd_select s r ins ripcip chain vpack = Failed e st ->
  exists ctl w,
    rec_upd_walk s r chain = (ctl, w)
    /\ (ctl = LoopNext \/ ctl = LoopBreak)
    /\ selection_assert s chain (w_sel w) = true
    /\ w_first_txn_upd w <> None
    /\ w_has_newer_updates w
       && (F_ISSET (w_r w) WT_REC_CLEAN_AFTER_REC
           || F_ISSET (w_r w) WT_REC_VISIBILITY_ERR) = false
    /\ rec_upd_finish s ins ripcip chain vpack w = Failed e st.
Proof.
  rewrite rec_upd_select_eq_chain.
  destruct (rec_upd_walk s r chain) as [ctl w] eqn:Hw. intros H.
  exists ctl, w. split; [reflexivity|].
  unfold rec_upd_select_chain in H. rewrite Hw in H.
  assert (Hafter : rec_upd_after_walk s ins ripcip chain vpack w = Failed e st ->
                   selection_assert s chain (w_sel w) = true
                   /\ w_first_txn_upd w <> None
                   /\ w_has_newer_updates w
                      && (F_ISSET (w_r w) WT_REC_CLEAN_AFTER_REC
                          || F_ISSET (w_r w) WT_REC_VISIBILITY_ERR) = false
                   /\ rec_upd_finish s ins ripcip chain vpack w = Failed e st).
  { intros Ha. unfold rec_upd_after_walk in Ha.
    destruct (selection_assert s chain (w_sel w)); simpl in Ha; [|discriminate].
    destruct (w_first_txn_upd w) eqn:Hf.
    2:{ destruct (w_sel w); discriminate. }
    destruct (w_has_newer_updates w && _) eqn:Hn.
    { destruct (F_ISSET (w_r w) WT_REC_VISIBILITY_ERR); discriminate. }
    repeat split; auto; discriminate. }
  destruct ctl as [| |rc0|f]; try discriminate H.
  - split; [now left | now apply Hafter].
  - split; [now right | now apply Hafter].
Qed.

(** Whatever way a call ends with a return: it returns early, with the
    output as the walk left it and nothing composed, or it goes through
    [rec_upd_finish], which returns OK or fails in one of the two calls of
    the appender. *)
Lemma rec_upd_select_ends_inv s r ins ripcip chain vpack st :
  ends_with (rec_upd_select s r ins ripcip chain vpack) st ->
  exists ctl w,
    rec_upd_walk s r chain = (ctl, w)
    /\ ((st = mk_state (w_r w) chain 0 (mk_sel (w_sel w) time_window_init) []
         /\ exists rc, rec_upd_select s r ins ripcip chain vpack = Returned rc st)
        \/ ((ctl = LoopNext \/ ctl = LoopBreak)
            /\ selection_assert s chain (w_sel w) = true
            /\ w_first_txn_upd w <> None
            /\ w_has_newer_updates w
               && (F_ISSET (w_r w) WT_REC_CLEAN_AFTER_REC
                   || F_ISSET (w_r w) WT_REC_VISIBILITY_ERR) = false
            /\ (rec_upd_finish s ins ripcip chain vpack w = Returned RET_OK st
                \/ exists e, rec_upd_finish s ins ripcip chain vpack w = Failed e st)
            /\ rec_upd_select s r ins ripcip chain vpack
               = rec_upd_finish s ins ripcip chain vpack w)).
Proof.
  intros H.
  destruct (rec_upd_select s r ins ripcip chain vpack) as [rc st'|e st'|f] eqn:Ho;
    simpl in H; [| |contradiction]; subst st'.
  - pose proof Ho as Ho'.
    apply rec_upd_select_return_inv in Ho as (ctl & w & Hw & Hcase).
    exists ctl, w. split; [exact Hw|].
    destruct Hcase as [-> | (Hctl & -> & Ha & Hf & Hn & Hfin)].
    + left. split; [reflexivity | eauto].
    + right. split; [exact Hctl|]. split; [exact Ha|]. split; [exact Hf|].
      split; [exact Hn|]. split; [now left | congruence].
  - pose proof Ho as Ho'.
    apply rec_upd_select_failed_inv in Ho as (ctl & w & Hw & Hctl & Ha & Hf & Hn & Hfin).
    exists ctl, w. split; [exact Hw|].
    right. split; [exact Hctl|]. split; [exact Ha|]. split; [exact Hf|].
    split; [exact Hn|]. split; [right; eauto | congruence].
Qed.

(** The reconcile context a call that went through [rec_upd_finish] leaves:
    the one of line 347 when the first call of the appender fails, the one
    after the save decision otherwise. *)
Lemma rec_upd_finish_ends_r s ins ripcip chain vpack w st :
  rec_upd_finish s ins ripcip chain vpack w = Returned RET_OK st
  \/ (exists e, rec_upd_finish s ins ripcip chain vpack w = Failed e st) ->
  (exists e sel1 calls1,
     rec_compose_window s chain vpack (w_sel w) = ComposeErr e sel1 calls1
     /\ rec_upd_finish s ins ripcip chain vpack w = Failed e st
     /\ st = mk_state (rec_track_ondisk chain w) chain 0 sel1 calls1)
  \/ (exists chain1 mem1 sel1 calls1 saved,
        rec_compose_window s chain vpack (w_sel w) = Composed chain1 mem1 sel1 calls1
        /\ rec_save_step s (rec_track (rec_track_ondisk chain w) w) chain1 ins ripcip
             (mk_sel (upd sel1) (tw_repair (tw sel1)))
             (w_has_newer_updates w) (w_upd_memsize w) = Some (st_r st, saved)
        /\ st_sel st = mk_sel (upd sel1) (tw_repair (tw sel1))
        /\ (forall k u, chain1 !! k = Some u -> st_chain st !! k = Some u)
        /\ (rec_upd_finish s ins ripcip chain vpack w = Returned RET_OK st
            \/ exists e,
                 rec_upd_finish s ins ripcip chain vpack w = Failed e st
                 /\ st_chain st = chain1 /\ st_page_mem st = mem1
                 /\ st_append_calls st = calls1 ++ [(AtReturn, upd sel1)]
                 /\ final_append_cond (mk_sel (upd sel1) (tw_repair (tw sel1)))
                      vpack saved = true
                 /\ rec_append_orig_value s chain1 (upd sel1) vpack = AppendErr e)).
Proof.
  intros [H | (e & H)].
  - pose proof H as H0.
    apply rec_upd_finish_inv in H
      as (_ & chain1 & mem1 & sel1 & calls1 & r3 & saved & Hc & Hs & _ & Hsel & Hr & Hfin).
    right. exists chain1, mem1, sel1, calls1, saved. rewrite Hr.
    repeat split; auto.
    intros k u Hu. destruct (final_append_cond _ vpack saved).
    + destruct Hfin as (chain2 & mem2 & Ha & -> & _).
      apply rec_append_orig_value_shape in Ha
        as [[-> _] | (unpack & _ & [-> | ->])]; auto; now apply lookup_app_l_Some.
    + destruct Hfin as (-> & _). exact Hu.
  - pose proof H as H0.
    apply rec_upd_finish_failed_inv in H
      as [(sel1 & calls1 & Hc & ->)
         | (chain1 & mem1 & sel1 & calls1 & saved & Hc & Hs & _ & Hf & Ha & Hsel & Hch
            & Hm & Hcalls)].
    + left. eauto 10.
    + right. exists chain1, mem1, sel1, calls1, saved.
      repeat split; auto.
      * intros k u Hu. now rewrite Hch.
      * right. exists e. auto 10.
Qed.

(** *** Watermarks *)

Lemma watermarks_le_refl r : watermarks_le r r.
Proof. unfold watermarks_le. repeat split; lia. Qed.

Lemma watermarks_le_trans r1 r2 r3 :
  watermarks_le r1 r2 -> watermarks_le r2 r3 -> watermarks_le r1 r3.
Proof.
  unfold watermarks_le.
  intros (A1 & A2 & A3 & A4 & A5 & A6 & A7) (B1 & B2 & B3 & B4 & B5 & B6 & B7).
  repeat split; try congruence; lia.
Qed.

Lemma walk_step_watermarks s chain idx u w ctl w' :
  walk_step s chain idx u w = (ctl, w') -> watermarks_le (w_r w) (w_r w').
Proof.
  unfold walk_step, walk_select, walk_account, walk_skip_prepared, walk_set_newer.
  intros H.
  repeat match type of H with
         | context [if ?b then _ else _] => destruct b eqn:?
         | context [match w_sel ?x with _ => _ end] => destruct (w_sel x)
         end; inversion H; subst; unfold watermarks_le; simpl;
    repeat split; try lia.
  all: match goal with
       | E : (start_ts _ <? _) = true |- _ => simpl in E; apply Z.ltb_lt in E; lia
       end.
Qed.

Lemma walk_loop_watermarks s chain rest :
  forall idx w ctl w',
    walk_loop s chain rest idx w = (ctl, w') -> watermarks_le (w_r w) (w_r w').
Proof.
  induction rest as [|u rest IH]; intros idx w ctl w' H; simpl in H.
  - inversion H; subst. apply watermarks_le_refl.
  - destruct (walk_step s chain idx u w) as [c w1] eqn:E.
    pose proof (walk_step_watermarks _ _ _ _ _ _ _ E) as H1.
    destruct c; try (inversion H; subst; exact H1).
    eapply watermarks_le_trans; [exact H1|]. eapply IH; eauto.
Qed.

Lemma rec_track_ondisk_watermarks chain w :
  watermarks_le (w_r w) (rec_track_ondisk chain w).
Proof.
  unfold rec_track_ondisk. destruct (deref chain (w_sel w)) as [u|];
    [|apply watermarks_le_refl].
  destruct (max_ondisk_ts (w_r w) <? start_ts u) eqn:E; [|apply watermarks_le_refl].
  apply Z.ltb_lt in E. unfold watermarks_le; simpl. repeat split; lia.
Qed.

Lemma rec_track_watermarks r w : watermarks_le r (rec_track r w).
Proof.
  unfold rec_track, WT_TXNID_LT.
  set (r1 := if max_txn r <? w_max_txn w then r_with_max_txn r (w_max_txn w) else r).
  set (r2 := if max_ts r1 <? w_max_ts w then r_with_max_ts r1 (w_max_ts w) else r1).
  assert (H1 : watermarks_le r r1).
  { unfold r1. destruct (max_txn r <? w_max_txn w) eqn:E; [|apply watermarks_le_refl].
    apply Z.ltb_lt in E. unfold watermarks_le; simpl. repeat split; lia. }
  assert (H2 : watermarks_le r1 r2).
  { unfold r2. destruct (max_ts r1 <? w_max_ts w) eqn:E; [|apply watermarks_le_refl].
    apply Z.ltb_lt in E. unfold watermarks_le; simpl. repeat split; lia. }
  assert (H3 : watermarks_le r2
                 (if w_has_newer_updates w then r_with_leave_dirty r2 true else r2)).
  { destruct (w_has_newer_updates w); [|apply watermarks_le_refl].
    unfold watermarks_le; simpl. repeat split; lia. }
  eapply watermarks_le_trans; [exact H1|].
  eapply watermarks_le_trans; [exact H2 | exact H3].
Qed.

Lemma rec_save_step_watermarks s r chain ins ripcip sel newer memsize r' saved :
  rec_save_step s r chain ins ripcip sel newer memsize = Some (r', saved) ->
  watermarks_le r r'
  /\ updates_seen r' = updates_seen r
  /\ updates_unstable r' = updates_unstable r
  /\ leave_dirty r' = leave_dirty r.
Proof.
  unfold rec_save_step, rec_update_save.
  destruct (rec_need_save_upd s r sel newer).
  - intros H.
    repeat match type of H with
           | context [if negb ?b then _ else _] => destruct b; simpl in H
           end; try discriminate.
    inversion H; subst.
    destruct (rec_supd_restore s r newer); unfold watermarks_le; simpl;
      repeat split; lia.
  - intros H; inversion H; subst. split; [apply watermarks_le_refl | auto].
Qed.

(** X1.  Whatever way a call ends with a return (OK, BUSY, PANIC, or the
    error of the read of the cell's value), the reconcile context keeps its
    flags, page and cached [last_running], its watermarks [max_txn],
    [max_ts] and [max_ondisk_ts] are not lowered and [min_skipped_ts] is not
    raised. *)
Theorem watermarks_only_move_outwards (s : WT_SESSION_IMPL) (r : WT_RECONCILE)
    (ins ripcip : option ref) (chain : list WT_UPDATE)
    (vpack : option WT_CELL_UNPACK) (st : select_state) :
  ends_with (rec_upd_select s r ins ripcip chain vpack) st ->
  flags (st_r st) = flags r /\ page (st_r st) = page r
  /\ last_running (st_r st) = last_running r
  /\ max_txn r <= max_txn (st_r st)
  /\ max_ts r <= max_ts (st_r st)
  /\ max_ondisk_ts r <= max_ondisk_ts (st_r st)
  /\ min_skipped_ts (st_r st) <= min_skipped_ts r.
Proof.
  intros H.
  apply rec_upd_select_ends_inv in H as (ctl & w & Hw & Hcase).
  assert (Hwalk : watermarks_le r (w_r w)).
  { apply (walk_loop_watermarks s chain chain 0%nat (walk_init r) ctl w Hw). }
  change (watermarks_le r (st_r st)).
  destruct Hcase as [[-> _] | (_ & _ & _ & _ & Hf & _)]; [exact Hwalk|].
  apply rec_upd_finish_ends_r in Hf
    as [(e & sel1 & calls1 & _ & _ & ->)
       | (chain1 & mem1 & sel1 & calls1 & saved & _ & Hsave & _)].
  - simpl. eapply watermarks_le_trans; [exact Hwalk|].
    apply rec_track_ondisk_watermarks.
  - apply rec_save_step_watermarks in Hsave as [Hs _].
    eapply watermarks_le_trans; [exact Hwalk|].
    eapply watermarks_le_trans; [apply rec_track_ondisk_watermarks|].
    eapply watermarks_le_trans; [apply rec_track_watermarks | exact Hs].
Qed.

Lemma watermarks_only_move_outwards_witness :
  flags (st_r ex_failed_after_save_state) = flags (ex_rec [WT_REC_EVICT] WT_PAGE_ROW_LEAF 100)
  /\ page (st_r ex_failed_after_save_state)
     = page (ex_rec [WT_REC_EVICT] WT_PAGE_ROW_LEAF 100)
  /\ last_running (st_r ex_failed_after_save_state)
     = last_running (ex_rec [WT_REC_EVICT] WT_PAGE_ROW_LEAF 100)
  /\ max_txn (ex_rec [WT_REC_EVICT] WT_PAGE_ROW_LEAF 100)
     <= max_txn (st_r ex_failed_after_save_state)
  /\ max_ts (ex_rec [WT_REC_EVICT] WT_PAGE_ROW_LEAF 100)
     <= max_ts (st_r ex_failed_after_save_state)
  /\ max_ondisk_ts (ex_rec [WT_REC_EVICT] WT_PAGE_ROW_LEAF 100)
     <= max_ondisk_ts (st_r ex_failed_after_save_state)
  /\ min_skipped_ts (st_r ex_failed_after_save_state)
     <= min_skipped_ts (ex_rec [WT_REC_EVICT] WT_PAGE_ROW_LEAF 100).
Proof.
  apply (watermarks_only_move_outwards (ex_session_read_fails 0 8 5)
           (ex_rec [WT_REC_EVICT] WT_PAGE_ROW_LEAF 100)
           (Some 1%nat) None [STD 8 0; STD 4 25]
           (Some (ex_cell 20 3 WT_CELL_VALUE false false))
           ex_failed_after_save_state).
  vm_compute. reflexivity.
Defined.

(** *** The chain only grows at its tail *)

Lemma rec_compose_window_no_call_mem s chain vpack p chain1 mem sel calls :
  rec_compose_window s chain vpack p = Composed chain1 mem sel calls ->
  calls = [] -> mem = 0.
Proof.
  unfold rec_compose_window. intros H Hc.
  destruct_matches H; inversion H; subst; auto; discriminate.
Qed.

Lemma rec_append_orig_value_pre s chain p vpack chain' m :
  rec_append_orig_value s chain p vpack = AppendOk chain' m ->
  exists i u unpack,
    p = Some i /\ chain !! i = Some u /\ vpack = Some unpack
    /\ cell_kind unpack = WT_CELL_VALUE.
Proof.
  unfold rec_append_orig_value. intros H.
  destruct p as [i|]; simpl in H; [|discriminate].
  destruct (chain !! i) as [u|] eqn:Hu; [|discriminate].
  destruct vpack as [unpack|]; [|discriminate].
  destruct (cell_kind unpack) eqn:Hk; [discriminate|].
  exists i, u, unpack. auto.
Qed.

Lemma rec_compose_window_call_cell s chain vpack p chain1 mem sel calls :
  rec_compose_window s chain vpack p = Composed chain1 mem sel calls ->
  calls <> [] ->
  exists unpack, vpack = Some unpack /\ cell_kind unpack = WT_CELL_VALUE.
Proof.
  unfold rec_compose_window. intros H Hc.
  destruct_matches H; inversion H; subst; try congruence.
  all: match goal with
       | Ha : rec_append_orig_value _ _ _ _ = AppendOk _ _ |- _ =>
           apply rec_append_orig_value_pre in Ha as (i & u & unpack & _ & _ & Hv & Hk)
       end; eauto.
Qed.

(** X2.  Whatever way a call ends with a return (OK, BUSY, PANIC, or the
    error of the read of the cell's value), the update chain is the chain
    the call was given with nothing, the cell's original value, or a
    tombstone and the original value added at its tail, and it has grown
    only if the call returns OK: no entry is unlinked, replaced or moved, so
    every entry is found where it was.  A call that leaves the chain as it
    was charges no bytes to the page. *)
Theorem chain_only_grows_at_tail (s : WT_SESSION_IMPL) (r : WT_RECONCILE)
    (ins ripcip : option ref) (chain : list WT_UPDATE)
    (vpack : option WT_CELL_UNPACK) (st : select_state) :
  ends_with (rec_upd_select s r ins ripcip chain vpack) st ->
  (st_chain st = chain
   \/ exists unpack,
        vpack = Some unpack /\ cell_kind unpack = WT_CELL_VALUE
        /\ rec_upd_select s r ins ripcip chain vpack = Returned RET_OK st
        /\ (st_chain st = chain ++ [orig_value_upd s unpack]
            \/ st_chain st
               = chain ++ [orig_tombstone_upd s unpack; orig_value_upd s unpack]))
  /\ (forall i u, chain !! i = Some u -> st_chain st !! i = Some u)
  /\ (st_chain st = chain -> st_page_mem st = 0).
Proof.
  intros H.
  assert (Hshape :
    (st_chain st = chain /\ st_page_mem st = 0)
    \/ exists unpack,
         vpack = Some unpack /\ cell_kind unpack = WT_CELL_VALUE
         /\ rec_upd_select s r ins ripcip chain vpack = Returned RET_OK st
         /\ (st_chain st = chain ++ [orig_value_upd s unpack]
             \/ st_chain st
                = chain ++ [orig_tombstone_upd s unpack; orig_value_upd s unpack])).
  { apply rec_upd_select_ends_inv in H as (ctl & w & Hw & Hcase).
    destruct Hcase as [[-> _] | (_ & _ & _ & _ & Hf & Heq)]; [left; auto|].
    assert (Hcompose : forall chain1 mem1 sel1 calls1,
               rec_compose_window s chain vpack (w_sel w)
               = Composed chain1 mem1 sel1 calls1 ->
               (chain1 = chain /\ calls1 = [] /\ mem1 = 0)
               \/ exists unpack i,
                    vpack = Some unpack /\ cell_kind unpack = WT_CELL_VALUE
                    /\ chain1 = chain ++ [orig_value_upd s unpack]
                    /\ upd sel1 = Some (length chain)
                    /\ calls1 = [(AtTombstoneOnly, Some i)]).
    { intros chain1 mem1 sel1 calls1 Hcw.
      pose proof (rec_compose_window_no_call_mem _ _ _ _ _ _ _ _ Hcw) as Hmem.
      pose proof (rec_compose_window_call_cell _ _ _ _ _ _ _ _ Hcw) as Hcell.
      apply rec_compose_window_how in Hcw.
      destruct Hcw; subst; auto.
      right. destruct Hcell as (unpack' & E & Hkind); [discriminate|].
      inversion E; subst unpack'. eauto 10. }
    destruct Hf as [Hf | (e & Hf)].
    - assert (Hret : rec_upd_select s r ins ripcip chain vpack = Returned RET_OK st)
        by congruence.
      apply rec_upd_finish_inv in Hf
        as (_ & chain1 & mem1 & sel1 & calls1 & r3 & saved & Hcw & _ & _ & _ & _ & Hfin).
      destruct (Hcompose _ _ _ _ Hcw)
        as [(-> & Hc & ->) | (unpack & i & -> & Hkind & -> & Hk & Hcalls)].
      + destruct (final_append_cond _ vpack saved).
        * destruct Hfin as (chain2 & mem2 & Ha & -> & -> & _).
          pose proof (rec_append_orig_value_pre _ _ _ _ _ _ Ha)
            as (i & u & unpack & _ & _ & Hv & Hkind).
          apply rec_append_orig_value_shape in Ha
            as [[-> ->] | (unpack' & E & Hor)].
          -- left. split; reflexivity.
          -- right. exists unpack'. rewrite E in Hv. inversion Hv; subst. auto.
        * destruct Hfin as (-> & -> & _). left. auto.
      + right. exists unpack. split; [reflexivity|].
        unfold final_append_cond in Hfin. rewrite Hk in Hfin. simpl in Hfin.
        rewrite Hkind in Hfin.
        split; [exact Hkind|]. split; [exact Hret|]. left.
        destruct (saved || unpack_overflow unpack).
        * destruct Hfin as (chain2 & mem2 & Ha & -> & _).
          rewrite (append_finds_orig_value s chain unpack Hkind) in Ha.
          now inversion Ha.
        * destruct Hfin as (-> & _). reflexivity.
    - apply rec_upd_finish_failed_inv in Hf
        as [(sel1 & calls1 & _ & ->)
           | (chain1 & mem1 & sel1 & calls1 & saved & Hcw & _ & _ & _ & Ha & _ & Hch
              & Hm & _)]; [left; auto|].
      left. rewrite Hch, Hm.
      destruct (Hcompose _ _ _ _ Hcw)
        as [(-> & _ & ->) | (unpack & i & -> & Hkind & -> & Hk & _)]; [auto|].
      rewrite Hk, (append_finds_orig_value s chain unpack Hkind) in Ha.
      discriminate Ha. }
  split; [|split].
  - destruct Hshape as [[-> _] | Hx]; auto.
  - intros i u Hu.
    destruct Hshape as [[-> _] | (unpack & _ & _ & _ & [-> | ->])]; auto;
      now apply lookup_app_l_Some.
  - intros Hsame.
    destruct Hshape as [[_ Hm] | (unpack & _ & _ & _ & [E | E])]; auto;
      exfalso; rewrite E in Hsame; revert Hsame; apply app_nonempty_ne; discriminate.
Qed.

Lemma chain_only_grows_at_tail_witness :
  (st_chain ex_lone_tombstone_state = [TOMB 9 50]
   \/ exists unpack,
        Some (ex_cell 20 3 WT_CELL_VALUE false false) = Some unpack
        /\ cell_kind unpack = WT_CELL_VALUE
        /\ rec_upd_select (ex_session 0 100 false)
             (ex_rec [WT_REC_VISIBLE_ALL] WT_PAGE_ROW_LEAF 100)
             (Some 1%nat) None [TOMB 9 50]
             (Some (ex_cell 20 3 WT_CELL_VALUE false false))
           = Returned RET_OK ex_lone_tombstone_state
        /\ (st_chain ex_lone_tombstone_state
            = [TOMB 9 50] ++ [orig_value_upd (ex_session 0 100 false) unpack]
            \/ st_chain ex_lone_tombstone_state
               = [TOMB 9 50]
                 ++ [orig_tombstone_upd (ex_session 0 100 false) unpack;
                     orig_value_upd (ex_session 0 100 false) unpack]))
  /\ (forall i u, [TOMB 9 50] !! i = Some u ->
                  st_chain ex_lone_tombstone_state !! i = Some u)
  /\ (st_chain ex_lone_tombstone_state = [TOMB 9 50] ->
      st_page_mem ex_lone_tombstone_state = 0).
Proof.
  apply (chain_only_grows_at_tail (ex_session 0 100 false)
           (ex_rec [WT_REC_VISIBLE_ALL] WT_PAGE_ROW_LEAF 100)
           (Some 1%nat) None [TOMB 9 50]
           (Some (ex_cell 20 3 WT_CELL_VALUE false false))
           ex_lone_tombstone_state).
  vm_compute. reflexivity.
Defined.

(** *** The saved-update list *)

Lemma rec_save_step_entry s r chain ins ripcip sel newer memsize r' :
  rec_save_step s r chain ins ripcip sel newer memsize = Some (r', true) ->
  exists e,
    supd r' = supd r ++ [e]
    /\ supd_memsize r' = wrap64 (supd_memsize r + memsize)
    /\ supd_ins e = ins /\ supd_ripcip e = ripcip
    /\ restore e = rec_supd_restore s r newer
    /\ onpage_upd e = save_onpage_upd chain (upd sel)
    /\ match onpage_upd e with
       | None => restore e = true
       | Some k => exists u, chain !! k = Some u
                             /\ (type u = WT_UPDATE_STANDARD \/ type u = WT_UPDATE_MODIFY)
       end.
Proof.
  unfold rec_save_step.
  destruct (rec_need_save_upd s r sel newer); [|discriminate].
  destruct (rec_update_save _ _ _ _ _ _ _) as [r2|] eqn:Hs; [|discriminate].
  intros H; inversion H; subst r2. clear H.
  unfold rec_update_save in Hs.
  destruct (save_onpage_upd chain (upd sel)) as [k|] eqn:Hon; simpl in Hs.
  - destruct (chain !! k) as [u|] eqn:Hu; simpl in Hs; [|discriminate].
    destruct (is_standard u || is_modify u) eqn:Ht; simpl in Hs; [|discriminate].
    inversion Hs; subst r'.
    assert (Hty : type u = WT_UPDATE_STANDARD \/ type u = WT_UPDATE_MODIFY).
    { unfold is_standard, is_modify in Ht. destruct (type u); auto; discriminate. }
    destruct (rec_supd_restore s r newer); eexists; simpl;
      (repeat split; [reflexivity..|]); exists u; auto.
  - destruct (rec_supd_restore s r newer) eqn:Hr; simpl in Hs; [|discriminate].
    inversion Hs; subst r'. eexists. simpl. repeat split; reflexivity.
Qed.

Lemma save_onpage_upd_cases chain p :
  (save_onpage_upd chain p = p
   /\ forall u, deref chain p = Some u -> type u <> WT_UPDATE_TOMBSTONE)
  \/ (save_onpage_upd chain p = None
      /\ exists u, deref chain p = Some u /\ type u = WT_UPDATE_TOMBSTONE).
Proof.
  unfold save_onpage_upd. destruct (deref chain p) as [u|] eqn:Hd.
  - destruct (is_tombstone u) eqn:Ht.
    + right. split; [reflexivity|]. exists u. split; [reflexivity|].
      now apply is_tombstone_true_iff.
    + left. split; [reflexivity|]. intros u' E. inversion E; subst.
      now apply is_tombstone_false_iff.
  - left. split; [reflexivity|]. intros u' E. discriminate.
Qed.

(** *** The appender *)

Lemma orig_value_upd_skips s unpack : review_skips s unpack (orig_value_upd s unpack).
Proof. right. right. left. repeat split. discriminate. Qed.

(** X4.  Appending the original value is idempotent: after a call of the
    appender that returned without error, a second call from the same entry with the same
    cell leaves the chain as the first call left it and charges nothing. *)
Theorem append_orig_value_idempotent (s : WT_SESSION_IMPL) (chain : list WT_UPDATE)
    (p : option nat) (vpack : option WT_CELL_UNPACK)
    (chain' : list WT_UPDATE) (m : Z) :
  rec_append_orig_value s chain p vpack = AppendOk chain' m ->
  rec_append_orig_value s chain' p vpack = AppendOk chain' 0.
Proof.
  intros H.
  pose proof (rec_append_orig_value_pre _ _ _ _ _ _ H)
    as (i & u & unpack & -> & Hu & -> & Hk).
  pose proof (rec_append_orig_value_shape _ _ _ _ _ _ H) as Hshape.
  assert (Hskip : forall tail,
             last tail = Some (orig_value_upd s unpack) ->
             rec_append_orig_value s (chain ++ tail) (Some i) (Some unpack)
             = AppendOk (chain ++ tail) 0).
  { intros tail Hlast.
    unfold rec_append_orig_value. simpl.
    rewrite (lookup_app_l_Some _ _ _ _ Hu), Hk.
    assert (Hex : Exists (review_skips s unpack) (drop i (chain ++ tail))).
    { apply Exists_exists. exists (orig_value_upd s unpack).
      split; [|apply orig_value_upd_skips].
      apply lookup_lt_Some in Hu.
      rewrite drop_app_le by lia. apply elem_of_app. right.
      apply last_Some in Hlast as (l' & ->). apply elem_of_app. right.
      apply list_elem_of_singleton. reflexivity. }
    apply (append_review_return_iff s unpack _ i None) in Hex. rewrite Hex.
    reflexivity. }
  destruct Hshape as [[-> ->] | (unpack' & E & [-> | ->])].
  - exact H.
  - inversion E; subst unpack'. apply Hskip. reflexivity.
  - inversion E; subst unpack'. apply Hskip. reflexivity.
Qed.

Lemma append_orig_value_idempotent_witness :
  rec_append_orig_value (ex_session 0 100 false)
    [TOMB 9 50; orig_value_upd (ex_session 0 100 false)
                  (ex_cell 20 3 WT_CELL_VALUE false false)]
    (Some 0%nat) (Some (ex_cell 20 3 WT_CELL_VALUE false false))
  = AppendOk [TOMB 9 50; orig_value_upd (ex_session 0 100 false)
                           (ex_cell 20 3 WT_CELL_VALUE false false)] 0.
Proof.
  apply (append_orig_value_idempotent (ex_session 0 100 false) [TOMB 9 50]
           (Some 0%nat) (Some (ex_cell 20 3 WT_CELL_VALUE false false)) _ 50).
  vm_compute. reflexivity.
Defined.

(** X5.  For a value cell and an entry of the chain to start from, the
    appender leaves the chain as it was exactly when one of its reasons to
    skip holds: an entry from the given one to the end of the chain is
    flagged restored-for-rollback, or is not a tombstone while the cell is
    prepared, or is not a tombstone and carries the cell's start pair, or is
    a self-contained update that is globally visible; or the cell's stop
    pair is set and globally visible.  Otherwise, if it returns without
    error (the read of the cell's value can fail), the chain is longer and
    the original value is its new last entry. *)
Theorem append_skipped_exactly_when (s : WT_SESSION_IMPL) (chain : list WT_UPDATE)
    (i : nat) (u0 : WT_UPDATE) (unpack : WT_CELL_UNPACK) :
  cell_kind unpack = WT_CELL_VALUE ->
  chain !! i = Some u0 ->
  (rec_append_orig_value s chain (Some i) (Some unpack) = AppendOk chain 0
   <-> Exists (review_skips s unpack) (drop i chain) \/ cell_stop_visible s unpack)
  /\ (forall chain' m,
        rec_append_orig_value s chain (Some i) (Some unpack) = AppendOk chain' m ->
        ~ (Exists (review_skips s unpack) (drop i chain) \/ cell_stop_visible s unpack) ->
        last chain' = Some (orig_value_upd s unpack)
        /\ (length chain < length chain')%nat).
Proof.
  intros Hkind Hu0.
  assert (Hiff : rec_append_orig_value s chain (Some i) (Some unpack) = AppendOk chain 0
                 <-> Exists (review_skips s unpack) (drop i chain)
                     \/ cell_stop_visible s unpack).
  { rewrite <- (append_review_return_iff s unpack (drop i chain) i None).
    unfold rec_append_orig_value, cell_stop_visible. simpl. rewrite Hu0, Hkind.
    destruct (append_review s unpack (drop i chain) i None) as [|oldest].
    { split; auto. }
    rewrite <- andb_true_iff.
    destruct (cell_has_stop unpack
              && txn_visible_all s (tw_stop_txn (cell_tw unpack))
                   (tw_stop_ts (cell_tw unpack))) eqn:Hstop.
    { split; auto. }
    split; [|intros [H|H]; discriminate].
    intros H. exfalso.
    assert (Hk : forall l m, l <> [] -> AppendOk (chain ++ l) m = AppendOk chain 0 -> False).
    { intros l m Hl E. injection E as E _. revert E. now apply app_nonempty_ne. }
    destruct (append_value_copy s unpack); [discriminate H|].
    destruct (cell_has_stop unpack).
    - destruct (deref chain oldest) as [o|]; [|discriminate].
      destruct (negb (is_tombstone o)).
      { destruct (upd_alloc_tombstone s); [discriminate H|].
        apply Hk in H; auto; discriminate. }
      match type of H with
      | (if ?b then _ else _) = _ => destruct b; [apply Hk in H; auto|]; discriminate
      end.
    - apply Hk in H; auto; discriminate. }
  split; [exact Hiff|].
  intros chain' m Ha Hno.
  pose proof (rec_append_orig_value_shape _ _ _ _ _ _ Ha)
    as [[-> ->] | (unpack' & E & Hor)].
  { exfalso. apply Hno. now apply Hiff. }
  inversion E; subst unpack'.
  destruct Hor as [-> | ->]; rewrite length_app; simpl; split; try lia.
  - apply last_snoc.
  - change [orig_tombstone_upd s unpack; orig_value_upd s unpack]
      with ([orig_tombstone_upd s unpack] ++ [orig_value_upd s unpack]).
    rewrite app_assoc. apply last_snoc.
Qed.

Lemma append_skipped_exactly_when_witness :
  (rec_append_orig_value (ex_session 0 100 false) [STD 5 30] (Some 0%nat)
     (Some (ex_cell 20 3 WT_CELL_VALUE false false)) = AppendOk [STD 5 30] 0
   <-> Exists (review_skips (ex_session 0 100 false)
                 (ex_cell 20 3 WT_CELL_VALUE false false)) (drop 0 [STD 5 30])
       \/ cell_stop_visible (ex_session 0 100 false)
            (ex_cell 20 3 WT_CELL_VALUE false false))
  /\ (forall chain' m,
        rec_append_orig_value (ex_session 0 100 false) [STD 5 30] (Some 0%nat)
          (Some (ex_cell 20 3 WT_CELL_VALUE false false)) = AppendOk chain' m ->
        ~ (Exists (review_skips (ex_session 0 100 false)
                     (ex_cell 20 3 WT_CELL_VALUE false false)) (drop 0 [STD 5 30])
           \/ cell_stop_visible (ex_session 0 100 false)
                (ex_cell 20 3 WT_CELL_VALUE false false)) ->
        last chain' = Some (orig_value_upd (ex_session 0 100 false)
                              (ex_cell 20 3 WT_CELL_VALUE false false))
        /\ (length [STD 5 30] < length chain')%nat).
Proof.
  apply (append_skipped_exactly_when (ex_session 0 100 false) [STD 5 30] 0%nat
           (STD 5 30) (ex_cell 20 3 WT_CELL_VALUE false false)); reflexivity.
Defined.

Lemma append_review_end_oldest s unpack rest :
  forall idx acc o,
    append_review s unpack rest idx acc = ReviewEnd o ->
    (o = acc /\ Forall (fun u => txnid u = WT_TXN_ABORTED) rest)
    \/ exists k u,
         rest !! k = Some u /\ txnid u <> WT_TXN_ABORTED /\ o = Some (idx + k)%nat
         /\ forall k' v, (k < k')%nat -> rest !! k' = Some v -> txnid v = WT_TXN_ABORTED.
Proof.
  induction rest as [|u rest IH]; intros idx acc o H; simpl in H.
  - inversion H; subst. left. split; [reflexivity | constructor].
  - repeat match type of H with
           | (if ?b then ReviewReturn else _) = _ => destruct b; [discriminate H|]
           end.
    apply IH in H as [[-> Hall] | (k & v & Hv & Hlive & -> & Hafter)].
    + unfold is_aborted. destruct (txnid u =? WT_TXN_ABORTED) eqn:Hab; simpl.
      * left. split; [reflexivity|]. constructor; [now apply Z.eqb_eq | exact Hall].
      * right. exists 0%nat, u. split; [reflexivity|].
        split; [now apply Z.eqb_neq|]. split; [f_equal; lia|].
        intros k' v Hk Hv. destruct k' as [|k']; [lia|]. simpl in Hv.
        rewrite Forall_forall in Hall. apply Hall.
        apply list_elem_of_lookup. eauto.
    + right. exists (S k), v. split; [exact Hv|]. split; [exact Hlive|].
      split; [f_equal; lia|].
      intros k' v' Hk Hv'. destruct k' as [|k']; [lia|]. simpl in Hv'.
      apply (Hafter k' v'); [lia | exact Hv'].
Qed.

(** X6.  When the appender adds to the chain, what it adds is decided by
    the cell's stop pair and the oldest live entry at or below the entry it
    starts from.  Without a stop pair only the original value is added.  With
    one, a tombstone carrying the cell's stop fields is put before the value
    exactly when that oldest live entry is not a tombstone; when it is a
    tombstone none is added (so the appender never puts a tombstone on top of
    a live tombstone), and unless the cell is prepared that entry carries the
    cell's stop pair. *)
Theorem append_adds_tombstone_unless_present (s : WT_SESSION_IMPL)
    (chain : list WT_UPDATE) (i : nat) (unpack : WT_CELL_UNPACK)
    (chain' : list WT_UPDATE) (m : Z) :
  rec_append_orig_value s chain (Some i) (Some unpack) = AppendOk chain' m ->
  chain' <> chain ->
  (cell_has_stop unpack = false
   /\ chain' = chain ++ [orig_value_upd s unpack]
   /\ m = upd_memsize (orig_value_upd s unpack))
  \/ (cell_has_stop unpack = true
      /\ exists j o,
           oldest_live chain i j o
           /\ ((type o <> WT_UPDATE_TOMBSTONE
                /\ chain' = chain ++ [orig_tombstone_upd s unpack; orig_value_upd s unpack])
               \/ (type o = WT_UPDATE_TOMBSTONE
                   /\ chain' = chain ++ [orig_value_upd s unpack]
                   /\ (unpack_prepare unpack = true
                       \/ (tw_stop_ts (cell_tw unpack) = start_ts o
                           /\ tw_stop_txn (cell_tw unpack) = txnid o))))).
Proof.
  intros H Hne.
  pose proof (rec_append_orig_value_pre _ _ _ _ _ _ H)
    as (i' & u & unpack' & E1 & Hu & E2 & Hk).
  inversion E1; subst i'. inversion E2; subst unpack'. clear E1 E2.
  unfold rec_append_orig_value in H. simpl in H. rewrite Hu, Hk in H.
  destruct (append_review s unpack (drop i chain) i None) as [|oldest] eqn:Hrev.
  { inversion H; congruence. }
  destruct (cell_has_stop unpack) eqn:Hstop; simpl in H.
  2:{ left. destruct (append_value_copy s unpack); [discriminate H|].
      inversion H; subst. auto. }
  destruct (txn_visible_all s _ _); [inversion H; congruence|].
  destruct (append_value_copy s unpack); [discriminate H|].
  right. split; [reflexivity|].
  destruct (deref chain oldest) as [o|] eqn:Ho; [|discriminate H].
  apply append_review_end_oldest in Hrev
    as [[-> _] | (k & v & Hv & Hlive & -> & Hafter)]; [discriminate Ho|].
  simpl in Ho. rewrite lookup_drop in Hv. rewrite Hv in Ho. inversion Ho; subst v.
  exists (i + k)%nat, o. split.
  { repeat split; auto; [lia|].
    intros k' v' Hk' Hv'.
    apply (Hafter (k' - i)%nat v'); [lia|].
    rewrite lookup_drop. replace (i + (k' - i))%nat with k' by lia. exact Hv'. }
  destruct (is_tombstone o) eqn:Ht; simpl in H.
  - right. apply is_tombstone_true_iff in Ht. split; [exact Ht|].
    destruct (unpack_prepare unpack) eqn:Hp; simpl in H.
    + inversion H; subst. auto.
    + destruct ((tw_stop_ts (cell_tw unpack) =? start_ts o)
                && (tw_stop_txn (cell_tw unpack) =? txnid o)) eqn:Heq;
        [|discriminate H].
      inversion H; subst. split; [reflexivity|]. right.
      apply andb_true_iff in Heq as [A B].
      apply Z.eqb_eq in A, B. auto.
  - left. apply is_tombstone_false_iff in Ht.
    destruct (upd_alloc_tombstone s); [discriminate H|]. inversion H; subst. auto.
Qed.

Lemma append_adds_tombstone_unless_present_witness :
  (cell_has_stop (mk_cell WT_CELL_VALUE (mk_tw 20 20 3 40 40 7 false) false false 10) = false
   /\ [STD 9 50; orig_tombstone_upd (ex_session 0 100 false)
                   (mk_cell WT_CELL_VALUE (mk_tw 20 20 3 40 40 7 false) false false 10);
       orig_value_upd (ex_session 0 100 false)
         (mk_cell WT_CELL_VALUE (mk_tw 20 20 3 40 40 7 false) false false 10)]
      = [STD 9 50]
        ++ [orig_value_upd (ex_session 0 100 false)
              (mk_cell WT_CELL_VALUE (mk_tw 20 20 3 40 40 7 false) false false 10)]
   /\ 90 = upd_memsize (orig_value_upd (ex_session 0 100 false)
              (mk_cell WT_CELL_VALUE (mk_tw 20 20 3 40 40 7 false) false false 10)))
  \/ (cell_has_stop (mk_cell WT_CELL_VALUE (mk_tw 20 20 3 40 40 7 false) false false 10)
      = true
      /\ exists j o,
           oldest_live [STD 9 50] 0%nat j o
           /\ ((type o <> WT_UPDATE_TOMBSTONE
                /\ [STD 9 50; orig_tombstone_upd (ex_session 0 100 false)
                                (mk_cell WT_CELL_VALUE (mk_tw 20 20 3 40 40 7 false)
                                   false false 10);
                    orig_value_upd (ex_session 0 100 false)
                      (mk_cell WT_CELL_VALUE (mk_tw 20 20 3 40 40 7 false) false false 10)]
                   = [STD 9 50]
                     ++ [orig_tombstone_upd (ex_session 0 100 false)
                           (mk_cell WT_CELL_VALUE (mk_tw 20 20 3 40 40 7 false)
                              false false 10);
                         orig_value_upd (ex_session 0 100 false)
                           (mk_cell WT_CELL_VALUE (mk_tw 20 20 3 40 40 7 false)
                              false false 10)])
               \/ (type o = WT_UPDATE_TOMBSTONE
                   /\ [STD 9 50; orig_tombstone_upd (ex_session 0 100 false)
                                   (mk_cell WT_CELL_VALUE (mk_tw 20 20 3 40 40 7 false)
                                      false false 10);
                       orig_value_upd (ex_session 0 100 false)
                         (mk_cell WT_CELL_VALUE (mk_tw 20 20 3 40 40 7 false)
                            false false 10)]
                      = [STD 9 50]
                        ++ [orig_value_upd (ex_session 0 100 false)
                              (mk_cell WT_CELL_VALUE (mk_tw 20 20 3 40 40 7 false)
                                 false false 10)]
                   /\ (unpack_prepare
                         (mk_cell WT_CELL_VALUE (mk_tw 20 20 3 40 40 7 false)
                            false false 10) = true
                       \/ (tw_stop_ts (cell_tw
                             (mk_cell WT_CELL_VALUE (mk_tw 20 20 3 40 40 7 false)
                                false false 10)) = start_ts o
                           /\ tw_stop_txn (cell_tw
                                (mk_cell WT_CELL_VALUE (mk_tw 20 20 3 40 40 7 false)
                                   false false 10)) = txnid o))))).
Proof.
  apply (append_adds_tombstone_unless_present (ex_session 0 100 false) [STD 9 50] 0%nat
           (mk_cell WT_CELL_VALUE (mk_tw 20 20 3 40 40 7 false) false false 10)
           _ 90).
  - vm_compute. reflexivity.
  - discriminate.
Defined.

(** *** Returning PANIC *)

(** X7.  [__wt_rec_upd_select] returns PANIC exactly when the walk ends
    without returning, having passed over a live entry, with VISIBILITY_ERR
    set; CLEAN_AFTER_REC does not matter then (PANIC goes before BUSY).  The
    chain then holds a live entry that is uncommitted or was skipped as
    prepared, and nothing is produced: no save is recorded, the dirty mark is
    as it was, the chain is as it was, nothing is charged to the page, the
    window is at its defaults and the appender was not called. *)
Theorem panic_return_characterised (s : WT_SESSION_IMPL) (r : WT_RECONCILE)
    (ins ripcip : option ref) (chain : list WT_UPDATE) (vpack : option WT_CELL_UNPACK) :
  ((exists st, rec_upd_select s r ins ripcip chain vpack = Returned RET_PANIC st)
   <-> newer_updates_on_visibility_err s r chain)
  /\ (forall st,
        rec_upd_select s r ins ripcip chain vpack = Returned RET_PANIC st ->
        newer_updates s r chain
        /\ supd (st_r st) = supd r
        /\ leave_dirty (st_r st) = leave_dirty r
        /\ st_chain st = chain
        /\ st_page_mem st = 0
        /\ tw (st_sel st) = time_window_init
        /\ st_append_calls st = []).
Proof.
  rewrite rec_upd_select_eq_chain.
  destruct (rec_upd_walk s r chain) as [ctl w] eqn:Hw.
  pose proof (rec_upd_walk_same_mode s r chain ctl w Hw) as Hm.
  pose proof (rec_upd_walk_newer s r chain ctl w Hw) as (Hnew & _ & _).
  assert (Hafter : forall st,
             rec_upd_after_walk s ins ripcip chain vpack w = Returned RET_PANIC st ->
             selection_assert s chain (w_sel w) = true
             /\ w_has_newer_updates w = true
             /\ F_ISSET r WT_REC_VISIBILITY_ERR = true
             /\ st = mk_state (w_r w) chain 0 (mk_sel (w_sel w) time_window_init) []).
  { intros st H. unfold rec_upd_after_walk in H.
    destruct (selection_assert s chain (w_sel w)); simpl in H; [|discriminate].
    destruct (w_first_txn_upd w).
    2:{ destruct (w_sel w); discriminate. }
    rewrite !(same_mode_F_ISSET r _ _ Hm) in H.
    destruct (w_has_newer_updates w && _) eqn:Hc.
    - apply andb_true_iff in Hc as [Hn _].
      destruct (F_ISSET r WT_REC_VISIBILITY_ERR); inversion H; subst. auto.
    - apply rec_upd_finish_inv in H as [H _]. discriminate. }
  assert (Hctl : forall st,
             rec_upd_select_chain s r ins ripcip chain vpack = Returned RET_PANIC st ->
             (ctl = LoopNext \/ ctl = LoopBreak)
             /\ rec_upd_after_walk s ins ripcip chain vpack w = Returned RET_PANIC st).
  { intros st H. unfold rec_upd_select_chain in H. rewrite Hw in H.
    destruct ctl as [| |rc|f]; auto; [|discriminate].
    destruct (walk_loop_return _ _ _ _ _ _ _ Hw) as [-> _]. discriminate. }
  split.
  - split.
    + intros (st & H). apply Hctl in H as [Hc H].
      apply Hafter in H as (Ha & Hn & Hv & _).
      exists ctl, w. auto.
    + intros (ctl' & w' & Hw' & Hc & Ha & Hn & Hv).
      rewrite Hw in Hw'. inversion Hw'; subst ctl' w'.
      rewrite (rec_upd_select_chain_after _ _ _ _ _ _ _ _ Hw Hc).
      unfold rec_upd_after_walk. rewrite Ha. simpl.
      assert (Hfirst : w_first_txn_upd w <> None).
      { eapply (walk_loop_first s chain chain 0%nat (walk_init r)); eauto.
        simpl. intros [X|X]; congruence. }
      destruct (w_first_txn_upd w); [|congruence].
      rewrite !(same_mode_F_ISSET r _ _ Hm), Hn, Hv, orb_true_r. simpl. eauto.
  - intros st H. apply Hctl in H as [_ H].
    apply Hafter in H as (_ & Hn & _ & ->). simpl.
    destruct Hm as (_ & _ & _ & _ & _ & _ & Hs & _ & Hd & _).
    repeat split; auto.
Qed.

Lemma panic_return_characterised_witness :
  newer_updates (ex_session 0 8 false)
    (ex_rec [WT_REC_CLEAN_AFTER_REC; WT_REC_VISIBILITY_ERR] WT_PAGE_ROW_LEAF 100) [STD 8 0]
  /\ supd (st_r ex_panic_state)
     = supd (ex_rec [WT_REC_CLEAN_AFTER_REC; WT_REC_VISIBILITY_ERR] WT_PAGE_ROW_LEAF 100)
  /\ leave_dirty (st_r ex_panic_state)
     = leave_dirty (ex_rec [WT_REC_CLEAN_AFTER_REC; WT_REC_VISIBILITY_ERR]
                      WT_PAGE_ROW_LEAF 100)
  /\ st_chain ex_panic_state = [STD 8 0]
  /\ st_page_mem ex_panic_state = 0
  /\ tw (st_sel ex_panic_state) = time_window_init
  /\ st_append_calls ex_panic_state = [].
Proof.
  apply (proj2 (panic_return_characterised (ex_session 0 8 false)
                  (ex_rec [WT_REC_CLEAN_AFTER_REC; WT_REC_VISIBILITY_ERR]
                     WT_PAGE_ROW_LEAF 100) (Some 1%nat) None
                  [STD 8 0] None) ex_panic_state).
  vm_compute. reflexivity.
Defined.

(** *** The dirty mark and the save under eviction *)

Lemma rec_track_leave_dirty r w :
  leave_dirty (rec_track r w) = if w_has_newer_updates w then true else leave_dirty r.
Proof.
  unfold rec_track.
  destruct (w_has_newer_updates w); [reflexivity|].
  repeat match goal with
         | |- context [if ?b then _ else _] => destruct b
         end; reflexivity.
Qed.

Lemma rec_track_ondisk_leave_dirty chain w :
  leave_dirty (rec_track_ondisk chain w) = leave_dirty (w_r w).
Proof.
  unfold rec_track_ondisk. destruct (deref chain (w_sel w)); [|reflexivity].
  destruct (_ <? _); reflexivity.
Qed.

Lemma rec_upd_finish_leave_dirty s ins ripcip chain vpack w rc st :
  rec_upd_finish s ins ripcip chain vpack w = Returned rc st ->
  leave_dirty (st_r st) = if w_has_newer_updates w then true else leave_dirty (w_r w).
Proof.
  intros H.
  apply rec_upd_finish_inv in H
    as (_ & chain1 & mem1 & sel1 & calls1 & r3 & saved & _ & Hsave & _ & _ & Hr & _).
  apply rec_save_step_watermarks in Hsave as (_ & _ & _ & Hd).
  rewrite Hr, Hd, rec_track_leave_dirty, rec_track_ondisk_leave_dirty. reflexivity.
Qed.

(** The walk has passed over no live entry when it has seen none. *)
Lemma rec_upd_walk_first s r chain ctl w :
  rec_upd_walk s r chain = (ctl, w) ->
  w_has_newer_updates w = true \/ w_sel w <> None -> w_first_txn_upd w <> None.
Proof.
  intros Hw. eapply (walk_loop_first s chain chain 0%nat (walk_init r)); eauto.
  simpl. intros [X|X]; congruence.
Qed.

(** After the composition went through, a call whose only call of the
    appender is the one for a lone tombstone has a selection: the appended
    original value. *)
Lemma rec_upd_finish_ends_lone_call s ins ripcip chain vpack w st
    chain1 mem1 sel1 calls1 i :
  rec_upd_finish s ins ripcip chain vpack w = Returned RET_OK st
  \/ (exists e, rec_upd_finish s ins ripcip chain vpack w = Failed e st) ->
  rec_compose_window s chain vpack (w_sel w) = Composed chain1 mem1 sel1 calls1 ->
  st_append_calls st = [(AtTombstoneOnly, Some i)] ->
  upd sel1 <> None.
Proof.
  intros Hf Hcw Hcalls Hnone.
  assert (Hlast : forall (calls : list (call_site * option nat)) q,
             calls ++ [(AtReturn, q)] <> [(AtTombstoneOnly, Some i)]).
  { intros calls q E. destruct calls as [|c calls]; simpl in E; [discriminate E|].
    destruct calls; discriminate E. }
  assert (Hc1 : calls1 = [(AtTombstoneOnly, Some i)]).
  { destruct Hf as [Hok | (err & Hfail)].
    - apply rec_upd_finish_inv in Hok
        as (_ & chain1' & mem1' & sel1' & calls1' & r3 & saved' & Hcw' & _ & _ & _ & _
            & Hfin).
      rewrite Hcw in Hcw'. inversion Hcw'; subst chain1' mem1' sel1' calls1'.
      destruct (final_append_cond _ vpack saved').
      + destruct Hfin as (chain2 & mem2 & _ & _ & _ & Hcalls').
        rewrite Hcalls in Hcalls'. symmetry in Hcalls'. now apply Hlast in Hcalls'.
      + destruct Hfin as (_ & _ & Hcalls'). congruence.
    - apply rec_upd_finish_failed_inv in Hfail
        as [(sel1' & calls1' & Hcw' & _)
           | (chain1' & mem1' & sel1' & calls1' & saved & Hcw' & _ & _ & _ & _ & _ & _
              & _ & Hcalls')].
      + rewrite Hcw in Hcw'. discriminate Hcw'.
      + rewrite Hcalls in Hcalls'. symmetry in Hcalls'. now apply Hlast in Hcalls'. }
  apply rec_compose_window_how in Hcw.
  destruct Hcw; subst; try discriminate; congruence.
Qed.

(** X8.  Whatever way a call ends with a return, the dirty mark
    [leave_dirty] is as it was unless the call has set it (line 452); a call
    that has set it went on to compose the window (it returns OK or fails in
    a callee, never BUSY or PANIC).  The mark is set only when the chain
    holds a live entry that is uncommitted or was skipped as prepared, and
    never when CLEAN_AFTER_REC or VISIBILITY_ERR is set.  A call that fails
    in the call of the appender for a lone tombstone (line 406, before the
    mark is set) leaves it as it was. *)
Theorem leave_dirty_only_for_newer_updates (s : WT_SESSION_IMPL) (r : WT_RECONCILE)
    (ins ripcip : option ref) (chain : list WT_UPDATE)
    (vpack : option WT_CELL_UNPACK) (st : select_state) :
  ends_with (rec_upd_select s r ins ripcip chain vpack) st ->
  (leave_dirty (st_r st) = leave_dirty r
   \/ (composes (rec_upd_select s r ins ripcip chain vpack) st
       /\ leave_dirty (st_r st) = true
       /\ newer_updates s r chain
       /\ F_ISSET r WT_REC_CLEAN_AFTER_REC = false
       /\ F_ISSET r WT_REC_VISIBILITY_ERR = false))
  /\ (forall i, st_append_calls st = [(AtTombstoneOnly, Some i)] ->
                upd (st_sel st) = None ->
                leave_dirty (st_r st) = leave_dirty r).
Proof.
  intros H.
  apply rec_upd_select_ends_inv in H as (ctl & w & Hw & Hcase).
  pose proof (rec_upd_walk_same_mode s r chain ctl w Hw) as Hm.
  pose proof (rec_upd_walk_newer s r chain ctl w Hw) as (Hnew & _ & _).
  assert (Hd : leave_dirty (w_r w) = leave_dirty r) by apply Hm.
  destruct Hcase as [[-> _] | (_ & _ & _ & Hflags & Hf & Heq)].
  { split; [left; exact Hd | intros; exact Hd]. }
  assert (Hcomp : composes (rec_upd_select s r ins ripcip chain vpack) st).
  { unfold composes. rewrite Heq. exact Hf. }
  pose proof (fun c m sl cl i =>
                rec_upd_finish_ends_lone_call s ins ripcip chain vpack w st c m sl cl i Hf)
    as Hlone.
  apply rec_upd_finish_ends_r in Hf
    as [(err & sel1 & calls1 & _ & _ & ->)
       | (chain1 & mem1 & sel1 & calls1 & saved & Hcw & Hsave & Hsel & _ & Hend)].
  { simpl. rewrite rec_track_ondisk_leave_dirty. split; [left; exact Hd | intros; exact Hd]. }
  apply rec_save_step_watermarks in Hsave as (_ & _ & _ & Hld).
  rewrite rec_track_leave_dirty, rec_track_ondisk_leave_dirty, Hd in Hld.
  rewrite !(same_mode_F_ISSET r _ _ Hm) in Hflags.
  split.
  - destruct (w_has_newer_updates w); [|left; exact Hld].
    right. simpl in Hflags. apply orb_false_iff in Hflags as [Hc Hv].
    repeat split; auto.
  - intros i Hcalls Hnone. exfalso.
    rewrite Hsel in Hnone. simpl in Hnone.
    now apply (Hlone _ _ _ _ i Hcw Hcalls).
Qed.

Lemma leave_dirty_only_for_newer_updates_witness :
  (leave_dirty (st_r ex_failed_after_save_state)
   = leave_dirty (ex_rec [WT_REC_EVICT] WT_PAGE_ROW_LEAF 100)
   \/ (composes
         (rec_upd_select (ex_session_read_fails 0 8 5)
            (ex_rec [WT_REC_EVICT] WT_PAGE_ROW_LEAF 100)
            (Some 1%nat) None [STD 8 0; STD 4 25]
            (Some (ex_cell 20 3 WT_CELL_VALUE false false)))
         ex_failed_after_save_state
       /\ leave_dirty (st_r ex_failed_after_save_state) = true
       /\ newer_updates (ex_session_read_fails 0 8 5)
            (ex_rec [WT_REC_EVICT] WT_PAGE_ROW_LEAF 100) [STD 8 0; STD 4 25]
       /\ F_ISSET (ex_rec [WT_REC_EVICT] WT_PAGE_ROW_LEAF 100) WT_REC_CLEAN_AFTER_REC = false
       /\ F_ISSET (ex_rec [WT_REC_EVICT] WT_PAGE_ROW_LEAF 100) WT_REC_VISIBILITY_ERR = false))
  /\ (forall i, st_append_calls ex_failed_after_save_state = [(AtTombstoneOnly, Some i)] ->
                upd (st_sel ex_failed_after_save_state) = None ->
                leave_dirty (st_r ex_failed_after_save_state)
                = leave_dirty (ex_rec [WT_REC_EVICT] WT_PAGE_ROW_LEAF 100)).
Proof.
  apply (leave_dirty_only_for_newer_updates (ex_session_read_fails 0 8 5)
           (ex_rec [WT_REC_EVICT] WT_PAGE_ROW_LEAF 100)
           (Some 1%nat) None [STD 8 0; STD 4 25]
           (Some (ex_cell 20 3 WT_CELL_VALUE false false))
           ex_failed_after_save_state).
  vm_compute. reflexivity.
Defined.

(** X9.  Under eviction, when the chain holds a live uncommitted entry (or
    one skipped as prepared), a call that returns OK always records a save
    with the restore flag on, marks the page to be left dirty and sets
    [cache_write_restore]. *)
Theorem evict_newer_updates_saved (s : WT_SESSION_IMPL) (r : WT_RECONCILE)
    (ins ripcip : option ref) (chain : list WT_UPDATE)
    (vpack : option WT_CELL_UNPACK) (st : select_state) :
  F_ISSET r WT_REC_EVICT = true ->
  newer_updates s r chain ->
  rec_upd_select s r ins ripcip chain vpack = Returned RET_OK st ->
  exists e,
    supd (st_r st) = supd r ++ [e]
    /\ restore e = true
    /\ leave_dirty (st_r st) = true
    /\ cache_write_restore (st_r st) = true.
Proof.
  intros Hev Hnewer H.
  apply rec_upd_select_ok_inv in H as (ctl & w & Hw & Hctl & _ & Hcase).
  pose proof (rec_upd_walk_newer s r chain ctl w Hw) as (_ & Hnext & Hbrk).
  assert (Hn : w_has_newer_updates w = true).
  { destruct Hctl as [-> | ->]; [auto|]. rewrite Hbrk in Hev; [discriminate | reflexivity]. }
  destruct Hcase as [(Hfirst & _) | (_ & _ & Hf)].
  { exfalso. apply (rec_upd_walk_first s r chain ctl w Hw); auto. }
  pose proof (rec_upd_finish_leave_dirty _ _ _ _ _ _ _ _ Hf) as Hd.
  rewrite Hn in Hd.
  apply rec_upd_finish_inv in Hf
    as (_ & chain1 & mem1 & sel1 & calls1 & r3 & saved & _ & Hsave & _ & _ & Hr & _).
  destruct (tracked_frame s r chain ctl w Hw) as (Hfl & Hpg & Hsp).
  set (r2 := rec_track (rec_track_ondisk chain w) w) in *.
  assert (Hev2 : F_ISSET r2 WT_REC_EVICT = true).
  { unfold F_ISSET in *. rewrite Hfl. exact Hev. }
  rewrite Hn in Hsave.
  assert (Hrestore : rec_supd_restore s r2 true = true).
  { apply rec_supd_restore_true_iff. auto. }
  apply rec_save_step_inv in Hsave as [(_ & _ & Hno) | (_ & _ & Hs & Hcw & _)].
  { exfalso. unfold rec_need_save_upd in Hno. rewrite Hev2 in Hno. simpl in Hno.
    destruct (tw_prepare _); discriminate. }
  rewrite Hr. eexists. split; [rewrite Hs, Hsp; reflexivity|].
  simpl. rewrite <- Hr. rewrite Hr at 2. auto.
Qed.

Lemma evict_newer_updates_saved_witness :
  exists e,
    supd (st_r ex_evict_newer_state)
    = supd (ex_rec [WT_REC_EVICT] WT_PAGE_ROW_LEAF 100) ++ [e]
    /\ restore e = true
    /\ leave_dirty (st_r ex_evict_newer_state) = true
    /\ cache_write_restore (st_r ex_evict_newer_state) = true.
Proof.
  apply (evict_newer_updates_saved (ex_session 0 8 false)
           (ex_rec [WT_REC_EVICT] WT_PAGE_ROW_LEAF 100)
           (Some 1%nat) None [STD 8 0; STD 4 25] None ex_evict_newer_state).
  - reflexivity.
  - exists 0%nat, (STD 8 0). split; [reflexivity|]. split; [discriminate|].
    left. reflexivity.
  - vm_compute. reflexivity.
Defined.

(** X10.  An eviction that demands a clean page (CLEAN_AFTER_REC or
    VISIBILITY_ERR) returns OK only when every live entry of the chain is
    committed under the reconciliation's visibility rule; the dirty mark is
    then as it was. *)
Theorem clean_eviction_ok_all_committed (s : WT_SESSION_IMPL) (r : WT_RECONCILE)
    (ins ripcip : option ref) (chain : list WT_UPDATE)
    (vpack : option WT_CELL_UNPACK) (st : select_state) :
  F_ISSET r WT_REC_EVICT = true ->
  F_ISSET r WT_REC_CLEAN_AFTER_REC = true \/ F_ISSET r WT_REC_VISIBILITY_ERR = true ->
  rec_upd_select s r ins ripcip chain vpack = Returned RET_OK st ->
  (forall j v, chain !! j = Some v -> txnid v <> WT_TXN_ABORTED ->
               committed_by_rule s r (txnid v))
  /\ leave_dirty (st_r st) = leave_dirty r.
Proof.
  intros Hev Hclean H.
  pose proof H as H0.
  apply rec_upd_select_ok_inv in H as (ctl & w & Hw & Hctl & _ & Hcase).
  pose proof (rec_upd_walk_same_mode s r chain ctl w Hw) as Hm.
  pose proof (rec_upd_walk_newer s r chain ctl w Hw) as (_ & Hnext & Hbrk).
  assert (Hc : ctl = LoopNext).
  { destruct Hctl as [-> | ->]; [reflexivity|].
    rewrite Hbrk in Hev; [discriminate | reflexivity]. }
  assert (Hn : w_has_newer_updates w = false).
  { destruct Hcase as [(Hfirst & _) | (_ & Hflags & _)].
    - destruct (w_has_newer_updates w) eqn:E; [|reflexivity].
      exfalso. apply (rec_upd_walk_first s r chain ctl w Hw); auto.
    - rewrite !(same_mode_F_ISSET r _ _ Hm) in Hflags.
      destruct (w_has_newer_updates w); [|reflexivity].
      simpl in Hflags. apply orb_false_iff in Hflags as [A B].
      destruct Hclean; congruence. }
  split.
  - intros j v Hv Hlive. apply rec_uncommitted_false_iff.
    destruct (rec_uncommitted s r (txnid v)) eqn:Hun; [|reflexivity].
    assert (Hnewer : newer_updates s r chain).
    { exists j, v. repeat split; auto. now left. }
    specialize (Hnext Hc Hnewer). congruence.
  - destruct Hcase as [(_ & _ & ->) | (_ & _ & Hf)]; [apply Hm|].
    apply rec_upd_finish_leave_dirty in Hf. rewrite Hn in Hf.
    rewrite Hf. apply Hm.
Qed.

Lemma clean_eviction_ok_all_committed_witness :
  (forall j v, [ABORTED_STD 30; STD 4 25] !! j = Some v -> txnid v <> WT_TXN_ABORTED ->
               committed_by_rule (ex_session 0 8 false)
                 (ex_rec [WT_REC_EVICT; WT_REC_CLEAN_AFTER_REC] WT_PAGE_ROW_LEAF 100)
                 (txnid v))
  /\ leave_dirty (st_r ex_clean_evict_state)
     = leave_dirty (ex_rec [WT_REC_EVICT; WT_REC_CLEAN_AFTER_REC] WT_PAGE_ROW_LEAF 100).
Proof.
  apply (clean_eviction_ok_all_committed (ex_session 0 8 false)
           (ex_rec [WT_REC_EVICT; WT_REC_CLEAN_AFTER_REC] WT_PAGE_ROW_LEAF 100)
           (Some 1%nat) None [ABORTED_STD 30; STD 4 25] None ex_clean_evict_state).
  - reflexivity.
  - left. reflexivity.
  - vm_compute. reflexivity.
Defined.

(** *** The prepare flag of the window *)

Lemma rec_compose_window_prepare s chain vpack p chain1 mem sel calls :
  rec_compose_window s chain vpack p = Composed chain1 mem sel calls ->
  tw_prepare (tw sel) = match deref chain p with
                        | Some u => is_inprogress u
                        | None => false
                        end.
Proof.
  unfold rec_compose_window. intros H.
  destruct p as [i|]; simpl; [|inversion H; reflexivity].
  destruct (chain !! i) as [u|]; [|discriminate H].
  destruct (is_inprogress u);
    repeat match type of H with
           | context [if ?b then _ else _] => destruct b
           | context [match ?x with _ => _ end] => destruct x
           end; inversion H; reflexivity.
Qed.

Lemma tw_repair_prepare c : tw_prepare (tw_repair c) = tw_prepare c.
Proof. unfold tw_repair. destruct (tw_out_of_order c); reflexivity. Qed.

Lemma rec_upd_walk_sel_ok s r chain ctl w :
  rec_upd_walk s r chain = (ctl, w) -> sel_ok s r chain w.
Proof.
  intros Hw.
  eapply (walk_loop_sel_ok s r chain chain 0%nat); [reflexivity | | exact Hw].
  split; [apply same_mode_refl|]. simpl. intros j v Hj. lia.
Qed.

(** X11.  The prepare flag of the window a call leaves, whatever way the
    call ends with a return, is on only under eviction and when the update
    the walk chose is one whose prepare is in progress (the newest selectable
    entry of the chain).  Such a call went on to compose the window: it
    returns OK or fails in a callee, never BUSY or PANIC.  When it returns
    OK, or fails in the call of the appender before returning (line 497), it
    has recorded a save; when it fails in the call of the appender for a lone
    tombstone (line 406), which comes before the save decision, the
    saved-update list is as it was. *)
Theorem prepared_window_only_under_eviction (s : WT_SESSION_IMPL) (r : WT_RECONCILE)
    (ins ripcip : option ref) (chain : list WT_UPDATE)
    (vpack : option WT_CELL_UNPACK) (st : select_state) :
  ends_with (rec_upd_select s r ins ripcip chain vpack) st ->
  tw_prepare (tw (st_sel st)) = true ->
  F_ISSET r WT_REC_EVICT = true
  /\ (exists i u, chain !! i = Some u
                  /\ prepare_state u = WT_PREPARE_INPROGRESS
                  /\ selectable s r u
                  /\ all_newer_skipped s r chain i)
  /\ composes (rec_upd_select s r ins ripcip chain vpack) st
  /\ (rec_upd_select s r ins ripcip chain vpack = Returned RET_OK st
      \/ (exists err calls,
            rec_upd_select s r ins ripcip chain vpack = Failed err st
            /\ st_append_calls st = calls ++ [(AtReturn, upd (st_sel st))]) ->
      exists e, supd (st_r st) = supd r ++ [e])
  /\ (forall i, st_append_calls st = [(AtTombstoneOnly, Some i)] ->
                upd (st_sel st) = None ->
                supd (st_r st) = supd r).
Proof.
  intros H Hprep.
  apply rec_upd_select_ends_inv in H as (ctl & w & Hw & Hcase).
  destruct Hcase as [[-> _] | (_ & _ & _ & _ & Hf & Heq)]; [discriminate Hprep|].
  assert (Hcomp : composes (rec_upd_select s r ins ripcip chain vpack) st).
  { unfold composes. rewrite Heq. exact Hf. }
  pose proof (rec_upd_walk_sel_ok s r chain ctl w Hw) as Hok.
  pose proof (rec_upd_walk_same_mode s r chain ctl w Hw)
    as (_ & _ & _ & _ & _ & _ & Hwsp & _).
  unfold sel_ok in Hok.
  pose proof (fun c m sl cl i =>
                rec_upd_finish_ends_lone_call s ins ripcip chain vpack w st c m sl cl i Hf)
    as Hlone.
  assert (Hchosen : forall i u, w_sel w = Some i -> chain !! i = Some u ->
                                is_inprogress u = true ->
                                F_ISSET r WT_REC_EVICT = true
                                /\ exists i u, chain !! i = Some u
                                               /\ prepare_state u = WT_PREPARE_INPROGRESS
                                               /\ selectable s r u
                                               /\ all_newer_skipped s r chain i).
  { intros i u Hs Hu Hip. rewrite Hs in Hok.
    destruct Hok as (u' & Hu' & Hsl & Hnewer).
    rewrite Hu in Hu'. inversion Hu'; subst u'.
    apply is_inprogress_true_iff in Hip.
    split; [|exists i, u; auto].
    destruct Hsl as (_ & _ & [[_ Hn] | [He _]]); [congruence | exact He]. }
  apply rec_upd_finish_ends_r in Hf
    as [(err & sel1 & calls1 & Hc & Hfail & ->)
       | (chain1 & mem1 & sel1 & calls1 & saved & Hc & Hsave & Hsel & _ & Hend)].
  - simpl in Hprep.
    apply rec_compose_window_err in Hc as (i & u & Hs & Hu & _ & Hnone & Htw & Hcalls).
    rewrite Htw in Hprep.
    destruct (Hchosen i u Hs Hu Hprep) as [Hev Hex].
    split; [exact Hev|]. split; [exact Hex|]. split; [exact Hcomp|]. simpl.
    split.
    + intros [Hok' | (err' & calls & _ & Hcalls')]; [congruence|].
      exfalso. rewrite Hcalls in Hcalls'.
      destruct calls as [|c calls]; simpl in Hcalls'; [discriminate Hcalls'|].
      destruct calls; discriminate Hcalls'.
    + intros _ _ _.
      destruct (rec_track_ondisk_frame chain w) as (_ & _ & -> & _). exact Hwsp.
  - rewrite Hsel in Hprep. simpl in Hprep.
    rewrite tw_repair_prepare in Hprep.
    rewrite (rec_compose_window_prepare _ _ _ _ _ _ _ _ Hc) in Hprep.
    destruct (w_sel w) as [i|] eqn:Hs; [|discriminate Hprep].
    simpl in Hprep.
    destruct (chain !! i) as [u|] eqn:Hu; [|discriminate Hprep].
    destruct (Hchosen i u eq_refl Hu Hprep) as [Hev Hex].
    split; [exact Hev|]. split; [exact Hex|]. split; [exact Hcomp|].
    destruct (tracked_frame s r chain ctl w Hw) as (_ & _ & Hsp).
    assert (Hsaved : exists e, supd (st_r st) = supd r ++ [e]).
    { apply rec_save_step_inv in Hsave as [(_ & _ & Hno) | (_ & _ & Hsv & _)].
      - exfalso. unfold rec_need_save_upd in Hno. simpl in Hno.
        rewrite tw_repair_prepare, (rec_compose_window_prepare _ _ _ _ _ _ _ _ Hc) in Hno.
        simpl in Hno. rewrite Hu, Hprep in Hno. discriminate.
      - rewrite Hsv, Hsp. eauto. }
    split; [intros _; exact Hsaved|].
    intros i' Hcalls Hnone. exfalso.
    rewrite Hsel in Hnone. simpl in Hnone.
    now apply (Hlone _ _ _ _ i' Hc Hcalls).
Qed.

Lemma prepared_window_only_under_eviction_witness :
  F_ISSET (ex_rec [WT_REC_EVICT] WT_PAGE_ROW_LEAF 100) WT_REC_EVICT = true
  /\ (exists i u, [PREPARED_STD 4 25] !! i = Some u
                  /\ prepare_state u = WT_PREPARE_INPROGRESS
                  /\ selectable (ex_session 0 8 false)
                       (ex_rec [WT_REC_EVICT] WT_PAGE_ROW_LEAF 100) u
                  /\ all_newer_skipped (ex_session 0 8 false)
                       (ex_rec [WT_REC_EVICT] WT_PAGE_ROW_LEAF 100)
                       [PREPARED_STD 4 25] i)
  /\ composes
       (rec_upd_select (ex_session 0 8 false)
          (ex_rec [WT_REC_EVICT] WT_PAGE_ROW_LEAF 100)
          (Some 1%nat) None [PREPARED_STD 4 25] None)
       ex_prepared_evict_state
  /\ (rec_upd_select (ex_session 0 8 false)
        (ex_rec [WT_REC_EVICT] WT_PAGE_ROW_LEAF 100)
        (Some 1%nat) None [PREPARED_STD 4 25] None
      = Returned RET_OK ex_prepared_evict_state
      \/ (exists err calls,
            rec_upd_select (ex_session 0 8 false)
              (ex_rec [WT_REC_EVICT] WT_PAGE_ROW_LEAF 100)
              (Some 1%nat) None [PREPARED_STD 4 25] None
            = Failed err ex_prepared_evict_state
            /\ st_append_calls ex_prepared_evict_state
               = calls ++ [(AtReturn, upd (st_sel ex_prepared_evict_state))]) ->
      exists e, supd (st_r ex_prepared_evict_state)
                = supd (ex_rec [WT_REC_EVICT] WT_PAGE_ROW_LEAF 100) ++ [e])
  /\ (forall i, st_append_calls ex_prepared_evict_state = [(AtTombstoneOnly, Some i)] ->
                upd (st_sel ex_prepared_evict_state) = None ->
                supd (st_r ex_prepared_evict_state)
                = supd (ex_rec [WT_REC_EVICT] WT_PAGE_ROW_LEAF 100)).
Proof.
  apply (prepared_window_only_under_eviction (ex_session 0 8 false)
           (ex_rec [WT_REC_EVICT] WT_PAGE_ROW_LEAF 100)
           (Some 1%nat) None [PREPARED_STD 4 25] None ex_prepared_evict_state).
  - vm_compute. reflexivity.
  - reflexivity.
Defined.

(** *** What eviction counts *)

Lemma wrap64_add_l a b : wrap64 (wrap64 a + b) = wrap64 (a + b).
Proof. unfold wrap64. apply Z.add_mod_idemp_l. discriminate. Qed.

Lemma wrap64_add_r a b : wrap64 (a + wrap64 b) = wrap64 (a + b).
Proof. unfold wrap64. apply Z.add_mod_idemp_r. discriminate. Qed.

Lemma wrap64_idem a : wrap64 (wrap64 a) = wrap64 a.
Proof. unfold wrap64. apply Z.mod_mod. discriminate. Qed.

Lemma wrap64_small a : 0 <= a < 2 ^ 64 -> wrap64 a = a.
Proof. intros H. unfold wrap64. now apply Z.mod_small. Qed.

Lemma wrap_bits_add_l bits a b :
  2 ^ bits <> 0 -> wrap_bits bits (wrap_bits bits a + b) = wrap_bits bits (a + b).
Proof. intros H. unfold wrap_bits. now apply Z.add_mod_idemp_l. Qed.

Lemma wrap_bits_idem bits a :
  2 ^ bits <> 0 -> wrap_bits bits (wrap_bits bits a) = wrap_bits bits a.
Proof. intros H. unfold wrap_bits. now apply Z.mod_mod. Qed.

Lemma wrap_bits_small bits a : 0 <= a < 2 ^ bits -> wrap_bits bits a = a.
Proof. intros H. unfold wrap_bits. now apply Z.mod_small. Qed.

(** Every pass through the loop body counts a live entry and adds its size,
    whatever the pass ends in. *)
Lemma walk_step_account s chain idx u w ctl w' :
  walk_step s chain idx u w = (ctl, w') ->
  updates_seen (w_r w')
  = (if is_aborted u then updates_seen (w_r w)
     else wrap_bits (updates_seen_bits s) (updates_seen (w_r w) + 1))
  /\ w_upd_memsize w'
     = (if is_aborted u then w_upd_memsize w
        else wrap64 (w_upd_memsize w + upd_memsize u)).
Proof.
  unfold walk_step, walk_select, walk_skip_prepared, walk_set_newer, is_aborted.
  intros H.
  destruct (txnid u =? WT_TXN_ABORTED); [inversion H; subst; auto|].
  repeat match type of H with
         | context [if ?b then _ else _] => destruct b
         | context [match w_sel ?x with _ => _ end] => destruct (w_sel x)
         end; inversion H; subst; simpl; auto.
Qed.

Lemma walk_loop_account s chain rest :
  forall idx w w',
    walk_loop s chain rest idx w = (LoopNext, w') ->
    2 ^ updates_seen_bits s <> 0 ->
    wrap_bits (updates_seen_bits s) (updates_seen (w_r w)) = updates_seen (w_r w) ->
    wrap64 (w_upd_memsize w) = w_upd_memsize w ->
    updates_seen (w_r w')
    = wrap_bits (updates_seen_bits s) (updates_seen (w_r w) + count_live rest)
    /\ w_upd_memsize w' = wrap64 (w_upd_memsize w + live_memsize rest).
Proof.
  induction rest as [|u rest IH]; intros idx w w' H Hb Hs Hm; simpl in H.
  - inversion H; subst. simpl. rewrite !Z.add_0_r. auto.
  - destruct (walk_step s chain idx u w) as [c w1] eqn:E.
    destruct c; try discriminate H.
    apply walk_step_account in E as [E1 E2].
    simpl. destruct (is_aborted u).
    + rewrite <- E1 in Hs. rewrite <- E2 in Hm.
      destruct (IH _ _ _ H Hb Hs Hm) as [A B].
      rewrite A, B, E1, E2. simpl. auto.
    + assert (Hs1 : wrap_bits (updates_seen_bits s) (updates_seen (w_r w1))
                    = updates_seen (w_r w1))
        by (rewrite E1; now apply wrap_bits_idem).
      assert (Hm1 : wrap64 (w_upd_memsize w1) = w_upd_memsize w1)
        by (rewrite E2; apply wrap64_idem).
      destruct (IH _ _ _ H Hb Hs1 Hm1) as [A B].
      rewrite A, B, E1, E2, wrap64_add_l, wrap_bits_add_l by exact Hb.
      split; f_equal; lia.
Qed.

Lemma tracked_counts chain w :
  updates_seen (rec_track (rec_track_ondisk chain w) w) = updates_seen (w_r w)
  /\ updates_unstable (rec_track (rec_track_ondisk chain w) w) = updates_unstable (w_r w)
  /\ supd_memsize (rec_track (rec_track_ondisk chain w) w) = supd_memsize (w_r w).
Proof.
  unfold rec_track, rec_track_ondisk.
  repeat match goal with
         | |- context [if ?b then _ else _] => destruct b
         | |- context [match ?x with _ => _ end] => destruct x
         end; repeat split.
Qed.

(** X12.  A call that returns OK under eviction has gone over the whole
    chain: [updates_seen] has grown by the number of live (non-aborted)
    entries of the chain, modulo 2 to the width of the counter's type
    (whatever that width is), and, when the call records a save,
    [supd_memsize] has grown by the bytes of all of them (modulo 2^64). *)
Theorem eviction_counts_every_live_update (s : WT_SESSION_IMPL) (r : WT_RECONCILE)
    (ins ripcip : option ref) (chain : list WT_UPDATE)
    (vpack : option WT_CELL_UNPACK) (st : select_state) :
  F_ISSET r WT_REC_EVICT = true ->
  0 <= updates_seen r < 2 ^ updates_seen_bits s ->
  rec_upd_select s r ins ripcip chain vpack = Returned RET_OK st ->
  updates_seen (st_r st)
  = (updates_seen r + count_live chain) mod 2 ^ updates_seen_bits s
  /\ (forall e, supd (st_r st) = supd r ++ [e] ->
                supd_memsize (st_r st) = wrap64 (supd_memsize r + live_memsize chain)).
Proof.
  intros Hev Hrange H.
  apply rec_upd_select_ok_inv in H as (ctl & w & Hw & Hctl & _ & Hcase).
  pose proof (rec_upd_walk_same_mode s r chain ctl w Hw)
    as (_ & _ & _ & _ & _ & _ & Hsp & Hsm & _).
  pose proof (rec_upd_walk_newer s r chain ctl w Hw) as (_ & _ & Hbrk).
  assert (Hc : ctl = LoopNext).
  { destruct Hctl as [-> | ->]; [reflexivity|].
    rewrite Hbrk in Hev; [discriminate | reflexivity]. }
  subst ctl.
  destruct (walk_loop_account s chain chain 0%nat (walk_init r) w Hw) as [Hseen Hmem].
  { lia. }
  { simpl. now apply wrap_bits_small. }
  { reflexivity. }
  simpl in Hseen, Hmem. unfold wrap_bits in Hseen.
  destruct Hcase as [(_ & _ & ->) | (_ & _ & Hf)]; simpl.
  { split; [exact Hseen|]. intros e He. rewrite Hsp in He.
    symmetry in He. exfalso. revert He. apply app_nonempty_ne. discriminate. }
  apply rec_upd_finish_inv in Hf
    as (_ & chain1 & mem1 & sel1 & calls1 & r3 & saved & _ & Hsave & _ & _ & Hr & _).
  destruct (tracked_counts chain w) as (Hts & _ & Htm).
  destruct (tracked_frame s r chain LoopNext w Hw) as (_ & _ & Htsp).
  rewrite Hr. split.
  - apply rec_save_step_watermarks in Hsave as (_ & -> & _). rewrite Hts. exact Hseen.
  - intros e He. destruct saved.
    + apply rec_save_step_entry in Hsave as (e' & _ & -> & _).
      rewrite Htm, Hsm, Hmem, wrap64_add_r. reflexivity.
    + apply rec_save_step_inv in Hsave as [(_ & -> & _) | (E & _)]; [|discriminate E].
      rewrite Htsp in He. symmetry in He. exfalso. revert He.
      apply app_nonempty_ne. discriminate.
Qed.

Lemma eviction_counts_every_live_update_witness :
  updates_seen (st_r ex_counter_wrap_state)
  = (updates_seen (ex_rec_counters 4294967295 4294967295)
     + count_live [STD 8 0; PREPARED_STD 4 25]) mod 2 ^ updates_seen_bits (ex_session 0 8 false)
  /\ (forall e, supd (st_r ex_counter_wrap_state)
                = supd (ex_rec_counters 4294967295 4294967295) ++ [e] ->
                supd_memsize (st_r ex_counter_wrap_state)
                = wrap64 (supd_memsize (ex_rec_counters 4294967295 4294967295)
                          + live_memsize [STD 8 0; PREPARED_STD 4 25])).
Proof.
  apply (eviction_counts_every_live_update (ex_session 0 8 false)
           (ex_rec_counters 4294967295 4294967295)
           (Some 1%nat) None [STD 8 0; PREPARED_STD 4 25] None ex_counter_wrap_state).
  - reflexivity.
  - simpl. lia.
  - vm_compute. reflexivity.
Defined.

(** *** Reconciliations that never save *)

Lemma composed_prepare_evict s r chain vpack ctl w chain1 mem sel calls :
  rec_upd_walk s r chain = (ctl, w) ->
  rec_compose_window s chain vpack (w_sel w) = Composed chain1 mem sel calls ->
  tw_prepare (tw sel) = true ->
  F_ISSET r WT_REC_EVICT = true.
Proof.
  intros Hw Hc Hprep.
  rewrite (rec_compose_window_prepare _ _ _ _ _ _ _ _ Hc) in Hprep.
  pose proof (rec_upd_walk_sel_ok s r chain ctl w Hw) as Hok.
  unfold sel_ok in Hok.
  destruct (w_sel w) as [i|]; [|discriminate Hprep].
  destruct Hok as (u & Hu & (_ & _ & Hpa) & _).
  simpl in Hprep. rewrite Hu in Hprep. apply is_inprogress_true_iff in Hprep.
  destruct Hpa as [[_ Hn] | [He _]]; [congruence | exact He].
Qed.

(** X13.  A reconciliation that is not an eviction and has no history
    store, is not in-memory and is not of a fixed-length column-store page
    never records a save: whatever way the call ends with a return (one of
    its own or the error of the read of the cell's value), the saved-update
    list, [supd_memsize] and [cache_write_restore] are as they were. *)
Theorem no_history_store_never_saves (s : WT_SESSION_IMPL) (r : WT_RECONCILE)
    (ins ripcip : option ref) (chain : list WT_UPDATE)
    (vpack : option WT_CELL_UNPACK) (st : select_state) :
  F_ISSET r WT_REC_EVICT = false ->
  F_ISSET r WT_REC_HS = false ->
  F_ISSET r WT_REC_IN_MEMORY = false ->
  page r <> WT_PAGE_COL_FIX ->
  ends_with (rec_upd_select s r ins ripcip chain vpack) st ->
  supd (st_r st) = supd r
  /\ supd_memsize (st_r st) = supd_memsize r
  /\ cache_write_restore (st_r st) = cache_write_restore r.
Proof.
  intros Hev Hhs Him Hpg H.
  apply rec_upd_select_ends_inv in H as (ctl & w & Hw & Hcase).
  pose proof (rec_upd_walk_same_mode s r chain ctl w Hw)
    as (_ & _ & _ & _ & _ & _ & Hsp & Hsm & _ & Hcw).
  destruct Hcase as [[-> _] | (_ & _ & _ & _ & Hf & _)]; [auto|].
  destruct (rec_track_ondisk_frame chain w) as (_ & _ & Hsp2 & Hcw2).
  apply rec_upd_finish_ends_r in Hf
    as [(err & sel1 & calls1 & _ & _ & ->)
       | (chain1 & mem1 & sel1 & calls1 & saved & Hc & Hsave & _ & _ & _)].
  { simpl. split; [congruence|]. split; [|congruence].
    rewrite <- Hsm. unfold rec_track_ondisk.
    destruct (deref chain (w_sel w)); [destruct (_ <? _)|]; reflexivity. }
  destruct (tracked_frame s r chain ctl w Hw) as (Hfl & Hpg2 & Htsp).
  destruct (tracked_counts chain w) as (_ & _ & Htm).
  destruct (rec_track_frame (rec_track_ondisk chain w) w) as (_ & _ & _ & Hcw1).
  set (r2 := rec_track (rec_track_ondisk chain w) w) in *.
  assert (Hno : rec_need_save_upd s r2 (mk_sel (upd sel1) (tw_repair (tw sel1)))
                  (w_has_newer_updates w) = false).
  { unfold rec_need_save_upd. simpl. rewrite tw_repair_prepare.
    destruct (tw_prepare (tw sel1)) eqn:Hp.
    { rewrite (composed_prepare_evict _ _ _ _ _ _ _ _ _ _ Hw Hc Hp) in Hev. discriminate. }
    unfold F_ISSET in *. rewrite Hfl, Hpg2, Hev, Hhs, Him. simpl.
    destruct (page r); [congruence | reflexivity | reflexivity]. }
  apply rec_save_step_inv in Hsave as [(_ & -> & _) | (_ & Hyes & _)]; [|congruence].
  repeat split; congruence.
Qed.

Lemma no_history_store_never_saves_witness :
  supd (st_r ex_failed_lone_tombstone_state)
  = supd (ex_rec [WT_REC_VISIBLE_ALL] WT_PAGE_ROW_LEAF 100)
  /\ supd_memsize (st_r ex_failed_lone_tombstone_state)
     = supd_memsize (ex_rec [WT_REC_VISIBLE_ALL] WT_PAGE_ROW_LEAF 100)
  /\ cache_write_restore (st_r ex_failed_lone_tombstone_state)
     = cache_write_restore (ex_rec [WT_REC_VISIBLE_ALL] WT_PAGE_ROW_LEAF 100).
Proof.
  apply (no_history_store_never_saves (ex_session_read_fails 0 100 5)
           (ex_rec [WT_REC_VISIBLE_ALL] WT_PAGE_ROW_LEAF 100)
           (Some 1%nat) None [TOMB 9 50]
           (Some (ex_cell 20 3 WT_CELL_VALUE false false))
           ex_failed_lone_tombstone_state).
  - reflexivity.
  - reflexivity.
  - reflexivity.
  - discriminate.
  - vm_compute. reflexivity.
Defined.

(** *** Counters that belong to one mode *)

Lemma walk_step_mode_counters s chain idx u w ctl w' :
  walk_step s chain idx u w = (ctl, w') ->
  (F_ISSET (w_r w) WT_REC_EVICT = true ->
   min_skipped_ts (w_r w') = min_skipped_ts (w_r w))
  /\ (F_ISSET (w_r w) WT_REC_EVICT = false ->
      updates_unstable (w_r w') = updates_unstable (w_r w)).
Proof.
  unfold walk_step, walk_select, walk_skip_prepared, walk_set_newer.
  change (F_ISSET (w_r (walk_account s idx u w)) WT_REC_EVICT)
    with (F_ISSET (w_r w) WT_REC_EVICT).
  simpl.
  change (F_ISSET (r_with_updates_seen (w_r w)
                     (wrap_bits (updates_seen_bits s) (updates_seen (w_r w) + 1)))
            WT_REC_EVICT)
    with (F_ISSET (w_r w) WT_REC_EVICT).
  intros H.
  destruct (F_ISSET (w_r w) WT_REC_EVICT) eqn:Hev; simpl in H;
    repeat match type of H with
           | context [if ?b then _ else _] => destruct b
           | context [match w_sel ?x with _ => _ end] => destruct (w_sel x)
           end; inversion H; subst; simpl; split; intros; congruence.
Qed.

Lemma walk_loop_mode_counters s chain r rest :
  forall idx w ctl w',
    walk_loop s chain rest idx w = (ctl, w') ->
    same_mode r (w_r w) ->
    (F_ISSET r WT_REC_EVICT = true ->
     min_skipped_ts (w_r w') = min_skipped_ts (w_r w))
    /\ (F_ISSET r WT_REC_EVICT = false ->
        updates_unstable (w_r w') = updates_unstable (w_r w)).
Proof.
  induction rest as [|u rest IH]; intros idx w ctl w' H Hm; simpl in H.
  - inversion H; subst. auto.
  - destruct (walk_step s chain idx u w) as [c w1] eqn:E.
    pose proof (walk_step_same_mode _ _ _ _ _ _ _ r E Hm) as Hm1.
    apply walk_step_mode_counters in E as [E1 E2].
    rewrite (same_mode_F_ISSET r _ _ Hm) in E1, E2.
    destruct c; try (inversion H; subst; auto).
    destruct (IH _ _ _ _ H Hm1) as [A B].
    split; intros Hev; [rewrite (A Hev) | rewrite (B Hev)]; auto.
Qed.

(** X14.  Each of the two counters of skipped work belongs to one mode:
    whatever way a call ends with a return (one of its own or the error of
    the read of the cell's value), an eviction leaves [min_skipped_ts] as it
    was, and a reconciliation that is not an eviction leaves
    [updates_unstable] as it was. *)
Theorem counters_belong_to_one_mode (s : WT_SESSION_IMPL) (r : WT_RECONCILE)
    (ins ripcip : option ref) (chain : list WT_UPDATE)
    (vpack : option WT_CELL_UNPACK) (st : select_state) :
  ends_with (rec_upd_select s r ins ripcip chain vpack) st ->
  (F_ISSET r WT_REC_EVICT = true -> min_skipped_ts (st_r st) = min_skipped_ts r)
  /\ (F_ISSET r WT_REC_EVICT = false -> updates_unstable (st_r st) = updates_unstable r).
Proof.
  intros H.
  apply rec_upd_select_ends_inv in H as (ctl & w & Hw & Hcase).
  destruct (walk_loop_mode_counters s chain r chain 0%nat (walk_init r) ctl w Hw
              (same_mode_refl r)) as [Hmin Huns].
  simpl in Hmin, Huns.
  destruct Hcase as [[-> _] | (_ & _ & _ & _ & Hf & _)]; [auto|].
  assert (Hto : min_skipped_ts (rec_track_ondisk chain w) = min_skipped_ts (w_r w)
                /\ updates_unstable (rec_track_ondisk chain w)
                   = updates_unstable (w_r w)).
  { unfold rec_track_ondisk.
    destruct (deref chain (w_sel w)); [destruct (_ <? _)|]; split; reflexivity. }
  apply rec_upd_finish_ends_r in Hf
    as [(err & sel1 & calls1 & _ & _ & ->)
       | (chain1 & mem1 & sel1 & calls1 & saved & _ & Hsave & _ & _ & _)].
  { simpl. destruct Hto as [-> ->]. auto. }
  destruct (tracked_counts chain w) as (_ & Htu & _).
  assert (Htm : min_skipped_ts (rec_track (rec_track_ondisk chain w) w)
                = min_skipped_ts (w_r w)).
  { unfold rec_track, rec_track_ondisk.
    repeat match goal with
           | |- context [if ?b then _ else _] => destruct b
           | |- context [match ?x with _ => _ end] => destruct x
           end; reflexivity. }
  assert (Hsm : min_skipped_ts (st_r st)
                = min_skipped_ts (rec_track (rec_track_ondisk chain w) w)
                /\ updates_unstable (st_r st)
                   = updates_unstable (rec_track (rec_track_ondisk chain w) w)).
  { split; [|now apply rec_save_step_watermarks in Hsave].
    unfold rec_save_step, rec_update_save in Hsave.
    repeat match type of Hsave with
           | context [if ?b then _ else _] => destruct b; simpl in Hsave
           end; try discriminate Hsave; inversion Hsave; reflexivity. }
  destruct Hsm as [S1 S2].
  rewrite S1, S2, Htm, Htu. auto.
Qed.

Lemma counters_belong_to_one_mode_witness :
  (F_ISSET (ex_rec [WT_REC_EVICT] WT_PAGE_ROW_LEAF 100) WT_REC_EVICT = true ->
   min_skipped_ts (st_r ex_failed_after_save_state)
   = min_skipped_ts (ex_rec [WT_REC_EVICT] WT_PAGE_ROW_LEAF 100))
  /\ (F_ISSET (ex_rec [WT_REC_EVICT] WT_PAGE_ROW_LEAF 100) WT_REC_EVICT = false ->
      updates_unstable (st_r ex_failed_after_save_state)
      = updates_unstable (ex_rec [WT_REC_EVICT] WT_PAGE_ROW_LEAF 100)).
Proof.
  apply (counters_belong_to_one_mode (ex_session_read_fails 0 8 5)
           (ex_rec [WT_REC_EVICT] WT_PAGE_ROW_LEAF 100)
           (Some 1%nat) None [STD 8 0; STD 4 25]
           (Some (ex_cell 20 3 WT_CELL_VALUE false false))
           ex_failed_after_save_state).
  vm_compute. reflexivity.
Defined.

(** *** The walk reaches the newest selectable entry *)

Lemma walk_step_mono s chain idx u w ctl w' :
  walk_step s chain idx u w = (ctl, w') ->
  w_max_txn w <= w_max_txn w' /\ w_max_ts w <= w_max_ts w'
  /\ (w_has_newer_updates w = true -> w_has_newer_updates w' = true)
  /\ (forall i, w_sel w = Some i -> w_sel w' = Some i).
Proof.
  unfold walk_step, walk_select, walk_skip_prepared, walk_set_newer, walk_account,
    WT_TXNID_LT.
  intros H.
  repeat match type of H with
         | context [if ?b then _ else _] => destruct b eqn:?
         | context [match w_sel ?x with _ => _ end] => destruct (w_sel x) eqn:?
         end; inversion H; subst; simpl in *;
    repeat match goal with
           | E : (_ <? _) = true |- _ => apply Z.ltb_lt in E
           | E : (_ <? _) = false |- _ => apply Z.ltb_ge in E
           end;
    (split; [lia|]); (split; [lia|]); (split; [auto|]); intros; congruence.
Qed.

Lemma walk_step_newly_selected s chain idx u w ctl w' i :
  walk_step s chain idx u w = (ctl, w') ->
  w_sel w = None -> w_sel w' = Some i ->
  txnid u <= w_max_txn w' /\ start_ts u <= w_max_ts w'.
Proof.
  unfold walk_step, walk_select, walk_skip_prepared, walk_set_newer, walk_account,
    WT_TXNID_LT.
  intros H Hnone Hsome.
  repeat match type of H with
         | context [if ?b then _ else _] => destruct b eqn:?
         | context [match w_sel ?x with _ => _ end] => destruct (w_sel x) eqn:?
         end; inversion H; subst; simpl in *; try congruence;
    repeat match goal with
           | E : (_ <? _) = true |- _ => apply Z.ltb_lt in E
           | E : (_ <? _) = false |- _ => apply Z.ltb_ge in E
           end; split; lia.
Qed.

Lemma walk_step_not_selectable s r chain idx u w ctl w' :
  same_mode r (w_r w) ->
  w_sel w = None ->
  ~ selectable s r u ->
  walk_step s chain idx u w = (ctl, w') ->
  (ctl = LoopNext /\ w_sel w' = None) \/ exists f, ctl = LoopFault f.
Proof.
  intros Hm Hsel Hns H.
  destruct (Z.eq_dec (txnid u) WT_TXN_ABORTED) as [Hab | Hlive].
  { unfold walk_step in H. apply Z.eqb_eq in Hab. rewrite Hab in H.
    inversion H; subst. auto. }
  destruct (rec_uncommitted s r (txnid u)) eqn:Hun.
  { unfold walk_step in H. apply Z.eqb_neq in Hlive. rewrite Hlive in H.
    assert (Hm1 : same_mode r (w_r (walk_account s idx u w))) by exact Hm.
    rewrite (same_mode_uncommitted s r _ _ Hm1), Hun in H.
    change (w_sel (walk_account s idx u w)) with (w_sel w) in H. rewrite Hsel in H.
    inversion H; subst. left. auto. }
  apply rec_uncommitted_false_iff in Hun.
  destruct (is_prepared u) eqn:Hp.
  2:{ exfalso. apply Hns. repeat split; auto. left. now apply is_prepared_false_iff. }
  destruct (F_ISSET r WT_REC_EVICT) eqn:Hev.
  - destruct (is_inprogress u) eqn:Hip.
    { exfalso. apply Hns. repeat split; auto. right.
      split; [exact Hev | now apply is_inprogress_true_iff]. }
    unfold walk_step in H. apply Z.eqb_neq in Hlive. rewrite Hlive in H.
    assert (Hm1 : same_mode r (w_r (walk_account s idx u w))) by exact Hm.
    apply rec_uncommitted_false_iff in Hun.
    rewrite (same_mode_uncommitted s r _ _ Hm1), Hun, Hp in H.
    rewrite (same_mode_F_ISSET r _ _ Hm1), Hev, Hip in H. simpl in H.
    destruct (prepared_assert chain (walk_account s idx u w) u); simpl in H;
      inversion H; subst; right; eauto.
  - unfold walk_step in H. apply Z.eqb_neq in Hlive. rewrite Hlive in H.
    assert (Hm1 : same_mode r (w_r (walk_account s idx u w))) by exact Hm.
    apply rec_uncommitted_false_iff in Hun.
    rewrite (same_mode_uncommitted s r _ _ Hm1), Hun, Hp in H.
    rewrite (same_mode_F_ISSET r _ _ Hm1), Hev in H. simpl in H.
    destruct (prepared_assert chain (walk_account s idx u w) u); simpl in H;
      inversion H; subst; [left | right; eauto].
    split; [reflexivity | exact Hsel].
Qed.

(** A committed, prepared entry met outside eviction before anything is
    selected is skipped and tracked. *)
Lemma walk_step_skips_prepared s r chain idx v w ctl w' :
  same_mode r (w_r w) ->
  w_sel w = None ->
  F_ISSET r WT_REC_EVICT = false ->
  txnid v <> WT_TXN_ABORTED ->
  committed_by_rule s r (txnid v) ->
  is_prepared v = true ->
  walk_step s chain idx v w = (ctl, w') ->
  ctl = LoopNext /\ w_sel w' = None /\ skipped_tracked v w'.
Proof.
  intros Hm Hsel Hev Hlive Hcom Hp H.
  unfold walk_step in H. apply Z.eqb_neq in Hlive. rewrite Hlive in H.
  assert (Hm1 : same_mode r (w_r (walk_account s idx v w))) by exact Hm.
  apply rec_uncommitted_false_iff in Hcom.
  rewrite (same_mode_uncommitted s r _ _ Hm1), Hcom, Hp in H.
  rewrite (same_mode_F_ISSET r _ _ Hm1), Hev in H.
  unfold prepared_assert in H.
  change (w_sel (walk_account s idx v w)) with (w_sel w) in H. rewrite Hsel in H.
  simpl in H. inversion H; subst.
  split; [reflexivity|]. split; [exact Hsel|].
  unfold skipped_tracked. simpl.
  destruct (start_ts v <? min_skipped_ts (w_r w)) eqn:E1;
    destruct (w_max_ts w <? start_ts v) eqn:E2; simpl;
    repeat match goal with
           | E : (_ <? _) = true |- _ => apply Z.ltb_lt in E
           | E : (_ <? _) = false |- _ => apply Z.ltb_ge in E
           end; repeat split; lia.
Qed.

Lemma skipped_tracked_step s chain idx u w ctl w' v :
  walk_step s chain idx u w = (ctl, w') ->
  skipped_tracked v w -> skipped_tracked v w'.
Proof.
  intros H (A & B & C).
  pose proof (walk_step_watermarks _ _ _ _ _ _ _ H) as (_ & _ & _ & _ & _ & _ & Hmin).
  apply walk_step_mono in H as (_ & Hts & Hn & _).
  unfold skipped_tracked. repeat split; auto; lia.
Qed.

Lemma found_tracked_step s chain idx u0 w ctl w' i u :
  walk_step s chain idx u0 w = (ctl, w') ->
  found_tracked i u w -> found_tracked i u w'.
Proof.
  intros H (A & B & C).
  apply walk_step_mono in H as (Htx & Hts & _ & Hs).
  unfold found_tracked. repeat split; auto; lia.
Qed.

Section WalkReaches.

Variable s : WT_SESSION_IMPL.
Variable r : WT_RECONCILE.
Variable chain : list WT_UPDATE.

Lemma drop_nil_length idx : drop idx chain = [] -> (length chain <= idx)%nat.
Proof.
  intros Hd.
  rewrite <- (Nat.sub_0_le (length chain) idx), <- length_drop, Hd. reflexivity.
Qed.

Lemma walk_loop_finds i u rest :
  first_selectable s r chain i u ->
  forall idx w ctl w',
    drop idx chain = rest ->
    same_mode r (w_r w) ->
    ((idx <= i)%nat -> w_sel w = None) ->
    ((i < idx)%nat -> found_tracked i u w) ->
    walk_loop s chain rest idx w = (ctl, w') ->
    (exists f, ctl = LoopFault f) \/ found_tracked i u w'.
Proof.
  intros (Hu & Hsel & Hbefore).
  induction rest as [|u0 rest IH]; intros idx w ctl w' Hd Hm Hle Hgt H; simpl in H.
  - inversion H; subst. right. apply Hgt.
    apply drop_nil_length in Hd. apply lookup_lt_Some in Hu. lia.
  - apply drop_cons_inv in Hd as [Hu0 Hd].
    destruct (walk_step s chain idx u0 w) as [c w1] eqn:E.
    pose proof (walk_step_same_mode _ _ _ _ _ _ _ r E Hm) as Hm1.
    destruct (Nat.lt_trichotomy idx i) as [Hlt | [-> | Hlt]].
    + destruct (walk_step_not_selectable s r chain idx u0 w c w1 Hm (Hle ltac:(lia))
                  (Hbefore idx u0 Hlt Hu0) E) as [[-> Hs1] | (f & ->)].
      * apply (IH (S idx) w1); auto; intros; first [lia | exact Hs1].
      * inversion H; subst. left. eauto.
    + rewrite Hu in Hu0. inversion Hu0; subst u0.
      destruct (walk_step_selects s r chain i u w Hm (Hle ltac:(lia)) Hsel)
        as (c' & w1' & E' & Hc & Hs1 & _).
      rewrite E in E'. inversion E'; subst c' w1'.
      assert (Hft : found_tracked i u w1).
      { pose proof (walk_step_newly_selected _ _ _ _ _ _ _ _ E (Hle ltac:(lia)) Hs1)
          as [A B].
        split; auto. }
      destruct Hc as [-> | ->].
      * apply (IH (S i) w1); auto; intros; first [lia | exact Hft].
      * inversion H; subst. right. exact Hft.
    + pose proof (found_tracked_step _ _ _ _ _ _ _ _ _ E (Hgt Hlt)) as Hft.
      destruct c; try (inversion H; subst; right; exact Hft).
      apply (IH (S idx) w1); auto; intros; first [lia | exact Hft].
Qed.

Lemma walk_loop_skips j v rest :
  chain !! j = Some v ->
  F_ISSET r WT_REC_EVICT = false ->
  txnid v <> WT_TXN_ABORTED ->
  committed_by_rule s r (txnid v) ->
  is_prepared v = true ->
  (forall j' v', (j' < j)%nat -> chain !! j' = Some v' -> ~ selectable s r v') ->
  forall idx w ctl w',
    drop idx chain = rest ->
    same_mode r (w_r w) ->
    ((idx <= j)%nat -> w_sel w = None) ->
    ((j < idx)%nat -> skipped_tracked v w) ->
    walk_loop s chain rest idx w = (ctl, w') ->
    (exists f, ctl = LoopFault f) \/ skipped_tracked v w'.
Proof.
  intros Hv Hev Hlive Hcom Hp Hbefore.
  induction rest as [|u0 rest IH]; intros idx w ctl w' Hd Hm Hle Hgt H; simpl in H.
  - inversion H; subst. right. apply Hgt.
    apply drop_nil_length in Hd. apply lookup_lt_Some in Hv. lia.
  - apply drop_cons_inv in Hd as [Hu0 Hd].
    destruct (walk_step s chain idx u0 w) as [c w1] eqn:E.
    pose proof (walk_step_same_mode _ _ _ _ _ _ _ r E Hm) as Hm1.
    destruct (Nat.lt_trichotomy idx j) as [Hlt | [-> | Hlt]].
    + destruct (walk_step_not_selectable s r chain idx u0 w c w1 Hm (Hle ltac:(lia))
                  (Hbefore idx u0 Hlt Hu0) E) as [[-> Hs1] | (f & ->)].
      * apply (IH (S idx) w1); auto; intros; first [lia | exact Hs1].
      * inversion H; subst. left. eauto.
    + rewrite Hv in Hu0. inversion Hu0; subst u0.
      destruct (walk_step_skips_prepared s r chain j v w c w1 Hm (Hle ltac:(lia))
                  Hev Hlive Hcom Hp E) as (-> & Hs1 & Hst).
      apply (IH (S j) w1); auto; intros; first [lia | exact Hst].
    + pose proof (skipped_tracked_step _ _ _ _ _ _ _ v E (Hgt Hlt)) as Hst.
      destruct c; try (inversion H; subst; right; exact Hst).
      apply (IH (S idx) w1); auto; intros; first [lia | exact Hst].
Qed.

End WalkReaches.

Lemma rec_upd_select_walk_no_fault s r ins ripcip chain vpack rc st w f :
  rec_upd_select s r ins ripcip chain vpack = Returned rc st ->
  rec_upd_walk s r chain <> (LoopFault f, w).
Proof.
  rewrite rec_upd_select_eq_chain. unfold rec_upd_select_chain.
  intros H E. rewrite E in H. discriminate H.
Qed.

Lemma rec_track_covers r w :
  w_max_txn w <= max_txn (rec_track r w) /\ w_max_ts w <= max_ts (rec_track r w).
Proof.
  unfold rec_track, WT_TXNID_LT.
  set (r1 := if max_txn r <? w_max_txn w then r_with_max_txn r (w_max_txn w) else r).
  set (r2 := if max_ts r1 <? w_max_ts w then r_with_max_ts r1 (w_max_ts w) else r1).
  assert (H1 : w_max_txn w <= max_txn r1).
  { unfold r1. destruct (max_txn r <? w_max_txn w) eqn:E; simpl; [lia|].
    apply Z.ltb_ge in E. lia. }
  assert (H2 : w_max_ts w <= max_ts r2 /\ max_txn r2 = max_txn r1).
  { unfold r2. destruct (max_ts r1 <? w_max_ts w) eqn:E; simpl;
      (split; [|reflexivity]); [lia|].
    apply Z.ltb_ge in E. lia. }
  destruct H2 as [H2 H3].
  destruct (w_has_newer_updates w); simpl; split; lia.
Qed.

Lemma rec_upd_finish_covers s ins ripcip chain vpack w rc st :
  rec_upd_finish s ins ripcip chain vpack w = Returned rc st ->
  w_max_txn w <= max_txn (st_r st) /\ w_max_ts w <= max_ts (st_r st)
  /\ forall u, deref chain (w_sel w) = Some u -> start_ts u <= max_ondisk_ts (st_r st).
Proof.
  intros H.
  apply rec_upd_finish_inv in H
    as (_ & chain1 & mem1 & sel1 & calls1 & r3 & saved & _ & Hsave & _ & _ & Hr & _).
  apply rec_save_step_watermarks in Hsave as ((_ & _ & _ & S1 & S2 & S3 & _) & _).
  destruct (rec_track_covers (rec_track_ondisk chain w) w) as [T1 T2].
  pose proof (rec_track_watermarks (rec_track_ondisk chain w) w)
    as (_ & _ & _ & _ & _ & T3 & _).
  rewrite Hr. split; [lia|]. split; [lia|].
  intros u Hu.
  assert (Hd : start_ts u <= max_ondisk_ts (rec_track_ondisk chain w)).
  { unfold rec_track_ondisk. rewrite Hu.
    destruct (max_ondisk_ts (w_r w) <? start_ts u) eqn:E; simpl.
    - lia.
    - apply Z.ltb_ge in E. lia. }
  lia.
Qed.

(** X15.  Outside eviction, a committed prepared update that lies above
    every selectable entry of the chain is skipped and tracked: whatever way
    the call ends with a return (one of its own or the error of the read of
    the cell's value), [min_skipped_ts] is at most its start timestamp, and
    when the call returns OK, or fails in the call of the appender before
    returning (line 497), [max_ts] is at least its start timestamp and the
    page is marked to be left dirty. *)
Theorem skipped_prepared_is_tracked (s : WT_SESSION_IMPL) (r : WT_RECONCILE)
    (ins ripcip : option ref) (chain : list WT_UPDATE)
    (vpack : option WT_CELL_UNPACK) (st : select_state)
    (j : nat) (v : WT_UPDATE) :
  F_ISSET r WT_REC_EVICT = false ->
  chain !! j = Some v ->
  txnid v <> WT_TXN_ABORTED ->
  committed_by_rule s r (txnid v) ->
  is_prepared v = true ->
  (forall j' v', (j' < j)%nat -> chain !! j' = Some v' -> ~ selectable s r v') ->
  ends_with (rec_upd_select s r ins ripcip chain vpack) st ->
  min_skipped_ts (st_r st) <= start_ts v
  /\ (rec_upd_select s r ins ripcip chain vpack = Returned RET_OK st
      \/ (exists err calls,
            rec_upd_select s r ins ripcip chain vpack = Failed err st
            /\ st_append_calls st = calls ++ [(AtReturn, upd (st_sel st))]) ->
      start_ts v <= max_ts (st_r st) /\ leave_dirty (st_r st) = true).
Proof.
  intros Hev Hv Hlive Hcom Hp Hbefore H.
  apply rec_upd_select_ends_inv in H as (ctl & w & Hw & Hcase).
  assert (Hst : skipped_tracked v w).
  { destruct (walk_loop_skips s r chain j v chain Hv Hev Hlive Hcom Hp Hbefore
                0%nat (walk_init r) ctl w) as [(f & ->) | Hst]; auto.
    - apply same_mode_refl.
    - intros; lia.
    - exfalso. destruct Hcase as [[_ (rc & Hret)] | ([Hc | Hc] & _)];
        [|discriminate Hc..].
      eapply rec_upd_select_walk_no_fault; eauto. }
  destruct Hst as (A & B & C).
  assert (Hfin : rec_upd_finish s ins ripcip chain vpack w = Returned RET_OK st
                 \/ (exists e, rec_upd_finish s ins ripcip chain vpack w = Failed e st) ->
                 min_skipped_ts (st_r st) <= start_ts v
                 /\ ((exists err i,
                        rec_upd_finish s ins ripcip chain vpack w = Failed err st
                        /\ st_append_calls st = [(AtTombstoneOnly, Some i)])
                     \/ (start_ts v <= max_ts (st_r st)
                         /\ leave_dirty (st_r st) = true))).
  { intros Hf.
    pose proof (rec_track_ondisk_watermarks chain w) as (_ & _ & _ & _ & _ & _ & S3).
    apply rec_upd_finish_ends_r in Hf
      as [(err & sel1 & calls1 & Hc & Hfail & Hst)
         | (chain1 & mem1 & sel1 & calls1 & saved & _ & Hsave & _ & _ & _)].
    - apply rec_compose_window_err in Hc as (i & u & _ & _ & _ & _ & _ & Hcalls).
      split; [rewrite Hst; simpl; lia|].
      left. exists err, i. split; [exact Hfail|]. rewrite Hst. exact Hcalls.
    - apply rec_save_step_watermarks in Hsave
        as ((_ & _ & _ & _ & S0 & _ & S1) & _ & _ & Hld).
      pose proof (rec_track_watermarks (rec_track_ondisk chain w) w)
        as (_ & _ & _ & _ & _ & _ & S2).
      destruct (rec_track_covers (rec_track_ondisk chain w) w) as [_ T2].
      rewrite rec_track_leave_dirty, C in Hld.
      split; [lia|]. right. split; [lia | exact Hld]. }
  destruct Hcase as [[Hearly (rc & Hret)] | (_ & _ & _ & _ & Hf & Heq)].
  - split; [rewrite Hearly; exact A|].
    intros [Hok | (err & calls & Hfail & _)]; [|congruence].
    apply rec_upd_select_ok_inv in Hok as (ctl' & w' & Hw' & _ & _ & Hcase').
    rewrite Hw in Hw'. inversion Hw'; subst ctl' w'.
    destruct Hcase' as [(Hfirst & _) | (_ & _ & Hf)].
    + exfalso. apply (rec_upd_walk_first s r chain ctl w Hw); auto.
    + destruct (Hfin (or_introl Hf)) as [_ [(err & i & Hff & _) | Hgood]];
        [congruence | exact Hgood].
  - destruct (Hfin Hf) as [Hmin Hrest]. split; [exact Hmin|].
    intros Hhyp.
    destruct Hrest as [(err & i & Hff & Hcalls) | Hgood]; [|exact Hgood].
    exfalso. destruct Hhyp as [Hok | (err' & calls & _ & Hcalls')]; [congruence|].
    rewrite Hcalls in Hcalls'.
    destruct calls as [|c calls]; simpl in Hcalls'; [discriminate Hcalls'|].
    destruct calls; discriminate Hcalls'.
Qed.

Lemma skipped_prepared_is_tracked_witness :
  min_skipped_ts (st_r ex_skipped_prepared_state) <= start_ts (PREPARED_STD 4 25)
  /\ (rec_upd_select (ex_session 0 8 false) (ex_rec [] WT_PAGE_ROW_LEAF 100)
        (Some 1%nat) None [PREPARED_STD 4 25; STD 3 20] None
      = Returned RET_OK ex_skipped_prepared_state
      \/ (exists err calls,
            rec_upd_select (ex_session 0 8 false) (ex_rec [] WT_PAGE_ROW_LEAF 100)
              (Some 1%nat) None [PREPARED_STD 4 25; STD 3 20] None
            = Failed err ex_skipped_prepared_state
            /\ st_append_calls ex_skipped_prepared_state
               = calls ++ [(AtReturn, upd (st_sel ex_skipped_prepared_state))]) ->
      start_ts (PREPARED_STD 4 25) <= max_ts (st_r ex_skipped_prepared_state)
      /\ leave_dirty (st_r ex_skipped_prepared_state) = true).
Proof.
  apply (skipped_prepared_is_tracked (ex_session 0 8 false)
           (ex_rec [] WT_PAGE_ROW_LEAF 100)
           (Some 1%nat) None [PREPARED_STD 4 25; STD 3 20] None
           ex_skipped_prepared_state 0%nat (PREPARED_STD 4 25)).
  - reflexivity.
  - reflexivity.
  - intros E. vm_compute in E. discriminate E.
  - right. reflexivity.
  - reflexivity.
  - intros j' v' Hj. lia.
  - vm_compute. reflexivity.
Defined.

(** X16.  When the chain has a selectable entry, the walk of a call that
    returns chooses the newest one, and on a return with OK the page's
    watermarks cover it: [max_txn] is at least its transaction id, and
    [max_ts] and [max_ondisk_ts] are at least its start timestamp. *)
Theorem first_selectable_is_covered (s : WT_SESSION_IMPL) (r : WT_RECONCILE)
    (ins ripcip : option ref) (chain : list WT_UPDATE)
    (vpack : option WT_CELL_UNPACK) (rc : wt_ret) (st : select_state)
    (i : nat) (u : WT_UPDATE) :
  first_selectable s r chain i u ->
  rec_upd_select s r ins ripcip chain vpack = Returned rc st ->
  (exists ctl w, rec_upd_walk s r chain = (ctl, w) /\ w_sel w = Some i)
  /\ (rc = RET_OK ->
      txnid u <= max_txn (st_r st)
      /\ start_ts u <= max_ts (st_r st)
      /\ start_ts u <= max_ondisk_ts (st_r st)).
Proof.
  intros Hfs H.
  pose proof H as H0.
  apply rec_upd_select_return_inv in H as (ctl & w & Hw & _).
  assert (Hft : found_tracked i u w).
  { destruct (walk_loop_finds s r chain i u chain Hfs 0%nat (walk_init r) ctl w)
      as [(f & ->) | Hft]; auto.
    - apply same_mode_refl.
    - intros; lia.
    - exfalso. eapply rec_upd_select_walk_no_fault; eauto. }
  destruct Hft as (A & B & C).
  split; [eauto|].
  intros ->.
  apply rec_upd_select_ok_inv in H0 as (ctl' & w' & Hw' & _ & _ & Hcase').
  rewrite Hw in Hw'. inversion Hw'; subst ctl' w'.
  destruct Hcase' as [(_ & Hnone & _) | (_ & _ & Hf)]; [congruence|].
  apply rec_upd_finish_covers in Hf as (T1 & T2 & T3).
  destruct Hfs as (Hu & _).
  specialize (T3 u). rewrite A in T3. simpl in T3. specialize (T3 Hu). lia.
Qed.

Lemma first_selectable_is_covered_witness :
  (exists ctl w,
     rec_upd_walk (ex_session 0 8 false) (ex_rec [] WT_PAGE_ROW_LEAF 100)
       [PREPARED_STD 4 25; STD 3 20] = (ctl, w)
     /\ w_sel w = Some 1%nat)
  /\ (RET_OK = RET_OK ->
      txnid (STD 3 20) <= max_txn (st_r ex_skipped_prepared_state)
      /\ start_ts (STD 3 20) <= max_ts (st_r ex_skipped_prepared_state)
      /\ start_ts (STD 3 20) <= max_ondisk_ts (st_r ex_skipped_prepared_state)).
Proof.
  apply (first_selectable_is_covered (ex_session 0 8 false)
           (ex_rec [] WT_PAGE_ROW_LEAF 100)
           (Some 1%nat) None [PREPARED_STD 4 25; STD 3 20] None RET_OK
           ex_skipped_prepared_state 1%nat (STD 3 20)).
  - split; [reflexivity|]. split.
    + split; [intros E; vm_compute in E; discriminate E|].
      split; [right; reflexivity|]. left. split; discriminate.
    + intros j v Hj Hv. destruct j as [|j]; [|lia].
      inversion Hv; subst v. intros (_ & _ & [[_ Hn] | [He _]]).
      * apply Hn. reflexivity.
      * discriminate He.
  - vm_compute. reflexivity.
Defined.

(** *** The saved-update list: the entry and its bytes *)

(** Outside eviction the walk stops at the first entry it selects: a pass
    that goes on has selected nothing, a pass that breaks has selected its
    entry. *)
Lemma walk_step_break s chain idx u w ctl w' :
  walk_step s chain idx u w = (ctl, w') ->
  w_sel w = None ->
  (ctl = LoopBreak -> w_sel w' = Some idx)
  /\ (ctl = LoopNext -> F_ISSET (w_r w) WT_REC_EVICT = false -> w_sel w' = None).
Proof.
  unfold walk_step, walk_select, walk_skip_prepared, walk_set_newer, walk_account.
  intros H Hsel. simpl in H. rewrite Hsel in H.
  change (F_ISSET (r_with_updates_seen (w_r w)
                     (wrap_bits (updates_seen_bits s) (updates_seen (w_r w) + 1)))
            WT_REC_EVICT)
    with (F_ISSET (w_r w) WT_REC_EVICT) in H.
  destruct (F_ISSET (w_r w) WT_REC_EVICT) eqn:Hev; simpl in H;
    repeat match type of H with
           | context [if ?b then _ else _] => destruct b eqn:?; simpl in H
           end; inversion H; subst; simpl; split; intros; congruence.
Qed.

Lemma walk_loop_memsize_next s chain rest :
  forall idx w w',
    walk_loop s chain rest idx w = (LoopNext, w') ->
    wrap64 (w_upd_memsize w) = w_upd_memsize w ->
    w_upd_memsize w' = wrap64 (w_upd_memsize w + live_memsize rest).
Proof.
  induction rest as [|u rest IH]; intros idx w w' H Hm; simpl in H.
  - inversion H; subst. simpl. now rewrite Z.add_0_r.
  - destruct (walk_step s chain idx u w) as [c w1] eqn:E.
    destruct c; try discriminate H.
    apply walk_step_account in E as [_ E2].
    assert (Hm1 : wrap64 (w_upd_memsize w1) = w_upd_memsize w1).
    { rewrite E2. destruct (is_aborted u); [exact Hm | apply wrap64_idem]. }
    rewrite (IH _ _ _ H Hm1), E2. simpl.
    destruct (is_aborted u); [reflexivity|].
    rewrite wrap64_add_l. f_equal. lia.
Qed.

Lemma walk_loop_stops s chain rest :
  forall idx w ctl w',
    walk_loop s chain rest idx w = (ctl, w') ->
    w_sel w = None ->
    F_ISSET (w_r w) WT_REC_EVICT = false ->
    wrap64 (w_upd_memsize w) = w_upd_memsize w ->
    (ctl = LoopNext -> w_sel w' = None)
    /\ (ctl = LoopBreak ->
        exists n, w_sel w' = Some (idx + n)%nat
                  /\ w_upd_memsize w'
                     = wrap64 (w_upd_memsize w + live_memsize (take (S n) rest))).
Proof.
  induction rest as [|u rest IH]; intros idx w ctl w' H Hsel Hev Hm; simpl in H.
  - inversion H; subst. split; [auto | discriminate].
  - destruct (walk_step s chain idx u w) as [c w1] eqn:E.
    pose proof (walk_step_break _ _ _ _ _ _ _ E Hsel) as [Hbrk Hnext].
    pose proof (walk_step_same_mode _ _ _ _ _ _ _ (w_r w) E (same_mode_refl _)) as Hmode.
    pose proof (walk_step_account _ _ _ _ _ _ _ E) as [_ E2].
    destruct c.
    + assert (Hm1 : wrap64 (w_upd_memsize w1) = w_upd_memsize w1).
      { rewrite E2. destruct (is_aborted u); [exact Hm | apply wrap64_idem]. }
      assert (Hev1 : F_ISSET (w_r w1) WT_REC_EVICT = false)
        by (rewrite (same_mode_F_ISSET _ _ _ Hmode); exact Hev).
      destruct (IH _ _ _ _ H (Hnext eq_refl Hev) Hev1 Hm1) as [A B].
      split; [exact A|]. intros Hc. destruct (B Hc) as (n & Hn & Hmem).
      exists (S n). split; [rewrite Hn; f_equal; lia|].
      rewrite Hmem, E2. simpl.
      destruct (is_aborted u); [reflexivity|].
      rewrite wrap64_add_l. f_equal. lia.
    + inversion H; subst. split; [discriminate|]. intros _.
      exists 0%nat. split; [rewrite Hbrk by reflexivity; f_equal; lia|].
      rewrite E2. simpl. destruct (is_aborted u).
      * rewrite !Z.add_0_r. symmetry. exact Hm.
      * now rewrite Z.add_0_r.
    + inversion H; subst. split; discriminate.
    + inversion H; subst. split; discriminate.
Qed.

(** X3.  Whatever way a call ends with a return, the saved-update list
    keeps its entries and gains at most one, at its end.  It gains one only
    when the call returns OK, or when the call of the appender before
    returning (line 497) fails after the save was recorded (line 472).  The
    new entry carries the call's [ins] and [ripcip]; its [onpage_upd] is the
    final selection when that is a STANDARD or MODIFY update, and is empty
    when the selection is a tombstone or empty, in which case the restore
    flag is on; it never refers to a tombstone.  [supd_memsize] grows (modulo
    2^64) by the bytes of the live entries of the chain the walk went over:
    all of them under eviction or when the chain has no selectable entry,
    those down to and including the newest selectable entry otherwise. *)
Theorem saved_updates_gain_at_most_one (s : WT_SESSION_IMPL) (r : WT_RECONCILE)
    (ins ripcip : option ref) (chain : list WT_UPDATE)
    (vpack : option WT_CELL_UNPACK) (st : select_state) :
  ends_with (rec_upd_select s r ins ripcip chain vpack) st ->
  (supd (st_r st) = supd r /\ supd_memsize (st_r st) = supd_memsize r)
  \/ ((rec_upd_select s r ins ripcip chain vpack = Returned RET_OK st
       \/ exists err calls,
            rec_upd_select s r ins ripcip chain vpack = Failed err st
            /\ st_append_calls st = calls ++ [(AtReturn, upd (st_sel st))])
      /\ exists e,
           supd (st_r st) = supd r ++ [e]
           /\ supd_ins e = ins /\ supd_ripcip e = ripcip
           /\ match onpage_upd e with
              | Some k =>
                  upd (st_sel st) = Some k
                  /\ exists u, st_chain st !! k = Some u
                               /\ (type u = WT_UPDATE_STANDARD
                                   \/ type u = WT_UPDATE_MODIFY)
              | None =>
                  restore e = true
                  /\ (upd (st_sel st) = None
                      \/ exists k u, upd (st_sel st) = Some k
                                     /\ st_chain st !! k = Some u
                                     /\ type u = WT_UPDATE_TOMBSTONE)
              end
           /\ (F_ISSET r WT_REC_EVICT = true
               \/ (forall i u, ~ first_selectable s r chain i u) ->
               supd_memsize (st_r st) = wrap64 (supd_memsize r + live_memsize chain))
           /\ (F_ISSET r WT_REC_EVICT = false ->
               forall i u, first_selectable s r chain i u ->
               supd_memsize (st_r st)
               = wrap64 (supd_memsize r + live_memsize (take (S i) chain)))).
Proof.
  intros H.
  apply rec_upd_select_ends_inv in H as (ctl & w & Hw & Hcase).
  pose proof (rec_upd_walk_same_mode s r chain ctl w Hw)
    as (_ & _ & _ & _ & _ & _ & Hsp & Hsm & _).
  destruct Hcase as [[-> _] | (Hctl & _ & _ & _ & Hf & Heq)]; [left; auto|].
  assert (Hto : supd (rec_track_ondisk chain w) = supd r
                /\ supd_memsize (rec_track_ondisk chain w) = supd_memsize r).
  { rewrite <- Hsp, <- Hsm. unfold rec_track_ondisk.
    destruct (deref chain (w_sel w)); [destruct (_ <? _)|]; split; reflexivity. }
  assert (Hbase : supd (rec_track (rec_track_ondisk chain w) w) = supd r
                  /\ supd_memsize (rec_track (rec_track_ondisk chain w) w)
                     = supd_memsize r).
  { split.
    - destruct (tracked_frame s r chain ctl w Hw) as (_ & _ & E). exact E.
    - rewrite <- Hsm. unfold rec_track, rec_track_ondisk.
      repeat match goal with
             | |- context [if ?b then _ else _] => destruct b
             | |- context [match ?x with _ => _ end] => destruct x
             end; reflexivity. }
  apply rec_upd_finish_ends_r in Hf
    as [(err & sel1 & calls1 & _ & _ & ->)
       | (chain1 & mem1 & sel1 & calls1 & saved & _ & Hsave & Hsel & Hext & Hend)].
  { left. exact Hto. }
  destruct saved.
  2:{ left. apply rec_save_step_inv in Hsave as [(_ & -> & _) | (E & _)];
        [exact Hbase | discriminate]. }
  right. split.
  { rewrite Heq. destruct Hend as [Hok | (err & Hfail & _ & _ & Hcalls & _)];
      [left; exact Hok|].
    right. exists err, calls1. split; [exact Hfail|]. rewrite Hcalls, Hsel. reflexivity. }
  apply rec_save_step_entry in Hsave
    as (e & Hs & Hm & Hi & Hrp & _ & Hon & Hmatch).
  simpl in Hon. destruct Hbase as [Hb1 Hb2].
  exists e. rewrite Hs, Hb1, Hm, Hb2, Hsel. simpl.
  split; [reflexivity|]. split; [exact Hi|]. split; [exact Hrp|].
  split.
  { destruct (save_onpage_upd_cases chain1 (upd sel1)) as [[E Hnt] | (E & u & Hd & Ht)];
      rewrite E in Hon.
    - destruct (onpage_upd e) as [k|] eqn:Hk.
      + destruct Hmatch as (u & Hu & Hty). split; [auto|]. exists u. auto.
      + split; [exact Hmatch|]. left. auto.
    - rewrite Hon in *. split; [exact Hmatch|]. right.
      destruct (upd sel1) as [k|] eqn:Hk; [|discriminate].
      exists k, u. simpl in Hd. auto. }
  pose proof (rec_upd_walk_newer s r chain ctl w Hw) as (_ & _ & Hbrk).
  assert (Hnext : ctl = LoopNext ->
                  wrap64 (supd_memsize r + w_upd_memsize w)
                  = wrap64 (supd_memsize r + live_memsize chain)).
  { intros ->.
    rewrite (walk_loop_memsize_next s chain chain 0%nat (walk_init r) w Hw eq_refl).
    simpl. now rewrite wrap64_add_r. }
  assert (Hstops : F_ISSET r WT_REC_EVICT = false ->
                   (ctl = LoopNext -> w_sel w = None)
                   /\ (ctl = LoopBreak ->
                       exists n, w_sel w = Some n
                                 /\ w_upd_memsize w
                                    = wrap64 (live_memsize (take (S n) chain)))).
  { intros Hev.
    destruct (walk_loop_stops s chain chain 0%nat (walk_init r) ctl w Hw eq_refl Hev
                eq_refl) as [A B].
    split; [exact A|]. intros Hc. destruct (B Hc) as (n & Hn & Hmem).
    exists n. split; [exact Hn | exact Hmem]. }
  split.
  - intros Hcases. destruct Hctl as [-> | ->]; [now apply Hnext|].
    exfalso. pose proof (Hbrk eq_refl) as Hev.
    destruct Hcases as [Hev' | Hnone]; [congruence|].
    destruct (Hstops Hev) as [_ B]. destruct (B eq_refl) as (n & Hn & _).
    pose proof (rec_upd_walk_sel_ok s r chain _ w Hw) as Hok.
    unfold sel_ok in Hok. rewrite Hn in Hok.
    destruct Hok as (u & Hu & Hselu & Hnewer).
    apply (Hnone n u). split; [exact Hu|]. split; [exact Hselu|].
    intros j v Hj Hv (Hlv & Hcv & Hpv).
    destruct (Hnewer j v Hj Hv Hlv) as [Hun | [Hp Hev1]].
    + apply rec_uncommitted_false_iff in Hcv. congruence.
    + destruct Hpv as [Hnp | [He _]]; [|congruence].
      apply is_prepared_false_iff in Hnp. congruence.
  - intros Hev i u Hfs.
    assert (Hft : found_tracked i u w).
    { destruct (walk_loop_finds s r chain i u chain Hfs 0%nat (walk_init r) ctl w)
        as [(f & ->) | Hft]; auto.
      - apply same_mode_refl.
      - intros; lia.
      - destruct Hctl; discriminate. }
    destruct Hft as (Hi' & _).
    destruct (Hstops Hev) as [A B].
    destruct Hctl as [-> | ->].
    + rewrite (A eq_refl) in Hi'. discriminate.
    + destruct (B eq_refl) as (n & Hn & Hmem).
      rewrite Hn in Hi'. inversion Hi'; subst n.
      rewrite Hmem. now rewrite wrap64_add_r.
Qed.

Lemma saved_updates_gain_at_most_one_witness :
  (supd (st_r ex_failed_after_save_state)
   = supd (ex_rec [WT_REC_EVICT] WT_PAGE_ROW_LEAF 100)
   /\ supd_memsize (st_r ex_failed_after_save_state)
      = supd_memsize (ex_rec [WT_REC_EVICT] WT_PAGE_ROW_LEAF 100))
  \/ ((rec_upd_select (ex_session_read_fails 0 8 5)
         (ex_rec [WT_REC_EVICT] WT_PAGE_ROW_LEAF 100)
         (Some 1%nat) None [STD 8 0; STD 4 25]
         (Some (ex_cell 20 3 WT_CELL_VALUE false false))
       = Returned RET_OK ex_failed_after_save_state
       \/ exists err calls,
            rec_upd_select (ex_session_read_fails 0 8 5)
              (ex_rec [WT_REC_EVICT] WT_PAGE_ROW_LEAF 100)
              (Some 1%nat) None [STD 8 0; STD 4 25]
              (Some (ex_cell 20 3 WT_CELL_VALUE false false))
            = Failed err ex_failed_after_save_state
            /\ st_append_calls ex_failed_after_save_state
               = calls ++ [(AtReturn, upd (st_sel ex_failed_after_save_state))])
      /\ exists e,
           supd (st_r ex_failed_after_save_state)
           = supd (ex_rec [WT_REC_EVICT] WT_PAGE_ROW_LEAF 100) ++ [e]
           /\ supd_ins e = Some 1%nat /\ supd_ripcip e = None
           /\ match onpage_upd e with
              | Some k =>
                  upd (st_sel ex_failed_after_save_state) = Some k
                  /\ exists u, st_chain ex_failed_after_save_state !! k = Some u
                               /\ (type u = WT_UPDATE_STANDARD
                                   \/ type u = WT_UPDATE_MODIFY)
              | None =>
                  restore e = true
                  /\ (upd (st_sel ex_failed_after_save_state) = None
                      \/ exists k u, upd (st_sel ex_failed_after_save_state) = Some k
                                     /\ st_chain ex_failed_after_save_state !! k = Some u
                                     /\ type u = WT_UPDATE_TOMBSTONE)
              end
           /\ (F_ISSET (ex_rec [WT_REC_EVICT] WT_PAGE_ROW_LEAF 100) WT_REC_EVICT = true
               \/ (forall i u,
                      ~ first_selectable (ex_session_read_fails 0 8 5)
                          (ex_rec [WT_REC_EVICT] WT_PAGE_ROW_LEAF 100)
                          [STD 8 0; STD 4 25] i u) ->
               supd_memsize (st_r ex_failed_after_save_state)
               = wrap64 (supd_memsize (ex_rec [WT_REC_EVICT] WT_PAGE_ROW_LEAF 100)
                         + live_memsize [STD 8 0; STD 4 25]))
           /\ (F_ISSET (ex_rec [WT_REC_EVICT] WT_PAGE_ROW_LEAF 100) WT_REC_EVICT = false ->
               forall i u,
                 first_selectable (ex_session_read_fails 0 8 5)
                   (ex_rec [WT_REC_EVICT] WT_PAGE_ROW_LEAF 100)
                   [STD 8 0; STD 4 25] i u ->
                 supd_memsize (st_r ex_failed_after_save_state)
                 = wrap64 (supd_memsize (ex_rec [WT_REC_EVICT] WT_PAGE_ROW_LEAF 100)
                           + live_memsize (take (S i) [STD 8 0; STD 4 25])))).
Proof.
  apply (saved_updates_gain_at_most_one (ex_session_read_fails 0 8 5)
           (ex_rec [WT_REC_EVICT] WT_PAGE_ROW_LEAF 100)
           (Some 1%nat) None [STD 8 0; STD 4 25]
           (Some (ex_cell 20 3 WT_CELL_VALUE false false))
           ex_failed_after_save_state).
  vm_compute. reflexivity.
Defined.

(** *** The selection a call leaves in [upd_select->upd] *)

(** When the appender was called for a lone tombstone, every entry below
    the tombstone is aborted. *)
Lemma rec_compose_window_call_between s chain vpack i chain1 mem sel calls :
  rec_compose_window s chain vpack (Some i) = Composed chain1 mem sel calls ->
  calls <> [] ->
  forall j v, (i < j)%nat -> chain !! j = Some v -> txnid v = WT_TXN_ABORTED.
Proof.
  unfold rec_compose_window. intros H Hc j v Hj Hv.
  destruct (chain !! i) as [u|] eqn:Hu; [|discriminate H].
  destruct (is_tombstone u); [|inversion H; subst; congruence].
  destruct (negb (txn_visible_all s (txnid u) (start_ts u)));
    [|inversion H; subst; congruence].
  remember (skip_aborted (drop (S i) chain) i) as j0 eqn:Hj0.
  destruct (chain !! S j0) as [nu|] eqn:Hnu.
  { destruct (is_aborted nu); [discriminate H | inversion H; subst; congruence]. }
  assert (Hlast : S j0 = length chain).
  { rewrite Hj0. eapply skip_aborted_last; eauto. now rewrite <- Hj0. }
  apply (skip_aborted_between (drop (S i) chain) i j v).
  - rewrite <- Hj0. apply lookup_lt_Some in Hv. lia.
  - rewrite lookup_drop. replace (S i + (j - S i))%nat with j by lia. exact Hv.
Qed.

(** The composition leaves the walk's choice in place unless that choice
    is a tombstone that is not globally visible; then the selection is empty
    or lies below the tombstone, with only aborted entries between them. *)
Lemma rec_compose_window_moved s chain vpack p chain1 mem sel calls :
  rec_compose_window s chain vpack p = Composed chain1 mem sel calls ->
  (upd sel = p
   /\ forall i t, p = Some i -> chain !! i = Some t ->
        type t <> WT_UPDATE_TOMBSTONE
        \/ txn_visible_all s (txnid t) (start_ts t) = true)
  \/ exists i t,
       p = Some i /\ chain !! i = Some t /\ type t = WT_UPDATE_TOMBSTONE
       /\ txn_visible_all s (txnid t) (start_ts t) = false
       /\ (upd sel = None
           \/ exists k, upd sel = Some k /\ (i < k)%nat
                /\ forall j v, (i < j < k)%nat -> chain1 !! j = Some v ->
                               txnid v = WT_TXN_ABORTED).
Proof.
  intros H.
  pose proof (rec_compose_window_how _ _ _ _ _ _ _ _ H) as Hhow.
  destruct Hhow as [Hp Hc Hs Hcalls
                   | i u Hp Hu Ht Hc Hs Hcalls
                   | i u Hp Hu Ht Hv Hc Hs Hcalls
                   | i u k nu Hp Hu Ht Hv Hik Hnu Hlive Hbetween Hc Hs Hcalls
                   | i u Hp Hu Ht Hv Hts Htxn Hc Hs Htw Hcalls
                   | i u unpack Hp Hu Ht Hv Hvp Hc Hs Hcalls].
  - left. subst. split; [reflexivity|]. intros; discriminate.
  - left. split; [congruence|]. intros i' t' E Ht'. left. congruence.
  - left. split; [congruence|]. intros i' t' E Ht'. right. congruence.
  - right. exists i, u. repeat split; auto. right. exists k. subst chain1. auto.
  - right. exists i, u. repeat split; auto.
  - right. exists i, u. repeat split; auto. right. exists (length chain).
    split; [exact Hs|]. split; [now apply lookup_lt_Some in Hu|].
    intros j v Hj Hjv. subst p.
    apply (rec_compose_window_call_between _ _ _ _ _ _ _ _ H) with (j := j);
      [rewrite Hcalls; discriminate | lia |].
    rewrite Hc in Hjv. rewrite lookup_app_l in Hjv by lia. exact Hjv.
Qed.

(** The appender fails in the composition only for a tombstone that is not
    globally visible; the selection is then empty. *)
Lemma rec_compose_window_err_tombstone s chain vpack p e sel calls :
  rec_compose_window s chain vpack p = ComposeErr e sel calls ->
  exists i t,
    p = Some i /\ chain !! i = Some t /\ type t = WT_UPDATE_TOMBSTONE
    /\ txn_visible_all s (txnid t) (start_ts t) = false
    /\ upd sel = None
    /\ (tw_stop_ts (tw sel), tw_stop_txn (tw sel)) = (start_ts t, txnid t).
Proof.
  intros H. pose proof H as H0.
  apply rec_compose_window_err in H as (i & u & Hp & Hu & _ & Hnone & _).
  exists i, u. split; [exact Hp|]. split; [exact Hu|].
  unfold rec_compose_window in H0. rewrite Hp, Hu in H0.
  destruct (is_tombstone u) eqn:Ht; [|discriminate H0].
  apply is_tombstone_true_iff in Ht.
  destruct (txn_visible_all s (txnid u) (start_ts u)); [discriminate H0|].
  split; [exact Ht|]. split; [reflexivity|]. split; [exact Hnone|].
  simpl in H0. destruct_matches H0; inversion H0; reflexivity.
Qed.

Lemma rec_upd_finish_ends_not_aborted s ins ripcip chain vpack w st
    chain1 mem1 sel1 calls1 :
  rec_upd_finish s ins ripcip chain vpack w = Returned RET_OK st
  \/ (exists e, rec_upd_finish s ins ripcip chain vpack w = Failed e st) ->
  rec_compose_window s chain vpack (w_sel w) = Composed chain1 mem1 sel1 calls1 ->
  not_aborted_assert chain1 (upd sel1) = true.
Proof.
  intros [H | (e & H)] Hc.
  - apply rec_upd_finish_inv in H
      as (_ & chain1' & mem1' & sel1' & calls1' & r3 & saved & Hc' & _ & Hna & _).
    rewrite Hc in Hc'. inversion Hc'; subst. exact Hna.
  - apply rec_upd_finish_failed_inv in H
      as [(sel1' & calls1' & Hc' & _)
         | (chain1' & mem1' & sel1' & calls1' & saved & Hc' & _ & Hna & _)].
    + rewrite Hc in Hc'. discriminate Hc'.
    + rewrite Hc in Hc'. inversion Hc'; subst. exact Hna.
Qed.

(** The entry the walk has chosen is the newest selectable one, and every
    live entry above it is uncommitted or prepared. *)
Lemma good_sel_first_selectable s r chain i :
  good_sel s r chain i ->
  exists u,
    first_selectable s r chain i u
    /\ forall j v, (j < i)%nat -> chain !! j = Some v -> txnid v <> WT_TXN_ABORTED ->
         ~ committed_by_rule s r (txnid v)
         \/ prepare_state v = WT_PREPARE_LOCKED
         \/ prepare_state v = WT_PREPARE_INPROGRESS.
Proof.
  intros (u & Hu & Hsel & Hnewer). exists u. split; [split; [exact Hu|split; [exact Hsel|]]|].
  - intros j v Hj Hv (Hlv & Hcv & Hpv).
    destruct (Hnewer j v Hj Hv Hlv) as [Hun | [Hp Hev]].
    + apply rec_uncommitted_false_iff in Hcv. congruence.
    + destruct Hpv as [Hnp | [He _]]; [|congruence].
      apply is_prepared_false_iff in Hnp. congruence.
  - intros j v Hj Hv Hlv.
    destruct (Hnewer j v Hj Hv Hlv) as [Hun | [Hp Hev]].
    + left. intros Hc. apply rec_uncommitted_false_iff in Hc. congruence.
    + right. now apply is_prepared_true_iff.
Qed.

(** C1, as the code has it.  The update the chain walk (lines 244-312)
    chooses is the first entry of the chain, newest first, that is
    non-aborted, committed under the reconciliation's visibility rule and not
    prepared (LOCKED or IN_PROGRESS), except under eviction where an update
    whose prepare is in progress may be chosen; every strictly newer
    non-aborted entry is uncommitted or prepared.  Whatever way the call ends
    with a return, [upd_select->upd] is that entry, unless the call went on
    to compose the window (it returns OK or fails in a call of the appender)
    and the entry is a tombstone that is not globally visible: then
    [upd_select->upd] is not the tombstone but empty, or the next non-aborted
    entry below it, every entry between the two being aborted (lines
    376-388); that entry may be the original value appended at the tail of
    the chain (line 411).  When the chain has no such first entry,
    [upd_select->upd] is empty. *)
Theorem upd_select_selects_newest_committed (s : WT_SESSION_IMPL) (r : WT_RECONCILE)
    (ins ripcip : option ref) (chain : list WT_UPDATE)
    (vpack : option WT_CELL_UNPACK) (o : outcome) (st : select_state) :
  rec_upd_select s r ins ripcip chain vpack = o ->
  ends_with o st ->
  (forall k, upd (st_sel st) = Some k ->
     exists i u,
       first_selectable s r chain i u
       /\ (forall j v, (j < i)%nat -> chain !! j = Some v -> txnid v <> WT_TXN_ABORTED ->
             ~ committed_by_rule s r (txnid v)
             \/ prepare_state v = WT_PREPARE_LOCKED
             \/ prepare_state v = WT_PREPARE_INPROGRESS)
       /\ (k = i
           \/ (composes o st
               /\ type u = WT_UPDATE_TOMBSTONE
               /\ txn_visible_all s (txnid u) (start_ts u) = false
               /\ (i < k)%nat
               /\ (exists nu, st_chain st !! k = Some nu /\ txnid nu <> WT_TXN_ABORTED)
               /\ forall j v, (i < j < k)%nat -> st_chain st !! j = Some v ->
                              txnid v = WT_TXN_ABORTED)))
  /\ (forall i u,
        first_selectable s r chain i u ->
        (~ composes o st \/ type u <> WT_UPDATE_TOMBSTONE
         \/ txn_visible_all s (txnid u) (start_ts u) = true ->
         upd (st_sel st) = Some i)
        /\ (composes o st -> type u = WT_UPDATE_TOMBSTONE ->
            txn_visible_all s (txnid u) (start_ts u) = false ->
            upd (st_sel st) <> Some i)).
Proof.
  intros Ho H. subst o.
  pose proof H as H0.
  apply rec_upd_select_ends_inv in H as (ctl & w & Hw & Hcase).
  pose proof (rec_upd_walk_sel_ok s r chain ctl w Hw) as Hok. unfold sel_ok in Hok.
  assert (Hnofault : forall f, ctl <> LoopFault f).
  { intros f ->. destruct Hcase as [[_ (rc & Hret)] | ([Hc | Hc] & _)];
      [|discriminate Hc..].
    eapply rec_upd_select_walk_no_fault; eauto. }
  assert (Hfind : forall i u, first_selectable s r chain i u -> w_sel w = Some i).
  { intros i u Hfs.
    destruct (walk_loop_finds s r chain i u chain Hfs 0%nat (walk_init r) ctl w)
      as [(f & Hf) | (A & _)]; auto.
    - apply same_mode_refl.
    - intros; lia.
    - exfalso. now apply (Hnofault f). }
  assert (Hsame : forall i u i' u',
             first_selectable s r chain i u -> w_sel w = Some i' ->
             chain !! i' = Some u' -> i' = i /\ u' = u).
  { intros i u i' u' Hfs Hs Hu'. pose proof (Hfind i u Hfs) as E.
    rewrite Hs in E. inversion E; subst i'. destruct Hfs as (Hu & _).
    rewrite Hu in Hu'. inversion Hu'. auto. }
  assert (Hfinish : rec_upd_finish s ins ripcip chain vpack w = Returned RET_OK st
                    \/ (exists e, rec_upd_finish s ins ripcip chain vpack w = Failed e st) ->
                    rec_upd_select s r ins ripcip chain vpack
                    = rec_upd_finish s ins ripcip chain vpack w ->
                    (forall k, upd (st_sel st) = Some k ->
                       exists i u,
                         first_selectable s r chain i u
                         /\ (forall j v, (j < i)%nat -> chain !! j = Some v ->
                               txnid v <> WT_TXN_ABORTED ->
                               ~ committed_by_rule s r (txnid v)
                               \/ prepare_state v = WT_PREPARE_LOCKED
                               \/ prepare_state v = WT_PREPARE_INPROGRESS)
                         /\ (k = i
                             \/ (composes (rec_upd_select s r ins ripcip chain vpack) st
                                 /\ type u = WT_UPDATE_TOMBSTONE
                                 /\ txn_visible_all s (txnid u) (start_ts u) = false
                                 /\ (i < k)%nat
                                 /\ (exists nu, st_chain st !! k = Some nu
                                                /\ txnid nu <> WT_TXN_ABORTED)
                                 /\ forall j v, (i < j < k)%nat ->
                                                st_chain st !! j = Some v ->
                                                txnid v = WT_TXN_ABORTED)))
                    /\ (forall i u,
                          first_selectable s r chain i u ->
                          (~ composes (rec_upd_select s r ins ripcip chain vpack) st
                           \/ type u <> WT_UPDATE_TOMBSTONE
                           \/ txn_visible_all s (txnid u) (start_ts u) = true ->
                           upd (st_sel st) = Some i)
                          /\ (composes (rec_upd_select s r ins ripcip chain vpack) st ->
                              type u = WT_UPDATE_TOMBSTONE ->
                              txn_visible_all s (txnid u) (start_ts u) = false ->
                              upd (st_sel st) <> Some i))).
  { intros Hf Heq.
    assert (Hcomp : composes (rec_upd_select s r ins ripcip chain vpack) st).
    { unfold composes. rewrite Heq. exact Hf. }
    pose proof (fun c m sl cl =>
                  rec_upd_finish_ends_not_aborted s ins ripcip chain vpack w st c m sl cl Hf)
      as Hna.
    apply rec_upd_finish_ends_r in Hf
      as [(e & sel1 & calls1 & Hc & _ & Hst)
         | (chain1 & mem1 & sel1 & calls1 & saved & Hc & _ & Hsel & Hext & _)].
    - apply rec_compose_window_err_tombstone in Hc
        as (i0 & t & Hp & Ht & Htomb & Hvis & Hnone & _).
      assert (Hupd : upd (st_sel st) = None) by (rewrite Hst; exact Hnone).
      split; [intros k Hk; congruence|].
      intros i u Hfs.
      destruct (Hsame i u i0 t Hfs Hp Ht) as [-> ->].
      split; [|intros; congruence].
      intros [Hn | [Hn | Hn]]; [contradiction | contradiction | congruence].
    - specialize (Hna _ _ _ _ Hc).
      assert (Hupd : upd (st_sel st) = upd sel1) by (rewrite Hsel; reflexivity).
      rewrite Hupd.
      destruct (rec_compose_window_moved _ _ _ _ _ _ _ _ Hc)
        as [[Hp Hnt] | (i0 & t & Hp & Ht & Htomb & Hvis & Hmv)].
      + split.
        * intros k Hk. rewrite Hp in Hk. rewrite Hk in Hok.
          destruct (good_sel_first_selectable _ _ _ _ Hok) as (u & Hfs & Hnewer).
          exists k, u. auto.
        * intros i u Hfs. pose proof (Hfind i u Hfs) as Hs.
          split; [intros _; congruence|].
          intros _ Htomb Hvis. exfalso.
          destruct Hfs as (Hu & _).
          destruct (Hnt i u Hs Hu); congruence.
      + rewrite Hp in Hok.
        destruct (good_sel_first_selectable _ _ _ _ Hok) as (t' & Hfs0 & Hnewer).
        assert (t' = t) by (destruct Hfs0 as (Ht' & _); congruence). subst t'.
        split.
        * intros k Hk. exists i0, t. split; [exact Hfs0|]. split; [exact Hnewer|].
          right.
          destruct Hmv as [Hnone | (k' & Hk' & Hlt & Hbetween)]; [congruence|].
          assert (k' = k) by congruence. subst k'.
          unfold not_aborted_assert in Hna. rewrite Hk in Hna.
          destruct (chain1 !! k) as [nu|] eqn:Hnu; [|discriminate Hna].
          apply negb_true_iff in Hna. unfold is_aborted in Hna. apply Z.eqb_neq in Hna.
          split; [exact Hcomp|]. split; [exact Htomb|]. split; [exact Hvis|].
          split; [exact Hlt|]. split; [exists nu; auto|].
          intros j v Hj Hjv.
          assert (Hlen : (j < length chain1)%nat)
            by (apply lookup_lt_Some in Hnu; lia).
          apply lookup_lt_is_Some in Hlen as (v' & Hv').
          pose proof (Hext _ _ Hv') as E. rewrite Hjv in E. inversion E; subst v'.
          now apply (Hbetween j v).
        * intros i u Hfs.
          destruct (Hsame i u i0 t Hfs Hp Ht) as [-> ->].
          split.
          -- intros [Hn | [Hn | Hn]]; [contradiction | contradiction | congruence].
          -- intros _ _ _.
             destruct Hmv as [Hnone | (k' & Hk' & Hlt & _)]; [congruence|].
             rewrite Hk'. intros E. inversion E. lia. }
  destruct Hcase as [[Hearly (rc & Hret)] | (_ & _ & _ & _ & Hf & Heq)];
    [|now apply Hfinish].
  assert (Hdec : rc = RET_OK \/ rc <> RET_OK)
    by (destruct rc; [left; reflexivity | right; discriminate..]).
  destruct Hdec as [-> | Hrc].
  - pose proof Hret as Hret0.
    apply rec_upd_select_ok_inv in Hret as (ctl' & w' & Hw' & _ & _ & Hcase').
    rewrite Hw in Hw'. inversion Hw'; subst ctl' w'.
    destruct Hcase' as [(_ & Hnone & _) | (_ & _ & Hf)].
    + assert (Hupd : upd (st_sel st) = None) by (rewrite Hearly; exact Hnone).
      split; [intros k Hk; congruence|].
      intros i u Hfs. pose proof (Hfind i u Hfs). congruence.
    + apply Hfinish; [now left | congruence].
  - assert (Hupd : upd (st_sel st) = w_sel w) by (rewrite Hearly; reflexivity).
    assert (Hnc : ~ composes (rec_upd_select s r ins ripcip chain vpack) st).
    { rewrite Hret. intros [E | (e & E)]; [inversion E; congruence | discriminate E]. }
    rewrite Hupd. split.
    + intros k Hk. rewrite Hk in Hok.
      destruct (good_sel_first_selectable _ _ _ _ Hok) as (u & Hfs & Hnewer).
      exists k, u. auto.
    + intros i u Hfs. split; [intros _; now apply (Hfind i u)|].
      intros Hc. contradiction.
Qed.

Lemma upd_select_selects_newest_committed_witness :
  (forall k, upd (st_sel ex_tombstone_over_value_state) = Some k ->
     exists i u,
       first_selectable (ex_session 0 100 false)
         (ex_rec [WT_REC_VISIBLE_ALL] WT_PAGE_ROW_LEAF 100) [TOMB 7 40; STD 5 30] i u
       /\ (forall j v, (j < i)%nat -> [TOMB 7 40; STD 5 30] !! j = Some v ->
             txnid v <> WT_TXN_ABORTED ->
             ~ committed_by_rule (ex_session 0 100 false)
                 (ex_rec [WT_REC_VISIBLE_ALL] WT_PAGE_ROW_LEAF 100) (txnid v)
             \/ prepare_state v = WT_PREPARE_LOCKED
             \/ prepare_state v = WT_PREPARE_INPROGRESS)
       /\ (k = i
           \/ (composes (Returned RET_OK ex_tombstone_over_value_state)
                 ex_tombstone_over_value_state
               /\ type u = WT_UPDATE_TOMBSTONE
               /\ txn_visible_all (ex_session 0 100 false) (txnid u) (start_ts u) = false
               /\ (i < k)%nat
               /\ (exists nu, st_chain ex_tombstone_over_value_state !! k = Some nu
                              /\ txnid nu <> WT_TXN_ABORTED)
               /\ forall j v, (i < j < k)%nat ->
                              st_chain ex_tombstone_over_value_state !! j = Some v ->
                              txnid v = WT_TXN_ABORTED)))
  /\ (forall i u,
        first_selectable (ex_session 0 100 false)
          (ex_rec [WT_REC_VISIBLE_ALL] WT_PAGE_ROW_LEAF 100) [TOMB 7 40; STD 5 30] i u ->
        (~ composes (Returned RET_OK ex_tombstone_over_value_state)
             ex_tombstone_over_value_state
         \/ type u <> WT_UPDATE_TOMBSTONE
         \/ txn_visible_all (ex_session 0 100 false) (txnid u) (start_ts u) = true ->
         upd (st_sel ex_tombstone_over_value_state) = Some i)
        /\ (composes (Returned RET_OK ex_tombstone_over_value_state)
              ex_tombstone_over_value_state ->
            type u = WT_UPDATE_TOMBSTONE ->
            txn_visible_all (ex_session 0 100 false) (txnid u) (start_ts u) = false ->
            upd (st_sel ex_tombstone_over_value_state) <> Some i)).
Proof.
  apply (upd_select_selects_newest_committed (ex_session 0 100 false)
           (ex_rec [WT_REC_VISIBLE_ALL] WT_PAGE_ROW_LEAF 100)
           (Some 1%nat) None [TOMB 7 40; STD 5 30] None
           (Returned RET_OK ex_tombstone_over_value_state)
           ex_tombstone_over_value_state).
  - vm_compute. reflexivity.
  - reflexivity.
Defined.

(** C1 as it is worded fails: [upd_select->upd] need not be the first
    selectable entry of the chain.  For a committed tombstone, not globally
    visible, above a committed value, a call that returns OK leaves the value
    in [upd_select->upd], and the tombstone above it is non-aborted,
    committed and not prepared. *)
Lemma selection_moves_below_tombstone :
  ~ (forall (s : WT_SESSION_IMPL) (r : WT_RECONCILE) (ins ripcip : option ref)
            (chain : list WT_UPDATE) (vpack : option WT_CELL_UNPACK)
            (rc : wt_ret) (st : select_state) (k : nat),
        rec_upd_select s r ins ripcip chain vpack = Returned rc st ->
        upd (st_sel st) = Some k ->
        exists u,
          st_chain st !! k = Some u
          /\ txnid u <> WT_TXN_ABORTED
          /\ committed_by_rule s r (txnid u)
          /\ prepare_allows r u
          /\ forall j v, (j < k)%nat -> st_chain st !! j = Some v ->
               ~ selectable s r v
               /\ (txnid v <> WT_TXN_ABORTED ->
                   ~ committed_by_rule s r (txnid v)
                   \/ prepare_state v = WT_PREPARE_LOCKED
                   \/ prepare_state v = WT_PREPARE_INPROGRESS)).
Proof.
  intros H.
  assert (E : rec_upd_select (ex_session 0 100 false)
                (ex_rec [WT_REC_VISIBLE_ALL] WT_PAGE_ROW_LEAF 100)
                (Some 1%nat) None [TOMB 7 40; STD 5 30] None
              = Returned RET_OK ex_tombstone_over_value_state)
    by (vm_compute; reflexivity).
  destruct (H _ _ _ _ _ _ _ _ 1%nat E eq_refl) as (u & _ & _ & _ & _ & Hnewer).
  destruct (Hnewer 0%nat (TOMB 7 40)) as [Hns _]; [lia | reflexivity |].
  apply Hns. split; [intros X; vm_compute in X; discriminate X|].
  split; [right; reflexivity|]. left. split; discriminate.
Qed.

(** *** The window that is written *)

(** X17.  When the newest selectable entry of the chain is not a
    tombstone (and its time pair lies in the range of live values), a call
    that returns OK selects it and writes the window that starts at its time
    pair and has no stop; the prepare flag is on exactly when its prepare is
    in progress. *)
Theorem plain_candidate_window (s : WT_SESSION_IMPL) (r : WT_RECONCILE)
    (ins ripcip : option ref) (chain : list WT_UPDATE)
    (vpack : option WT_CELL_UNPACK) (st : select_state)
    (i : nat) (u : WT_UPDATE) :
  first_selectable s r chain i u ->
  type u <> WT_UPDATE_TOMBSTONE ->
  start_ts u <= WT_TS_MAX ->
  txnid u <= WT_TXN_MAX ->
  rec_upd_select s r ins ripcip chain vpack = Returned RET_OK st ->
  st_sel st = mk_sel (Some i) (value_window u).
Proof.
  intros Hfs Hty Hts Htx H.
  pose proof H as H0.
  apply rec_upd_select_ok_inv in H as (ctl & w & Hw & _ & _ & Hcase).
  assert (Hft : found_tracked i u w).
  { destruct (walk_loop_finds s r chain i u chain Hfs 0%nat (walk_init r) ctl w)
      as [(f & ->) | Hft]; auto.
    - apply same_mode_refl.
    - intros; lia.
    - exfalso. eapply rec_upd_select_walk_no_fault; eauto. }
  destruct Hft as (Hs & _).
  destruct Hfs as (Hu & _).
  destruct Hcase as [(_ & Hnone & _) | (_ & _ & Hf)]; [congruence|].
  apply rec_upd_finish_inv in Hf
    as (_ & chain1 & mem1 & sel1 & calls1 & r3 & saved & Hc & _ & _ & Hsel & _).
  unfold rec_compose_window in Hc. rewrite Hs, Hu in Hc.
  apply is_tombstone_false_iff in Hty. rewrite Hty in Hc.
  inversion Hc; subst sel1. rewrite Hsel. simpl.
  rewrite tw_repair_id.
  - destruct (is_inprogress u) eqn:Hip; unfold value_window; rewrite Hip; reflexivity.
  - unfold tw_stop_lt_start. destruct (is_inprogress u); simpl; lia.
Qed.

Lemma plain_candidate_window_witness :
  st_sel ex_skipped_prepared_state = mk_sel (Some 1%nat) (value_window (STD 3 20)).
Proof.
  apply (plain_candidate_window (ex_session 0 8 false)
           (ex_rec [] WT_PAGE_ROW_LEAF 100)
           (Some 1%nat) None [PREPARED_STD 4 25; STD 3 20] None
           ex_skipped_prepared_state 1%nat (STD 3 20)).
  - split; [reflexivity|]. split.
    + split; [intros E; vm_compute in E; discriminate E|].
      split; [right; reflexivity|]. left. split; discriminate.
    + intros j v Hj Hv. destruct j as [|j]; [|lia].
      inversion Hv; subst v. intros (_ & _ & [[_ Hn] | [He _]]).
      * apply Hn. reflexivity.
      * discriminate He.
  - discriminate.
  - vm_compute. discriminate.
  - vm_compute. discriminate.
  - vm_compute. reflexivity.
Defined.

Lemma skip_aborted_stops rest :
  forall idx n nu,
    rest !! n = Some nu ->
    txnid nu <> WT_TXN_ABORTED ->
    (forall m v, (m < n)%nat -> rest !! m = Some v -> txnid v = WT_TXN_ABORTED) ->
    skip_aborted rest idx = (idx + n)%nat.
Proof.
  induction rest as [|u rest IH]; intros idx n nu Hn Hlive Hbefore; [discriminate Hn|].
  simpl. destruct n as [|n].
  - inversion Hn; subst u. apply Z.eqb_neq in Hlive. rewrite Hlive. lia.
  - assert (Hu : txnid u = WT_TXN_ABORTED) by (apply (Hbefore 0%nat u); [lia | reflexivity]).
    apply Z.eqb_eq in Hu. rewrite Hu.
    rewrite (IH (S idx) n nu); [lia | exact Hn | exact Hlive |].
    intros m v Hm Hv. apply (Hbefore (S m) v); [lia | exact Hv].
Qed.

(** X18.  When the newest selectable entry of the chain is a tombstone
    that is not globally visible and a live entry lies below it, a call that
    returns OK selects that live entry (the first non-aborted one below the
    tombstone).  The window stops at the tombstone's time pair; it starts at
    the selected entry's time pair, unless the tombstone's pair is earlier
    than that (out of order), in which case the start is set to the
    tombstone's pair and durable timestamp. *)
Theorem tombstone_over_value_window (s : WT_SESSION_IMPL) (r : WT_RECONCILE)
    (ins ripcip : option ref) (chain : list WT_UPDATE)
    (vpack : option WT_CELL_UNPACK) (st : select_state)
    (i k : nat) (t nu : WT_UPDATE) :
  first_selectable s r chain i t ->
  type t = WT_UPDATE_TOMBSTONE ->
  txn_visible_all s (txnid t) (start_ts t) = false ->
  (i < k)%nat ->
  chain !! k = Some nu ->
  txnid nu <> WT_TXN_ABORTED ->
  (forall j v, (i < j < k)%nat -> chain !! j = Some v -> txnid v = WT_TXN_ABORTED) ->
  rec_upd_select s r ins ripcip chain vpack = Returned RET_OK st ->
  upd (st_sel st) = Some k
  /\ (tw_start_le_stop (removed_value_window t nu) ->
      tw (st_sel st) = removed_value_window t nu)
  /\ (tw_stop_lt_start (removed_value_window t nu) ->
      tw (st_sel st) = tombstone_only_window t).
Proof.
  intros Hfs Hty Hvis Hik Hnu Hlive Hbetween H.
  pose proof H as H0.
  apply rec_upd_select_ok_inv in H as (ctl & w & Hw & _ & _ & Hcase).
  assert (Hft : found_tracked i t w).
  { destruct (walk_loop_finds s r chain i t chain Hfs 0%nat (walk_init r) ctl w)
      as [(f & ->) | Hft]; auto.
    - apply same_mode_refl.
    - intros; lia.
    - exfalso. eapply rec_upd_select_walk_no_fault; eauto. }
  destruct Hft as (Hs & _).
  destruct Hfs as (Ht & _).
  destruct Hcase as [(_ & Hnone & _) | (_ & _ & Hf)]; [congruence|].
  apply rec_upd_finish_inv in Hf
    as (_ & chain1 & mem1 & sel1 & calls1 & r3 & saved & Hc & _ & _ & Hsel & _).
  assert (Hj : S (skip_aborted (drop (S i) chain) i) = k).
  { rewrite (skip_aborted_stops (drop (S i) chain) i (k - S i)%nat nu).
    - lia.
    - rewrite lookup_drop. replace (S i + (k - S i))%nat with k by lia. exact Hnu.
    - exact Hlive.
    - intros m v Hm Hv. rewrite lookup_drop in Hv.
      apply (Hbetween (S i + m)%nat v); [lia | exact Hv]. }
  unfold rec_compose_window in Hc. rewrite Hs, Ht in Hc.
  apply is_tombstone_true_iff in Hty. rewrite Hty, Hvis in Hc. simpl in Hc.
  rewrite Hj, Hnu in Hc.
  assert (Hab : is_aborted nu = false) by (unfold is_aborted; now apply Z.eqb_neq).
  rewrite Hab in Hc. inversion Hc; subst sel1. rewrite Hsel. simpl.
  assert (Hcomposed :
            time_window_set_start
              (time_window_set_stop
                 (if is_inprogress t then tw_set_prepare time_window_init
                  else time_window_init) t) nu
            = removed_value_window t nu).
  { destruct (is_inprogress t) eqn:Hip; unfold removed_value_window; rewrite Hip;
      reflexivity. }
  rewrite Hcomposed.
  split; [reflexivity|]. split.
  - intros Hle. apply tw_repair_id.
    unfold tw_start_le_stop, tw_stop_lt_start in *. lia.
  - intros Hlt. apply tw_out_of_order_iff in Hlt.
    unfold tw_repair. rewrite Hlt. reflexivity.
Qed.

Lemma tombstone_over_value_window_witness :
  upd (st_sel ex_out_of_order_state) = Some 2%nat
  /\ (tw_start_le_stop (removed_value_window (TOMB 7 20) (STD 5 30)) ->
      tw (st_sel ex_out_of_order_state) = removed_value_window (TOMB 7 20) (STD 5 30))
  /\ (tw_stop_lt_start (removed_value_window (TOMB 7 20) (STD 5 30)) ->
      tw (st_sel ex_out_of_order_state) = tombstone_only_window (TOMB 7 20)).
Proof.
  apply (tombstone_over_value_window (ex_session 0 100 false)
           (ex_rec [WT_REC_VISIBLE_ALL] WT_PAGE_ROW_LEAF 100)
           (Some 1%nat) None [TOMB 7 20; ABORTED_STD 25; STD 5 30] None
           ex_out_of_order_state 0%nat 2%nat (TOMB 7 20) (STD 5 30)).
  - split; [reflexivity|]. split.
    + split; [intros E; vm_compute in E; discriminate E|].
      split; [right; vm_compute; reflexivity|]. left. split; discriminate.
    + intros j v Hj. lia.
  - reflexivity.
  - reflexivity.
  - lia.
  - reflexivity.
  - intros E. vm_compute in E. discriminate E.
  - intros j v Hj Hv. assert (j = 1%nat) by lia. subst j.
    inversion Hv; subst v. reflexivity.
  - vm_compute. reflexivity.
Defined.

(** *** Updates that are not stable *)

Lemma same_mode_stable s r r' u :
  same_mode r r' -> rec_update_stable s r' u = rec_update_stable s r u.
Proof.
  intros Hm. unfold rec_update_stable. now rewrite (same_mode_F_ISSET r r' _ Hm).
Qed.

Lemma walk_step_unstable s r chain idx u w w' :
  F_ISSET r WT_REC_EVICT = true ->
  same_mode r (w_r w) ->
  walk_step s chain idx u w = (LoopNext, w') ->
  updates_unstable (w_r w')
  = if negb (is_aborted u) && negb (rec_uncommitted s r (txnid u))
       && negb (rec_update_stable s r u)
    then wrap_bits (updates_unstable_bits s) (updates_unstable (w_r w) + 1)
    else updates_unstable (w_r w).
Proof.
  intros Hev Hm H.
  assert (Hm1 : same_mode r (w_r (walk_account s idx u w))) by exact Hm.
  unfold walk_step in H. unfold is_aborted.
  destruct (txnid u =? WT_TXN_ABORTED); [inversion H; subst; reflexivity|].
  rewrite (same_mode_uncommitted s r _ _ Hm1) in H.
  destruct (rec_uncommitted s r (txnid u)); simpl.
  { destruct (w_sel (walk_account s idx u w)); inversion H; subst; reflexivity. }
  assert (Hselect : walk_select s idx u (walk_account s idx u w) = (LoopNext, w') ->
            updates_unstable (w_r w')
            = if negb (rec_update_stable s r u)
              then wrap_bits (updates_unstable_bits s) (updates_unstable (w_r w) + 1)
              else updates_unstable (w_r w)).
  { unfold walk_select. simpl.
    change (r_with_updates_seen (w_r w)
              (wrap_bits (updates_seen_bits s) (updates_seen (w_r w) + 1)))
      with (w_r (walk_account s idx u w)).
    rewrite (same_mode_F_ISSET r _ _ Hm1), Hev, (same_mode_stable s r _ u Hm1). simpl.
    destruct (rec_update_stable s r u); simpl; intros E; inversion E; subst; reflexivity. }
  destruct (is_prepared u); [|auto].
  rewrite (same_mode_F_ISSET r _ _ Hm1), Hev in H. simpl in H.
  destruct (prepared_assert chain (walk_account s idx u w) u); simpl in H; [|discriminate H].
  destruct (is_inprogress u); simpl in H; [auto | discriminate H].
Qed.

Lemma walk_loop_unstable s r chain rest :
  F_ISSET r WT_REC_EVICT = true ->
  2 ^ updates_unstable_bits s <> 0 ->
  forall idx w w',
    walk_loop s chain rest idx w = (LoopNext, w') ->
    same_mode r (w_r w) ->
    wrap_bits (updates_unstable_bits s) (updates_unstable (w_r w))
    = updates_unstable (w_r w) ->
    updates_unstable (w_r w')
    = wrap_bits (updates_unstable_bits s)
        (updates_unstable (w_r w) + count_unstable s r rest).
Proof.
  intros Hev Hb.
  induction rest as [|u rest IH]; intros idx w w' H Hm Hr; simpl in H.
  - inversion H; subst. simpl. now rewrite Z.add_0_r.
  - destruct (walk_step s chain idx u w) as [c w1] eqn:E.
    destruct c; try discriminate H.
    pose proof (walk_step_same_mode _ _ _ _ _ _ _ r E Hm) as Hm1.
    apply (walk_step_unstable s r) in E; auto.
    simpl.
    destruct (negb (is_aborted u) && negb (rec_uncommitted s r (txnid u))
              && negb (rec_update_stable s r u)).
    + assert (Hr1 : wrap_bits (updates_unstable_bits s) (updates_unstable (w_r w1))
                    = updates_unstable (w_r w1))
        by (rewrite E; now apply wrap_bits_idem).
      rewrite (IH _ _ _ H Hm1 Hr1), E, wrap_bits_add_l by exact Hb. f_equal. lia.
    + rewrite <- E in Hr. rewrite (IH _ _ _ H Hm1 Hr), E. reflexivity.
Qed.

(** X19.  A call that returns OK under eviction has counted, in
    [updates_unstable], every live committed entry of the chain that
    [__rec_update_stable] does not find stable, modulo 2 to the width of the
    counter's type (whatever that width is). *)
Theorem eviction_counts_unstable_updates (s : WT_SESSION_IMPL) (r : WT_RECONCILE)
    (ins ripcip : option ref) (chain : list WT_UPDATE)
    (vpack : option WT_CELL_UNPACK) (st : select_state) :
  F_ISSET r WT_REC_EVICT = true ->
  0 <= updates_unstable r < 2 ^ updates_unstable_bits s ->
  rec_upd_select s r ins ripcip chain vpack = Returned RET_OK st ->
  updates_unstable (st_r st)
  = (updates_unstable r + count_unstable s r chain) mod 2 ^ updates_unstable_bits s.
Proof.
  intros Hev Hrange H.
  apply rec_upd_select_ok_inv in H as (ctl & w & Hw & Hctl & _ & Hcase).
  pose proof (rec_upd_walk_newer s r chain ctl w Hw) as (_ & _ & Hbrk).
  assert (Hc : ctl = LoopNext).
  { destruct Hctl as [-> | ->]; [reflexivity|].
    rewrite Hbrk in Hev; [discriminate | reflexivity]. }
  subst ctl.
  assert (Hb : 2 ^ updates_unstable_bits s <> 0) by lia.
  pose proof (walk_loop_unstable s r chain chain Hev Hb 0%nat (walk_init r) w Hw
                (same_mode_refl r)) as Hu.
  simpl in Hu. specialize (Hu (wrap_bits_small _ _ Hrange)). unfold wrap_bits in Hu.
  destruct Hcase as [(_ & _ & ->) | (_ & _ & Hf)]; [exact Hu|].
  apply rec_upd_finish_inv in Hf
    as (_ & chain1 & mem1 & sel1 & calls1 & r3 & saved & _ & Hsave & _ & _ & Hr & _).
  destruct (tracked_counts chain w) as (_ & Htu & _).
  apply rec_save_step_watermarks in Hsave as (_ & _ & Hsu & _).
  rewrite Hr, Hsu, Htu. exact Hu.
Qed.

Lemma eviction_counts_unstable_updates_witness :
  updates_unstable (st_r ex_counter_wrap_state)
  = (updates_unstable (ex_rec_counters 4294967295 4294967295)
     + count_unstable (ex_session 0 8 false)
         (ex_rec_counters 4294967295 4294967295) [STD 8 0; PREPARED_STD 4 25])
    mod 2 ^ updates_unstable_bits (ex_session 0 8 false).
Proof.
  apply (eviction_counts_unstable_updates (ex_session 0 8 false)
           (ex_rec_counters 4294967295 4294967295)
           (Some 1%nat) None [STD 8 0; PREPARED_STD 4 25] None ex_counter_wrap_state).
  - reflexivity.
  - simpl. lia.
  - vm_compute. reflexivity.
Defined.

(** *** Chains that trip no assertion *)

Lemma walk_step_plain s chain idx u w ctl w' :
  plain_update u ->
  walk_step s chain idx u w = (ctl, w') ->
  forall f, ctl <> LoopFault f.
Proof.
  intros Hp H f ->. unfold walk_step in H.
  destruct (txnid u =? WT_TXN_ABORTED) eqn:Hab; [discriminate H|].
  apply Z.eqb_neq in Hab. destruct (Hp Hab) as [_ Hnp]. rewrite Hnp in H.
  unfold walk_select in H.
  repeat match type of H with
         | context [if ?b then _ else _] => destruct b
         | context [match w_sel ?x with _ => _ end] => destruct (w_sel x)
         end; discriminate H.
Qed.

Lemma walk_loop_plain s chain rest :
  Forall plain_update rest ->
  forall idx w ctl w',
    walk_loop s chain rest idx w = (ctl, w') ->
    forall f, ctl <> LoopFault f.
Proof.
  induction 1 as [|u rest Hu Hrest IH]; intros idx w ctl w' H f; simpl in H.
  - inversion H; subst. discriminate.
  - destruct (walk_step s chain idx u w) as [c w1] eqn:E.
    pose proof (walk_step_plain _ _ _ _ _ _ _ Hu E) as Hnf.
    destruct c; try (inversion H; subst; discriminate).
    + eapply IH; eauto.
    + exfalso. eapply Hnf; eauto.
Qed.

Lemma append_plain_ok s chain i u vpack sel saved :
  Forall plain_update chain ->
  chain !! i = Some u ->
  txnid u <> WT_TXN_ABORTED ->
  final_append_cond sel vpack saved = true ->
  (exists chain2 m, rec_append_orig_value s chain (Some i) vpack = AppendOk chain2 m)
  \/ (exists e unpack,
        vpack = Some unpack /\ append_callee_fails s unpack e
        /\ rec_append_orig_value s chain (Some i) vpack = AppendErr e).
Proof.
  intros Hall Hu Hlive Hcond.
  unfold final_append_cond in Hcond.
  destruct (upd sel); [|discriminate Hcond].
  destruct vpack as [unpack|]; [|discriminate Hcond].
  destruct (cell_kind unpack) eqn:Hk; [discriminate Hcond|].
  unfold rec_append_orig_value. simpl. rewrite Hu, Hk.
  destruct (append_review s unpack (drop i chain) i None) as [|oldest] eqn:Hrev; [eauto|].
  destruct (cell_has_stop unpack && _) eqn:Hsv; [eauto|].
  unfold append_callee_fails.
  destruct (append_value_copy s unpack) as [e|] eqn:Hcopy; [right; eauto 10|].
  destruct (cell_has_stop unpack); simpl; [|eauto].
  apply append_review_end_oldest in Hrev
    as [[_ Hab] | (k & v & Hv & Hvl & -> & _)].
  - exfalso. rewrite Forall_forall in Hab. apply Hlive, Hab.
    apply list_elem_of_lookup. exists 0%nat.
    rewrite lookup_drop, Nat.add_0_r. exact Hu.
  - rewrite lookup_drop in Hv. simpl. rewrite Hv.
    pose proof (Forall_lookup_1 _ _ _ _ Hall Hv Hvl) as [Hty _].
    assert (Ht : is_tombstone v = false).
    { apply is_tombstone_false_iff. destruct Hty as [-> | ->]; discriminate. }
    rewrite Ht. simpl.
    destruct (upd_alloc_tombstone s) as [e|] eqn:Htomb; [right | left]; eauto 10.
Qed.

(** X20.  A call over a chain of plain updates trips no assertion and
    dereferences no null pointer: when every live entry of the chain is a
    STANDARD or MODIFY update that is not prepared, the tree is not the
    metadata and the pair (NONE, NONE) is globally visible, the call returns
    with OK, BUSY or PANIC, or ends with the error code of a callee of the
    appender that has failed (the scratch buffer, the read of the cell's
    value or an allocation), whatever the reconciliation's flags and the
    on-disk cell. *)
Theorem plain_chain_trips_no_assertion (s : WT_SESSION_IMPL) (r : WT_RECONCILE)
    (ins ripcip : option ref) (chain : list WT_UPDATE)
    (vpack : option WT_CELL_UNPACK) :
  Forall plain_update chain ->
  is_metadata s = false ->
  txn_visible_all s WT_TXN_NONE WT_TS_NONE = true ->
  (exists rc st, rec_upd_select s r ins ripcip chain vpack = Returned rc st)
  \/ (exists e st unpack,
        vpack = Some unpack /\ append_callee_fails s unpack e
        /\ rec_upd_select s r ins ripcip chain vpack = Failed e st).
Proof.
  intros Hall Hmeta Hnone.
  rewrite rec_upd_select_eq_chain. unfold rec_upd_select_chain.
  destruct (rec_upd_walk s r chain) as [ctl w] eqn:Hw.
  pose proof (walk_loop_plain s chain chain Hall 0%nat (walk_init r) ctl w Hw) as Hnf.
  pose proof (rec_upd_walk_sel_ok s r chain ctl w Hw) as Hok.
  pose proof (rec_upd_walk_first s r chain ctl w Hw) as Hfirst.
  assert (Hafter :
            (exists rc st,
               rec_upd_after_walk s ins ripcip chain vpack w = Returned rc st)
            \/ (exists e st unpack,
                  vpack = Some unpack /\ append_callee_fails s unpack e
                  /\ rec_upd_after_walk s ins ripcip chain vpack w = Failed e st)).
  { unfold rec_upd_after_walk, sel_ok in *.
    destruct (w_sel w) as [i|] eqn:Hs.
    - destruct Hok as (u & Hu & (Hlive & _) & _).
      destruct (Forall_lookup_1 _ _ _ _ Hall Hu Hlive) as [Hty _].
      assert (Ht : is_tombstone u = false).
      { apply is_tombstone_false_iff. destruct Hty as [-> | ->]; discriminate. }
      assert (Hab : is_aborted u = false) by (unfold is_aborted; now apply Z.eqb_neq).
      assert (Hsa : selection_assert s chain (Some i) = true).
      { unfold selection_assert. rewrite Hu, Hab, Hmeta. simpl.
        unfold is_reserve. destruct Hty as [-> | ->]; reflexivity. }
      rewrite Hsa. simpl.
      destruct (w_first_txn_upd w); [|exfalso; apply Hfirst; [right; discriminate | reflexivity]].
      destruct (w_has_newer_updates w && _).
      { destruct (F_ISSET (w_r w) WT_REC_VISIBILITY_ERR); eauto. }
      unfold rec_upd_finish, rec_compose_window. rewrite Hs, Hu, Ht. simpl.
      set (r2 := rec_track (rec_track_ondisk chain w) w).
      set (sel2 := mk_sel (Some i) _).
      assert (Hsave : exists r3 saved,
                 rec_save_step s r2 chain ins ripcip sel2 (w_has_newer_updates w)
                   (w_upd_memsize w) = Some (r3, saved)).
      { unfold rec_save_step. destruct (rec_need_save_upd _ _ _ _); [|eauto].
        unfold save_onpage_upd, rec_update_save. simpl. rewrite Hu, Ht. simpl. rewrite Hu.
        assert (Hsm : is_standard u || is_modify u = true).
        { unfold is_standard, is_modify. destruct Hty as [-> | ->]; reflexivity. }
        rewrite Hsm. simpl. eauto. }
      destruct Hsave as (r3 & saved & ->).
      unfold not_aborted_assert. simpl. rewrite Hu, Hab. simpl.
      destruct (final_append_cond sel2 vpack saved) eqn:Hcond; [|eauto].
      destruct (append_plain_ok s chain i u vpack sel2 saved Hall Hu Hlive Hcond)
        as [(chain2 & m & ->) | (e & unpack & Hv & Hread & ->)].
      + eauto.
      + right. eauto 10.
    - simpl.
      destruct (w_first_txn_upd w); [|eauto].
      destruct (w_has_newer_updates w && _).
      { destruct (F_ISSET (w_r w) WT_REC_VISIBILITY_ERR); eauto. }
      unfold rec_upd_finish, rec_compose_window. rewrite Hs. simpl.
      set (r2 := rec_track (rec_track_ondisk chain w) w).
      assert (Hsave : exists r3 saved,
                 rec_save_step s r2 chain ins ripcip (mk_sel None time_window_init)
                   (w_has_newer_updates w) (w_upd_memsize w) = Some (r3, saved)).
      { unfold rec_save_step.
        destruct (rec_need_save_upd _ _ _ _) eqn:Hn; [|eauto].
        assert (Hre : rec_supd_restore s r2 (w_has_newer_updates w) = true).
        { unfold rec_need_save_upd in Hn.
          cbn [tw upd tw_prepare tw_stop_txn tw_stop_ts tw_start_txn tw_start_ts
               time_window_init] in Hn.
          rewrite Hnone, andb_false_r in Hn.
          unfold rec_supd_restore.
          destruct (F_ISSET r2 WT_REC_EVICT); simpl in *.
          - destruct (w_has_newer_updates w); simpl in *; [reflexivity|].
            repeat match type of Hn with
                   | (if ?b then _ else _) = _ => destruct b
                   end; discriminate Hn.
          - repeat match type of Hn with
                   | (if ?b then _ else _) = _ => destruct b
                   end; discriminate Hn. }
        rewrite Hre. unfold rec_update_save. simpl. eauto. }
      change (tw_repair time_window_init) with time_window_init.
      destruct Hsave as (r3 & saved & ->).
      simpl. eauto. }
  destruct ctl as [| |rc|f]; eauto.
  exfalso. eapply Hnf; eauto.
Qed.

Lemma plain_chain_trips_no_assertion_witness :
  (exists rc st,
     rec_upd_select (ex_session 1 8 false) (ex_rec [WT_REC_EVICT] WT_PAGE_ROW_LEAF 100)
       (Some 1%nat) None [STD 8 0; ABORTED_STD 30; STD 4 25]
       (Some (ex_cell 20 3 WT_CELL_VALUE false false))
     = Returned rc st)
  \/ (exists e st unpack,
        Some (ex_cell 20 3 WT_CELL_VALUE false false) = Some unpack
        /\ append_callee_fails (ex_session 1 8 false) unpack e
        /\ rec_upd_select (ex_session 1 8 false)
             (ex_rec [WT_REC_EVICT] WT_PAGE_ROW_LEAF 100)
             (Some 1%nat) None [STD 8 0; ABORTED_STD 30; STD 4 25]
             (Some (ex_cell 20 3 WT_CELL_VALUE false false))
           = Failed e st).
Proof.
  apply (plain_chain_trips_no_assertion (ex_session 1 8 false)
           (ex_rec [WT_REC_EVICT] WT_PAGE_ROW_LEAF 100)
           (Some 1%nat) None [STD 8 0; ABORTED_STD 30; STD 4 25]
           (Some (ex_cell 20 3 WT_CELL_VALUE false false))).
  - repeat constructor; intros _; split; auto.
  - reflexivity.
  - reflexivity.
Defined.

(** *** The bytes charged to the page *)

Lemma chain_memsize_app l1 l2 :
  chain_memsize (l1 ++ l2) = chain_memsize l1 + chain_memsize l2.
Proof. induction l1 as [|u l1 IH]; simpl; [reflexivity | rewrite IH; lia]. Qed.

Lemma wrap64_add a b : wrap64 (a + b) = wrap64 (wrap64 a + wrap64 b).
Proof. now rewrite wrap64_add_l, wrap64_add_r. Qed.

Lemma rec_append_orig_value_charge s chain p vpack chain' m :
  rec_append_orig_value s chain p vpack = AppendOk chain' m ->
  exists l, chain' = chain ++ l /\ wrap64 m = wrap64 (chain_memsize l).
Proof.
  unfold rec_append_orig_value. intros H.
  destruct_matches H; inversion H; subst.
  all: try (exists []; split; [now rewrite app_nil_r | reflexivity]).
  all: eexists; (split; [reflexivity|]); simpl; rewrite ?wrap64_idem; f_equal; lia.
Qed.

Lemma rec_compose_window_charge s chain vpack p chain1 mem sel calls :
  rec_compose_window s chain vpack p = Composed chain1 mem sel calls ->
  exists l, chain1 = chain ++ l /\ wrap64 mem = wrap64 (chain_memsize l).
Proof.
  unfold rec_compose_window. intros H.
  destruct p as [i|]; [|inversion H; subst; exists []; now rewrite app_nil_r].
  destruct (chain !! i) as [u|]; [|discriminate H].
  destruct (rec_append_orig_value s chain (Some i) vpack) as [chain' m|e|f] eqn:Ha.
  - apply rec_append_orig_value_charge in Ha as (l & -> & Hm).
    destruct_matches H; inversion H; subst;
      try (exists []; split; [now rewrite app_nil_r | reflexivity]).
    all: exists l; auto.
  - destruct_matches H; inversion H; subst;
      exists []; split; try (now rewrite app_nil_r); reflexivity.
  - destruct_matches H; inversion H; subst;
      exists []; split; try (now rewrite app_nil_r); reflexivity.
Qed.

(** X21.  Whatever way a call ends with a return (one of its own or the
    error of the read of the cell's value), the bytes it has charged to the
    page are the bytes of the entries it has appended to the chain (modulo
    2^64), over both calls of the appender. *)
Theorem page_charged_for_appended_entries (s : WT_SESSION_IMPL) (r : WT_RECONCILE)
    (ins ripcip : option ref) (chain : list WT_UPDATE)
    (vpack : option WT_CELL_UNPACK) (st : select_state) :
  ends_with (rec_upd_select s r ins ripcip chain vpack) st ->
  exists l,
    st_chain st = chain ++ l
    /\ wrap64 (st_page_mem st) = wrap64 (chain_memsize l).
Proof.
  intros H.
  apply rec_upd_select_ends_inv in H as (ctl & w & Hw & Hcase).
  destruct Hcase as [[-> _] | (_ & _ & _ & _ & [Hf | (e & Hf)] & _)].
  { exists []. simpl. now rewrite app_nil_r. }
  - apply rec_upd_finish_inv in Hf
      as (_ & chain1 & mem1 & sel1 & calls1 & r3 & saved & Hc & _ & _ & _ & _ & Hfin).
    apply rec_compose_window_charge in Hc as (l1 & -> & Hm1).
    destruct (final_append_cond _ vpack saved).
    + destruct Hfin as (chain2 & mem2 & Ha & -> & -> & _).
      apply rec_append_orig_value_charge in Ha as (l2 & -> & Hm2).
      exists (l1 ++ l2). split; [now rewrite app_assoc|].
      rewrite wrap64_idem, chain_memsize_app, wrap64_add, Hm1, Hm2, <- wrap64_add.
      reflexivity.
    + destruct Hfin as (-> & -> & _). exists l1. auto.
  - apply rec_upd_finish_failed_inv in Hf
      as [(sel1 & calls1 & _ & ->)
         | (chain1 & mem1 & sel1 & calls1 & saved & Hc & _ & _ & _ & _ & _ & Hch & Hm & _)].
    + exists []. simpl. now rewrite app_nil_r.
    + apply rec_compose_window_charge in Hc as (l1 & -> & Hm1).
      exists l1. rewrite Hch, Hm. auto.
Qed.

Lemma page_charged_for_appended_entries_witness :
  exists l,
    st_chain ex_lone_tombstone_state = [TOMB 9 50] ++ l
    /\ wrap64 (st_page_mem ex_lone_tombstone_state) = wrap64 (chain_memsize l).
Proof.
  apply (page_charged_for_appended_entries (ex_session 0 100 false)
           (ex_rec [WT_REC_VISIBLE_ALL] WT_PAGE_ROW_LEAF 100)
           (Some 1%nat) None [TOMB 9 50]
           (Some (ex_cell 20 3 WT_CELL_VALUE false false))
           ex_lone_tombstone_state).
  vm_compute. reflexivity.
Defined.

(** *** Calls that fail *)

(** What the composition does to the chain: nothing, or the original value
    appended for a lone tombstone. *)
Lemma rec_compose_window_grown s chain vpack p chain1 mem1 sel1 calls1 :
  rec_compose_window s chain vpack p = Composed chain1 mem1 sel1 calls1 ->
  (chain1 = chain /\ calls1 = [] /\ mem1 = 0)
  \/ exists unpack i,
       vpack = Some unpack /\ cell_kind unpack = WT_CELL_VALUE
       /\ chain1 = chain ++ [orig_value_upd s unpack]
       /\ upd sel1 = Some (length chain)
       /\ calls1 = [(AtTombstoneOnly, Some i)].
Proof.
  intros Hcw.
  pose proof (rec_compose_window_no_call_mem _ _ _ _ _ _ _ _ Hcw) as Hmem.
  pose proof (rec_compose_window_call_cell _ _ _ _ _ _ _ _ Hcw) as Hcell.
  apply rec_compose_window_how in Hcw.
  destruct Hcw; subst; auto.
  right. destruct Hcell as (unpack' & E & Hkind); [discriminate|].
  inversion E; subst unpack'. eauto 10.
Qed.

(** X22.  A call ends with the error of a callee only in a call of the
    appender, when the scratch buffer (line 119), the read of the cell's
    value (line 120) or an allocation (lines 121, 136) fails: the cell is a
    value cell, the error code is the callee's, the chain is as it was given
    and nothing is charged to the page.  Either the call made for a lone
    tombstone (line 406) failed: the walk chose the newest selectable entry,
    a tombstone that is not globally visible; the selection is empty, the
    window's stop is the tombstone's pair, the saved-update list and the
    dirty mark are as they were.  Or the call made before returning (line
    497) failed: it is the only call of the appender, made for the final
    selection, with a save recorded or the cell's value in overflow
    blocks. *)
Theorem failed_call_is_failed_read (s : WT_SESSION_IMPL) (r : WT_RECONCILE)
    (ins ripcip : option ref) (chain : list WT_UPDATE)
    (vpack : option WT_CELL_UNPACK) (e : Z) (st : select_state) :
  rec_upd_select s r ins ripcip chain vpack = Failed e st ->
  exists unpack,
    vpack = Some unpack /\ cell_kind unpack = WT_CELL_VALUE
    /\ append_callee_fails s unpack e
    /\ st_chain st = chain /\ st_page_mem st = 0
    /\ ((exists i t,
           st_append_calls st = [(AtTombstoneOnly, Some i)]
           /\ first_selectable s r chain i t
           /\ type t = WT_UPDATE_TOMBSTONE
           /\ txn_visible_all s (txnid t) (start_ts t) = false
           /\ upd (st_sel st) = None
           /\ (tw_stop_ts (tw (st_sel st)), tw_stop_txn (tw (st_sel st)))
              = (start_ts t, txnid t)
           /\ supd (st_r st) = supd r
           /\ leave_dirty (st_r st) = leave_dirty r)
        \/ (exists k,
              st_append_calls st = [(AtReturn, Some k)]
              /\ upd (st_sel st) = Some k
              /\ ((exists sv, supd (st_r st) = supd r ++ [sv])
                  \/ unpack_overflow unpack = true))).
Proof.
  intros H.
  apply rec_upd_select_failed_inv in H as (ctl & w & Hw & _ & _ & _ & _ & Hf).
  pose proof (rec_upd_walk_same_mode s r chain ctl w Hw) as Hm.
  pose proof (rec_upd_walk_sel_ok s r chain ctl w Hw) as Hok. unfold sel_ok in Hok.
  apply rec_upd_finish_failed_inv in Hf
    as [(sel1 & calls1 & Hc & ->)
       | (chain1 & mem1 & sel1 & calls1 & saved & Hcw & Hsave & _ & Hfc & Ha & Hsel
          & Hch & Hmem & Hcalls)].
  - pose proof (rec_compose_window_err _ _ _ _ _ _ _ Hc)
      as (i & u & Hp & Hu & Ha & _ & _ & Hcalls).
    apply rec_compose_window_err_tombstone in Hc
      as (i' & t & Hp' & Ht & Htomb & Hvis & Hnone & Hstop).
    assert (i' = i) by congruence. subst i'.
    apply rec_append_orig_value_err in Ha
      as (i2 & u2 & unpack & _ & _ & Hv & Hkind & Hread).
    exists unpack. simpl. repeat split; auto.
    left. exists i, t.
    rewrite Hp in Hok.
    destruct (good_sel_first_selectable _ _ _ _ Hok) as (t' & Hfs & _).
    assert (t' = t) by (destruct Hfs as (Ht' & _); congruence). subst t'.
    split; [exact Hcalls|]. split; [exact Hfs|]. split; [exact Htomb|].
    split; [exact Hvis|]. split; [exact Hnone|]. split; [exact Hstop|].
    split.
    + destruct (rec_track_ondisk_frame chain w) as (_ & _ & -> & _). apply Hm.
    + rewrite rec_track_ondisk_leave_dirty. apply Hm.
  - pose proof Ha as Ha0.
    apply rec_append_orig_value_err in Ha
      as (k & u & unpack & Hk & Hu & Hv & Hkind & Hread).
    exists unpack. split; [exact Hv|]. split; [exact Hkind|]. split; [exact Hread|].
    rewrite Hch, Hmem, Hcalls, Hsel. simpl.
    assert (Hsame : chain1 = chain /\ calls1 = [] /\ mem1 = 0).
    { destruct (rec_compose_window_grown _ _ _ _ _ _ _ _ Hcw)
        as [Hs | (unpack' & i & Hv' & Hkind' & Hc1 & Hk' & _)]; [exact Hs|].
      exfalso.
      assert (E : rec_append_orig_value s chain1 (upd sel1) vpack
                  = AppendOk chain1 0).
      { rewrite Hc1, Hk', Hv'. now apply append_finds_orig_value. }
      rewrite E in Ha0. discriminate Ha0. }
    destruct Hsame as (-> & -> & ->).
    split; [reflexivity|]. split; [reflexivity|].
    right. exists k. split; [rewrite Hk; reflexivity|]. split; [exact Hk|].
    unfold final_append_cond in Hfc. simpl in Hfc. rewrite Hk, Hv, Hkind in Hfc.
    apply orb_true_iff in Hfc as [Hsv | Hov]; [|now right].
    left. subst saved.
    destruct (tracked_frame s r chain ctl w Hw) as (_ & _ & Hsp).
    apply rec_save_step_inv in Hsave as [(E & _) | (_ & _ & Hs & _)]; [discriminate E|].
    rewrite Hs, Hsp. eauto.
Qed.

Lemma failed_call_is_failed_read_witness :
  exists unpack,
    Some (ex_cell 20 3 WT_CELL_VALUE false false) = Some unpack
    /\ cell_kind unpack = WT_CELL_VALUE
    /\ append_callee_fails (ex_session_read_fails 0 8 5) unpack 5
    /\ st_chain ex_failed_after_save_state = [STD 8 0; STD 4 25]
    /\ st_page_mem ex_failed_after_save_state = 0
    /\ ((exists i t,
           st_append_calls ex_failed_after_save_state = [(AtTombstoneOnly, Some i)]
           /\ first_selectable (ex_session_read_fails 0 8 5)
                (ex_rec [WT_REC_EVICT] WT_PAGE_ROW_LEAF 100) [STD 8 0; STD 4 25] i t
           /\ type t = WT_UPDATE_TOMBSTONE
           /\ txn_visible_all (ex_session_read_fails 0 8 5) (txnid t) (start_ts t) = false
           /\ upd (st_sel ex_failed_after_save_state) = None
           /\ (tw_stop_ts (tw (st_sel ex_failed_after_save_state)),
               tw_stop_txn (tw (st_sel ex_failed_after_save_state)))
              = (start_ts t, txnid t)
           /\ supd (st_r ex_failed_after_save_state)
              = supd (ex_rec [WT_REC_EVICT] WT_PAGE_ROW_LEAF 100)
           /\ leave_dirty (st_r ex_failed_after_save_state)
              = leave_dirty (ex_rec [WT_REC_EVICT] WT_PAGE_ROW_LEAF 100))
        \/ (exists k,
              st_append_calls ex_failed_after_save_state = [(AtReturn, Some k)]
              /\ upd (st_sel ex_failed_after_save_state) = Some k
              /\ ((exists sv, supd (st_r ex_failed_after_save_state)
                              = supd (ex_rec [WT_REC_EVICT] WT_PAGE_ROW_LEAF 100) ++ [sv])
                  \/ unpack_overflow unpack = true))).
Proof.
  apply (failed_call_is_failed_read (ex_session_read_fails 0 8 5)
           (ex_rec [WT_REC_EVICT] WT_PAGE_ROW_LEAF 100)
           (Some 1%nat) None [STD 8 0; STD 4 25]
           (Some (ex_cell 20 3 WT_CELL_VALUE false false)) 5
           ex_failed_after_save_state).
  vm_compute. reflexivity.
Defined.
